(** * Dynamic endpoint executor of [backend/api/server.js]

    A shallow embedding of the request pipeline of the API server: the
    URL-template compiler, the placeholder extractor, the parameter
    validator, the bearer-token guard, the two dialect adapters and the
    orchestration of "procedure", "query" and "procedure then query"
    endpoints; with them the routes of the endpoint registry
    ([GET /api/endpoints], [GET /api/endpoints/:name], [sanitizeParams] of
    [POST /api/endpoints]) and the two helpers by which the editor of
    endpoints writes what the registry stores ([normalizeUrl] and
    [generateCopyName] of [ApiEndpointsContext.tsx]).

    Conventions of the embedding.
    - A JavaScript string is the list of its code units; the embedding
      covers code units below 256, so a code unit is an [ascii].
    - A JavaScript object is the list of its own enumerable properties in
      property order; what an object inherits from its prototype is not
      part of the embedding.
    - A JavaScript number is a binary64 value ([spec_float]): a decimal
      text is read as the nearest such value, and a value prints as its
      shortest decimal that reads back, with an exponent from [1e21] on
      and below [1e-6].
    - Code that throws returns a [Result]; code that talks to the database
      threads the list of driver calls made so far. *)

From Stdlib Require Import Ascii String DecimalString DecimalNat.
From Stdlib Require Import ZArith Lia Bool Arith PeanoNat List Sorted Permutation.
From Stdlib Require Import Floats.SpecFloat.
Import ListNotations.


Set Warnings "-register-all".

(* ------------------------------------------------------------------ *)
(** ** Strings *)

Definition jsString := list ascii.

Definition lit (s : string) : jsString := list_ascii_of_string s.

Definition code (c : ascii) : nat := nat_of_ascii c.

Definition chEq (a b : ascii) : bool := Ascii.eqb a b.

Fixpoint strEq (a b : jsString) : bool :=
  match a, b with
  | [], [] => true
  | x :: a', y :: b' => chEq x y && strEq a' b'
  | _, _ => false
  end.

(** [\d] *)
Definition isDigit (c : ascii) : bool :=
  (48 <=? code c) && (code c <=? 57).

(** [\w], that is [[A-Za-z0-9_]] *)
Definition isWordChar (c : ascii) : bool :=
  isDigit c
  || ((65 <=? code c) && (code c <=? 90))
  || ((97 <=? code c) && (code c <=? 122))
  || (code c =? 95).

(** [\s], as far as code units below 256 go; also what [trim] strips. *)
Definition isSpace (c : ascii) : bool :=
  ((9 <=? code c) && (code c <=? 13)) || (code c =? 32) || (code c =? 160).

(** The longest prefix of word characters: what a greedy [\w+] takes. *)
Fixpoint wordRun (s : jsString) : jsString :=
  match s with
  | c :: t => if isWordChar c then c :: wordRun t else []
  | [] => []
  end.

Definition isEmpty (s : jsString) : bool :=
  match s with [] => true | _ => false end.

(** [s.startsWith(p)] *)
Fixpoint startsWith (p s : jsString) : bool :=
  match p, s with
  | [], _ => true
  | x :: p', y :: s' => chEq x y && startsWith p' s'
  | _ :: _, [] => false
  end.

(** [arr.includes(x)] on an array of strings *)
Fixpoint includes (l : list jsString) (x : jsString) : bool :=
  match l with
  | [] => false
  | y :: t => strEq y x || includes t x
  end.

(* ------------------------------------------------------------------ *)
(** ** ParameterExtractor: [extractDollarParam], [extractParamDetails] *)

(** All matches of a global regex [<sigil>(\w+)], left to right, as the
    list of group 1. [skip] counts the code units of the current match that
    are still to be passed over: the next attempt starts after the match. *)
Fixpoint scanSigil (sigil : ascii) (skip : nat) (s : jsString) : list jsString :=
  match s with
  | [] => []
  | c :: t =>
      match skip with
      | S k => scanSigil sigil k t
      | O =>
          if chEq c sigil && negb (isEmpty (wordRun t))
          then wordRun t :: scanSigil sigil (length (wordRun t)) t
          else scanSigil sigil 0 t
      end
  end.

(** All matches of [/\{(\w+)\}/g]: group 1 of each. *)
Fixpoint scanBraces (skip : nat) (s : jsString) : list jsString :=
  match s with
  | [] => []
  | c :: t =>
      match skip with
      | S k => scanBraces k t
      | O =>
          if chEq c "{" && negb (isEmpty (wordRun t))
             && match nth_error t (length (wordRun t)) with
                | Some d => chEq d "}"
                | None => false
                end
          then wordRun t :: scanBraces (S (length (wordRun t))) t
          else scanBraces 0 t
      end
  end.

(** [[...new Set(arr)]]: insertion order, first occurrence kept. *)
Definition setAdd (acc : list jsString) (x : jsString) : list jsString :=
  if includes acc x then acc else acc ++ [x].

Definition uniqueNames (l : list jsString) : list jsString :=
  fold_left setAdd l [].

(** The names of [l] that are not in [acc], each once, in the order of
    their first occurrence: the closed form of [uniqueNames]. *)
Fixpoint uniqueFrom (acc l : list jsString) : list jsString :=
  match l with
  | [] => []
  | x :: t =>
      if includes acc x then uniqueFrom acc t
      else x :: uniqueFrom (acc ++ [x]) t
  end.

(** [sql.match(/\$(\w+)/)]: group 1 of the first match. *)
Definition extractDollarParam (sql : jsString) : option jsString :=
  hd_error (scanSigil "$" 0 sql).

Record ParamDetails := {
  pathParams : list jsString;
  queryParams : list jsString;
  outputParams : list jsString
}.

(** [sql.match(dollarParamRegex)] with the [g] flag is the array of the
    whole matches, [$] included. *)
Definition dollarMatches (sql : jsString) : list jsString :=
  map (fun n => "$"%char :: n) (scanSigil "$" 0 sql).

Definition neqOpt (p : jsString) (d : option jsString) : bool :=
  match d with
  | Some x => negb (strEq p x)
  | None => true
  end.

Definition extractParamDetails (sql : jsString) : ParamDetails :=
  match sql with
  | [] => {| pathParams := []; queryParams := []; outputParams := [] |}
  | _ =>
      let pathMatches := scanBraces 0 sql in
      let queryMatches := scanSigil ":" 0 sql in
      let outputMatches := scanSigil "@" 0 sql in
      let dollarParam := nth_error (dollarMatches sql) 1 in
      let pathParams := uniqueNames pathMatches in
      let queryParams :=
        filter (fun p => neqOpt p dollarParam) (uniqueNames queryMatches) in
      let outputParams := uniqueNames outputMatches in
      {| pathParams := pathParams;
         queryParams := filter (fun p => negb (includes pathParams p)) queryParams;
         outputParams :=
           filter (fun p => negb (includes queryParams p)
                            && negb (includes pathParams p)) outputParams |}
  end.

(** The names a text writes in each placeholder form. *)
Definition braceNames (sql : jsString) : list jsString := scanBraces 0 sql.
Definition colonNames (sql : jsString) : list jsString := scanSigil ":" 0 sql.
Definition atNames (sql : jsString) : list jsString := scanSigil "@" 0 sql.
Definition dollarNames (sql : jsString) : list jsString := scanSigil "$" 0 sql.

(** Position of the first occurrence of [x] in [l] ([length l] if none). *)
Fixpoint firstIndex (x : jsString) (l : list jsString) : nat :=
  match l with
  | [] => 0
  | y :: t => if strEq y x then 0 else S (firstIndex x t)
  end.

(** [l] lists its elements in the order in which [occ] first shows them. *)
Definition firstSeenOrder (l occ : list jsString) : Prop :=
  StronglySorted (fun a b => firstIndex a occ < firstIndex b occ) l.

(* ------------------------------------------------------------------ *)
(** ** Values, objects and conversions of the host language *)

(** A number is a binary64 value, as the standard library specifies
    IEEE 754 (a mantissa of 53 bits, infinities at exponent 1024). *)
Definition float64 := spec_float.

(** The Number value of [digits * 10^exp] with the sign [neg]: the
    binary64 value nearest to it, ties to even; zero and infinity where it
    underflows or overflows. *)
Definition decimalValue (neg : bool) (digits exp : Z) : float64 :=
  match digits with
  | Zpos d =>
      match exp with
      | Zneg p =>
          let '(q, e, l) :=
            SFdiv_core_binary 53 1024 (Zpos d) 0 (Z.pow_pos 10 p) 0 in
          binary_round_aux 53 1024 neg q e l
      | _ => binary_round 53 1024 neg (Z.to_pos (Zpos d * 10 ^ exp)) 0
      end
  | _ => S754_zero neg
  end.

Inductive JsVal :=
| VUndefined
| VNull
| VBool (b : bool)
| VNum (x : float64)
| VStr (s : jsString)
| VArr (items : list JsVal)
| VObj (props : list (jsString * JsVal)).

Definition JsObject := list (jsString * JsVal).

(** [isNaN(x)] *)
Definition isNaN (x : float64) : bool :=
  match x with S754_nan => true | _ => false end.

(** [isFinite(x)] *)
Definition isFinite (x : float64) : bool :=
  match x with S754_zero _ | S754_finite _ _ _ => true | _ => false end.

(** [a < b] on numbers *)
Definition numLt (a b : float64) : bool := SFltb a b.

(** [Number.isInteger] *)
Definition isInteger (x : float64) : bool :=
  match x with
  | S754_zero _ => true
  | S754_finite _ m e => (0 <=? e)%Z || (Zpos m mod 2 ^ (- e) =? 0)%Z
  | _ => false
  end.

Definition natToString (n : nat) : jsString :=
  list_ascii_of_string (NilEmpty.string_of_uint (Nat.to_uint n)).

Definition zToString (z : Z) : jsString :=
  list_ascii_of_string (NilEmpty.string_of_uint (N.to_uint (Z.to_N z))).

(** [p / q < 10^k] *)
Definition ratBelowPow10 (p q k : Z) : bool :=
  match k with
  | Zneg n => (p * Z.pow_pos 10 n <? q)%Z
  | _ => (p <? q * 10 ^ k)%Z
  end.

(** The [n] with [10^(n-1) <= p / q < 10^n]. *)
Definition decimalExponent (p q : Z) : Z :=
  let d := (Z.of_nat (length (zToString p))
            - Z.of_nat (length (zToString q)))%Z in
  if ratBelowPow10 p q d then d else (d + 1)%Z.

(** The digits of [Number::toString]: the least [k] and the [s] of [k]
    digits such that [s * 10^(n-k)] is read back as [x], the nearest to
    [x = p / q] when two are, the even one when both are as near. From
    [k] digits on; 17 are always enough. *)
Fixpoint shortestFrom (more : nat) (k : Z) (x : float64) (p q n : Z)
  : Z * Z * Z :=
  let sc := (n - k)%Z in
  let num := match sc with Zneg a => (p * Z.pow_pos 10 a)%Z | _ => p end in
  let den := match sc with Zneg _ => q | _ => (q * 10 ^ sc)%Z end in
  let lo := (num / den)%Z in
  let r := (num mod den)%Z in
  let pick :=
    if (r =? 0)%Z then Some lo
    else
      match SFeqb (decimalValue false lo sc) x,
            SFeqb (decimalValue false (lo + 1) sc) x with
      | true, true =>
          Some (match (2 * r ?= den)%Z with
                | Lt => lo
                | Gt => (lo + 1)%Z
                | Eq => if Z.even lo then lo else (lo + 1)%Z
                end)
      | true, false => Some lo
      | false, true => Some (lo + 1)%Z
      | false, false => None
      end in
  match pick, more with
  | Some s, _ =>
      if (s =? 10 ^ k)%Z then ((10 ^ (k - 1))%Z, k, (n + 1)%Z) else (s, k, n)
  | None, S m => shortestFrom m (k + 1)%Z x p q n
  | None, O => (lo, k, n)
  end.

(** The text of [k] digits with the decimal exponent [n]: plain digits up
    to 21 of them before the point and 6 zeros after it, the exponent form
    beyond. *)
Definition formatNumber (digits : jsString) (k n : Z) : jsString :=
  if (k <=? n)%Z && (n <=? 21)%Z then
    digits ++ repeat "0"%char (Z.to_nat (n - k))
  else if (0 <? n)%Z && (n <=? 21)%Z then
    firstn (Z.to_nat n) digits ++ "."%char :: skipn (Z.to_nat n) digits
  else if (-6 <? n)%Z && (n <=? 0)%Z then
    "0"%char :: "."%char :: repeat "0"%char (Z.to_nat (- n)) ++ digits
  else
    let e := (n - 1)%Z in
    let exponent :=
      "e"%char :: (if (e <? 0)%Z then "-"%char else "+"%char)
               :: zToString (Z.abs e) in
    match digits with
    | [] => []
    | [d] => d :: exponent
    | d :: rest => d :: "."%char :: rest ++ exponent
    end.

(** [String(number)] *)
Definition numToString (x : float64) : jsString :=
  match x with
  | S754_nan => lit "NaN"
  | S754_zero _ => lit "0"
  | S754_infinity s => (if s then ["-"%char] else []) ++ lit "Infinity"
  | S754_finite s m e =>
      let p := match e with Zneg _ => Zpos m | _ => (Zpos m * 2 ^ e)%Z end in
      let q := match e with Zneg a => Z.pow_pos 2 a | _ => 1%Z end in
      let '(s10, k, n) :=
        shortestFrom 16 1 (S754_finite false m e) p q (decimalExponent p q) in
      (if s then ["-"%char] else []) ++ formatNumber (zToString s10) k n
  end.

Fixpoint join (sep : jsString) (l : list jsString) : jsString :=
  match l with
  | [] => []
  | [x] => x
  | x :: t => x ++ sep ++ join sep t
  end.

(** [String(value)] *)
Fixpoint toStringJs (v : JsVal) : jsString :=
  match v with
  | VUndefined => lit "undefined"
  | VNull => lit "null"
  | VBool true => lit "true"
  | VBool false => lit "false"
  | VNum x => numToString x
  | VStr s => s
  | VArr items =>
      join (lit ",")
        (map (fun x => match x with
                       | VUndefined | VNull => []
                       | _ => toStringJs x
                       end) items)
  | VObj _ => lit "[object Object]"
  end.

(** [typeof v === 'string'] *)
Definition isStringVal (v : JsVal) : bool :=
  match v with VStr _ => true | _ => false end.

Definition isUndefined (v : JsVal) : bool :=
  match v with VUndefined => true | _ => false end.

(** [o[k]] *)
Fixpoint getProp (o : JsObject) (k : jsString) : JsVal :=
  match o with
  | [] => VUndefined
  | (k', v) :: t => if strEq k' k then v else getProp t k
  end.

(** [k in o] for own properties *)
Fixpoint hasProp {V} (o : list (jsString * V)) (k : jsString) : bool :=
  match o with
  | [] => false
  | (k', _) :: t => strEq k' k || hasProp t k
  end.

Fixpoint lookupProp {V} (o : list (jsString * V)) (k : jsString) : option V :=
  match o with
  | [] => None
  | (k', v) :: t => if strEq k' k then Some v else lookupProp t k
  end.

Fixpoint digitsValue (acc : N) (s : jsString) : N :=
  match s with
  | [] => acc
  | c :: t => digitsValue (acc * 10 + N.of_nat (code c - 48)) t
  end.

(** An array index: a canonical numeric key below 2^32 - 1. Such keys
    come first in property order, in ascending order. *)
Definition arrayIndex (k : jsString) : option N :=
  match k with
  | [] => None
  | c :: t =>
      if forallb isDigit k && (isEmpty t || negb (chEq c "0"))
         && (length k <=? 10)
      then let n := digitsValue 0 k in
           if (n <? 4294967295)%N then Some n else None
      else None
  end.

(** Where a new key goes in property order. *)
Fixpoint insertProp {V} (o : list (jsString * V)) (k : jsString) (v : V)
  : list (jsString * V) :=
  match o with
  | [] => [(k, v)]
  | (k', v') :: t =>
      match arrayIndex k, arrayIndex k' with
      | Some n, Some n' =>
          if (n <? n')%N then (k, v) :: o else (k', v') :: insertProp t k v
      | Some _, None => (k, v) :: o
      | None, _ => (k', v') :: insertProp t k v
      end
  end.

Fixpoint replaceProp {V} (o : list (jsString * V)) (k : jsString) (v : V)
  : list (jsString * V) :=
  match o with
  | [] => []
  | (k', v') :: t =>
      if strEq k' k then (k, v) :: t else (k', v') :: replaceProp t k v
  end.

(** [o[k] = v] *)
Definition setProp {V} (o : list (jsString * V)) (k : jsString) (v : V)
  : list (jsString * V) :=
  if hasProp o k then replaceProp o k v else insertProp o k v.

(** [{ ...a, ...b }] continues from the object built so far. *)
Definition spreadInto (acc src : JsObject) : JsObject :=
  fold_left (fun o kv => setProp o (fst kv) (snd kv)) src acc.

Definition dquote : ascii := ascii_of_nat 34.

Definition hexDigit (n : nat) : ascii :=
  if n <? 10 then ascii_of_nat (48 + n) else ascii_of_nat (87 + n).

(** [QuoteJSONString] on code units below 256 *)
Definition jsonEscape (c : ascii) : jsString :=
  let n := code c in
  if n =? 34 then ["\"%char; dquote]
  else if n =? 92 then lit "\\"
  else if n =? 8 then lit "\b"
  else if n =? 12 then lit "\f"
  else if n =? 10 then lit "\n"
  else if n =? 13 then lit "\r"
  else if n =? 9 then lit "\t"
  else if n <? 32 then lit "\u00" ++ [hexDigit (n / 16); hexDigit (n mod 16)]
  else [c].

Definition jsonQuote (s : jsString) : jsString :=
  dquote :: flat_map jsonEscape s ++ [dquote].

(** [JSON.stringify(value)] without indentation *)
Fixpoint jsonStringify (v : JsVal) : jsString :=
  match v with
  | VUndefined => lit "null"
  | VNull => lit "null"
  | VBool true => lit "true"
  | VBool false => lit "false"
  | VNum x => if isFinite x then numToString x else lit "null"
  | VStr s => jsonQuote s
  | VArr items =>
      "["%char :: join (lit ",") (map jsonStringify items) ++ ["]"%char]
  | VObj props =>
      "{"%char ::
        join (lit ",")
          (flat_map (fun '(k, x) =>
                       if isUndefined x then []
                       else [jsonQuote k ++ ":"%char :: jsonStringify x])
                    props)
        ++ ["}"%char]
  end.

(** An [Error] as the handlers look at it. *)
Record JsError := {
  errName : jsString;
  errMessage : jsString;
  errStatus : option nat
}.

(** [new Error(msg)] *)
Definition mkError (msg : jsString) : JsError :=
  {| errName := lit "Error"; errMessage := msg; errStatus := None |}.

Inductive Result (A : Type) :=
| Ok (a : A)
| Throw (e : JsError).
Arguments Ok {A} a.
Arguments Throw {A} e.

Definition bind {A B} (r : Result A) (k : A -> Result B) : Result B :=
  match r with
  | Ok a => k a
  | Throw e => Throw e
  end.

Notation "x <- r ;; k" := (bind r (fun x => k))
  (at level 61, r at next level, right associativity).
Notation "r ;; k" := (bind r (fun _ => k))
  (at level 61, right associativity).

(** [s.includes(p)] on strings *)
Fixpoint strIncludes (p s : jsString) : bool :=
  startsWith p s ||
  match s with
  | [] => false
  | _ :: t => strIncludes p t
  end.

Fixpoint trimStart (s : jsString) : jsString :=
  match s with
  | c :: t => if isSpace c then trimStart t else s
  | [] => []
  end.

Definition trimEnd (s : jsString) : jsString := rev (trimStart (rev s)).

(** [s.trim()] *)
Definition trim (s : jsString) : jsString := trimEnd (trimStart s).

(** [s.split(sep)] for a one-unit separator *)
Fixpoint splitOn (sep : ascii) (cur : jsString) (s : jsString) : list jsString :=
  match s with
  | [] => [rev cur]
  | c :: t =>
      if chEq c sep then rev cur :: splitOn sep [] t
      else splitOn sep (c :: cur) t
  end.

(* ------------------------------------------------------------------ *)
(** ** [String.prototype.replace] with a global pattern of literals *)

(** The replacement text of [replace]: [$$], [$&], [$`] and [$'] are
    expanded; the patterns used here have no capture group, so any other
    [$] stands for itself. *)
Fixpoint expandReplacement (repl matched before after : jsString) : jsString :=
  match repl with
  | [] => []
  | c :: r =>
      if chEq c "$" then
        match r with
        | d :: r' =>
            if chEq d "$" then "$"%char :: expandReplacement r' matched before after
            else if chEq d "&" then matched ++ expandReplacement r' matched before after
            else if chEq d "`" then before ++ expandReplacement r' matched before after
            else if chEq d "'" then after ++ expandReplacement r' matched before after
            else c :: expandReplacement r matched before after
        | [] => [c]
        end
      else c :: expandReplacement r matched before after
  end.

Definition isWordOpt (c : option ascii) : bool :=
  match c with Some x => isWordChar x | None => false end.

(** [\b] between the last unit of [m] and what follows it. *)
Definition boundaryAfter (m rest : jsString) : bool :=
  xorb (isWordOpt (last (map Some m) None)) (isWordOpt (hd_error rest)).

(** The first alternative that matches at the head of [s]. [wb] asks for
    a [\b] after it. *)
Fixpoint matchAlt (alts : list jsString) (wb : bool) (s : jsString) : option jsString :=
  match alts with
  | [] => None
  | p :: more =>
      if startsWith p s && (negb wb || boundaryAfter p (skipn (length p) s))
      then Some p
      else matchAlt more wb s
  end.

Fixpoint replaceLoop (alts : list jsString) (wb : bool) (repl whole : jsString)
    (pos skip : nat) (s : jsString) : jsString :=
  match s with
  | [] => []
  | c :: t =>
      match skip with
      | S k => replaceLoop alts wb repl whole (S pos) k t
      | O =>
          match matchAlt alts wb s with
          | Some m =>
              expandReplacement repl m (firstn pos whole) (skipn (length m) s)
              ++ replaceLoop alts wb repl whole (S pos) (length m - 1) t
          | None => c :: replaceLoop alts wb repl whole (S pos) 0 t
          end
      end
  end.

(** [s.replace(new RegExp(p1|p2|..., 'g'), repl)] for non-empty literal
    alternatives, with a trailing [\b] when [wb]. *)
Definition replaceAll (alts : list jsString) (wb : bool) (repl s : jsString) : jsString :=
  replaceLoop alts wb repl s 0 0 s.

(* ------------------------------------------------------------------ *)
(** ** ParameterValidator *)

Inductive ParamType := TString | TNumber | TDate | TOther.

Record StringConstraints := {
  maxLength : option nat;
  allowedValues : option jsString
}.

Record NumberConstraints := {
  minimum : option float64;
  maximum : option float64;
  precision : option nat
}.

Record DateConstraints := { dateFormat : option jsString }.

Record ParamConfig := {
  cfgName : jsString;
  cfgType : option ParamType;
  cfgRequired : bool;
  stringConstraints : option StringConstraints;
  numberConstraints : option NumberConstraints;
  dateConstraints : option DateConstraints
}.

(** What the server takes from libraries: [parse] of date-fns says whether
    a value reads as a date in a format, and the JSON-schema validator
    returns the list of its messages. *)
Record Libraries := {
  dateFnsParses : JsVal -> jsString -> bool;
  validateJsonPayload : JsVal -> JsVal -> list jsString
}.

Definition validateDateFormat (lib : Libraries) (value : JsVal) (format : jsString)
  : Result unit :=
  let fnsFormat :=
    replaceAll [lit "AM"; lit "PM"] false (lit "a")
   (replaceAll [lit "SS"] false (lit "ss")
   (replaceAll [lit "MI"] false (lit "mm")
   (replaceAll [lit "HH"] false (lit "hh")
   (replaceAll [lit "HH24"] false (lit "HH")
   (replaceAll [lit "DD"] false (lit "dd")
   (replaceAll [lit "MM"] false (lit "MM")
   (replaceAll [lit "YY"] false (lit "yy")
   (replaceAll [lit "YYYY"] false (lit "yyyy") format)))))))) in
  if dateFnsParses lib value fnsFormat then Ok tt
  else Throw (mkError (lit "Invalid date format. Expected format: " ++ format)).

(** The format that [validateDateFormat] hands to [parse] of date-fns. *)
Definition fnsFormat (format : jsString) : jsString :=
  replaceAll [lit "AM"; lit "PM"] false (lit "a")
 (replaceAll [lit "SS"] false (lit "ss")
 (replaceAll [lit "MI"] false (lit "mm")
 (replaceAll [lit "HH"] false (lit "hh")
 (replaceAll [lit "HH24"] false (lit "HH")
 (replaceAll [lit "DD"] false (lit "dd")
 (replaceAll [lit "MM"] false (lit "MM")
 (replaceAll [lit "YY"] false (lit "yy")
 (replaceAll [lit "YYYY"] false (lit "yyyy") format)))))))).

(** The two-letter tokens of an Oracle format that the conversion rewrites. *)
Definition oracleTokens : list jsString :=
  [lit "YY"; lit "DD"; lit "HH"; lit "MI"; lit "SS"; lit "AM"; lit "PM"].

(** A replacement text that can be put next to any unit without making
    the pair [x y]: it is not empty, has no [$], no [x] and no [y]. *)
Definition apartFrom (x y : ascii) (repl : jsString) : bool :=
  negb (isEmpty repl) &&
  forallb (fun c => negb (chEq c "$") && negb (chEq c x) && negb (chEq c y)) repl.

(** Wherever the pair [x y] stands in [s], one of the alternatives matches. *)
Fixpoint guarded (x y : ascii) (alts : list jsString) (s : jsString) : Prop :=
  match s with
  | [] => True
  | _ :: t =>
      (startsWith [x; y] s = true -> matchAlt alts false s <> None)
      /\ guarded x y alts t
  end.

Definition validateStringConstraints (value : jsString) (c : StringConstraints)
  : Result unit :=
  if isEmpty value then Ok tt
  else
    match maxLength c with
    | Some (S m) =>
        if S m <? length value
        then Throw (mkError (lit "Value exceeds maximum length of "
                             ++ natToString (S m) ++ lit " characters"))
        else Ok tt
    | _ => Ok tt
    end ;;
    match allowedValues c with
    | Some (a :: av) =>
        let allowedList :=
          filter (fun v => negb (isEmpty v))
                 (map trim (splitOn "," [] (a :: av))) in
        if (0 <? length allowedList) && negb (includes allowedList value)
        then Throw (mkError (lit "Value must be one of: "
                             ++ join (lit ", ") allowedList))
        else Ok tt
    | _ => Ok tt
    end.

Fixpoint digitRun (s : jsString) : jsString :=
  match s with
  | c :: t => if isDigit c then c :: digitRun t else []
  | [] => []
  end.

Definition isSign (c : ascii) : bool := chEq c "+" || chEq c "-".

Definition dropSign (s : jsString) : jsString :=
  match s with
  | c :: t => if isSign c then t else s
  | [] => []
  end.

(** The test of the number pattern on the whole of [s]: an optional sign,
    then either digits with an optional point and optional further digits,
    or a point followed by digits. *)
Definition isNumberLiteral (s : jsString) : bool :=
  let body := dropSign s in
  let ip := digitRun body in
  match ip, skipn (length ip) body with
  | _ :: _, [] => true
  | _ :: _, c :: f => chEq c "." && forallb isDigit f
  | [], c :: f => chEq c "." && negb (isEmpty f) && forallb isDigit f
  | [], [] => false
  end.

(** The value of an exponent part [e], an optional sign and digits, at the
    head of [s]; 0 when [s] does not go on with one. *)
Definition exponentPart (s : jsString) : Z :=
  match s with
  | c :: t =>
      if chEq c "e" || chEq c "E" then
        let digits := digitRun (dropSign t) in
        let v := Z.of_N (digitsValue 0 digits) in
        if isEmpty digits then 0%Z
        else match t with
             | d :: _ => if chEq d "-" then (- v)%Z else v
             | [] => v
             end
      else 0%Z
  | [] => 0%Z
  end.

(** [parseFloat(s)]: leading white space, a sign, then [Infinity] or the
    longest decimal literal (digits, a point, digits, an exponent); NaN
    when there is none. The number is the binary64 value nearest to the
    literal. *)
Definition parseFloat (s : jsString) : float64 :=
  let s1 := trimStart s in
  let body := dropSign s1 in
  let neg := match s1 with c :: _ => chEq c "-" | [] => false end in
  if startsWith (lit "Infinity") body then S754_infinity neg
  else
    let ip := digitRun body in
    let fp := match skipn (length ip) body with
              | c :: f => if chEq c "." then digitRun f else []
              | [] => []
              end in
    if isEmpty ip && isEmpty fp then S754_nan
    else
      let rest := match skipn (length ip) body with
                  | c :: f => if chEq c "." then skipn (length fp) f else c :: f
                  | [] => []
                  end in
      decimalValue neg (Z.of_N (digitsValue 0 (ip ++ fp)))
                   (exponentPart rest - Z.of_nat (length fp)).

Definition validateNumberConstraints (value : JsVal) (c : NumberConstraints)
  : Result unit :=
  let numValue := parseFloat (toStringJs value) in
  match minimum c with
  | Some lo =>
      if numLt numValue lo
      then Throw (mkError (lit "Value must be greater than or equal to "
                           ++ numToString lo))
      else Ok tt
  | None => Ok tt
  end ;;
  match maximum c with
  | Some hi =>
      if numLt hi numValue
      then Throw (mkError (lit "Value must be less than or equal to "
                           ++ numToString hi))
      else Ok tt
  | None => Ok tt
  end ;;
  match precision c with
  | None => Ok tt
  | Some O =>
      if isInteger numValue then Ok tt
      else Throw (mkError (lit "Value must be a whole number"))
  | Some (S p) =>
      let decimalPlaces :=
        match nth_error (splitOn "." [] (toStringJs value)) 1 with
        | Some frac => length frac
        | None => 0
        end in
      if S p <? decimalPlaces
      then Throw (mkError (lit "Value cannot have more than "
                           ++ natToString (S p) ++ lit " decimal places"))
      else Ok tt
  end.

Definition isNullish (v : JsVal) : bool :=
  match v with VUndefined | VNull => true | _ => false end.

Definition cfgTypeOf (cfg : option ParamConfig) : ParamType :=
  match cfg with
  | Some c => match cfgType c with Some t => t | None => TString end
  | None => TString
  end.

Definition cfgIsRequired (cfg : option ParamConfig) : bool :=
  match cfg with Some c => cfgRequired c | None => false end.

(** The message of a failure that wraps the message of a constraint. *)
Definition invalidValue (paramType paramName : jsString) (e : JsError) : JsError :=
  mkError (lit "Invalid value for " ++ paramType ++ lit " parameter '"
           ++ paramName ++ lit "': " ++ errMessage e).

Definition invalidNumber (paramType paramName : jsString) (value : JsVal) : JsError :=
  mkError (lit "Invalid number value for " ++ paramType ++ lit " parameter '"
           ++ paramName ++ lit "': " ++ toStringJs value).

Definition requiredMissing (paramType paramName : jsString) : JsError :=
  mkError (lit "Required " ++ paramType ++ lit " parameter '" ++ paramName
           ++ lit "' must be provided.").

Definition convertAndValidateValue (lib : Libraries) (paramType : jsString)
    (value : JsVal) (paramName : jsString) (paramConfig : option ParamConfig)
  : Result JsVal :=
  if isNullish value || isEmpty (trim (toStringJs value)) then
    if cfgIsRequired paramConfig
    then Throw (requiredMissing paramType paramName)
    else Ok VNull
  else
    let stringValue := trim (toStringJs value) in
    match cfgTypeOf paramConfig with
    | TString =>
        match paramConfig with
        | Some {| stringConstraints := Some sc |} =>
            match validateStringConstraints stringValue sc with
            | Ok _ => Ok (VStr stringValue)
            | Throw e => Throw (invalidValue paramType paramName e)
            end
        | _ => Ok (VStr stringValue)
        end
    | TNumber =>
        if negb (isNumberLiteral stringValue)
        then Throw (invalidNumber paramType paramName value)
        else
          let numValue := parseFloat stringValue in
          if isNaN numValue
          then Throw (invalidNumber paramType paramName value)
          else
            match paramConfig with
            | Some {| numberConstraints := Some nc |} =>
                match validateNumberConstraints value nc with
                | Ok _ => Ok (VNum numValue)
                | Throw e => Throw (invalidValue paramType paramName e)
                end
            | _ => Ok (VNum numValue)
            end
    | TDate =>
        let dateFormat :=
          match paramConfig with
          | Some {| dateConstraints := Some {| dateFormat := Some (c :: f) |} |} =>
              c :: f
          | _ => lit "YYYY-MM-DD"
          end in
        match validateDateFormat lib value dateFormat with
        | Ok _ => Ok value
        | Throw e =>
            Throw (mkError (lit "Invalid date format for " ++ paramType
                            ++ lit " parameter '" ++ paramName ++ lit "': "
                            ++ errMessage e))
        end
    | TOther => Ok (VStr stringValue)
    end.

(** The text of a number: a sign, the digits before the point, and after
    the point, when there is one, the digits of the fraction. *)
Definition numberBody (ip fp : jsString) (point : bool) : jsString :=
  ip ++ (if point then "."%char :: fp else []).

Definition numberText (sign ip fp : jsString) (point : bool) : jsString :=
  sign ++ numberBody ip fp point.

Definition isSignText (sign : jsString) : Prop :=
  sign = [] \/ sign = ["+"%char] \/ sign = ["-"%char].

(** The texts that the number pattern of the validator accepts. *)
Definition numberShape (sign ip fp : jsString) (point : bool) : Prop :=
  isSignText sign /\ forallb isDigit ip = true /\ forallb isDigit fp = true /\
  (point = false -> fp = []) /\ (ip = [] -> fp <> []).

(** The value of such a text: the number nearest to the decimal that it
    writes. *)
Definition numberValue (sign ip fp : jsString) : float64 :=
  decimalValue (match sign with c :: _ => chEq c "-" | [] => false end)
               (Z.of_N (digitsValue 0 (ip ++ fp)))
               (- Z.of_nat (length fp)).

(** The grammar in the words of the specification: an optional sign,
    digits, and optionally a point followed by digits. *)
Definition specNumberGrammar (s : jsString) : bool :=
  let body := dropSign s in
  let ip := digitRun body in
  match ip, skipn (length ip) body with
  | _ :: _, [] => true
  | _ :: _, c :: f => chEq c "." && negb (isEmpty f) && forallb isDigit f
  | [], _ => false
  end.

(** Libraries that accept every date and every payload. *)
Definition permissiveLibraries : Libraries :=
  {| dateFnsParses := fun _ _ => true;
     validateJsonPayload := fun _ _ => [] |}.

Definition numberParam (name : jsString) (nc : option NumberConstraints) : ParamConfig :=
  {| cfgName := name; cfgType := Some TNumber; cfgRequired := false;
     stringConstraints := None; numberConstraints := nc;
     dateConstraints := None |}.

(** What the constraints of a number parameter ask of a number text. *)
Definition numberConstraintsHold (nc : NumberConstraints)
    (sign ip fp : jsString) : Prop :=
  (precision nc = Some 0 -> isInteger (numberValue sign ip fp) = true) /\
  (forall p, precision nc = Some (S p) -> length fp <= S p) /\
  (forall lo, minimum nc = Some lo ->
              numLt (numberValue sign ip fp) lo = false) /\
  (forall hi, maximum nc = Some hi ->
              numLt hi (numberValue sign ip fp) = false).

Definition precisionOnly (p : nat) : NumberConstraints :=
  {| minimum := None; maximum := None; precision := Some p |}.

(* ------------------------------------------------------------------ *)
(** ** RouteCompiler: [convertUrlPatternToRegex] *)

(** The suffix from which the pattern of a trailing parameter matches: a
    slash, a name in braces, the end of the text. *)
Definition isEndParam (u : jsString) : option jsString :=
  match u with
  | c :: d :: r =>
      if chEq c "/" && chEq d "{" && negb (isEmpty (wordRun r))
         && strEq (skipn (length (wordRun r)) r) ["}"%char]
      then Some (wordRun r) else None
  | _ => None
  end.

(** [regexString.match] of that pattern: the index and the name. *)
Fixpoint endParamMatch (pos : nat) (s : jsString) : option (nat * jsString) :=
  match isEndParam s with
  | Some w => Some (pos, w)
  | None =>
      match s with
      | [] => None
      | _ :: t => endParamMatch (S pos) t
      end
  end.

Definition captureMarker (index : nat) : jsString :=
  lit "__CAPTUREGROUP_" ++ natToString index ++ lit "__".

Definition groupText (name : jsString) : jsString :=
  lit "(?<" ++ name ++ lit ">[^/]+)".

Definition optionalText (name : jsString) : jsString :=
  lit "(?:/(?<" ++ name ++ lit ">[^/]+))?".

(** The replace of every [{name}] by the marker of its index, with the
    names collected on the way. *)
Fixpoint replaceBraces (paramNames : list jsString) (skip : nat) (s : jsString)
  : list jsString * jsString :=
  match s with
  | [] => (paramNames, [])
  | c :: t =>
      match skip with
      | S k => replaceBraces paramNames k t
      | O =>
          if chEq c "{" && negb (isEmpty (wordRun t))
             && match nth_error t (length (wordRun t)) with
                | Some d => chEq d "}"
                | None => false
                end
          then
            let paramName := wordRun t in
            let paramNames' :=
              if includes paramNames paramName then paramNames
              else paramNames ++ [paramName] in
            let index := firstIndex paramName paramNames' in
            let '(names, out) :=
              replaceBraces paramNames' (S (length paramName)) t in
            (names, captureMarker index ++ out)
          else
            let '(names, out) := replaceBraces paramNames 0 t in
            (names, c :: out)
      end
  end.

(** The characters that the escaping step puts a backslash before. *)
Definition isMeta (c : ascii) : bool :=
  existsb (chEq c) (lit ".*+?^${}()|[]\").

Definition escapeRegex (s : jsString) : jsString :=
  flat_map (fun c => if isMeta c then ["\"%char; c] else [c]) s.

(** The loop that puts a capture group in place of each marker but that of
    the trailing parameter. *)
Fixpoint restoreGroups (endName : option jsString) (names : list jsString)
    (index : nat) (regexString : jsString) : jsString :=
  match names with
  | [] => regexString
  | name :: rest =>
      restoreGroups endName rest (S index)
        (if match endName with
            | None => true
            | Some e => negb (strEq name e)
            end
         then replaceAll [captureMarker index] false (groupText name) regexString
         else regexString)
  end.

(** The patterns that this compiler can write: literal characters and
    capture groups of one path segment, then the optional trailing group,
    then an optional slash and the end. *)
Inductive RegexItem :=
| RLit (c : ascii)
| RGroup (name : jsString).

Record Regex := {
  rxItems : list RegexItem;
  rxOptional : option jsString
}.

(** A group [(?<name>[^/]+)] at the head of [s]: the name and the rest. *)
Fixpoint untilAngle (s : jsString) : option (jsString * jsString) :=
  match s with
  | [] => None
  | c :: t =>
      if chEq c ">" then Some ([], t)
      else match untilAngle t with
           | Some (n, r) => Some (c :: n, r)
           | None => None
           end
  end.

Definition parseGroup (s : jsString) : option (jsString * jsString) :=
  if startsWith (lit "(?<") s then
    match untilAngle (skipn 3 s) with
    | Some (name, r) =>
        if startsWith (lit "[^/]+)") r then Some (name, skipn 6 r) else None
    | None => None
    end
  else None.

(** The optional trailing group followed by the end of the pattern. *)
Definition parseOptional (s : jsString) : option jsString :=
  if startsWith (lit "(?:/") s then
    match parseGroup (skipn 4 s) with
    | Some (name, r) => if strEq r (lit ")?/?$") then Some name else None
    | None => None
    end
  else None.

Fixpoint parseItems (fuel : nat) (s : jsString)
  : option (list RegexItem * option jsString) :=
  match fuel with
  | O => None
  | S f =>
      if strEq s (lit "/?$") then Some ([], None)
      else
        match parseOptional s with
        | Some name => Some ([], Some name)
        | None =>
            match s with
            | [] => None
            | c :: t =>
                if chEq c "\" then
                  match t with
                  | m :: t' =>
                      if isMeta m then
                        match parseItems f t' with
                        | Some (items, opt) => Some (RLit m :: items, opt)
                        | None => None
                        end
                      else None
                  | [] => None
                  end
                else if chEq c "(" then
                  match parseGroup s with
                  | Some (name, r) =>
                      match parseItems f r with
                      | Some (items, opt) => Some (RGroup name :: items, opt)
                      | None => None
                      end
                  | None => None
                  end
                else if isMeta c then None
                else
                  match parseItems f t with
                  | Some (items, opt) => Some (RLit c :: items, opt)
                  | None => None
                  end
            end
        end
  end.

(** A group name is an identifier: it does not start with a digit. *)
Definition validGroupName (n : jsString) : bool :=
  match n with
  | c :: _ =>
      negb (isDigit c) && forallb (fun x => isWordChar x || chEq x "$") n
  | [] => false
  end.

Fixpoint distinctNames (l : list jsString) : bool :=
  match l with
  | [] => true
  | x :: t => negb (includes t x) && distinctNames t
  end.

Definition groupNames (items : list RegexItem) : list jsString :=
  flat_map (fun i => match i with RGroup n => [n] | RLit _ => [] end) items.

(** [new RegExp(regexString)]: the pattern, or [None] where the
    constructor throws. *)
Definition compileRegex (regexString : jsString) : option Regex :=
  match regexString with
  | c :: s =>
      if chEq c "^" then
        match parseItems (S (length s)) s with
        | Some (items, opt) =>
            let names := groupNames items
                         ++ match opt with Some x => [x] | None => [] end in
            if forallb validGroupName names && distinctNames names
            then Some {| rxItems := items; rxOptional := opt |}
            else None
        | None => None
        end
      else None
  | [] => None
  end.

Definition convertUrlPatternToRegex (pattern : jsString)
  : option Regex * list jsString :=
  if isEmpty pattern then (None, [])
  else
    let endMatch := endParamMatch 0 pattern in
    let paramNames0 :=
      match endMatch with Some (_, paramName) => [paramName] | None => [] end in
    let regexString0 :=
      match endMatch with Some (index, _) => firstn index pattern | None => pattern end in
    let optionalTrailingSegment :=
      match endMatch with Some (_, paramName) => optionalText paramName | None => [] end in
    let replaced := replaceBraces paramNames0 0 regexString0 in
    let paramNames := fst replaced in
    let regexString :=
      restoreGroups (option_map snd endMatch) paramNames 0
                    (escapeRegex (snd replaced)) in
    match compileRegex ("^"%char :: regexString ++ optionalTrailingSegment
                        ++ lit "/?$") with
    | Some regex => (Some regex, paramNames)
    | None => (None, [])
    end.

(** The longest prefix without a slash: what a greedy [[^/]+] takes. *)
Fixpoint segRun (s : jsString) : jsString :=
  match s with
  | c :: t => if chEq c "/" then [] else c :: segRun t
  | [] => []
  end.

(** An optional slash, then the end. *)
Definition optSlashEnd (s : jsString) : bool :=
  match s with
  | [] => true
  | c :: t => chEq c "/" && isEmpty t
  end.

(** A greedy repetition gives back one unit at a time. *)
Fixpoint tryLengths {A} (n : nat) (f : nat -> option A) : option A :=
  match n with
  | O => None
  | S k => match f (S k) with
           | Some r => Some r
           | None => tryLengths k f
           end
  end.

Definition matchTail (optional : option jsString) (s : jsString)
    (groups : JsObject) : option JsObject :=
  match optional with
  | None => if optSlashEnd s then Some groups else None
  | Some x =>
      match
        match s with
        | c :: s1 =>
            if chEq c "/" then
              tryLengths (length (segRun s1))
                (fun i => if optSlashEnd (skipn i s1)
                          then Some (groups ++ [(x, VStr (firstn i s1))])
                          else None)
            else None
        | [] => None
        end
      with
      | Some r => Some r
      | None => if optSlashEnd s then Some (groups ++ [(x, VUndefined)]) else None
      end
  end.

Fixpoint matchItems (items : list RegexItem) (optional : option jsString)
    (s : jsString) (groups : JsObject) : option JsObject :=
  match items with
  | [] => matchTail optional s groups
  | RLit c :: r =>
      match s with
      | x :: s' => if chEq x c then matchItems r optional s' groups else None
      | [] => None
      end
  | RGroup n :: r =>
      tryLengths (length (segRun s))
        (fun i => matchItems r optional (skipn i s)
                    (groups ++ [(n, VStr (firstn i s))]))
  end.

(** [path.match(regex)]: the named groups of the match, if any. *)
Definition regexMatch (regex : Regex) (path : jsString) : option JsObject :=
  matchItems (rxItems regex) (rxOptional regex) path [].

(** The captures of a request path for a template. *)
Definition matchUrl (pattern path : jsString) : option JsObject :=
  match fst (convertUrlPatternToRegex pattern) with
  | Some regex => regexMatch regex path
  | None => None
  end.

(** *** Templates written segment by segment *)

(** A segment of a template: fixed text, or one placeholder that stands
    for the whole segment. *)
Inductive Segment :=
| Fixed (text : jsString)
| Param (name : jsString).

Definition braced (name : jsString) : jsString :=
  "{"%char :: name ++ ["}"%char].

Definition segmentText (g : Segment) : jsString :=
  match g with
  | Fixed t => "/"%char :: t
  | Param n => "/"%char :: braced n
  end.

(** The template of the segments [segs] followed by a trailing [/{x}]. *)
Definition templateOf (segs : list Segment) (x : jsString) : jsString :=
  flat_map segmentText segs ++ "/"%char :: braced x.

Definition paramsOf (segs : list Segment) : list jsString :=
  flat_map (fun g => match g with Param n => [n] | Fixed _ => [] end) segs.

(** A name that can be a placeholder and a group name. *)
Definition isParamName (n : jsString) : bool :=
  match n with
  | c :: _ => negb (isDigit c) && forallb isWordChar n
  | [] => false
  end.

Definition markerWord : jsString := lit "CAPTUREGROUP".

(** Text that holds no brace of its own and not the word of the
    intermediate markers. *)
Definition segmentOk (g : Segment) : bool :=
  match g with
  | Fixed t => negb (existsb (chEq "{") t) && negb (strIncludes markerWord t)
  | Param n => negb (strIncludes markerWord n)
  end.

(** The templates of the property below: distinct, well-formed names and
    fixed text as above. *)
Definition routable (segs : list Segment) (x : jsString) : bool :=
  forallb segmentOk segs
  && forallb isParamName (x :: paramsOf segs)
  && distinctNames (x :: paramsOf segs).

(** The path of a template for the values [env] of its placeholders. *)
Definition fill (env : jsString -> jsString) (segs : list Segment) : jsString :=
  flat_map (fun g => match g with
                     | Fixed t => "/"%char :: t
                     | Param n => "/"%char :: env n
                     end) segs.

(** One path segment: not empty, no slash. *)
Definition isSegmentValue (v : jsString) : Prop :=
  v <> [] /\ ~ In "/"%char v.

(** The trailing segment of a path, when there is one, and its capture. *)
Definition lastText (v : option jsString) : jsString :=
  match v with Some s => "/"%char :: s | None => [] end.

Definition lastValue (v : option jsString) : JsVal :=
  match v with Some s => VStr s | None => VUndefined end.

Definition slashText (b : bool) : jsString :=
  if b then ["/"%char] else [].

(** The groups of a match: the placeholders in the order of the
    template, the trailing one last. *)
Definition groupsOf (env : jsString -> jsString) (segs : list Segment)
    (x : jsString) (v : option jsString) : JsObject :=
  map (fun n => (n, VStr (env n))) (paramsOf segs) ++ [(x, lastValue v)].

(** The stages of the text of the pattern: after the markers are put in,
    and with the capture groups in place of the markers below [k]. *)
Fixpoint markedText (idx : nat) (segs : list Segment) : jsString :=
  match segs with
  | [] => []
  | Fixed t :: rest => "/"%char :: t ++ markedText idx rest
  | Param _ :: rest => "/"%char :: captureMarker idx ++ markedText (S idx) rest
  end.

Fixpoint stageText (k idx : nat) (segs : list Segment) : jsString :=
  match segs with
  | [] => []
  | Fixed t :: rest => "/"%char :: escapeRegex t ++ stageText k idx rest
  | Param n :: rest =>
      "/"%char :: (if idx <? k then groupText n else captureMarker idx)
      ++ stageText k (S idx) rest
  end.

Fixpoint bodyText (segs : list Segment) : jsString :=
  match segs with
  | [] => []
  | Fixed t :: rest => "/"%char :: escapeRegex t ++ bodyText rest
  | Param n :: rest => "/"%char :: groupText n ++ bodyText rest
  end.

Fixpoint itemsOf (segs : list Segment) : list RegexItem :=
  match segs with
  | [] => []
  | Fixed t :: rest => RLit "/" :: map RLit t ++ itemsOf rest
  | Param n :: rest => RLit "/" :: RGroup n :: itemsOf rest
  end.

(** What follows a segment of a pattern: a slash, or nothing. *)
Definition slashOrEnd (R : jsString) : Prop :=
  match R with
  | [] => True
  | c :: _ => c = "/"%char
  end.

(* ------------------------------------------------------------------ *)
(** ** The database driver *)

Inductive DbType := Oracle | MySQL.

Inductive OraType := ORA_STRING | ORA_NUMBER | ORA_DATE.
Inductive BindDir := BIND_IN | BIND_OUT.

(** A bind: a value, a recorded coercion of one, or a bind object of the
    Oracle driver. *)
Inductive Coerced :=
| CVal (v : JsVal)
| CNumber (v : JsVal)      (* Number(v) *)
| CString (v : JsVal).     (* String(v) *)

Inductive BindVal :=
| BVal (c : Coerced)
| BOracle (dir : option BindDir) (type : OraType) (val : option Coerced)
          (maxSize : option nat).

Inductive Binds :=
| NoBinds
| Named (l : list (jsString * BindVal))
| Positional (l : list BindVal).

Record ExecOptions := {
  outFormatObject : bool;
  autoCommit : option bool
}.

Definition noOptions : ExecOptions :=
  {| outFormatObject := false; autoCommit := None |}.

Inductive DbCall :=
| GetConnection
| BeginTransaction
| Execute (sql : jsString) (binds : Binds) (options : ExecOptions)
| Query (sql : jsString)
| Commit
| Rollback
| Release.                  (* [close] on Oracle, [release] on MySQL *)

Record DbReply := {
  rows : list JsVal;
  outBinds : option JsObject
}.

Definition emptyReply : DbReply := {| rows := []; outBinds := None |}.

(** The driver answers a call knowing the calls made before it. *)
Definition Driver := list DbCall -> DbCall -> Result DbReply.

Definition Trace := list (DbCall * Result DbReply).

(** Code that talks to the database: from the calls made so far to the
    calls made and a result or an exception. *)
Definition IO (A : Type) := Driver -> Trace -> Trace * Result A.

Definition ret {A} (a : A) : IO A := fun _ t => (t, Ok a).

Definition raise {A} (e : JsError) : IO A := fun _ t => (t, Throw e).

Definition bindIO {A B} (m : IO A) (k : A -> IO B) : IO B :=
  fun d t =>
    match m d t with
    | (t', Ok a) => k a d t'
    | (t', Throw e) => (t', Throw e)
    end.

Notation "x <~ m ;; k" := (bindIO m (fun x => k))
  (at level 61, m at next level, right associativity).
Notation "m ;;; k" := (bindIO m (fun _ => k))
  (at level 61, right associativity).

Definition call (c : DbCall) : IO DbReply :=
  fun d t => let r := d (map fst t) c in (t ++ [(c, r)], r).

(** [try { m } catch (error) { h error }] *)
Definition tryCatch {A} (m : IO A) (h : JsError -> IO A) : IO A :=
  fun d t =>
    match m d t with
    | (t', Ok a) => (t', Ok a)
    | (t', Throw e) => h e d t'
    end.

(** [try { m } finally { try { f } catch {} }] *)
Definition tryFinally {A} (m : IO A) (f : IO unit) : IO A :=
  fun d t =>
    match m d t with
    | (t', r) => (fst (f d t'), r)
    end.

Definition liftResult {A} (r : Result A) : IO A := fun _ t => (t, r).

(* ------------------------------------------------------------------ *)
(** ** DialectAdapter: [executeProcedure] *)

Record ParamPosition := {
  posStart : nat;
  posEnd : nat;
  posName : jsString;
  posValue : BindVal
}.

(** The matches of the global pattern of [{name}] and [:name], left to
    right, kept when [params] has the name. *)
Fixpoint collectPositions (params : list (jsString * BindVal))
    (pos skip : nat) (s : jsString) : list ParamPosition :=
  match s with
  | [] => []
  | c :: t =>
      match skip with
      | S k => collectPositions params (S pos) k t
      | O =>
          let w := wordRun t in
          let isPath :=
            chEq c "{" && negb (isEmpty w)
            && match nth_error t (length w) with
               | Some d => chEq d "}"
               | None => false
               end in
          let isQuery := chEq c ":" && negb (isEmpty w) in
          if isPath || isQuery then
            let len := if isPath then length w + 2 else length w + 1 in
            match lookupProp params w with
            | Some v =>
                {| posStart := pos; posEnd := pos + len;
                   posName := w; posValue := v |}
                :: collectPositions params (S pos) (len - 1) t
            | None => collectPositions params (S pos) (len - 1) t
            end
          else collectPositions params (S pos) 0 t
      end
  end.

(** [paramPositions.sort((a, b) => b.start - a.start)] *)
Fixpoint insertDesc (p : ParamPosition) (l : list ParamPosition) : list ParamPosition :=
  match l with
  | [] => [p]
  | q :: t => if posStart q <? posStart p then p :: l else q :: insertDesc p t
  end.

Definition sortDesc (l : list ParamPosition) : list ParamPosition :=
  fold_left (fun acc p => insertDesc p acc) l [].

(** The statement with [?] for each kept placeholder, and the values in
    the order of the placeholders. *)
Definition positionalStatement (params : list (jsString * BindVal))
    (procedureBody : jsString) : jsString * list BindVal :=
  let mysqlSql := trim procedureBody in
  fold_left
    (fun '(sql, inParams) p =>
       (firstn (posStart p) sql ++ "?"%char :: skipn (posEnd p) sql,
        posValue p :: inParams))
    (sortDesc (collectPositions params 0 0 mysqlSql))
    (mysqlSql, []).

Definition resetCall (n : jsString) : DbCall :=
  Execute (lit "SET @" ++ n ++ lit " = NULL") NoBinds noOptions.

Definition selectCall (n : jsString) : DbCall :=
  Query (lit "SELECT @" ++ n ++ lit " as value").

Fixpoint resetOutputs (names : list jsString) : IO unit :=
  match names with
  | [] => ret tt
  | n :: t => call (resetCall n) ;;; resetOutputs t
  end.

(** The value that a row object gives for a column. *)
Definition rowField (row : JsVal) (k : jsString) : JsVal :=
  match row with
  | VObj o => getProp o k
  | _ => VUndefined
  end.

Fixpoint fetchOutputs (names : list jsString) (outParams : JsObject) : IO JsObject :=
  match names with
  | [] => ret outParams
  | n :: t =>
      outParams' <~
        tryCatch
          (r <~ call (selectCall n) ;;
           ret (match rows r with
                | row :: _ => setProp outParams n (rowField row (lit "value"))
                | [] => outParams
                end))
          (fun _ => ret outParams) ;;
      fetchOutputs t outParams'
  end.

Definition mysqlTransaction (originalProcedureBody procedureBody : jsString)
    (params : list (jsString * BindVal)) : IO DbReply :=
  tryCatch
    (call BeginTransaction ;;;
     let outputParams := scanSigil "@" 0 originalProcedureBody in
     let '(mysqlSql, inParams) := positionalStatement params procedureBody in
     outParams <~
       match outputParams with
       | _ :: _ =>
           resetOutputs outputParams ;;;
           call (Execute mysqlSql (Positional inParams) noOptions) ;;;
           fetchOutputs outputParams []
       | [] =>
           call (Execute mysqlSql (Positional inParams) noOptions) ;;;
           ret []
       end ;;
     call Commit ;;;
     ret {| rows := []; outBinds := Some outParams |})
    (fun error => call Rollback ;;; raise error).

Definition executeProcedure (dbType : DbType)
    (originalProcedureBody procedureBody : jsString)
    (params : list (jsString * BindVal)) (options : ExecOptions) : IO DbReply :=
  call GetConnection ;;;
  tryFinally
    (match dbType with
     | Oracle =>
         call (Execute (lit "BEGIN " ++ procedureBody ++ lit "; END;")
                       (Named params) options)
     | MySQL => mysqlTransaction originalProcedureBody procedureBody params
     end)
    (call Release ;;; ret tt).

(** The calls of one emulated procedure execution, in order: begin, one
    reset for each output name, the statement, one recovery [SELECT] for
    each output name, commit. *)
Definition plannedCalls (originalProcedureBody procedureBody : jsString)
    (params : list (jsString * BindVal)) : list DbCall :=
  let outputs := scanSigil "@" 0 originalProcedureBody in
  BeginTransaction
  :: map resetCall outputs
  ++ [Execute (fst (positionalStatement params procedureBody))
              (Positional (snd (positionalStatement params procedureBody)))
              noOptions]
  ++ map selectCall outputs
  ++ [Commit].

Definition isRecovery (c : DbCall) : bool :=
  match c with Query _ => true | _ => false end.

Definition entryOk (cr : DbCall * Result DbReply) : Prop :=
  exists r, snd cr = Ok r.

(** A step counts for the fate of the transaction unless it is a recovery
    [SELECT]. *)
Definition stepOk (cr : DbCall * Result DbReply) : Prop :=
  isRecovery (fst cr) = true \/ entryOk cr.

(** What the recovery selects of a trace give for the output [n], starting
    from [acc]: the column [value] of the first row of the last reply to
    [SELECT @n as value] that came with a row. A select that threw, or
    that answered without a row, gives nothing. *)
Definition recoveredFrom (n : jsString) (acc : option JsVal) (tr : Trace)
  : option JsVal :=
  fold_left
    (fun found cr =>
       match cr with
       | (Query sql, Ok r) =>
           if strEq (lit "SELECT @" ++ n ++ lit " as value") sql
           then match rows r with
                | row :: _ => Some (rowField row (lit "value"))
                | [] => found
                end
           else found
       | _ => found
       end)
    tr acc.

Definition recoveredValue (n : jsString) (tr : Trace) : option JsVal :=
  recoveredFrom n None tr.

(** The two ways in which an emulated procedure execution ends once it has
    its connection: all planned calls made and committed, with the outputs
    that the recovery selects gave; or the planned calls up to one that
    threw, then one rollback. *)
Definition committedRun (plan : list DbCall) (c0 : DbReply) (tr : Trace)
    (res : Result DbReply) : Prop :=
  exists steps rel outs,
    tr = (GetConnection, Ok c0) :: steps ++ [(Release, rel)] /\
    map fst steps = plan /\ Forall stepOk steps /\
    res = Ok {| rows := []; outBinds := Some outs |} /\
    forall n, lookupProp outs n = recoveredValue n tr.

Definition rolledBackRun (plan : list DbCall) (c0 : DbReply) (tr : Trace)
    (res : Result DbReply) : Prop :=
  exists steps c e rb rel rest,
    tr = (GetConnection, Ok c0)
         :: steps ++ [(c, Throw e); (Rollback, rb); (Release, rel)] /\
    plan = map fst steps ++ c :: rest /\ isRecovery c = false /\
    Forall stepOk steps /\
    res = Throw (match rb with Ok _ => e | Throw e' => e' end).

Definition isCommit (c : DbCall) : bool :=
  match c with Commit => true | _ => false end.

Definition isRollback (c : DbCall) : bool :=
  match c with Rollback => true | _ => false end.

Definition countCalls (f : DbCall -> bool) (tr : Trace) : nat :=
  length (filter (fun cr => f (fst cr)) tr).

Definition commitSucceeded (tr : Trace) : Prop :=
  exists r, In (Commit, Ok r) tr.

(* ------------------------------------------------------------------ *)
(** ** Requests, endpoints and responses *)

Record Request := {
  reqMethod : jsString;
  reqPath : jsString;
  reqAuthorization : option jsString;   (* req.headers.authorization *)
  reqQuery : JsObject;
  reqBody : JsObject
}.

Record Endpoint := {
  epName : jsString;
  epMethod : jsString;
  epUrl : option jsString;
  requireToken : bool;
  sqlQuery : option jsString;
  sqlProcedure : option jsString;
  epPathParams : list ParamConfig;
  epQueryParams : list ParamConfig;
  jsonSchema : option JsVal
}.

Inductive ResponseBody :=
| BodySuccess (data : list JsVal)            (* { success: true, data } *)
| BodyError (error : jsString)               (* { success: false, error } *)
| BodyErrors (errors : list jsString)        (* { success: false, errors } *)
| BodyNotFound (error requestedPath : jsString).

Record Response := {
  status : nat;
  body : ResponseBody
}.

(* ------------------------------------------------------------------ *)
(** ** AuthGuard: [validateToken] *)

Definition truthy (v : JsVal) : bool :=
  match v with
  | VUndefined | VNull => false
  | VBool b => b
  | VNum x =>
      match x with
      | S754_zero _ | S754_nan => false
      | _ => true
      end
  | VStr s => negb (isEmpty s)
  | VArr _ | VObj _ => true
  end.

(** [v[i]] *)
Definition indexVal (v : JsVal) (i : nat) : JsVal :=
  match v with
  | VArr items => nth i items VUndefined
  | VObj o => getProp o (natToString i)
  | VStr s => match nth_error s i with Some c => VStr [c] | None => VUndefined end
  | _ => VUndefined
  end.

Record Decoded := {
  jwtHeader : JsVal;
  jwtPayload : JsVal
}.

(** The token library: [decode] with [complete], which gives [null] for
    text that is no token, and [verify] against the stored key, which
    gives the payload or throws. *)
Record JwtLibrary := {
  jwtDecode : jsString -> Result (option Decoded);
  jwtVerify : jsString -> JsVal -> Result JsVal
}.

Inductive AuthOutcome :=
| Next (req : Request)
| Responded (r : Response).

Definition unauthorized (msg : jsString) : Response :=
  {| status := 401; body := BodyError msg |}.

(** [authHeader.split(' ')[1]] *)
Definition bearerToken (authHeader : jsString) : option jsString :=
  nth_error (splitOn " " [] authHeader) 1.

Definition keyLookupCall (dbType : DbType) (keyId : JsVal) : DbCall :=
  match dbType with
  | Oracle =>
      Execute (lit "SELECT b.token_key FROM giis_token_key b WHERE b.key_id = :keyId")
              (Named [(lit "keyId", BVal (CVal keyId))]) noOptions
  | MySQL =>
      Execute (lit "SELECT b.token_key FROM giis_token_key b WHERE b.key_id = ?")
              (Positional [BVal (CVal keyId)]) noOptions
  end.

Definition sessionLookupCall (dbType : DbType) (jwtId : JsVal) : DbCall :=
  match dbType with
  | Oracle =>
      Execute (lit "SELECT a.user_id FROM giis_auth_session a WHERE a.jwt_id = :jwtId")
              (Named [(lit "jwtId", BVal (CVal jwtId))]) noOptions
  | MySQL =>
      Execute (lit "SELECT a.user_id FROM giis_auth_session a WHERE a.jwt_id = ?")
              (Positional [BVal (CVal jwtId)]) noOptions
  end.

Definition firstRow (r : DbReply) : JsVal := hd VUndefined (rows r).

(** The message of the catch-all of the guard. *)
Definition authReason (error : JsError) : jsString :=
  if strEq (errName error) (lit "TokenExpiredError") then lit "Token has expired"
  else if strEq (errName error) (lit "JsonWebTokenError") then lit "Invalid token"
  else errMessage error.

(** [req.query.appUser = userId] on GET, [req.body.appUser = userId]
    otherwise. *)
Definition injectUser (req : Request) (userId : JsVal) : Request :=
  if strEq (reqMethod req) (lit "GET")
  then {| reqMethod := reqMethod req; reqPath := reqPath req;
          reqAuthorization := reqAuthorization req;
          reqQuery := setProp (reqQuery req) (lit "appUser") userId;
          reqBody := reqBody req |}
  else {| reqMethod := reqMethod req; reqPath := reqPath req;
          reqAuthorization := reqAuthorization req;
          reqQuery := reqQuery req;
          reqBody := setProp (reqBody req) (lit "appUser") userId |}.

(** The part of the guard that holds the connection. *)
Definition resolveUser (jwt : JwtLibrary) (dbType : DbType)
    (token : jsString) (keyId : JsVal) : IO JsVal :=
  keyResult <~ call (keyLookupCall dbType keyId) ;;
  let tokenKey := indexVal (firstRow keyResult) 0 in
  if negb (truthy tokenKey) then raise (mkError (lit "Invalid token"))
  else
    verifiedToken <~ liftResult (jwtVerify jwt token tokenKey) ;;
    let jwtId := rowField verifiedToken (lit "jti") in
    if negb (truthy jwtId) then raise (mkError (lit "Invalid token"))
    else
      userResult <~ call (sessionLookupCall dbType jwtId) ;;
      if negb (truthy (firstRow userResult))
      then raise (mkError (lit "Invalid token"))
      else ret (indexVal (firstRow userResult) 0).

Definition validateToken (jwt : JwtLibrary) (dbType : DbType)
    (req : Request) (endpoint : Endpoint) : IO AuthOutcome :=
  if negb (requireToken endpoint) then ret (Next req)
  else
    match reqAuthorization req with
    | None | Some [] =>
        ret (Responded (unauthorized (lit "No authorization header provided")))
    | Some authHeader =>
        match bearerToken authHeader with
        | None | Some [] =>
            ret (Responded (unauthorized (lit "No token provided")))
        | Some token =>
            match jwtDecode jwt token with
            | Throw _ =>
                ret (Responded (unauthorized (lit "Invalid token format")))
            | Ok None =>
                ret (Responded (unauthorized (lit "Invalid token structure")))
            | Ok (Some decoded) =>
                if negb (truthy (jwtHeader decoded))
                   || negb (truthy (jwtPayload decoded))
                then ret (Responded (unauthorized (lit "Invalid token structure")))
                else
                  let keyId := rowField (jwtHeader decoded) (lit "kid") in
                  if negb (truthy keyId)
                  then ret (Responded (unauthorized (lit "Token missing keyId")))
                  else
                    tryCatch
                      (call GetConnection ;;;
                       tryFinally
                         (userId <~ resolveUser jwt dbType token keyId ;;
                          ret (Next (injectUser req userId)))
                         (call Release ;;; ret tt))
                      (fun error =>
                         ret (Responded (unauthorized (authReason error))))
            end
        end
    end.

(** [{ ...pathParams, ...req.query }] on GET, with [...req.body] after it
    otherwise: the bind source of the procedure. *)
Definition procBindSource (pathParams : JsObject) (req : Request) : JsObject :=
  if strEq (reqMethod req) (lit "GET")
  then spreadInto (spreadInto [] pathParams) (reqQuery req)
  else spreadInto (spreadInto (spreadInto [] pathParams) (reqQuery req))
                  (reqBody req).

(** The bind source of the query. *)
Definition queryBindSource (pathParams : JsObject) (req : Request) : JsObject :=
  if strEq (reqMethod req) (lit "GET")
  then spreadInto (spreadInto [] pathParams) (reqQuery req)
  else spreadInto (spreadInto [] pathParams) (reqBody req).

(** An object has each key once. *)
Definition uniqueKeys {V} (o : list (jsString * V)) : Prop := NoDup (map fst o).

(* ------------------------------------------------------------------ *)
(** ** ExecutionOrchestrator: the handler of [/api/*] after the guard *)

Definition isGetRequest (req : Request) : bool :=
  strEq (reqMethod req) (lit "GET").

(** [text && text.trim() !== ''] *)
Definition hasText (text : option jsString) : bool :=
  match text with
  | Some s => negb (isEmpty s) && negb (isEmpty (trim s))
  | None => false
  end.

Definition textOf (text : option jsString) : jsString :=
  match text with Some s => s | None => [] end.

(** Upper case of a code unit, as the [i] flag compares. *)
Definition upper (c : ascii) : ascii :=
  if (97 <=? code c) && (code c <=? 122) then ascii_of_nat (code c - 32) else c.

Fixpoint startsWithCI (p s : jsString) : bool :=
  match p, s with
  | [], _ => true
  | x :: p', y :: s' => chEq (upper x) (upper y) && startsWithCI p' s'
  | _ :: _, [] => false
  end.

Definition strEqCI (a b : jsString) : bool :=
  (length a =? length b) && startsWithCI a b.

(** Whether the whole of [u] is white space, an optional semicolon, white
    space, [END] and an optional semicolon: the second alternative of the
    pattern that strips the block keywords, up to the end of the text. *)
Definition isEndTail (u : jsString) : bool :=
  let u1 := trimStart u in
  let u2 := match u1 with
            | c :: r => if chEq c ";" then trimStart r else u1
            | [] => u1
            end in
  strEqCI u2 (lit "END") || strEqCI u2 (lit "END;").

(** The text before the first place from which [isEndTail] holds. *)
Fixpoint cutEndTail (s : jsString) : jsString :=
  if isEndTail s then []
  else match s with
       | [] => []
       | c :: t => c :: cutEndTail t
       end.

(** The replace that strips a leading [BEGIN] with its white space and
    the trailing [END]. *)
Definition stripBeginEnd (s : jsString) : jsString :=
  if startsWithCI (lit "BEGIN") s
  then cutEndTail (trimStart (skipn 5 s))
  else cutEndTail s.

(** [s.replace(/;$/, '')] *)
Definition dropLastSemicolon (s : jsString) : jsString :=
  match rev s with
  | c :: r => if chEq c ";" then rev r else s
  | [] => s
  end.

Definition procedureBodyOf (sqlProcedure : jsString) : jsString :=
  dropLastSemicolon (trim (stripBeginEnd (trim sqlProcedure))).

Definition findConfig (configs : list ParamConfig) (name : jsString)
  : option ParamConfig :=
  find (fun p => strEq (cfgName p) name) configs.

Definition getOracleType (paramConfig : option ParamConfig) : OraType :=
  match paramConfig with
  | None => ORA_STRING
  | Some c =>
      match cfgType c with
      | Some TNumber => ORA_NUMBER
      | Some TDate => ORA_DATE
      | _ => ORA_STRING
      end
  end.

Definition ProcParams := list (jsString * BindVal).

(** The bind of the dollar parameter and the body with [$name] turned
    into [:name]. *)
Definition bindDollarParam (dbType : DbType) (procBindSource : JsObject)
    (originalProcedureBody : jsString) : ProcParams * jsString :=
  match extractDollarParam originalProcedureBody with
  | Some dollarParam =>
      let paramValue := jsonStringify (VObj procBindSource) in
      let sanitizedValue := replaceAll [lit "'"] false (lit "''") paramValue in
      (setProp [] dollarParam
         (match dbType with
          | Oracle => BOracle (Some BIND_IN) ORA_STRING
                              (Some (CVal (VStr sanitizedValue))) None
          | MySQL => BVal (CVal (VStr sanitizedValue))
          end),
       replaceAll ["$"%char :: dollarParam] true (":"%char :: dollarParam)
                  originalProcedureBody)
  | None => ([], originalProcedureBody)
  end.

(** The loop over the path parameters of the procedure. *)
Fixpoint validateProcPathParams (lib : Libraries) (pathConfigs : list ParamConfig)
    (procBindSource : JsObject) (names : list jsString)
    (st : ProcParams * jsString) : Result (ProcParams * jsString) :=
  match names with
  | [] => Ok st
  | param :: rest =>
      let value := getProp procBindSource param in
      let paramConfig := findConfig pathConfigs param in
      st' <-
        (if negb (isUndefined value) then
           v <- convertAndValidateValue lib (lit "path") value param paramConfig ;;
           Ok (setProp (fst st) param (BVal (CVal v)),
               replaceAll ["{"%char :: param ++ ["}"%char]] false
                          (":"%char :: param) (snd st))
         else if cfgIsRequired paramConfig
              then Throw (requiredMissing (lit "path") param)
              else Ok st) ;;
      validateProcPathParams lib pathConfigs procBindSource rest st'
  end.

(** The loop over the query parameters of a statement. *)
Fixpoint validateQueryParams {V} (wrap : JsVal -> V) (lib : Libraries)
    (queryConfigs : list ParamConfig) (bindSource : JsObject)
    (names : list jsString) (validated : list (jsString * V))
  : Result (list (jsString * V)) :=
  match names with
  | [] => Ok validated
  | param :: rest =>
      v <- convertAndValidateValue lib (lit "query")
             (getProp bindSource param) param (findConfig queryConfigs param) ;;
      validateQueryParams wrap lib queryConfigs bindSource rest
        (setProp validated param (wrap v))
  end.

(** The OUT binds of the Oracle dialect. *)
Definition bindOutputParams (endpoint : Endpoint) (names : list jsString)
    (st : ProcParams * jsString) : ProcParams * jsString :=
  fold_left
    (fun st param =>
       let paramConfig :=
         findConfig (epPathParams endpoint ++ epQueryParams endpoint) param in
       (setProp (fst st) param
          (BOracle (Some BIND_OUT) (getOracleType paramConfig) None
                   (match getOracleType paramConfig with
                    | ORA_STRING => Some 4000
                    | _ => None
                    end)),
        replaceAll ["@"%char :: param] false (":"%char :: param) (snd st)))
    names st.

Record PreparedProcedure := {
  validatedProcParams : ProcParams;
  executionProcedureBody : jsString;
  originalProcedureBody : jsString
}.

Definition prepareProcedure (lib : Libraries) (dbType : DbType)
    (endpoint : Endpoint) (procBindSource : JsObject) : Result PreparedProcedure :=
  let original := procedureBodyOf (textOf (sqlProcedure endpoint)) in
  let st0 := bindDollarParam dbType procBindSource original in
  let details := extractParamDetails original in
  st1 <- validateProcPathParams lib (epPathParams endpoint) procBindSource
           (pathParams details) st0 ;;
  validated2 <- validateQueryParams (fun v => BVal (CVal v)) lib
                  (epQueryParams endpoint) procBindSource
                  (queryParams details) (fst st1) ;;
  let st3 := match dbType with
             | Oracle => bindOutputParams endpoint (outputParams details)
                                          (validated2, snd st1)
             | MySQL => (validated2, snd st1)
             end in
  Ok {| validatedProcParams := fst st3;
        executionProcedureBody := snd st3;
        originalProcedureBody := original |}.

(** The loop over the path parameters of the query. *)
Fixpoint validateQueryPathParams (lib : Libraries) (pathConfigs : list ParamConfig)
    (queryBindSource : JsObject) (names : list jsString)
    (st : JsObject * jsString) : Result (JsObject * jsString) :=
  match names with
  | [] => Ok st
  | param :: rest =>
      let sql := replaceAll ["{"%char :: param ++ ["}"%char]] false
                            (":"%char :: param) (snd st) in
      v <- convertAndValidateValue lib (lit "path")
             (getProp queryBindSource param) param (findConfig pathConfigs param) ;;
      validateQueryPathParams lib pathConfigs queryBindSource rest
        (setProp (fst st) param v, sql)
  end.

Definition prepareQuery (lib : Libraries) (endpoint : Endpoint)
    (queryBindSource : JsObject) : Result (JsObject * jsString) :=
  let sqlToExecuteQuery := textOf (sqlQuery endpoint) in
  let details := extractParamDetails sqlToExecuteQuery in
  st1 <- validateQueryPathParams lib (epPathParams endpoint) queryBindSource
           (pathParams details) ([], sqlToExecuteQuery) ;;
  validated <- validateQueryParams (fun v => v) lib (epQueryParams endpoint)
                 queryBindSource (queryParams details) (fst st1) ;;
  Ok (validated, snd st1).

(** The output values of the procedure put in place of [@name] in the
    query: text in single quotes, anything else as [replace] prints it. *)
Definition substituteOutBinds (outBinds : JsObject) (sql : jsString) : jsString :=
  fold_left
    (fun modifiedSql '(key, value) =>
       replaceAll ["@"%char :: key] true
         (match value with
          | VStr s => "'"%char :: s ++ ["'"%char]
          | _ => toStringJs value
          end)
         modifiedSql)
    outBinds sql.

Definition releaseConnection : IO unit := call Release ;;; ret tt.

Definition executeQuery (dbType : DbType) (sql : jsString) (params : Binds)
    (options : ExecOptions) : IO DbReply :=
  call GetConnection ;;;
  tryFinally
    (match dbType with
     | Oracle => call (Execute sql params options)
     | MySQL =>
         match autoCommit options with
         | Some b =>
             call (Execute (lit "SET autocommit=" ++ (if b then lit "1" else lit "0"))
                           NoBinds noOptions) ;;; ret tt
         | None => ret tt
         end ;;;
         r <~ call (Execute sql params noOptions) ;;
         match autoCommit options with
         | Some false => call Commit ;;; ret tt
         | _ => ret tt
         end ;;;
         ret {| rows := rows r; outBinds := None |}
     end)
    releaseConnection.

Definition allConfigs (endpoint : Endpoint) : list ParamConfig :=
  epPathParams endpoint ++ epQueryParams endpoint.

Definition configType (paramConfig : option ParamConfig) : option ParamType :=
  match paramConfig with Some c => cfgType c | None => None end.

Definition configDateFormat (paramConfig : option ParamConfig) : jsString :=
  match paramConfig with
  | Some c =>
      match dateConstraints c with
      | Some dc => match dateFormat dc with
                   | Some (x :: f) => x :: f
                   | _ => lit "YYYY-MM-DD"
                   end
      | None => lit "YYYY-MM-DD"
      end
  | None => lit "YYYY-MM-DD"
  end.

(** The named binds of the Oracle dialect for the query, and the query
    with each date bind wrapped in [TO_DATE]. *)
Definition oracleQueryBinds (endpoint : Endpoint) (procOutBinds : option JsObject)
    (finalQueryParams : JsObject) (sql : jsString)
  : list (jsString * BindVal) * jsString :=
  fold_left
    (fun '(binds, sql) '(key, value) =>
       if match procOutBinds with Some ob => hasProp ob key | None => false end
       then (binds, sql)
       else
         let paramConfig := findConfig (allConfigs endpoint) key in
         match value with
         | VNull =>
             (setProp binds key
                (BOracle None
                   (match configType paramConfig with
                    | Some TNumber => ORA_NUMBER
                    | Some TDate => ORA_DATE
                    | _ => ORA_STRING
                    end) (Some (CVal VNull)) None), sql)
         | _ =>
             match configType paramConfig with
             | Some TNumber =>
                 (setProp binds key
                    (BOracle None ORA_NUMBER (Some (CNumber value)) None), sql)
             | Some TDate =>
                 (setProp binds key
                    (BOracle None ORA_STRING (Some (CVal value)) None),
                  replaceAll [":"%char :: key] true
                    (lit "TO_DATE (:" ++ key ++ lit ", '"
                     ++ configDateFormat paramConfig ++ lit "')") sql)
             | _ =>
                 (setProp binds key
                    (BOracle None ORA_STRING (Some (CString value)) None), sql)
             end
         end)
    finalQueryParams ([], sql).

(** The named parameters of the MySQL dialect for the query. *)
Definition mysqlQueryParams (endpoint : Endpoint) (finalQueryParams : JsObject)
    (mysqlSql : jsString) : list (jsString * BindVal) :=
  fold_left
    (fun mysqlParams paramName =>
       let value := getProp finalQueryParams paramName in
       let paramConfig := findConfig (allConfigs endpoint) paramName in
       setProp mysqlParams paramName
         (BVal (match value with
                | VNull => CVal VNull
                | _ =>
                    match configType paramConfig with
                    | Some TNumber => CNumber value
                    | Some TDate => CVal value
                    | _ => CString value
                    end
                end)))
    (uniqueNames (scanSigil ":" 0 mysqlSql)) [].

(** The statement that the query step sends, and its run. *)
Definition runQuery (dbType : DbType) (endpoint : Endpoint) (isGet isQueryOnly : bool)
    (procedureResult : option DbReply) (validatedQueryParams : JsObject)
    (sqlToExecuteQuery : jsString) : IO DbReply :=
  let procOutBinds :=
    match procedureResult with Some r => outBinds r | None => None end in
  let finalSqlToExecute :=
    match procOutBinds with
    | Some ob => substituteOutBinds ob sqlToExecuteQuery
    | None => sqlToExecuteQuery
    end in
  match dbType with
  | Oracle =>
      let '(oracleBindParams, finalSql) :=
        oracleQueryBinds endpoint procOutBinds validatedQueryParams
                         finalSqlToExecute in
      executeQuery Oracle finalSql (Named oracleBindParams)
        {| outFormatObject := true;
           autoCommit := Some (negb isGet && isQueryOnly) |}
  | MySQL =>
      let mysqlSql :=
        match procOutBinds with
        | Some (kv :: ob) => substituteOutBinds (kv :: ob) finalSqlToExecute
        | _ => finalSqlToExecute
        end in
      let mysqlParams := mysqlQueryParams endpoint validatedQueryParams mysqlSql in
      call GetConnection ;;;
      tryFinally
        (r <~ call (Execute mysqlSql (Named mysqlParams) noOptions) ;;
         ret {| rows := rows r; outBinds := None |})
        releaseConnection
  end.

(** The answer of the catch-all of the handler. *)
Definition errorResponse (error : JsError) : Response :=
  let statusCode :=
    if strIncludes (lit "must be provided") (errMessage error)
       || strIncludes (lit "not found from procedure") (errMessage error)
       || strIncludes (lit "Invalid") (errMessage error)
    then 400
    else match errStatus error with
         | Some (S n) => S n
         | _ => 500
         end in
  {| status := statusCode;
     body := BodyError (match errMessage error with
                        | [] => lit "Failed to execute endpoint"
                        | m => m
                        end) |}.

Definition emptyPrepared : PreparedProcedure :=
  {| validatedProcParams := []; executionProcedureBody := [];
     originalProcedureBody := [] |}.

Definition executeEndpoint (lib : Libraries) (dbType : DbType)
    (endpoint : Endpoint) (pathParams : JsObject) (req : Request) : IO Response :=
  let isGet := isGetRequest req in
  let hasProcedure := hasText (sqlProcedure endpoint) in
  let hasQuery := hasText (sqlQuery endpoint) in
  let isProcedureOnly := hasProcedure && negb hasQuery in
  let isQueryOnly := negb hasProcedure && hasQuery in
  let isProcedureThenQuery := hasProcedure && hasQuery in
  let validationErrors :=
    match jsonSchema endpoint with
    | Some schema =>
        if isProcedureOnly || isProcedureThenQuery
        then validateJsonPayload lib schema (VObj (reqBody req))
        else []
    | None => []
    end in
  match validationErrors with
  | _ :: _ => ret {| status := 400; body := BodyErrors validationErrors |}
  | [] =>
      tryCatch
        (proc <~ liftResult
                   (if isProcedureOnly || isProcedureThenQuery
                    then prepareProcedure lib dbType endpoint
                           (procBindSource pathParams req)
                    else Ok emptyPrepared) ;;
         query <~ liftResult
                    (if isQueryOnly || isProcedureThenQuery
                     then prepareQuery lib endpoint (queryBindSource pathParams req)
                     else Ok ([], [])) ;;
         procedureResult <~
           (if isProcedureOnly || isProcedureThenQuery
            then r <~ executeProcedure dbType (originalProcedureBody proc)
                        (executionProcedureBody proc) (validatedProcParams proc)
                        {| outFormatObject := false;
                           autoCommit := Some (negb isGet) |} ;;
                 ret (Some r)
            else ret None) ;;
         queryResult <~
           (if isQueryOnly
               || (isProcedureThenQuery
                   && match procedureResult with Some _ => true | None => false end)
            then r <~ runQuery dbType endpoint isGet isQueryOnly procedureResult
                        (fst query) (snd query) ;;
                 ret (Some r)
            else ret None) ;;
         ret {| status := 200;
                body := BodySuccess (match queryResult with
                                     | Some r => rows r
                                     | None => []
                                     end) |})
        (fun error => ret (errorResponse error))
  end.

(** [{ success: true, ... }] *)
Definition isSuccess (r : Response) : Prop :=
  exists data, body r = BodySuccess data.

(** An endpoint with a procedure only, a request for it, and a driver of
    the Oracle kind whose procedure call returns the output bind
    [newId = 42]. *)
Definition procedureEndpoint : Endpoint :=
  {| epName := lit "createOrder"; epMethod := lit "POST";
     epUrl := Some (lit "/api/orders"); requireToken := false;
     sqlQuery := None;
     sqlProcedure := Some (lit "BEGIN create_order(:customer, @newId); END;");
     epPathParams := []; epQueryParams := []; jsonSchema := None |}.

Definition orderRequest : Request :=
  {| reqMethod := lit "POST"; reqPath := lit "/api/orders";
     reqAuthorization := None; reqQuery := [];
     reqBody := [(lit "customer", VStr (lit "bob"))] |}.

Definition outBindDriver : Driver :=
  fun _ c =>
    match c with
    | Execute _ _ _ =>
        Ok {| rows := [];
              outBinds := Some [(lit "newId", VNum (decimalValue false 42 0))] |}
    | _ => Ok emptyReply
    end.

(** An endpoint whose procedure takes two numbers, and a request in which
    neither is one. *)
Definition twoNumbersEndpoint : Endpoint :=
  {| epName := lit "setRange"; epMethod := lit "POST";
     epUrl := Some (lit "/api/range"); requireToken := false;
     sqlQuery := None;
     sqlProcedure := Some (lit "set_range(:low, :high)");
     epPathParams := [];
     epQueryParams := [numberParam (lit "low") None; numberParam (lit "high") None];
     jsonSchema := None |}.

Definition badRangeRequest : Request :=
  {| reqMethod := lit "POST"; reqPath := lit "/api/range";
     reqAuthorization := None; reqQuery := [];
     reqBody := [(lit "low", VStr (lit "x")); (lit "high", VStr (lit "y"))] |}.

(** How an output value reads once it is in the query. *)
Definition renderOutput (value : JsVal) : jsString :=
  match value with
  | VStr s => "'"%char :: s ++ ["'"%char]
  | _ => toStringJs value
  end.

(** A name: a non-empty run of word characters. *)
Definition isName (n : jsString) : Prop :=
  n <> [] /\ forallb isWordChar n = true.

(** The bind of the dollar parameter for a value. *)
Definition dollarBind (dbType : DbType) (v : jsString) : BindVal :=
  match dbType with
  | Oracle => BOracle (Some BIND_IN) ORA_STRING (Some (CVal (VStr v))) None
  | MySQL => BVal (CVal (VStr v))
  end.

(** Every single quote written twice. *)
Definition doubleQuotes (s : jsString) : jsString :=
  flat_map (fun c => if chEq c "'" then ["'"%char; "'"%char] else [c]) s.

(** An endpoint whose procedure takes the whole payload, and a request
    whose payload has a single quote in it. *)
Definition payloadEndpoint : Endpoint :=
  {| epName := lit "saveNote"; epMethod := lit "POST";
     epUrl := Some (lit "/api/notes"); requireToken := false;
     sqlQuery := None;
     sqlProcedure := Some (lit "save_note($payload)");
     epPathParams := []; epQueryParams := []; jsonSchema := None |}.

Definition noteRequest : Request :=
  {| reqMethod := lit "POST"; reqPath := lit "/api/notes";
     reqAuthorization := None; reqQuery := [];
     reqBody := [(lit "note", VStr (lit "it's late"))] |}.

(** What a request that passes the guard has shown. *)
Definition authorizedRun (jwt : JwtLibrary) (dbType : DbType) (req : Request)
    (tr : Trace) (req' : Request) : Prop :=
  exists authHeader token decoded keyReply payload sessionReply,
    reqAuthorization req = Some authHeader /\
    bearerToken authHeader = Some token /\ token <> [] /\
    jwtDecode jwt token = Ok (Some decoded) /\
    truthy (rowField (jwtHeader decoded) (lit "kid")) = true /\
    In (keyLookupCall dbType (rowField (jwtHeader decoded) (lit "kid")),
        Ok keyReply) tr /\
    truthy (indexVal (firstRow keyReply) 0) = true /\
    jwtVerify jwt token (indexVal (firstRow keyReply) 0) = Ok payload /\
    truthy (rowField payload (lit "jti")) = true /\
    In (sessionLookupCall dbType (rowField payload (lit "jti")),
        Ok sessionReply) tr /\
    truthy (firstRow sessionReply) = true /\
    req' = injectUser req (indexVal (firstRow sessionReply) 0).

(** A token library for which every token decodes to key id [k1] and
    token id [j1]; one on which the signature has expired, one on which it
    verifies. *)
Definition sampleDecoded : Decoded :=
  {| jwtHeader := VObj [(lit "kid", VStr (lit "k1"))];
     jwtPayload := VObj [(lit "jti", VStr (lit "j1"))] |}.

Definition expiredTokenLibrary : JwtLibrary :=
  {| jwtDecode := fun _ => Ok (Some sampleDecoded);
     jwtVerify := fun _ _ =>
       Throw {| errName := lit "TokenExpiredError";
                errMessage := lit "jwt expired"; errStatus := None |} |}.

Definition validTokenLibrary : JwtLibrary :=
  {| jwtDecode := fun _ => Ok (Some sampleDecoded);
     jwtVerify := fun _ _ => Ok (VObj [(lit "jti", VStr (lit "j1"))]) |}.

(** A driver of the Oracle kind: every statement returns one row with one
    column. *)
Definition oneRowDriver : Driver :=
  fun _ c =>
    match c with
    | Execute _ _ _ =>
        Ok {| rows := [VArr [VStr (lit "alice")]]; outBinds := None |}
    | _ => Ok emptyReply
    end.

Definition tokenEndpoint : Endpoint :=
  {| epName := lit "orders"; epMethod := lit "GET";
     epUrl := Some (lit "/api/orders/{id}"); requireToken := true;
     sqlQuery := Some (lit "SELECT * FROM ORDERS WHERE ID=:id AND OWNER=:appUser");
     sqlProcedure := None; epPathParams := []; epQueryParams := [];
     jsonSchema := None |}.

Definition bearerRequest : Request :=
  {| reqMethod := lit "GET"; reqPath := lit "/api/orders/7";
     reqAuthorization := Some (lit "Bearer abc.def.ghi");
     reqQuery := [(lit "appUser", VStr (lit "mallory"))];
     reqBody := [] |}.

(** A driver that answers every call, with one row of value ["42"] for a
    [SELECT]; and one on which every [SELECT] throws. *)
Definition answeringDriver : Driver :=
  fun _ c =>
    match c with
    | Query _ =>
        Ok {| rows := [VObj [(lit "value", VStr (lit "42"))]]; outBinds := None |}
    | _ => Ok emptyReply
    end.

Definition selectFailingDriver : Driver :=
  fun _ c =>
    match c with
    | Query _ => Throw (mkError (lit "ER_UNKNOWN"))
    | _ => Ok emptyReply
    end.

Definition sampleProcParams : list (jsString * BindVal) :=
  [(lit "a", BVal (CVal (VStr (lit "1"))))].

(* ------------------------------------------------------------------ *)
(** ** The handler of [/api/*]: the endpoint of a request *)

(** One turn of the loop over the endpoints: the method, the prefix of
    the URL, the pattern of the URL, and the copy of the groups of the
    match. *)
Definition matchEndpoint (endpoint : Endpoint) (req : Request) : option JsObject :=
  if negb (strEq (epMethod endpoint) (reqMethod req)) then None
  else
    match epUrl endpoint with
    | Some url =>
        if startsWith (lit "/api/") url then
          match fst (convertUrlPatternToRegex url) with
          | Some regex =>
              match regexMatch regex (reqPath req) with
              | Some groups => Some (spreadInto [] groups)
              | None => None
              end
          | None => None
          end
        else None
    | None => None
    end.

(** The loop: it stops at the first endpoint that matches. *)
Fixpoint findEndpoint (endpoints : list Endpoint) (req : Request)
  : option (Endpoint * JsObject) :=
  match endpoints with
  | [] => None
  | endpoint :: rest =>
      match matchEndpoint endpoint req with
      | Some pathParams => Some (endpoint, pathParams)
      | None => findEndpoint rest req
      end
  end.

Definition notFound (req : Request) : Response :=
  {| status := 404;
     body := BodyNotFound
               (lit "Endpoint not found for the given full path and method")
               (reqPath req) |}.

(** The handler: the endpoints as read from the file ([None] when the
    file cannot be read or parsed), the endpoint of the request, the
    guard, the execution. When the guard answers, the handler goes no
    further. *)
Definition handleRequest (lib : Libraries) (jwt : JwtLibrary) (dbType : DbType)
    (endpointsFile : option (list Endpoint)) (req : Request) : IO Response :=
  match endpointsFile with
  | None =>
      ret {| status := 500;
             body := BodyError (lit "Failed to read endpoints configuration") |}
  | Some endpoints =>
      match findEndpoint endpoints req with
      | None => ret (notFound req)
      | Some (endpoint, pathParams) =>
          outcome <~ validateToken jwt dbType req endpoint ;;
          match outcome with
          | Responded r => ret r
          | Next req' => executeEndpoint lib dbType endpoint pathParams req'
          end
      end
  end.

(** A template whose last segment is fixed text. *)
Definition endsFixed (segs : list Segment) : bool :=
  match last (map Some segs) None with
  | Some (Fixed _) => true
  | _ => false
  end.

(** The templates without a trailing placeholder of the property below. *)
Definition routableFixed (segs : list Segment) : bool :=
  forallb segmentOk segs
  && forallb isParamName (paramsOf segs)
  && distinctNames (paramsOf segs)
  && endsFixed segs.

(* ------------------------------------------------------------------ *)
(** ** Connections in a trace *)

Definition isGetConnection (c : DbCall) : bool :=
  match c with GetConnection => true | _ => false end.

Definition isRelease (c : DbCall) : bool :=
  match c with Release => true | _ => false end.

(** A call made on a connection: it neither takes one nor gives one
    back. *)
Definition onConnection (cr : DbCall * Result DbReply) : Prop :=
  isGetConnection (fst cr) = false /\ isRelease (fst cr) = false.

(** Traces in which connections are taken one at a time: an attempt that
    fails, or a connection, the calls made on it, and its release. *)
Inductive bracketed : Trace -> Prop :=
| bracketed_nil : bracketed []
| bracketed_failed e rest :
    bracketed rest -> bracketed ((GetConnection, Throw e) :: rest)
| bracketed_session c body rel rest :
    Forall onConnection body -> bracketed rest ->
    bracketed ((GetConnection, Ok c) :: body ++ (Release, rel) :: rest).

(** The connections that a trace obtained. *)
Definition obtained (tr : Trace) : nat :=
  length (filter (fun cr => match cr with
                            | (GetConnection, Ok _) => true
                            | _ => false
                            end) tr).

(** The calls that a computation adds to the trace satisfy [P]. *)
Definition emits (P : Trace -> Prop) {A} (m : IO A) : Prop :=
  forall d t, exists new, fst (m d t) = t ++ new /\ P new.

(** A property of traces that the empty trace has and that joining two
    traces keeps. *)
Record closedTraces (P : Trace -> Prop) : Prop := {
  closed_nil : P [];
  closed_app : forall a b, P a -> P b -> P (a ++ b)
}.

(** The messages of the JSON-schema check that the handler runs, for an
    endpoint with a procedure and a schema. *)
Definition payloadErrors (lib : Libraries) (endpoint : Endpoint) (req : Request)
  : list jsString :=
  match jsonSchema endpoint with
  | Some schema =>
      if hasText (sqlProcedure endpoint)
      then validateJsonPayload lib schema (VObj (reqBody req))
      else []
  | None => []
  end.

(** An endpoint with a procedure and a query whose parameter [low] is a
    number, and a request in which it is not one. *)
Definition orderThenListEndpoint : Endpoint :=
  {| epName := lit "createAndList"; epMethod := lit "POST";
     epUrl := Some (lit "/api/orders"); requireToken := false;
     sqlQuery := Some (lit "SELECT * FROM orders WHERE total > :low");
     sqlProcedure := Some (lit "BEGIN create_order(:customer, @newId); END;");
     epPathParams := [];
     epQueryParams := [numberParam (lit "low") None];
     jsonSchema := None |}.

Definition badLowRequest : Request :=
  {| reqMethod := lit "POST"; reqPath := lit "/api/orders";
     reqAuthorization := None; reqQuery := [];
     reqBody := [(lit "customer", VStr (lit "bob")); (lit "low", VStr (lit "x"))] |}.

(** The values that the constraints of a string parameter allow, when
    they list any. *)
Definition allowedList (c : StringConstraints) : list jsString :=
  match allowedValues c with
  | Some (a :: av) =>
      filter (fun v => negb (isEmpty v)) (map trim (splitOn "," [] (a :: av)))
  | _ => []
  end.

(** A value that counts as not given. *)
Definition isBlank (value : JsVal) : bool :=
  isNullish value || isEmpty (trim (toStringJs value)).

(** The value that the MySQL dialect binds for a placeholder of the
    query. *)
Definition mysqlParamValue (endpoint : Endpoint) (finalQueryParams : JsObject)
    (paramName : jsString) : BindVal :=
  let value := getProp finalQueryParams paramName in
  BVal (match value with
        | VNull => CVal VNull
        | _ =>
            match configType (findConfig (allConfigs endpoint) paramName) with
            | Some TNumber => CNumber value
            | Some TDate => CVal value
            | _ => CString value
            end
        end).

(** The bind that the Oracle dialect makes of a validated value. *)
Definition oracleBindValue (endpoint : Endpoint) (key : jsString) (value : JsVal)
  : BindVal :=
  let paramConfig := findConfig (allConfigs endpoint) key in
  match value with
  | VNull =>
      BOracle None
        (match configType paramConfig with
         | Some TNumber => ORA_NUMBER
         | Some TDate => ORA_DATE
         | _ => ORA_STRING
         end) (Some (CVal VNull)) None
  | _ =>
      match configType paramConfig with
      | Some TNumber => BOracle None ORA_NUMBER (Some (CNumber value)) None
      | Some TDate => BOracle None ORA_STRING (Some (CVal value)) None
      | _ => BOracle None ORA_STRING (Some (CString value)) None
      end
  end.

(** Whether a name is an output bind of the procedure that ran. *)
Definition isOutBind (procOutBinds : option JsObject) (key : jsString) : bool :=
  match procOutBinds with Some ob => hasProp ob key | None => false end.

(** The bodies of the round trip below: text that neither starts nor ends
    with white space and does not end with a semicolon. *)
Definition solidBody (b : jsString) : bool :=
  match b with
  | c :: _ =>
      negb (isSpace c) && negb (isSpace (last b c)) && negb (chEq (last b c) ";")
  | [] => false
  end.

(** The block that the Oracle dialect sends for a body. *)
Definition oracleBlock (procedureBody : jsString) : jsString :=
  lit "BEGIN " ++ procedureBody ++ lit "; END;".

(* ------------------------------------------------------------------ *)
(** ** The URL of an endpoint as the editor of endpoints stores it *)

(** [s.endsWith(p)] *)
Definition endsWith (p s : jsString) : bool := startsWith (rev p) (rev s).

(** [url.replace(/\/+/g, '/')]: every run of slashes becomes one slash.
    [prev] tells that the unit before was a slash of the current run. *)
Fixpoint collapseSlashes (prev : bool) (s : jsString) : jsString :=
  match s with
  | [] => []
  | c :: t =>
      if chEq c "/" then
        if prev then collapseSlashes true t
        else "/"%char :: collapseSlashes true t
      else c :: collapseSlashes false t
  end.

Definition API_PREFIX : jsString := lit "/api/".

Definition ensureApiPrefix (url : jsString) : jsString :=
  if startsWith API_PREFIX url then url else API_PREFIX ++ url.

Definition normalizeUrl (url : jsString) : jsString :=
  let normalized := collapseSlashes false url in
  let normalized :=
    if startsWith API_PREFIX normalized then normalized
    else API_PREFIX ++ (if startsWith (lit "/") normalized
                        then skipn 1 normalized else normalized) in
  if (length API_PREFIX <? length normalized) && endsWith (lit "/") normalized
  then removelast normalized
  else normalized.

(* ------------------------------------------------------------------ *)
(** ** The registry routes: [GET /api/endpoints/:name] *)

(** What a registry route sends: a status and a JSON body. *)
Record RegistryResponse := {
  regStatus : nat;
  regBody : JsVal
}.

Definition registryError (code : nat) (message : jsString) : RegistryResponse :=
  {| regStatus := code;
     regBody := VObj [(lit "success", VBool false); (lit "error", VStr message)] |}.

(** [endpoints.find(e => e.name === name)] on the parsed file. Reading
    [name] off [null] throws; a number, a string, a boolean or an array
    has no [name], so that only an object can be found. *)
Fixpoint findByName (endpoints : list JsVal) (name : jsString)
  : Result (option JsObject) :=
  match endpoints with
  | [] => Ok None
  | e :: rest =>
      match e with
      | VNull | VUndefined =>
          Throw {| errName := lit "TypeError";
                   errMessage := lit "Cannot read properties of null (reading 'name')";
                   errStatus := None |}
      | VObj o =>
          match getProp o (lit "name") with
          | VStr s => if strEq s name then Ok (Some o) else findByName rest name
          | _ => findByName rest name
          end
      | _ => findByName rest name
      end
  end.

(** The names taken out by
    [const { host, port, username, password, database, ...sanitizedEndpoint }]. *)
Definition connectionKeys : list jsString :=
  [lit "host"; lit "port"; lit "username"; lit "password"; lit "database"].

Definition sanitizedEndpoint (endpoint : JsObject) : JsObject :=
  spreadInto [] (filter (fun kv => negb (includes connectionKeys (fst kv))) endpoint).

(** The route. [file] is what [JSON.parse(fs.readFileSync(...))] gives,
    [None] when either of the two throws. *)
Definition getEndpointByName (file : option JsVal) (name : jsString)
  : RegistryResponse :=
  match file with
  | Some (VArr endpoints) =>
      match findByName endpoints name with
      | Ok (Some endpoint) =>
          {| regStatus := 200; regBody := VObj (sanitizedEndpoint endpoint) |}
      | Ok None => registryError 404 (lit "Endpoint not found")
      | Throw _ => registryError 500 (lit "Failed to load endpoint")
      end
  | _ => registryError 500 (lit "Failed to load endpoint")
  end.

(* ------------------------------------------------------------------ *)
(** ** The registry routes: [GET /api/endpoints] *)

(** [endpoints.json] as the route finds it: absent, there but not readable
    as JSON, or holding a value. *)
Inductive EndpointsFile :=
| FileAbsent
| FileUnreadable
| FileParsed (content : JsVal).

(** The own properties that [{ ...v }] copies: those of an object, the
    elements of an array and the units of a string under their indices,
    nothing for the other values. *)
Fixpoint indexedFrom {A} (f : A -> JsVal) (i : nat) (l : list A) : JsObject :=
  match l with
  | [] => []
  | a :: t => (natToString i, f a) :: indexedFrom f (S i) t
  end.

Definition spreadValue (v : JsVal) : JsObject :=
  match v with
  | VObj o => spreadInto [] o
  | VArr items => indexedFrom (fun e => e) 0 items
  | VStr s => indexedFrom (fun c => VStr [c]) 0 s
  | _ => []
  end.

(** [v || []] *)
Definition orEmptyList (v : JsVal) : JsVal := if truthy v then v else VArr [].

(** [ep => ({ ...ep, pathParams: ep.pathParams || [], queryParams: ep.queryParams || [] })] *)
Definition withDefaults (ep : JsVal) : Result JsVal :=
  match ep with
  | VNull | VUndefined =>
      Throw {| errName := lit "TypeError";
               errMessage := lit "Cannot read properties of null (reading 'pathParams')";
               errStatus := None |}
  | _ =>
      Ok (VObj (setProp
                  (setProp (spreadValue ep) (lit "pathParams")
                           (orEmptyList (rowField ep (lit "pathParams"))))
                  (lit "queryParams")
                  (orEmptyList (rowField ep (lit "queryParams")))))
  end.

Fixpoint mapResult {A B} (f : A -> Result B) (l : list A) : Result (list B) :=
  match l with
  | [] => Ok []
  | a :: t => b <- f a ;; rest <- mapResult f t ;; Ok (b :: rest)
  end.

(** The route, with the file as it leaves it. [writable] tells whether
    [fs.writeFileSync] succeeds. *)
Definition getEndpoints (file : EndpointsFile) (writable : bool)
  : RegistryResponse * EndpointsFile :=
  let failed := registryError 500 (lit "Failed to load endpoints") in
  let loaded : option (JsVal * EndpointsFile) :=
    match file with
    | FileParsed content => Some (content, file)
    | FileUnreadable | FileAbsent =>
        if writable then Some (VArr [], FileParsed (VArr [])) else None
    end in
  match loaded with
  | Some (VArr endpoints, file') =>
      match mapResult withDefaults endpoints with
      | Ok endpointsWithDefaults =>
          ({| regStatus := 200; regBody := VArr endpointsWithDefaults |}, file')
      | Throw _ => (failed, file')
      end
  | Some (_, file') => (failed, file')
  | None => (failed, file)
  end.


(** An entry of the answer against the entry [ep] of the file: an object
    whose two lists are those of [ep] when [ep] has them and empty lists
    otherwise, and whose other properties are those that [ep] spreads. *)
Definition defaulted (ep e : JsVal) : Prop :=
  exists o,
    e = VObj o /\
    getProp o (lit "pathParams") = orEmptyList (rowField ep (lit "pathParams")) /\
    getProp o (lit "queryParams") = orEmptyList (rowField ep (lit "queryParams")) /\
    truthy (getProp o (lit "pathParams")) = true /\
    truthy (getProp o (lit "queryParams")) = true /\
    forall k, k <> lit "pathParams" -> k <> lit "queryParams" ->
      lookupProp o k = lookupProp (spreadValue ep) k.

(* ------------------------------------------------------------------ *)
(** ** The name of a copied endpoint: [generateCopyName] *)

(** A unit that [.] does not match. *)
Definition isLineTerminator (c : ascii) : bool :=
  (code c =? 10) || (code c =? 13).

(** What [(?: copy( \d+)?)?$] matches: nothing, [ copy], or [ copy ]
    followed by digits up to the end. *)
Definition isCopySuffix (s : jsString) : bool :=
  isEmpty s || strEq s (lit " copy") ||
  (startsWith (lit " copy ") s &&
   negb (isEmpty (skipn 6 s)) && forallb isDigit (skipn 6 s)).

(** Group 1 of [/^(.*?)(?: copy( \d+)?)?$/] on [s]: the shortest start of
    [s] after which the rest is a copy suffix; [None] when the pattern does
    not match, a line terminator standing in the way. *)
Fixpoint copyBase (s : jsString) : option jsString :=
  if isCopySuffix s then Some []
  else
    match s with
    | [] => None
    | c :: t =>
        if isLineTerminator c then None
        else match copyBase t with
             | Some b => Some (c :: b)
             | None => None
             end
    end.

(** The loop [while (existingEndpoints.some(e => e.name === copyName))],
    by the number of rounds it may still take. *)
Fixpoint copyLoop (rounds : nat) (names : list jsString) (baseName : jsString)
    (counter : nat) (copyName : jsString) : option jsString :=
  if includes names copyName then
    match rounds with
    | O => None
    | S more =>
        copyLoop more names baseName (S counter)
                 (baseName ++ lit " copy " ++ natToString counter)
    end
  else Some copyName.

(** [names] are the names of [existingEndpoints]. The loop takes at most
    one round for each of them. *)
Definition generateCopyName (originalName : jsString) (names : list jsString)
  : option jsString :=
  let baseName :=
    match copyBase originalName with
    | Some b => b
    | None => originalName
    end in
  copyLoop (length names) names baseName 1 (baseName ++ lit " copy").

(** The names that the loop goes through, in its order. *)
Definition copyCandidate (baseName : jsString) (j : nat) : jsString :=
  match j with
  | O => baseName ++ lit " copy"
  | S _ => baseName ++ lit " copy " ++ natToString j
  end.

(* ------------------------------------------------------------------ *)
(** ** The registry routes: [sanitizeParams] of [POST /api/endpoints] *)

(** [...(v && { k: v })]: one property when [v] is not an empty value,
    nothing otherwise. *)
Definition spreadIfSet (acc : JsObject) (k : jsString) (v : JsVal) : JsObject :=
  spreadInto acc (if truthy v then [(k, v)] else []).

(** The object that [sanitizeParams] makes of one parameter. *)
Definition sanitizeParam (param : JsVal) : Result JsVal :=
  match param with
  | VNull | VUndefined =>
      Throw {| errName := lit "TypeError";
               errMessage := lit "Cannot read properties of null (reading 'name')";
               errStatus := None |}
  | _ =>
      Ok (VObj
            (spreadIfSet
               (spreadIfSet
                  (spreadIfSet
                     [(lit "name", rowField param (lit "name"));
                      (lit "type", rowField param (lit "type"));
                      (lit "required", rowField param (lit "required"))]
                     (lit "stringConstraints")
                     (rowField param (lit "stringConstraints")))
                  (lit "numberConstraints")
                  (rowField param (lit "numberConstraints")))
               (lit "dateConstraints")
               (rowField param (lit "dateConstraints"))))
  end.

(** [(params || []).map(param => ...)]: only a list has a [map]. *)
Definition sanitizeParams (params : JsVal) : Result JsVal :=
  if truthy params then
    match params with
    | VArr items => items' <- mapResult sanitizeParam items ;; Ok (VArr items')
    | _ => Throw {| errName := lit "TypeError";
                    errMessage := lit "(params || []).map is not a function";
                    errStatus := None |}
    end
  else Ok (VArr []).

(** The names that a stored parameter can have. *)
Definition paramKeys : list jsString :=
  [lit "name"; lit "type"; lit "required";
   lit "stringConstraints"; lit "numberConstraints"; lit "dateConstraints"].

(** A stored parameter [e] against the parameter [param] that was sent:
    only the six names, the first three always and with the value sent,
    a constraint when one was sent that is not an empty value. *)
Definition storedParam (param e : JsVal) : Prop :=
  exists o,
    e = VObj o /\
    (forall k, hasProp o k = true -> In k paramKeys) /\
    (forall k, In k [lit "name"; lit "type"; lit "required"] ->
       lookupProp o k = Some (rowField param k)) /\
    (forall k, In k [lit "stringConstraints"; lit "numberConstraints";
                     lit "dateConstraints"] ->
       lookupProp o k
       = if truthy (rowField param k) then Some (rowField param k) else None).


(** The OUT bind that the Oracle dialect makes for a name. *)
Definition outBindOf (endpoint : Endpoint) (param : jsString) : BindVal :=
  BOracle (Some BIND_OUT)
          (getOracleType (findConfig (epPathParams endpoint ++ epQueryParams endpoint)
                                     param))
          None
          (match getOracleType (findConfig (epPathParams endpoint
                                            ++ epQueryParams endpoint) param) with
           | ORA_STRING => Some 4000
           | _ => None
           end).


(** An endpoint whose query takes its one parameter from the URL. *)
Definition orderByIdEndpoint : Endpoint :=
  {| epName := lit "order"; epMethod := lit "GET";
     epUrl := Some (lit "/api/orders/{id}"); requireToken := false;
     sqlQuery := Some (lit "SELECT * FROM orders WHERE id = {id}");
     sqlProcedure := None;
     epPathParams := []; epQueryParams := []; jsonSchema := None |}.

(* ------------------------------------------------------------------ *)
(** ** Queries that take the outputs of a procedure *)

(** A query as its writer sees it: plain text, and places [@name] where
    an output of the procedure goes. *)
Inductive SqlPiece :=
| SqlText (text : jsString)
| OutputRef (name : jsString).

Definition pieceText (p : SqlPiece) : jsString :=
  match p with
  | SqlText t => t
  | OutputRef n => "@"%char :: n
  end.

Definition sqlOf (pieces : list SqlPiece) : jsString := flat_map pieceText pieces.

(** A non-empty run of word characters. *)
Definition isWord (n : jsString) : bool :=
  negb (isEmpty n) && forallb isWordChar n.

(** The queries of the claim: the plain text holds no [@], and every
    [@name] is a word followed by the end of the query or by plain text
    that starts with a character that is no word character. *)
Fixpoint substitutable (pieces : list SqlPiece) : bool :=
  match pieces with
  | [] => true
  | SqlText t :: rest => negb (existsb (chEq "@") t) && substitutable rest
  | OutputRef n :: rest =>
      isWord n
      && match rest with
         | [] => true
         | SqlText (c :: _) :: _ => negb (isWordChar c)
         | _ => false
         end
      && substitutable rest
  end.

(** The outputs of the claim: each name is a word, and no value prints
    with an [@] or a [$]. *)
Definition plainOutputs (outBinds : JsObject) : bool :=
  forallb (fun kv =>
             isWord (fst kv)
             && negb (existsb (fun c => chEq c "@" || chEq c "$")
                              (renderOutput (snd kv))))
          outBinds.

(** A piece with the outputs in place: the value of the name where the
    procedure gave one, the placeholder as it is otherwise. *)
Definition fillPiece (outBinds : JsObject) (p : SqlPiece) : jsString :=
  match p with
  | SqlText t => t
  | OutputRef n =>
      match lookupProp outBinds n with
      | Some value => renderOutput value
      | None => "@"%char :: n
      end
  end.


(** The piece that a piece becomes when the outputs are put in. *)
Definition fillRef (outBinds : JsObject) (p : SqlPiece) : SqlPiece :=
  match p with
  | SqlText _ => p
  | OutputRef n =>
      match lookupProp outBinds n with
      | Some value => SqlText (renderOutput value)
      | None => p
      end
  end.

(** The number of matches of [\$name\b] in a text. *)
Fixpoint dollarOccurrences (name s : jsString) : nat :=
  match s with
  | [] => 0
  | c :: t =>
      (if chEq c "$" && startsWith name t
          && negb (isWordOpt (hd_error (skipn (length name) t)))
       then 1 else 0)
      + dollarOccurrences name t
  end.

(** What the steps after the dollar bind do to a stretch of the body of a
    procedure: [{p}] becomes [:p] for each path name that has a value and,
    on Oracle, [@o] becomes [:o] for each output name. *)
Definition namedPathParams (procBindSource : JsObject) (names : list jsString)
    (u : jsString) : jsString :=
  fold_left
    (fun u param =>
       if negb (isUndefined (getProp procBindSource param))
       then replaceAll ["{"%char :: param ++ ["}"%char]] false
                       (":"%char :: param) u
       else u)
    names u.

Definition namedOutputParams (names : list jsString) (u : jsString) : jsString :=
  fold_left
    (fun u param => replaceAll ["@"%char :: param] false (":"%char :: param) u)
    names u.

Definition namedParams (dbType : DbType) (procBindSource : JsObject)
    (original u : jsString) : jsString :=
  let details := extractParamDetails original in
  let u1 := namedPathParams procBindSource (pathParams details) u in
  match dbType with
  | Oracle => namedOutputParams (outputParams details) u1
  | MySQL => u1
  end.

(** An endpoint whose procedure takes a path parameter, the whole payload
    and an output. *)
Definition noteByIdEndpoint : Endpoint :=
  {| epName := lit "saveNoteById"; epMethod := lit "POST";
     epUrl := Some (lit "/api/notes/{id}"); requireToken := false;
     sqlQuery := None;
     sqlProcedure := Some (lit "save_note({id}, $payload, @status)");
     epPathParams := []; epQueryParams := []; jsonSchema := None |}.

(** Two objects with the same keys in the same order, whose values differ
    at most under the key [k]. *)
Definition sameButValue (k : jsString) (o1 o2 : JsObject) : Prop :=
  Forall2 (fun a b => fst a = fst b /\ (fst a <> k -> snd a = snd b)) o1 o2.

(** Two requests that differ at most in the value that the client sent as
    [appUser]: in the query string on GET, in the body otherwise. *)
Definition sameButAppUser (req1 req2 : Request) : Prop :=
  reqMethod req1 = reqMethod req2 /\
  reqPath req1 = reqPath req2 /\
  reqAuthorization req1 = reqAuthorization req2 /\
  if strEq (reqMethod req1) (lit "GET")
  then reqBody req1 = reqBody req2 /\
       sameButValue (lit "appUser") (reqQuery req1) (reqQuery req2)
  else reqQuery req1 = reqQuery req2 /\
       sameButValue (lit "appUser") (reqBody req1) (reqBody req2).

(** The request of [bearerRequest] with another [appUser] from the client. *)
Definition otherUserRequest : Request :=
  {| reqMethod := lit "GET"; reqPath := lit "/api/orders/7";
     reqAuthorization := Some (lit "Bearer abc.def.ghi");
     reqQuery := [(lit "appUser", VStr (lit "eve"))];
     reqBody := [] |}.

(** The three tests that an endpoint has to pass for a request, with the
    path parameters it then gives: its method is that of the request, its
    URL starts with [/api/], and the pattern compiled from its URL matches
    the path. *)
Definition passesTests (e : Endpoint) (req : Request) (p : JsObject) : Prop :=
  epMethod e = reqMethod req /\
  exists url groups,
    epUrl e = Some url /\ startsWith (lit "/api/") url = true /\
    matchUrl url (reqPath req) = Some groups /\ p = spreadInto [] groups.

Definition failsTests (e : Endpoint) (req : Request) : Prop :=
  forall p, ~ passesTests e req p.

Definition maximumOnly (hi : float64) : NumberConstraints :=
  {| minimum := None; maximum := Some hi; precision := None |}.

(* ================================================================== *)
(** * Properties *)

Lemma chEq_eq a b : chEq a b = true <-> a = b.
Proof. apply Ascii.eqb_eq. Qed.

Lemma strEq_eq a b : strEq a b = true <-> a = b.
Proof.
  revert b; induction a as [|x a IH]; intros [|y b]; simpl; split; intro H;
    try reflexivity; try discriminate.
  - apply andb_true_iff in H as [H1 H2].
    apply chEq_eq in H1. apply IH in H2. congruence.
  - injection H as -> ->. apply andb_true_iff; split.
    + now apply chEq_eq.
    + now apply IH.
Qed.

Lemma strEq_refl a : strEq a a = true.
Proof. now apply strEq_eq. Qed.

Lemma strEq_neq a b : strEq a b = false <-> a <> b.
Proof.
  split.
  - intros H E. apply strEq_eq in E. congruence.
  - intro H. destruct (strEq a b) eqn:E; [|reflexivity].
    apply strEq_eq in E. contradiction.
Qed.

Lemma includes_In l x : includes l x = true <-> In x l.
Proof.
  induction l as [|y l IH]; simpl.
  - split; [discriminate | tauto].
  - rewrite orb_true_iff, strEq_eq, IH. tauto.
Qed.

Lemma includes_not_In l x : includes l x = false <-> ~ In x l.
Proof.
  rewrite <- includes_In. destruct (includes l x); split; intro H;
    try congruence; try discriminate.
Qed.

(** *** The set of names of [uniqueNames] *)

Lemma fold_setAdd_uniqueFrom l : forall acc,
  fold_left setAdd l acc = acc ++ uniqueFrom acc l.
Proof.
  induction l as [|x l IH]; intro acc; simpl.
  - now rewrite app_nil_r.
  - unfold setAdd at 2. destruct (includes acc x).
    + apply IH.
    + rewrite IH, <- app_assoc. reflexivity.
Qed.

Lemma uniqueNames_uniqueFrom l : uniqueNames l = uniqueFrom [] l.
Proof. unfold uniqueNames. now rewrite fold_setAdd_uniqueFrom. Qed.

Lemma uniqueFrom_In l : forall acc x,
  In x (uniqueFrom acc l) <-> In x l /\ ~ In x acc.
Proof.
  induction l as [|y l IH]; intros acc x; simpl.
  - tauto.
  - destruct (includes acc y) eqn:E.
    + apply includes_In in E. rewrite IH. split.
      * tauto.
      * intros [[->|H] Hn]; tauto.
    + apply includes_not_In in E. simpl. rewrite IH, in_app_iff. simpl.
      destruct (list_eq_dec ascii_dec y x) as [->|Hne]; [tauto|].
      split.
      * intros [H|[H Hn]]; [contradiction|]. split; [tauto|]. tauto.
      * intros [[H|H] Hn]; [contradiction|]. right. split; [assumption|].
        intros [H1|[H1|[]]]; [contradiction|]. now apply Hne.
Qed.

Lemma uniqueNames_In l x : In x (uniqueNames l) <-> In x l.
Proof. rewrite uniqueNames_uniqueFrom, uniqueFrom_In. simpl. tauto. Qed.

Lemma firstIndex_cons_neq x y l :
  y <> x -> firstIndex x (y :: l) = S (firstIndex x l).
Proof. intro H. simpl. apply strEq_neq in H. now rewrite H. Qed.

Lemma firstSeenOrder_cons x r l :
  Forall (fun a => a <> x) r ->
  firstSeenOrder r l -> firstSeenOrder r (x :: l).
Proof.
  unfold firstSeenOrder.
  induction r as [|a r IH]; intros Hall Hs; constructor;
    inversion Hall as [|? ? Ha Hr]; inversion Hs as [|? ? Hs' Hf]; subst.
  - now apply IH.
  - rewrite Forall_forall in *. intros b Hb.
    assert (b <> x) by now apply Hr.
    rewrite !firstIndex_cons_neq by congruence.
    specialize (Hf b Hb). simpl in Hf. lia.
Qed.

Lemma uniqueFrom_sorted l : forall acc,
  firstSeenOrder (uniqueFrom acc l) l.
Proof.
  induction l as [|x l IH]; intro acc; simpl.
  - constructor.
  - destruct (includes acc x) eqn:E.
    + apply includes_In in E. apply firstSeenOrder_cons; [|apply IH].
      apply Forall_forall. intros a Ha ->. apply uniqueFrom_In in Ha. tauto.
    + assert (Hall : Forall (fun a => a <> x) (uniqueFrom (acc ++ [x]) l)).
      { apply Forall_forall. intros a Ha ->. apply uniqueFrom_In in Ha.
        destruct Ha as [_ Ha]. apply Ha, in_app_iff. simpl. tauto. }
      constructor.
      * apply firstSeenOrder_cons; [assumption | apply IH].
      * rewrite Forall_forall in *. intros b Hb. simpl.
        rewrite strEq_refl.
        assert (Hx : strEq x b = false).
        { apply strEq_neq. intro. apply (Hall b Hb). congruence. }
        rewrite Hx. lia.
Qed.

Lemma uniqueNames_sorted l : firstSeenOrder (uniqueNames l) l.
Proof. rewrite uniqueNames_uniqueFrom. apply uniqueFrom_sorted. Qed.

Lemma firstSeenOrder_filter f l occ :
  firstSeenOrder l occ -> firstSeenOrder (filter f l) occ.
Proof.
  unfold firstSeenOrder. induction 1 as [|a l Hs IH Hf]; simpl.
  - constructor.
  - destruct (f a); [|assumption]. constructor; [assumption|].
    rewrite Forall_forall in *. intros b Hb. apply Hf.
    now apply filter_In in Hb.
Qed.

Lemma firstSeenOrder_NoDup l occ : firstSeenOrder l occ -> NoDup l.
Proof.
  unfold firstSeenOrder. induction 1 as [|a l Hs IH Hf]; constructor.
  - intro Hin. rewrite Forall_forall in Hf. specialize (Hf a Hin).
    simpl in Hf. lia.
  - assumption.
Qed.

(** A match of [<sigil>(\w+)] names a non-empty run of word characters. *)
Lemma scanSigil_word sigil s : forall skip n,
  In n (scanSigil sigil skip s) ->
  exists c t, n = c :: t /\ isWordChar c = true.
Proof.
  induction s as [|c s IH]; intros skip n; simpl; [tauto|].
  destruct skip as [|k]; [|apply IH].
  destruct (chEq c sigil && negb (isEmpty (wordRun s))) eqn:E; [|apply IH].
  intros [<-|H]; [|now apply IH in H].
  apply andb_true_iff in E as [_ E].
  destruct s as [|d s']; simpl in *; [discriminate|].
  destruct (isWordChar d) eqn:Ed; [|discriminate]. eauto.
Qed.

Lemma neqOpt_dollarMatches sql k n :
  In n (colonNames sql) -> neqOpt n (nth_error (dollarMatches sql) k) = true.
Proof.
  intro Hn. apply scanSigil_word in Hn as (c & t & -> & Hc).
  destruct (nth_error (dollarMatches sql) k) as [d|] eqn:E; [|reflexivity].
  apply nth_error_In in E. unfold dollarMatches in E.
  apply in_map_iff in E as (m & <- & _). unfold neqOpt.
  apply negb_true_iff, strEq_neq. intros [= -> _]. discriminate.
Qed.

(** Membership in the three lists that [extractParamDetails] returns. *)
Lemma extract_path_In sql n :
  In n (pathParams (extractParamDetails sql)) <-> In n (braceNames sql).
Proof.
  destruct sql as [|c s]; [simpl; tauto|].
  unfold extractParamDetails, braceNames. cbn [pathParams].
  apply uniqueNames_In.
Qed.

Lemma extract_query_In sql n :
  In n (queryParams (extractParamDetails sql)) <->
  In n (colonNames sql) /\ ~ In n (braceNames sql).
Proof.
  destruct sql as [|c s]; [simpl; tauto|].
  unfold extractParamDetails. cbn [queryParams].
  rewrite !filter_In, uniqueNames_In, negb_true_iff, includes_not_In,
    uniqueNames_In.
  fold (colonNames (c :: s)) (braceNames (c :: s)).
  split; [tauto|]. intros [H1 H2]. repeat split; try assumption.
  now apply neqOpt_dollarMatches.
Qed.

Lemma extract_output_In sql n :
  In n (outputParams (extractParamDetails sql)) <->
  In n (atNames sql) /\ ~ In n (colonNames sql) /\ ~ In n (braceNames sql).
Proof.
  destruct sql as [|c s]; [simpl; tauto|].
  unfold extractParamDetails. cbn [outputParams].
  rewrite filter_In, uniqueNames_In, andb_true_iff, !negb_true_iff,
    !includes_not_In, filter_In, !uniqueNames_In.
  fold (colonNames (c :: s)) (braceNames (c :: s)) (atNames (c :: s)).
  split; [|tauto]. intros [H1 [H2 H3]]. repeat split; try assumption.
  intro Hc. apply H2. split; [assumption|]. now apply neqOpt_dollarMatches.
Qed.

Lemma extract_sorted sql :
  firstSeenOrder (pathParams (extractParamDetails sql)) (braceNames sql) /\
  firstSeenOrder (queryParams (extractParamDetails sql)) (colonNames sql) /\
  firstSeenOrder (outputParams (extractParamDetails sql)) (atNames sql).
Proof.
  destruct sql as [|c s]; [repeat split; constructor|].
  unfold extractParamDetails; cbn [pathParams queryParams outputParams].
  repeat split; repeat apply firstSeenOrder_filter; apply uniqueNames_sorted.
Qed.

(** C1, as amended. For a name [n] that the text does not also write as
    [$n]: [n] is a path parameter exactly when the text writes [{n}]; a
    query parameter exactly when it writes [:n] and not [{n}]; an output
    parameter exactly when it writes [@n] and neither [:n] nor [{n}]
    (precedence path, then query, then output). For every text, each of
    the three lists is free of duplicates and lists its names in the order
    of their first occurrence, and no name is in two of the lists. *)
Theorem extractParamDetails_classes (sql n : jsString)
    (Hn : ~ In n (dollarNames sql)) :
  let r := extractParamDetails sql in
  (In n (pathParams r) <-> In n (braceNames sql)) /\
  (In n (queryParams r) <->
     In n (colonNames sql) /\ ~ In n (braceNames sql)) /\
  (In n (outputParams r) <->
     In n (atNames sql) /\ ~ In n (colonNames sql) /\ ~ In n (braceNames sql)) /\
  NoDup (pathParams r) /\ NoDup (queryParams r) /\ NoDup (outputParams r) /\
  firstSeenOrder (pathParams r) (braceNames sql) /\
  firstSeenOrder (queryParams r) (colonNames sql) /\
  firstSeenOrder (outputParams r) (atNames sql) /\
  (forall m, ~ (In m (pathParams r) /\ In m (queryParams r))) /\
  (forall m, ~ (In m (pathParams r) /\ In m (outputParams r))) /\
  (forall m, ~ (In m (queryParams r) /\ In m (outputParams r))).
Proof.
  intro r. subst r.
  destruct (extract_sorted sql) as (Sp & Sq & So).
  repeat split; try assumption;
    try (eapply firstSeenOrder_NoDup; eassumption);
    try (apply extract_path_In; assumption);
    try (apply extract_query_In; assumption);
    try (apply extract_output_In; assumption).
  - intros m [H1 H2]. apply extract_path_In in H1.
    apply extract_query_In in H2. tauto.
  - intros m [H1 H2]. apply extract_path_In in H1.
    apply extract_output_In in H2. tauto.
  - intros m [H1 H2]. apply extract_query_In in H1.
    apply extract_output_In in H2. tauto.
Qed.

Lemma extractParamDetails_classes_witness :
  ~ In (lit "b") (dollarNames (lit "CALL p({a}, :b, @c, $d)")) /\
  (In (lit "b") (queryParams (extractParamDetails (lit "CALL p({a}, :b, @c, $d)")))
   <-> In (lit "b") (colonNames (lit "CALL p({a}, :b, @c, $d)")) /\
       ~ In (lit "b") (braceNames (lit "CALL p({a}, :b, @c, $d)"))).
Proof.
  assert (H : ~ In (lit "b") (dollarNames (lit "CALL p({a}, :b, @c, $d)"))).
  { vm_compute. intros [H|[]]. discriminate H. }
  split; [exact H|].
  exact (proj1 (proj2 (extractParamDetails_classes
                         (lit "CALL p({a}, :b, @c, $d)") (lit "b") H))).
Defined.

(** C1 as stated fails: a name written both [:x] and [@x] is a query
    parameter, although the text claims it as an output bind. *)
Lemma extractParamDetails_query_before_output :
  ~ (forall n,
       In n (queryParams (extractParamDetails (lit "CALL p(:x, @x)"))) <->
       In n (colonNames (lit "CALL p(:x, @x)")) /\
       ~ In n (braceNames (lit "CALL p(:x, @x)")) /\
       ~ In n (dollarNames (lit "CALL p(:x, @x)")) /\
       ~ In n (atNames (lit "CALL p(:x, @x)"))).
Proof.
  intro H. specialize (H (lit "x")). vm_compute in H.
  destruct H as [H _]. destruct H as (_ & _ & _ & H); [now left|].
  apply H. now left.
Qed.

(* ------------------------------------------------------------------ *)
(** ** Number validation *)

Lemma isDigit_code c : isDigit c = true <-> 48 <= code c <= 57.
Proof.
  unfold isDigit. rewrite andb_true_iff, !Nat.leb_le. tauto.
Qed.

Lemma isDigit_not_space c : isDigit c = true -> isSpace c = false.
Proof.
  intro H. apply isDigit_code in H. unfold isSpace.
  destruct (Nat.leb_spec 9 (code c)), (Nat.leb_spec (code c) 13),
    (Nat.eqb_spec (code c) 32), (Nat.eqb_spec (code c) 160);
    simpl; try reflexivity; lia.
Qed.

Lemma isDigit_not_sign c : isDigit c = true -> isSign c = false.
Proof.
  intro H. unfold isSign. apply orb_false_iff.
  split; apply not_true_iff_false; intro E; apply chEq_eq in E; subst;
    discriminate.
Qed.

Lemma isDigit_not_point c : isDigit c = true -> chEq c "." = false.
Proof.
  intro H. apply not_true_iff_false; intro E; apply chEq_eq in E; subst.
  discriminate.
Qed.

Lemma isDigit_not_minus c : isDigit c = true -> chEq c "-" = false.
Proof.
  intro H. apply not_true_iff_false; intro E; apply chEq_eq in E; subst.
  discriminate.
Qed.

Lemma digitRun_app ip rest :
  forallb isDigit ip = true ->
  match rest with c :: _ => isDigit c = false | [] => True end ->
  digitRun (ip ++ rest) = ip.
Proof.
  intros Hip Hrest. induction ip as [|d ip IH]; simpl in *.
  - destruct rest as [|c r]; [reflexivity|]. simpl. now rewrite Hrest.
  - apply andb_true_iff in Hip as [Hd Hip]. rewrite Hd. f_equal. now apply IH.
Qed.

Lemma digitRun_digits s : forallb isDigit (digitRun s) = true.
Proof.
  induction s as [|c s IH]; simpl; [reflexivity|].
  destruct (isDigit c) eqn:E; simpl; [|reflexivity]. now rewrite E.
Qed.

Lemma digitRun_split s : digitRun s ++ skipn (length (digitRun s)) s = s.
Proof.
  induction s as [|c s IH]; simpl; [reflexivity|].
  destruct (isDigit c); simpl; [now rewrite IH | reflexivity].
Qed.

Lemma skipn_length_app {A} (a b : list A) : skipn (length a) (a ++ b) = b.
Proof. induction a; simpl; auto. Qed.

Lemma splitOn_digits fp : forall cur,
  forallb isDigit fp = true -> splitOn "." cur fp = [rev cur ++ fp].
Proof.
  induction fp as [|d fp IH]; intros cur H; simpl in *.
  - now rewrite app_nil_r.
  - apply andb_true_iff in H as [Hd H]. rewrite (isDigit_not_point _ Hd).
    rewrite IH by assumption. simpl. now rewrite <- app_assoc.
Qed.

Lemma splitOn_number ip tail : forall cur,
  forallb isDigit ip = true ->
  splitOn "." cur (ip ++ tail) = splitOn "." (rev ip ++ cur) tail.
Proof.
  induction ip as [|d ip IH]; intros cur H; simpl in *; [reflexivity|].
  apply andb_true_iff in H as [Hd H]. rewrite (isDigit_not_point _ Hd).
  rewrite IH by assumption. now rewrite <- app_assoc.
Qed.

(* ------------------------------------------------------------------ *)
(** ** Numbers *)

Lemma iter_pos_keeps {A} (P : A -> Prop) (f : A -> A) :
  (forall y, P y -> P (f y)) -> forall p x, P x -> P (iter_pos f p x).
Proof.
  intros Hf. induction p as [p IH|p IH|]; intros x Hx; cbn [iter_pos].
  - apply IH. apply IH. now apply Hf.
  - apply IH. now apply IH.
  - now apply Hf.
Qed.

Lemma shr_1_nonneg mrs : (0 <= shr_m mrs)%Z -> (0 <= shr_m (shr_1 mrs))%Z.
Proof.
  destruct mrs as [m r s0]. cbn [shr_m]. intros H.
  destruct m as [|[p|p|]|p]; cbn [shr_1 shr_m]; try lia.
Qed.

Lemma shr_fexp_nonneg m e l :
  (0 <= m)%Z -> (0 <= shr_m (fst (shr_fexp 53 1024 m e l)))%Z.
Proof.
  intros H. unfold shr_fexp, shr.
  assert (H0 : (0 <= shr_m (shr_record_of_loc m l))%Z).
  { destruct l as [|[| |]]; exact H. }
  destruct (fexp 53 1024 (Zdigits2 m + e) - e)%Z as [|p|p]; cbn [fst];
    try exact H0.
  apply (iter_pos_keeps (fun y => (0 <= shr_m y)%Z)); [|exact H0].
  apply shr_1_nonneg.
Qed.

Lemma round_nearest_even_nonneg m l :
  (0 <= m)%Z -> (0 <= round_nearest_even m l)%Z.
Proof.
  intros H. unfold round_nearest_even.
  destruct l as [|[| |]]; try destruct (Z.even m); lia.
Qed.

Lemma binary_round_aux_number sx mx ex lx :
  (0 <= mx)%Z -> isNaN (binary_round_aux 53 1024 sx mx ex lx) = false.
Proof.
  intros H. unfold binary_round_aux.
  pose proof (shr_fexp_nonneg mx ex lx H) as H1.
  destruct (shr_fexp 53 1024 mx ex lx) as [mrs' e']. cbn [fst] in H1.
  pose proof (shr_fexp_nonneg
                (round_nearest_even (shr_m mrs') (loc_of_shr_record mrs'))
                e' loc_Exact
                (round_nearest_even_nonneg _ _ H1)) as H2.
  destruct (shr_fexp 53 1024 _ e' loc_Exact) as [mrs2 e2]. cbn [fst] in H2.
  destruct (shr_m mrs2) as [|p|p]; [reflexivity| |lia].
  now destruct (e2 <=? 1024 - 53)%Z.
Qed.

(** A decimal is never read as NaN. *)
Lemma decimalValue_number neg digits exp :
  isNaN (decimalValue neg digits exp) = false.
Proof.
  unfold decimalValue. destruct digits as [|d|d]; try reflexivity.
  destruct exp as [|e|e].
  - unfold binary_round.
    destruct (shl_align _ _ _) as [mz ez]. now apply binary_round_aux_number.
  - unfold binary_round.
    destruct (shl_align _ _ _) as [mz ez]. now apply binary_round_aux_number.
  - unfold SFdiv_core_binary.
    set (m' := match (0 - 0 - _)%Z with
               | Zpos _ => Z.shiftl (Zpos d) _
               | Z0 => Zpos d
               | Zneg _ => 0%Z
               end).
    assert (Hm : (0 <= m')%Z).
    { subst m'. destruct (0 - 0 - _)%Z; try lia.
      apply Z.shiftl_nonneg. lia. }
    pose proof (Z.div_pos m' (Z.pow_pos 10 e) Hm) as Hq.
    unfold Z.div in Hq.
    destruct (Z.div_eucl m' (Z.pow_pos 10 e)) as [q r].
    apply binary_round_aux_number. apply Hq.
    change (Z.pow_pos 10 e) with (10 ^ Zpos e)%Z. apply Z.pow_pos_nonneg; lia.
Qed.

Section NumberShape.
Variables (sign ip fp : jsString) (point : bool).
Hypothesis shape : numberShape sign ip fp point.

Local Abbreviation body := (numberBody ip fp point).

Lemma shape_body_head :
  match body with c :: _ => isSign c = false /\ isSpace c = false | [] => False end.
Proof.
  destruct shape as (_ & Hip & Hfp & Hp & Hn). unfold numberBody.
  destruct ip as [|d ip']; simpl in *.
  - destruct point; [split; reflexivity|]. now apply Hn; [|apply Hp].
  - apply andb_true_iff in Hip as [Hd _].
    split; [now apply isDigit_not_sign | now apply isDigit_not_space].
Qed.

Lemma shape_trimStart :
  trimStart (numberText sign ip fp point) = numberText sign ip fp point.
Proof.
  unfold numberText. pose proof shape_body_head as Hb.
  destruct shape as ([->|[->| ->]] & _); simpl; try reflexivity.
  destruct body as [|c b]; [contradiction|]. simpl. now destruct Hb as [_ ->].
Qed.

Lemma shape_dropSign : dropSign (numberText sign ip fp point) = body.
Proof.
  unfold numberText. pose proof shape_body_head as Hb.
  destruct shape as ([->|[->| ->]] & _); simpl; try reflexivity.
  destruct body as [|c b]; [contradiction|]. simpl. now destruct Hb as [-> _].
Qed.

Lemma shape_digitRun : digitRun body = ip.
Proof.
  destruct shape as (_ & Hip & _). unfold numberBody.
  apply digitRun_app; [assumption|]. now destruct point.
Qed.

Lemma shape_isNumberLiteral :
  isNumberLiteral (numberText sign ip fp point) = true.
Proof.
  unfold isNumberLiteral. rewrite shape_dropSign, shape_digitRun.
  unfold numberBody.
  destruct shape as (_ & Hip & Hfp & Hp & Hn).
  destruct ip as [|d ip']; [|rewrite skipn_length_app]; destruct point;
    simpl; try reflexivity; try assumption.
  - rewrite Hfp. destruct fp; [now exfalso; apply Hn | reflexivity].
  - exfalso. now apply Hn; [|apply Hp].
Qed.

Lemma shape_parseFloat :
  parseFloat (numberText sign ip fp point) = numberValue sign ip fp.
Proof.
  unfold parseFloat. rewrite shape_trimStart, shape_dropSign, shape_digitRun.
  pose proof shape_body_head as Hb.
  destruct shape as (Hs & Hip & Hfp & Hp & Hn).
  assert (Hinf : startsWith (lit "Infinity") (numberBody ip fp point) = false).
  { unfold numberBody. destruct ip as [|d ip'].
    - destruct point; [reflexivity|]. now exfalso; apply Hn; [|apply Hp].
    - cbn [forallb] in Hip. apply andb_true_iff in Hip as [Hd _].
      cbn [app lit list_ascii_of_string startsWith].
      destruct (chEq "I" d) eqn:E; [|reflexivity].
      apply chEq_eq in E. subst d. discriminate. }
  rewrite Hinf. unfold numberBody in *. rewrite skipn_length_app.
  assert (Hf : (match (if point then "."%char :: fp else []) with
                | c :: f => if chEq c "." then digitRun f else []
                | [] => []
                end) = fp).
  { destruct point; simpl.
    - rewrite <- (app_nil_r fp) at 1. now apply digitRun_app.
    - symmetry. now apply Hp. }
  rewrite Hf.
  assert (He : isEmpty ip && isEmpty fp = false).
  { destruct ip; [|reflexivity]. destruct fp; [now exfalso; apply Hn|reflexivity]. }
  rewrite He.
  assert (Hr : (match (if point then "."%char :: fp else []) with
                | c :: f => if chEq c "." then skipn (length fp) f else c :: f
                | [] => []
                end) = []).
  { destruct point; [|reflexivity]. cbn [chEq Ascii.eqb]. 
    change (chEq "." ".") with true. cbn iota. apply skipn_all. }
  rewrite Hr. cbn [exponentPart]. unfold numberValue, numberText.
  f_equal.
  destruct Hs as [->|[->| ->]]; cbn [app]; try reflexivity.
  unfold numberBody.
  destruct (ip ++ (if point then "."%char :: fp else [])) as [|c b];
    [contradiction|].
  destruct Hb as [Hb _]. unfold isSign in Hb.
  apply orb_false_iff in Hb as [_ Hb]. exact Hb.
Qed.

Lemma shape_decimalPlaces :
  match nth_error (splitOn "." [] (numberText sign ip fp point)) 1 with
  | Some frac => length frac
  | None => 0
  end = length fp.
Proof.
  destruct shape as (Hs & Hip & Hfp & Hp & Hn).
  unfold numberText, numberBody.
  assert (Hsplit : forall pre, ~ In "."%char pre ->
            splitOn "." [] (pre ++ (if point then "."%char :: fp else []))
            = if point then [pre; fp] else [pre]).
  { intros pre Hpre.
    assert (G : forall cur,
              splitOn "." cur (pre ++ (if point then "."%char :: fp else []))
              = if point then [rev cur ++ pre; fp] else [rev cur ++ pre]).
    { induction pre as [|c pre IH]; intro cur; simpl.
      - destruct point; simpl; rewrite ?app_nil_r; [|reflexivity].
        now rewrite splitOn_digits.
      - assert (chEq c "." = false) as ->.
        { apply not_true_iff_false. intro E. apply chEq_eq in E.
          apply Hpre. now left. }
        rewrite IH by (intro; apply Hpre; now right). simpl.
        now destruct point; rewrite <- app_assoc. }
    apply G. }
  rewrite app_assoc, Hsplit.
  - destruct point; simpl; [reflexivity|]. now rewrite Hp.
  - intro Hin. apply in_app_iff in Hin as [Hin|Hin].
    + destruct Hs as [->|[->| ->]]; simpl in Hin; intuition discriminate.
    + rewrite forallb_forall in Hip. now apply Hip in Hin.
Qed.
End NumberShape.

Lemma isNumberLiteral_shape v :
  isNumberLiteral v = true ->
  exists sign ip fp point,
    v = numberText sign ip fp point /\ numberShape sign ip fp point.
Proof.
  unfold isNumberLiteral. intro H.
  set (sign := match v with c :: _ => if isSign c then [c] else [] | [] => [] end).
  assert (Hv : v = sign ++ dropSign v).
  { subst sign. destruct v as [|c t]; simpl; [reflexivity|].
    now destruct (isSign c). }
  assert (Hs : isSignText sign).
  { subst sign. destruct v as [|c t]; [now left|].
    destruct (isSign c) eqn:E; [|now left]. unfold isSign in E.
    apply orb_true_iff in E as [E|E]; apply chEq_eq in E; subst; unfold isSignText; auto. }
  pose proof (digitRun_split (dropSign v)) as Hb.
  pose proof (digitRun_digits (dropSign v)) as Hd.
  destruct (digitRun (dropSign v)) as [|d ip] eqn:Eip;
    destruct (skipn (length (digitRun (dropSign v))) (dropSign v)) as [|c f] eqn:Er;
    rewrite Eip in *; rewrite ?Er in *; simpl in Hb; try discriminate.
  - apply andb_true_iff in H as [H Hf]. apply andb_true_iff in H as [Hc Hne].
    apply chEq_eq in Hc. subst c.
    exists sign, [], f, true. split.
    + unfold numberText, numberBody. simpl. now rewrite Hb.
    + repeat split; try assumption; try discriminate.
      intros _ ->. discriminate.
  - exists sign, (d :: ip), [], false. split.
    + unfold numberText, numberBody. simpl. now rewrite Hb.
    + repeat split; try assumption; try discriminate.
  - apply andb_true_iff in H as [Hc Hf]. apply chEq_eq in Hc. subst c.
    exists sign, (d :: ip), f, true. split.
    + unfold numberText, numberBody. simpl. now rewrite Hb.
    + repeat split; try assumption; try discriminate.
Qed.

Lemma validateNumberConstraints_shape sign ip fp point nc :
  numberShape sign ip fp point ->
  (exists u, validateNumberConstraints (VStr (numberText sign ip fp point)) nc = Ok u)
  <-> numberConstraintsHold nc sign ip fp.
Proof.
  intro Hs. unfold validateNumberConstraints, numberConstraintsHold.
  cbn [toStringJs]. rewrite (shape_parseFloat _ _ _ _ Hs), (shape_decimalPlaces _ _ _ _ Hs).
  destruct nc as [lo hi pr]. cbn [minimum maximum precision].
  destruct lo as [lo|], hi as [hi|], pr as [[|p]|]; cbn [bind];
    repeat match goal with
           | |- context [if ?b then _ else _] => destruct b eqn:?; cbn [bind]
           end;
    (split;
     [ intros [u Hu]; try discriminate Hu;
       repeat split; intros; try discriminate;
       repeat match goal with H : Some _ = Some _ |- _ => injection H as <- end;
       try assumption; try (apply Nat.ltb_ge; assumption)
     | intros (H0 & HS & Hlo & Hhi);
       try (specialize (H0 eq_refl)); try (specialize (HS _ eq_refl));
       try (specialize (Hlo _ eq_refl)); try (specialize (Hhi _ eq_refl));
       try congruence; try (eexists; reflexivity);
       try (exfalso; match goal with H : (_ <? _) = true |- _ =>
                                     apply Nat.ltb_lt in H; lia end) ]).
Qed.

(** C7, as amended. A value of a number parameter that is text without
    surrounding white space is accepted exactly when it is an optional
    sign followed by digits with an optional point and optional further
    digits, or by a point and digits, and the declared constraints hold:
    with precision 0 the parsed value is integral, with a precision above 0
    the digits after the point are no more than the precision, and the
    value is within minimum and maximum where these are set. The parsed
    value is the binary64 number nearest to the decimal that the text
    writes, and it is this number that is tested for being integral and
    compared with minimum and maximum. *)
Theorem number_validation_accepts (lib : Libraries) (paramType name v : jsString)
    (cfg : ParamConfig)
    (Htype : cfgType cfg = Some TNumber)
    (Hne : v <> []) (Htrim : trim v = v) :
  (exists r, convertAndValidateValue lib paramType (VStr v) name (Some cfg) = Ok r)
  <->
  (exists sign ip fp point,
      v = numberText sign ip fp point /\ numberShape sign ip fp point /\
      forall nc, numberConstraints cfg = Some nc ->
                 numberConstraintsHold nc sign ip fp).
Proof.
  unfold convertAndValidateValue. cbn [toStringJs isNullish orb cfgTypeOf].
  rewrite Htrim, Htype.
  assert (isEmpty v = false) as -> by (destruct v; [contradiction|reflexivity]).
  split.
  - intros [r Hr].
    destruct (isNumberLiteral v) eqn:E; [|discriminate Hr].
    apply isNumberLiteral_shape in E as (sign & ip & fp & point & -> & Hs).
    exists sign, ip, fp, point.
    split; [reflexivity|]. split; [exact Hs|]. intros nc Hnc.
    cbn [negb] in Hr. cbv zeta in Hr.
    rewrite (shape_parseFloat _ _ _ _ Hs) in Hr.
    unfold numberValue in Hr at 1. rewrite decimalValue_number in Hr.
    destruct cfg as [n t rq sc nco dc]. cbn [numberConstraints] in *.
    subst nco.
    apply (validateNumberConstraints_shape _ _ _ _ nc Hs).
    destruct (validateNumberConstraints (VStr (numberText sign ip fp point)) nc)
      as [u|e] eqn:Ev; [|discriminate Hr].
    now exists u.
  - intros (sign & ip & fp & point & -> & Hs & Hc).
    rewrite (shape_isNumberLiteral _ _ _ _ Hs). cbn [negb]. cbv zeta.
    rewrite (shape_parseFloat _ _ _ _ Hs).
    unfold numberValue at 1. rewrite decimalValue_number.
    destruct cfg as [n t rq sc [nc|] dc]; cbn [numberConstraints] in *;
      [|eexists; reflexivity].
    destruct (validateNumberConstraints_shape _ _ _ _ nc Hs) as [_ Hv].
    destruct (Hv (Hc nc eq_refl)) as [u ->]. eexists; reflexivity.
Qed.

Lemma number_validation_accepts_witness :
  cfgType (numberParam (lit "amount") (Some (precisionOnly 2))) = Some TNumber /\
  lit "1.23" <> [] /\ trim (lit "1.23") = lit "1.23" /\
  exists r,
    convertAndValidateValue permissiveLibraries (lit "query")
      (VStr (lit "1.23")) (lit "amount")
      (Some (numberParam (lit "amount") (Some (precisionOnly 2)))) = Ok r.
Proof.
  assert (H1 : lit "1.23" <> []) by discriminate.
  split; [reflexivity|]. split; [exact H1|]. split; [reflexivity|].
  apply (proj2 (number_validation_accepts permissiveLibraries (lit "query")
                  (lit "amount") (lit "1.23")
                  (numberParam (lit "amount") (Some (precisionOnly 2)))
                  eq_refl H1 eq_refl)).
  exists [], (lit "1"), (lit "23"), true.
  split; [reflexivity|]. split.
  - repeat split; try reflexivity; try discriminate. now left.
  - intros nc [= <-]. repeat split; try discriminate.
    intros p [= <-]. simpl. lia.
Defined.

(** The three cases that the specification names. *)
Example number_precision_cases :
  convertAndValidateValue permissiveLibraries (lit "query")
    (VStr (lit "1.234")) (lit "amount")
    (Some (numberParam (lit "amount") (Some (precisionOnly 2))))
  = Throw (mkError (lit "Invalid value for query parameter 'amount': Value cannot have more than 2 decimal places"))
  /\
  convertAndValidateValue permissiveLibraries (lit "query")
    (VStr (lit "1.23")) (lit "amount")
    (Some (numberParam (lit "amount") (Some (precisionOnly 2))))
  = Ok (VNum (decimalValue false 123 (-2)))
  /\
  convertAndValidateValue permissiveLibraries (lit "query")
    (VStr (lit "1.5")) (lit "amount")
    (Some (numberParam (lit "amount") (Some (precisionOnly 0))))
  = Throw (mkError (lit "Invalid value for query parameter 'amount': Value must be a whole number")).
Proof. repeat split; vm_compute; reflexivity. Qed.

(** The parsed value is a binary64 number. A text with more digits than
    such a number holds is accepted at precision 0 when the nearest number
    is whole, and under a maximum when the nearest number is the maximum;
    a text above the maximum is refused. A number prints with an exponent
    from [1e21] on and below [1e-6], and its text is then not of the form
    that the validator accepts. *)
Example number_binary64_cases :
  convertAndValidateValue permissiveLibraries (lit "query")
    (VStr (lit "1.0000000000000000001")) (lit "amount")
    (Some (numberParam (lit "amount") (Some (precisionOnly 0))))
  = Ok (VNum (decimalValue false 1 0))
  /\
  convertAndValidateValue permissiveLibraries (lit "query")
    (VStr (lit "0.30000000000000001")) (lit "amount")
    (Some (numberParam (lit "amount")
             (Some (maximumOnly (decimalValue false 3 (-1))))))
  = Ok (VNum (decimalValue false 3 (-1)))
  /\
  convertAndValidateValue permissiveLibraries (lit "query")
    (VStr (lit "0.31")) (lit "amount")
    (Some (numberParam (lit "amount")
             (Some (maximumOnly (decimalValue false 3 (-1))))))
  = Throw (mkError (lit "Invalid value for query parameter 'amount': Value must be less than or equal to 0.3"))
  /\
  numToString (decimalValue false 1 21) = lit "1e+21"
  /\
  numToString (decimalValue false 1 (-7)) = lit "1e-7"
  /\
  convertAndValidateValue permissiveLibraries (lit "query")
    (VNum (decimalValue false 1 (-7))) (lit "amount")
    (Some (numberParam (lit "amount") None))
  = Throw (mkError (lit "Invalid number value for query parameter 'amount': 1e-7"))
  /\
  convertAndValidateValue permissiveLibraries (lit "query")
    (VNum (decimalValue false 1 21)) (lit "count") None
  = Ok (VStr (lit "1e+21")).
Proof. repeat split; vm_compute; reflexivity. Qed.

(** C7 as stated fails: a point followed by digits is accepted, although
    the grammar of the specification wants digits before the point. *)
Lemma number_validation_leading_point :
  ~ ((exists r,
        convertAndValidateValue permissiveLibraries (lit "query")
          (VStr (lit ".5")) (lit "amount")
          (Some (numberParam (lit "amount") None)) = Ok r)
     <-> specNumberGrammar (lit ".5") = true).
Proof.
  intros [H _].
  assert (E : specNumberGrammar (lit ".5") = false) by reflexivity.
  rewrite E in H. enough (false = true) by discriminate.
  apply H. eexists. vm_compute. reflexivity.
Qed.

(* ------------------------------------------------------------------ *)
(** ** Objects *)

Lemma lookupProp_getProp (o : JsObject) k :
  getProp o k = match lookupProp o k with Some v => v | None => VUndefined end.
Proof.
  induction o as [|[k' v] o IH]; simpl; [reflexivity|].
  now destruct (strEq k' k).
Qed.

Lemma hasProp_In {V} (o : list (jsString * V)) k :
  hasProp o k = true <-> In k (map fst o).
Proof.
  induction o as [|[k' v] o IH]; simpl.
  - split; [discriminate | tauto].
  - rewrite orb_true_iff, strEq_eq, IH. tauto.
Qed.

Lemma lookupProp_replaceProp {V} (o : list (jsString * V)) k v k' :
  hasProp o k = true ->
  lookupProp (replaceProp o k v) k' = if strEq k k' then Some v else lookupProp o k'.
Proof.
  induction o as [|[k0 v0] o IH]; simpl; [discriminate|].
  destruct (strEq k0 k) eqn:E; simpl.
  - intros _. apply strEq_eq in E. subst k0. now destruct (strEq k k').
  - intro H. rewrite IH by assumption.
    destruct (strEq k0 k') eqn:E'; [|reflexivity].
    apply strEq_eq in E'. subst k0.
    destruct (strEq k k') eqn:E2; [|reflexivity].
    apply strEq_eq in E2. subst k. rewrite strEq_refl in E. discriminate.
Qed.

Lemma lookupProp_insertProp {V} (o : list (jsString * V)) k v k' :
  hasProp o k = false ->
  lookupProp (insertProp o k v) k' = if strEq k k' then Some v else lookupProp o k'.
Proof.
  induction o as [|[k0 v0] o IH]; simpl; [reflexivity|].
  intro H. apply orb_false_iff in H as [H0 H].
  assert (Hk : strEq k0 k' = true -> strEq k k' = false).
  { intro E. apply strEq_eq in E. subst k0. apply strEq_neq.
    apply strEq_neq in H0. congruence. }
  destruct (arrayIndex k) as [n|], (arrayIndex k0) as [n0|];
    try destruct (n <? n0)%N; simpl; try reflexivity;
    rewrite ?IH by assumption;
    destruct (strEq k0 k') eqn:E'; try reflexivity;
    now rewrite Hk.
Qed.

Lemma lookupProp_setProp {V} (o : list (jsString * V)) k v k' :
  lookupProp (setProp o k v) k' = if strEq k k' then Some v else lookupProp o k'.
Proof.
  unfold setProp. destruct (hasProp o k) eqn:E.
  - now apply lookupProp_replaceProp.
  - now apply lookupProp_insertProp.
Qed.

(* ------------------------------------------------------------------ *)
(** ** The transaction of an emulated procedure execution *)

Lemma call_run c d t :
  call c d t = (t ++ [(c, d (map fst t) c)], d (map fst t) c).
Proof. reflexivity. Qed.

Lemma resetOutputs_shape names : forall d t,
  (exists seg, resetOutputs names d t = (t ++ seg, Ok tt) /\
               map fst seg = map resetCall names /\ Forall entryOk seg) \/
  (exists seg n e rest,
      resetOutputs names d t = (t ++ seg ++ [(resetCall n, Throw e)], Throw e) /\
      map resetCall names = map fst seg ++ resetCall n :: rest /\
      Forall entryOk seg).
Proof.
  induction names as [|n names IH]; intros d t; simpl.
  - left. exists []. unfold ret. rewrite app_nil_r. auto.
  - unfold bindIO. rewrite call_run.
    destruct (d (map fst t) (resetCall n)) as [r|e] eqn:E.
    + destruct (IH d (t ++ [(resetCall n, Ok r)]))
        as [(seg & -> & Hm & Hok)|(seg & m & e & rest & -> & Hm & Hok)].
      * left. exists ((resetCall n, Ok r) :: seg).
        rewrite <- app_assoc. simpl. repeat split; try congruence.
        constructor; [now exists r | assumption].
      * right. exists ((resetCall n, Ok r) :: seg), m, e, rest.
        rewrite <- app_assoc. simpl. repeat split; try congruence.
        constructor; [now exists r | assumption].
    + right. exists [], n, e, (map resetCall names). simpl. auto.
Qed.

Lemma recoveredFrom_app n acc a b :
  recoveredFrom n acc (a ++ b) = recoveredFrom n (recoveredFrom n acc a) b.
Proof. apply fold_left_app. Qed.

Lemma recoveredFrom_other n (seg : Trace) : forall acc,
  Forall (fun cr => isRecovery (fst cr) = false) seg ->
  recoveredFrom n acc seg = acc.
Proof.
  induction seg as [|[c r] seg IH]; intros acc H; [reflexivity|].
  inversion H as [|? ? Hc Hs]; subst. cbn [fst] in Hc.
  unfold recoveredFrom in *. cbn [fold_left].
  destruct c; try discriminate; now apply IH.
Qed.

Lemma resets_not_recovery (seg : Trace) names :
  map fst seg = map resetCall names ->
  Forall (fun cr => isRecovery (fst cr) = false) seg.
Proof.
  revert names. induction seg as [|[c r] seg IH]; intros [|n names] H;
    simpl in *; try discriminate; constructor.
  - injection H as -> _. reflexivity.
  - injection H as _ H. now apply (IH names).
Qed.

(** A name whose recovery selects all threw or answered without a row
    is left without a value. *)
Lemma recoveredFrom_none n tr : forall acc,
  (forall r, In (selectCall n, Ok r) tr -> rows r = []) ->
  recoveredFrom n acc tr = acc.
Proof.
  induction tr as [|[c r] tr IH]; intros acc H; [reflexivity|].
  unfold recoveredFrom in *. cbn [fold_left].
  assert (Ht : forall r0, In (selectCall n, Ok r0) tr -> rows r0 = [])
    by (intros r0 Hr; apply H; now right).
  destruct c as [| |sql b o|sql| | |]; try now apply IH.
  destruct r as [r|e]; [|now apply IH].
  destruct (strEq (lit "SELECT @" ++ n ++ lit " as value") sql) eqn:E;
    [|now apply IH].
  apply strEq_eq in E. subst sql.
  rewrite (H r) by (now left). now apply IH.
Qed.

Lemma recoveredFrom_select m n acc r :
  recoveredFrom m acc [(selectCall n, Ok r)]
  = if strEq n m
    then match rows r with
         | row :: _ => Some (rowField row (lit "value"))
         | [] => acc
         end
    else acc.
Proof.
  unfold recoveredFrom, selectCall. cbn [fold_left].
  destruct (strEq n m) eqn:Enm.
  - apply strEq_eq in Enm. subst m. now rewrite strEq_refl.
  - destruct (strEq (lit "SELECT @" ++ m ++ lit " as value")
                (lit "SELECT @" ++ n ++ lit " as value")) eqn:Es;
      [|reflexivity].
    apply strEq_eq in Es. apply app_inv_head in Es.
    apply app_inv_tail in Es. subst m.
    rewrite strEq_refl in Enm. discriminate.
Qed.

Lemma fetchOutputs_shape names : forall out d t,
  exists seg out',
    fetchOutputs names out d t = (t ++ seg, Ok out') /\
    map fst seg = map selectCall names /\
    forall m, lookupProp out' m = recoveredFrom m (lookupProp out m) seg.
Proof.
  induction names as [|n names IH]; intros out d t; cbn [fetchOutputs].
  - exists [], out. unfold ret. now rewrite app_nil_r.
  - unfold bindIO, tryCatch, ret. rewrite call_run.
    destruct (d (map fst t) (selectCall n)) as [r|e] eqn:E;
      match goal with
      | |- context [fetchOutputs names ?o d ?t'] =>
          destruct (IH o d t') as (seg & out' & -> & Hm & Hv)
      end.
    + exists ((selectCall n, Ok r) :: seg), out'.
      rewrite <- app_assoc. split; [reflexivity|].
      split; [cbn [map fst]; congruence|]. intro m. rewrite Hv.
      change ((selectCall n, Ok r) :: seg)
        with ([(selectCall n, Ok r)] ++ seg).
      rewrite recoveredFrom_app, recoveredFrom_select. f_equal.
      destruct (rows r) as [|row rest].
      * now destruct (strEq n m).
      * apply lookupProp_setProp.
    + exists ((selectCall n, Throw e) :: seg), out'.
      rewrite <- app_assoc. split; [reflexivity|].
      split; [cbn [map fst]; congruence|]. intro m. now rewrite Hv.
Qed.

Lemma Forall_entryOk_stepOk seg : Forall entryOk seg -> Forall stepOk seg.
Proof. apply Forall_impl. intros a H. now right. Qed.

Lemma Forall_recovery_stepOk seg names :
  map fst seg = map selectCall names -> Forall stepOk seg.
Proof.
  revert names. induction seg as [|[c r] seg IH]; intros [|n names] H;
    simpl in *; try discriminate; constructor.
  - left. injection H as -> _. reflexivity.
  - injection H as _ H. now apply (IH names).
Qed.

Lemma mysql_steps_uniform outputs sql inParams d t :
  (match outputs with
   | _ :: _ =>
       resetOutputs outputs ;;;
       call (Execute sql (Positional inParams) noOptions) ;;;
       fetchOutputs outputs []
   | [] => call (Execute sql (Positional inParams) noOptions) ;;; ret []
   end) d t
  = (resetOutputs outputs ;;;
     call (Execute sql (Positional inParams) noOptions) ;;;
     fetchOutputs outputs []) d t.
Proof. destruct outputs; reflexivity. Qed.

Lemma mysql_steps_shape outputs sql inParams d t :
  let exec := Execute sql (Positional inParams) noOptions in
  let m := match outputs with
           | _ :: _ => resetOutputs outputs ;;; call exec ;;; fetchOutputs outputs []
           | [] => call exec ;;; ret []
           end in
  (exists seg rx sel outs,
      m d t = (t ++ seg ++ (exec, Ok rx) :: sel, Ok outs) /\
      map fst seg = map resetCall outputs /\ Forall entryOk seg /\
      map fst sel = map selectCall outputs /\
      forall n, lookupProp outs n = recoveredFrom n None sel) \/
  (exists seg c e rest,
      m d t = (t ++ seg ++ [(c, Throw e)], Throw e) /\
      map resetCall outputs ++ [exec] = map fst seg ++ c :: rest /\
      isRecovery c = false /\ Forall entryOk seg).
Proof.
  intros exec m. subst m exec. rewrite mysql_steps_uniform.
  set (exec := Execute sql (Positional inParams) noOptions).
  destruct ((resetOutputs outputs ;;; call exec ;;; fetchOutputs outputs []) d t)
    as [tr res] eqn:Erun.
  unfold bindIO in Erun.
  destruct (resetOutputs_shape outputs d t)
    as [(seg & Hr & Hm & Hok)|(seg & n & e & rest & Hr & Hm & Hok)];
    rewrite Hr in Erun.
  - rewrite call_run in Erun.
    destruct (d (map fst (t ++ seg)) exec) as [rx|ex] eqn:Ex.
    + destruct (fetchOutputs_shape outputs [] d ((t ++ seg) ++ [(exec, Ok rx)]))
        as (sel & outs & Hf & Hsel & Hv).
      rewrite Hf in Erun. injection Erun as <- <-.
      left. exists seg, rx, sel, outs. rewrite <- !app_assoc. simpl. auto.
    + injection Erun as <- <-.
      right. exists seg, exec, ex, []. rewrite <- !app_assoc, Hm. auto.
  - injection Erun as <- <-.
    right. exists seg, (resetCall n), e, (rest ++ [exec]).
    rewrite Hm, <- app_assoc. auto.
Qed.

Ltac trace_eq :=
  f_equal;
  [ rewrite <- ?app_assoc; simpl; rewrite <- ?app_assoc; reflexivity
  | reflexivity ].

Ltac rollback_step d Erun :=
  rewrite call_run in Erun; unfold raise in Erun;
  match type of Erun with
  | context [d ?h Rollback] => destruct (d h Rollback) eqn:?
  end;
  injection Erun as <- <-.

Lemma mysqlTransaction_shape orig body params d t :
  (exists steps outs,
      mysqlTransaction orig body params d t
      = (t ++ steps, Ok {| rows := []; outBinds := Some outs |}) /\
      map fst steps = plannedCalls orig body params /\ Forall stepOk steps /\
      forall n, lookupProp outs n = recoveredFrom n None steps) \/
  (exists steps c e rb rest,
      mysqlTransaction orig body params d t
      = (t ++ steps ++ [(c, Throw e); (Rollback, rb)],
         Throw (match rb with Ok _ => e | Throw e' => e' end)) /\
      plannedCalls orig body params = map fst steps ++ c :: rest /\
      isRecovery c = false /\ Forall stepOk steps).
Proof.
  destruct (mysqlTransaction orig body params d t) as [tr res] eqn:Erun.
  unfold mysqlTransaction, plannedCalls in *.
  destruct (positionalStatement params body) as [sql inParams].
  cbn [fst snd]. set (outputs := scanSigil "@" 0 orig) in *.
  set (exec := Execute sql (Positional inParams) noOptions) in *.
  pose proof (mysql_steps_shape outputs sql inParams d
                (t ++ [(BeginTransaction, d (map fst t) BeginTransaction)]))
    as Hsteps.
  cbv zeta in Hsteps. fold exec in Hsteps.
  set (m := match outputs with
            | [] => call exec ;;; ret []
            | _ :: _ => resetOutputs outputs ;;; call exec ;;; fetchOutputs outputs []
            end) in *.
  unfold tryCatch, bindIO in Erun. rewrite call_run in Erun.
  destruct (d (map fst t) BeginTransaction) as [rb0|e0] eqn:Eb.
  2:{ rollback_step d Erun; right;
        exists [], BeginTransaction, e0; eexists; eexists;
        (split; [trace_eq|]); simpl; repeat split; constructor. }
  destruct Hsteps as [(seg & rx & sel & outs & Hrun & Hm & Hok & Hsel & Hv)
                     |(seg & c & e & rest & Hrun & Hm & Hrec & Hok)];
    rewrite Hrun in Erun.
  - rewrite call_run in Erun. unfold ret in Erun.
    assert (Hall : Forall stepOk
              ((BeginTransaction, Ok rb0) :: seg ++ (exec, Ok rx) :: sel)).
    { constructor; [right; now exists rb0|].
      apply Forall_app. split; [now apply Forall_entryOk_stepOk|].
      constructor; [right; now exists rx|].
      now apply (Forall_recovery_stepOk _ outputs). }
    match type of Erun with
    | context [d ?h Commit] => destruct (d h Commit) as [rc|ec] eqn:Ec
    end.
    + injection Erun as <- <-. left.
      exists (((BeginTransaction, Ok rb0) :: seg ++ (exec, Ok rx) :: sel)
              ++ [(Commit, Ok rc)]), outs.
      split; [|split; [|split]].
      * f_equal. rewrite <- !app_assoc. simpl. now rewrite <- !app_assoc.
      * rewrite map_app. simpl. rewrite map_app. simpl.
        rewrite Hm, Hsel. now rewrite <- !app_assoc.
      * apply Forall_app. split; [assumption|].
        constructor; [right; now exists rc | constructor].
      * intro n. rewrite Hv.
        change ((BeginTransaction, Ok rb0) :: seg ++ (exec, Ok rx) :: sel)
          with ([(BeginTransaction, Ok rb0)] ++ seg ++ [(exec, Ok rx)] ++ sel).
        rewrite !recoveredFrom_app.
        rewrite (recoveredFrom_other n [(Commit, Ok rc)])
          by (constructor; [reflexivity | constructor]).
        f_equal.
        rewrite (recoveredFrom_other n [(exec, Ok rx)])
          by (constructor; [reflexivity | constructor]).
        rewrite (recoveredFrom_other n seg)
          by (now apply (resets_not_recovery seg outputs)).
        reflexivity.
    + rollback_step d Erun; right;
        exists ((BeginTransaction, Ok rb0) :: seg ++ (exec, Ok rx) :: sel),
          Commit, ec; eexists; exists [];
        (split; [|split; [|split]]);
        try trace_eq; try reflexivity; try assumption;
        simpl; rewrite map_app; simpl; rewrite Hm, Hsel;
        now rewrite <- !app_assoc.
  - rollback_step d Erun; right;
      exists ((BeginTransaction, Ok rb0) :: seg), c, e; eexists;
      exists (rest ++ map selectCall outputs ++ [Commit]);
      (split; [|split; [|split]]);
      try trace_eq; try assumption;
      try (constructor; [right; now exists rb0 | now apply Forall_entryOk_stepOk]);
      simpl; f_equal;
      replace (map resetCall outputs ++ exec :: map selectCall outputs ++ [Commit])
        with ((map resetCall outputs ++ [exec]) ++ map selectCall outputs ++ [Commit])
        by (rewrite <- app_assoc; reflexivity);
      rewrite Hm, <- app_assoc; reflexivity.
Qed.

Lemma countCalls_app f a b :
  countCalls f (a ++ b) = countCalls f a + countCalls f b.
Proof. unfold countCalls. now rewrite filter_app, length_app. Qed.

Lemma countCalls_calls f tr :
  countCalls f tr = length (filter f (map fst tr)).
Proof.
  unfold countCalls. induction tr as [|[c r] tr IH]; simpl; [reflexivity|].
  destruct (f c); simpl; now rewrite IH.
Qed.

Lemma filter_none {A} (f : A -> bool) l :
  (forall x, In x l -> f x = false) -> filter f l = [].
Proof.
  induction l as [|a l IH]; intro H; simpl; [reflexivity|].
  rewrite (H a) by now left. apply IH. intros x Hx. apply H. now right.
Qed.

Lemma plan_body orig body params :
  exists steps,
    plannedCalls orig body params = steps ++ [Commit] /\
    filter isCommit steps = [] /\ filter isRollback steps = [].
Proof.
  unfold plannedCalls.
  set (outputs := scanSigil "@" 0 orig). set (exec := Execute _ _ _).
  exists (BeginTransaction :: map resetCall outputs ++ [exec]
          ++ map selectCall outputs).
  split; [simpl; now rewrite <- !app_assoc|].
  split; apply filter_none; intros x [<-|Hx]; try reflexivity;
    apply in_app_iff in Hx as [Hx|Hx];
    try (apply in_map_iff in Hx as (n & <- & _); reflexivity);
    apply in_app_iff in Hx as [[<-|[]]|Hx]; try reflexivity;
    apply in_map_iff in Hx as (n & <- & _); reflexivity.
Qed.

Lemma prefix_filters pre : forall steps c rest,
  steps ++ [Commit] = pre ++ c :: rest ->
  filter isCommit steps = [] -> filter isRollback steps = [] ->
  filter isCommit pre = [] /\ filter isRollback pre = [] /\ isRollback c = false.
Proof.
  induction pre as [|a pre IH]; intros steps c rest H Hc Hr.
  - repeat split. destruct steps as [|x steps]; simpl in *.
    + now injection H as <- _.
    + injection H as -> _. now destruct (isRollback c).
  - destruct steps as [|x steps]; simpl in H.
    + injection H as _ H. now destruct pre.
    + injection H as -> H. simpl in Hc, Hr.
      destruct (isCommit a) eqn:Ea; [discriminate|].
      destruct (isRollback a) eqn:Eb; [discriminate|].
      simpl. rewrite Ea, Eb. now apply (IH steps c rest).
Qed.

Lemma plan_prefix orig body params pre c rest :
  plannedCalls orig body params = pre ++ c :: rest ->
  filter isCommit pre = [] /\ filter isRollback pre = [] /\ isRollback c = false.
Proof.
  destruct (plan_body orig body params) as (steps & -> & Hc & Hr).
  intro H. now apply (prefix_filters _ _ _ _ H).
Qed.

Lemma release_trace d t :
  fst ((call Release ;;; ret tt) d t) = t ++ [(Release, d (map fst t) Release)].
Proof.
  unfold bindIO, ret. rewrite call_run. now destruct (d (map fst t) Release).
Qed.

Lemma tryFinally_release {A} (m : IO A) d t :
  tryFinally m (call Release ;;; ret tt) d t
  = (fst (m d t) ++ [(Release, d (map fst (fst (m d t))) Release)],
     snd (m d t)).
Proof.
  unfold tryFinally. destruct (m d t) as [t' r]. now rewrite release_trace.
Qed.

(** C3, as amended. On the engine without OUT parameters, once the
    connection is obtained, a procedure execution runs in one transaction
    and ends in one of two ways. Either every planned call was made, in
    the order begin, resets, statement, recovery selects, commit, every
    call other than a recovery select succeeded, and the transaction was
    committed once and not rolled back. Or a planned call other than a
    recovery select threw, all calls before it other than recovery selects
    succeeded, no later planned call was made, the transaction was rolled
    back once and not committed, and the error is rethrown. A recovery
    select that throws is passed over and changes neither outcome. The
    outputs of a committed run are those that the recovery selects of the
    run gave: for each name, the column [value] of the first row of the
    last reply to its select that came with a row; a name whose selects
    all threw or answered without a row is left without a value. *)
Theorem mysql_procedure_transaction (d : Driver)
    (orig body : jsString) (params : list (jsString * BindVal))
    (options : ExecOptions) (c0 : DbReply)
    (Hconn : d [] GetConnection = Ok c0) :
  let run := executeProcedure MySQL orig body params options d [] in
  let plan := plannedCalls orig body params in
  (committedRun plan c0 (fst run) (snd run) /\
   commitSucceeded (fst run) /\
   countCalls isCommit (fst run) = 1 /\ countCalls isRollback (fst run) = 0 /\
   (forall outs n,
      snd run = Ok {| rows := []; outBinds := Some outs |} ->
      (forall r, In (selectCall n, Ok r) (fst run) -> rows r = []) ->
      lookupProp outs n = None))
  \/
  (rolledBackRun plan c0 (fst run) (snd run) /\
   ~ commitSucceeded (fst run) /\ countCalls isRollback (fst run) = 1).
Proof.
  intros run plan. subst run.
  destruct (executeProcedure MySQL orig body params options d [])
    as [tr res] eqn:Erun.
  cbn [fst snd]. unfold executeProcedure in Erun.
  unfold bindIO at 1 in Erun. rewrite call_run in Erun.
  cbn [map app] in Erun. rewrite Hconn in Erun. unfold tryFinally in Erun.
  destruct (mysqlTransaction_shape orig body params d [(GetConnection, Ok c0)])
    as [(steps & outs & Hrun & Hm & Hok & Hv)
       |(steps & c & e & rb & rest & Hrun & Hm & Hrec & Hok)];
    rewrite Hrun, release_trace in Erun; injection Erun as <- <-.
  - left. destruct (plan_body orig body params) as (pre & Hp & Hc & Hr).
    fold plan in Hm, Hp.
    assert (Hrec : forall n,
              lookupProp outs n
              = recoveredValue n
                  (([(GetConnection, Ok c0)] ++ steps)
                   ++ [(Release,
                        d (map fst ([(GetConnection, Ok c0)] ++ steps))
                          Release)])).
    { intro n. rewrite Hv. unfold recoveredValue.
      rewrite !recoveredFrom_app.
      now rewrite (recoveredFrom_other n [(Release, _)])
        by (constructor; [reflexivity | constructor]). }
    split; [|split; [|split; [|split]]].
    5:{ intros outs' n Eo Hn. injection Eo as <-. rewrite Hrec.
        now apply recoveredFrom_none. }
    + exists steps, (d (map fst ([(GetConnection, Ok c0)] ++ steps)) Release), outs.
      split; [reflexivity|]. split; [assumption|]. split; [assumption|].
      split; [reflexivity | exact Hrec].
    + rewrite Hp in Hm.
      destruct (exists_last (l := steps)) as (init & [c r] & ->).
      { intros ->. destruct pre; discriminate. }
      rewrite map_app in Hm. apply app_inj_tail in Hm as [_ Hm].
      simpl in Hm. subst c.
      apply Forall_app in Hok as [_ Hok]. inversion Hok as [|? ? [H|[r0 H]] _].
      * discriminate.
      * simpl in H. subst r. exists r0. simpl. right.
        apply in_app_iff. left. apply in_app_iff. right. now left.
    + rewrite countCalls_calls. simpl. rewrite map_app, filter_app, Hm, Hp.
      rewrite filter_app, Hc. reflexivity.
    + rewrite countCalls_calls. simpl. rewrite map_app, filter_app, Hm, Hp.
      rewrite filter_app, Hr. reflexivity.
  - right. fold plan in Hm.
    destruct (plan_prefix _ _ _ _ _ _ Hm) as (Hc & Hr & Hcr).
    split; [|split].
    + exists steps, c, e, rb. eexists. exists rest.
      split; [|repeat split; assumption].
      simpl. f_equal. rewrite <- app_assoc. reflexivity.
    + intros [r Hin]. simpl in Hin. destruct Hin as [Hin|Hin]; [discriminate|].
      rewrite <- app_assoc in Hin.
      apply in_app_iff in Hin as [Hin|Hin].
      * apply (in_map fst) in Hin. simpl in Hin.
        assert (In Commit (filter isCommit (map fst steps)))
          by (apply filter_In; now split).
        rewrite Hc in H. contradiction.
      * simpl in Hin. destruct Hin as [Hin|[Hin|[Hin|[]]]]; discriminate.
    + rewrite countCalls_calls. simpl.
      rewrite !map_app, !filter_app, Hr. simpl. rewrite Hcr. reflexivity.
Qed.

Lemma mysql_procedure_transaction_witness :
  answeringDriver [] GetConnection = Ok emptyReply /\
  let run := executeProcedure MySQL (lit "CALL p(:a, @c)") (lit "CALL p(:a, @c)")
               sampleProcParams noOptions answeringDriver [] in
  let plan := plannedCalls (lit "CALL p(:a, @c)") (lit "CALL p(:a, @c)")
                sampleProcParams in
  (committedRun plan emptyReply (fst run) (snd run) /\
   commitSucceeded (fst run) /\
   countCalls isCommit (fst run) = 1 /\ countCalls isRollback (fst run) = 0 /\
   (forall outs n,
      snd run = Ok {| rows := []; outBinds := Some outs |} ->
      (forall r, In (selectCall n, Ok r) (fst run) -> rows r = []) ->
      lookupProp outs n = None))
  \/
  (rolledBackRun plan emptyReply (fst run) (snd run) /\
   ~ commitSucceeded (fst run) /\ countCalls isRollback (fst run) = 1).
Proof.
  split; [reflexivity|].
  exact (mysql_procedure_transaction answeringDriver
           (lit "CALL p(:a, @c)") (lit "CALL p(:a, @c)")
           sampleProcParams noOptions emptyReply eq_refl).
Defined.

(** C3 as stated fails: when the recovery select throws, a step of the
    sequence has failed and the transaction is committed all the same. *)
Lemma mysql_commit_despite_failed_recovery :
  ~ (commitSucceeded
       (fst (executeProcedure MySQL (lit "CALL p(:a, @c)") (lit "CALL p(:a, @c)")
               sampleProcParams noOptions selectFailingDriver []))
     <-> Forall entryOk
           (fst (executeProcedure MySQL (lit "CALL p(:a, @c)") (lit "CALL p(:a, @c)")
                   sampleProcParams noOptions selectFailingDriver []))).
Proof.
  intros [H _].
  assert (C : commitSucceeded
                (fst (executeProcedure MySQL (lit "CALL p(:a, @c)")
                        (lit "CALL p(:a, @c)") sampleProcParams noOptions
                        selectFailingDriver []))).
  { exists emptyReply. vm_compute. tauto. }
  specialize (H C). rewrite Forall_forall in H.
  destruct (H (selectCall (lit "c"), Throw (mkError (lit "ER_UNKNOWN"))))
    as [r Hr]; [vm_compute; tauto | discriminate Hr].
Qed.

(** The outputs of two committed runs: the select answered with a row, and
    the select threw. *)
Example mysql_recovered_outputs_cases :
  snd (executeProcedure MySQL (lit "CALL p(:a, @c)") (lit "CALL p(:a, @c)")
         sampleProcParams noOptions answeringDriver [])
  = Ok {| rows := []; outBinds := Some [(lit "c", VStr (lit "42"))] |}
  /\
  snd (executeProcedure MySQL (lit "CALL p(:a, @c)") (lit "CALL p(:a, @c)")
         sampleProcParams noOptions selectFailingDriver [])
  = Ok {| rows := []; outBinds := Some [] |}.
Proof. split; vm_compute; reflexivity. Qed.

(* ------------------------------------------------------------------ *)
(** ** The guard *)

Lemma resolveUser_ok jwt dbType token keyId d t t' userId :
  resolveUser jwt dbType token keyId d t = (t', Ok userId) ->
  exists keyReply payload sessionReply,
    In (keyLookupCall dbType keyId, Ok keyReply) t' /\
    truthy (indexVal (firstRow keyReply) 0) = true /\
    jwtVerify jwt token (indexVal (firstRow keyReply) 0) = Ok payload /\
    truthy (rowField payload (lit "jti")) = true /\
    In (sessionLookupCall dbType (rowField payload (lit "jti")),
        Ok sessionReply) t' /\
    truthy (firstRow sessionReply) = true /\
    userId = indexVal (firstRow sessionReply) 0.
Proof.
  unfold resolveUser, bindIO. rewrite call_run.
  destruct (d (map fst t) (keyLookupCall dbType keyId)) as [keyReply|e] eqn:Ek;
    [|discriminate].
  destruct (truthy (indexVal (firstRow keyReply) 0)) eqn:Tk;
    cbn [negb]; [|discriminate].
  unfold liftResult.
  destruct (jwtVerify jwt token (indexVal (firstRow keyReply) 0))
    as [payload|e] eqn:Ev; [|discriminate].
  destruct (truthy (rowField payload (lit "jti"))) eqn:Tj;
    cbn [negb]; [|discriminate].
  rewrite call_run.
  match goal with
  | |- context [d ?h (sessionLookupCall ?a ?b)] =>
      destruct (d h (sessionLookupCall a b)) as [sessionReply|e] eqn:Es
  end; [|discriminate].
  destruct (truthy (firstRow sessionReply)) eqn:Ts; cbn [negb]; [|discriminate].
  unfold ret. intros [= <- <-].
  exists keyReply, payload, sessionReply.
  repeat split; try assumption; try reflexivity.
  - apply in_app_iff. left. apply in_app_iff. right. now left.
  - apply in_app_iff. right. now left.
Qed.

Lemma resolveUser_verify_throws jwt dbType token keyId d t keyReply e :
  d (map fst t) (keyLookupCall dbType keyId) = Ok keyReply ->
  truthy (indexVal (firstRow keyReply) 0) = true ->
  jwtVerify jwt token (indexVal (firstRow keyReply) 0) = Throw e ->
  snd (resolveUser jwt dbType token keyId d t) = Throw e.
Proof.
  intros Hk Tk Hv. unfold resolveUser, bindIO. rewrite call_run, Hk, Tk.
  cbn [negb]. unfold liftResult. now rewrite Hv.
Qed.

Lemma validateToken_outcome (jwt : JwtLibrary) (dbType : DbType)
    (req : Request) (endpoint : Endpoint) (d : Driver) (t : Trace) :
  requireToken endpoint = true ->
  exists outcome,
    snd (validateToken jwt dbType req endpoint d t) = Ok outcome /\
    match outcome with
    | Next req' =>
        authorizedRun jwt dbType req
          (fst (validateToken jwt dbType req endpoint d t)) req'
    | Responded r => status r = 401 /\ exists m, body r = BodyError m
    end.
Proof.
  intro Hreq.
  destruct (validateToken jwt dbType req endpoint d t) as [tr res] eqn:Erun.
  cbn [fst snd]. unfold validateToken in Erun. rewrite Hreq in Erun.
  cbn [negb] in Erun.
  assert (R : forall m, exists outcome,
              Ok (Responded (unauthorized m)) = Ok outcome /\
              match outcome with
              | Next req' => authorizedRun jwt dbType req tr req'
              | Responded r => status r = 401 /\ exists m, body r = BodyError m
              end).
  { intro m. eexists. split; [reflexivity|]. simpl. eauto. }
  destruct (reqAuthorization req) as [[|a authHeader]|] eqn:Ea;
    try (injection Erun as <- <-; apply R).
  destruct (bearerToken (a :: authHeader)) as [[|b token]|] eqn:Et;
    try (injection Erun as <- <-; apply R).
  destruct (jwtDecode jwt (b :: token)) as [[decoded|]|e] eqn:Ed;
    try (injection Erun as <- <-; apply R).
  destruct (negb (truthy (jwtHeader decoded))
            || negb (truthy (jwtPayload decoded))) eqn:Eh;
    try (injection Erun as <- <-; apply R).
  destruct (truthy (rowField (jwtHeader decoded) (lit "kid"))) eqn:Tk;
    cbn [negb] in Erun; try (injection Erun as <- <-; apply R).
  unfold tryCatch in Erun. unfold bindIO at 1 in Erun.
  rewrite call_run in Erun.
  destruct (d (map fst t) GetConnection) as [c0|e] eqn:Ec;
    try (injection Erun as <- <-; apply R).
  rewrite tryFinally_release in Erun. unfold bindIO in Erun.
  destruct (resolveUser jwt dbType (b :: token)
              (rowField (jwtHeader decoded) (lit "kid")) d
              (t ++ [(GetConnection, Ok c0)])) as [t1 [userId|e]] eqn:Er;
    cbn [ret fst snd] in Erun; injection Erun as <- <-; [|apply R].
  eexists. split; [reflexivity|].
  apply resolveUser_ok in Er
    as (keyReply & payload & sessionReply & H1 & H2 & H3 & H4 & H5 & H6 & ->).
  exists (a :: authHeader), (b :: token), decoded, keyReply, payload,
    sessionReply.
  repeat split; try assumption; try discriminate;
    apply in_app_iff; now left.
Qed.

(** C8. On an endpoint that requires a token, the guard either passes the
    request on, and then the header carried a token that decoded with a
    key id, the key was found, the signature and expiry verified, and the
    session of the token's id was found; or it answers 401 with a reason.
    So a missing header or token, a malformed token, an unknown key id, a
    failed verification and an unknown session each end in 401. When the
    verification throws, the reason is that of the error: an expired token
    gives "Token has expired", a signature mismatch "Invalid token", and
    the two differ. *)
Theorem validateToken_guard (jwt : JwtLibrary) (dbType : DbType)
    (req : Request) (endpoint : Endpoint) (d : Driver) (t : Trace)
    (Hreq : requireToken endpoint = true) :
  let run := validateToken jwt dbType req endpoint d t in
  (exists outcome,
      snd run = Ok outcome /\
      match outcome with
      | Next req' => authorizedRun jwt dbType req (fst run) req'
      | Responded r => status r = 401 /\ exists m, body r = BodyError m
      end) /\
  (forall authHeader token decoded c0 keyReply e,
      reqAuthorization req = Some authHeader -> authHeader <> [] ->
      bearerToken authHeader = Some token -> token <> [] ->
      jwtDecode jwt token = Ok (Some decoded) ->
      truthy (jwtHeader decoded) = true -> truthy (jwtPayload decoded) = true ->
      truthy (rowField (jwtHeader decoded) (lit "kid")) = true ->
      d (map fst t) GetConnection = Ok c0 ->
      d (map fst (t ++ [(GetConnection, Ok c0)]))
        (keyLookupCall dbType (rowField (jwtHeader decoded) (lit "kid")))
      = Ok keyReply ->
      truthy (indexVal (firstRow keyReply) 0) = true ->
      jwtVerify jwt token (indexVal (firstRow keyReply) 0) = Throw e ->
      snd run = Ok (Responded (unauthorized (authReason e))) /\
      (errName e = lit "TokenExpiredError" ->
       authReason e = lit "Token has expired") /\
      (errName e = lit "JsonWebTokenError" ->
       authReason e = lit "Invalid token")) /\
  lit "Token has expired" <> lit "Invalid token".
Proof.
  intro run. subst run. split; [|split; [|discriminate]].
  - now apply validateToken_outcome.
  - intros authHeader token decoded c0 keyReply e Ha Hne Ht Htne Hd Th Tp Tk
      Hc Hk Tkey Hv.
    split; [|split].
    + unfold validateToken. rewrite Hreq, Ha. cbn [negb].
      destruct authHeader as [|a authHeader]; [contradiction|].
      rewrite Ht. destruct token as [|b token]; [contradiction|].
      rewrite Hd, Th, Tp, Tk. cbn [negb orb].
      unfold tryCatch. unfold bindIO at 1. rewrite call_run, Hc.
      rewrite tryFinally_release. unfold bindIO.
      pose proof (resolveUser_verify_throws jwt dbType (b :: token) _ d
                    (t ++ [(GetConnection, Ok c0)]) _ _ Hk Tkey Hv) as Hr.
      destruct (resolveUser jwt dbType (b :: token)
                  (rowField (jwtHeader decoded) (lit "kid")) d
                  (t ++ [(GetConnection, Ok c0)])) as [t1 r].
      cbn [snd] in Hr. subst r. reflexivity.
    + intro Hn. unfold authReason. now rewrite Hn.
    + intro Hn. unfold authReason. now rewrite Hn.
Qed.

Lemma validateToken_guard_witness :
  requireToken tokenEndpoint = true /\
  snd (validateToken expiredTokenLibrary Oracle bearerRequest tokenEndpoint
         oneRowDriver [])
  = Ok (Responded (unauthorized (lit "Token has expired"))).
Proof.
  split; [reflexivity|].
  destruct (validateToken_guard expiredTokenLibrary Oracle bearerRequest
              tokenEndpoint oneRowDriver [] eq_refl) as (_ & H & _).
  eapply proj1.
  eapply (H (lit "Bearer abc.def.ghi") (lit "abc.def.ghi") sampleDecoded
            emptyReply
            {| rows := [VArr [VStr (lit "alice")]]; outBinds := None |}
            {| errName := lit "TokenExpiredError";
               errMessage := lit "jwt expired"; errStatus := None |});
    try reflexivity; discriminate.
Defined.

(* ------------------------------------------------------------------ *)
(** ** Objects: keys *)

Lemma keys_replaceProp {V} (o : list (jsString * V)) k v :
  map fst (replaceProp o k v) = map fst o.
Proof.
  induction o as [|[k0 v0] o IH]; simpl; [reflexivity|].
  destruct (strEq k0 k) eqn:E; simpl.
  - apply strEq_eq in E. now subst.
  - now rewrite IH.
Qed.

Lemma keys_insertProp {V} (o : list (jsString * V)) k v x :
  In x (map fst (insertProp o k v)) <-> x = k \/ In x (map fst o).
Proof.
  induction o as [|[k0 v0] o IH]; simpl.
  - intuition.
  - destruct (arrayIndex k) as [n|], (arrayIndex k0) as [n0|];
      try destruct (n <? n0)%N; simpl; rewrite ?IH; intuition.
Qed.

Lemma uniqueKeys_insertProp {V} (o : list (jsString * V)) k v :
  ~ In k (map fst o) -> uniqueKeys o -> uniqueKeys (insertProp o k v).
Proof.
  unfold uniqueKeys. induction o as [|[k0 v0] o IH]; simpl; intros Hk Hu.
  - constructor; [tauto | constructor].
  - inversion Hu as [|? ? Hn Hu']; subst.
    assert (Hrec : NoDup (k0 :: map fst (insertProp o k v))).
    { constructor; [|apply IH; tauto].
      rewrite keys_insertProp. intros [->|H]; tauto. }
    destruct (arrayIndex k) as [n|], (arrayIndex k0) as [n0|];
      try destruct (n <? n0)%N; simpl; try assumption;
      constructor; simpl; tauto.
Qed.

Lemma uniqueKeys_setProp {V} (o : list (jsString * V)) k v :
  uniqueKeys o -> uniqueKeys (setProp o k v).
Proof.
  intro Hu. unfold setProp. destruct (hasProp o k) eqn:E.
  - unfold uniqueKeys. now rewrite keys_replaceProp.
  - apply uniqueKeys_insertProp; [|assumption].
    rewrite <- hasProp_In. now rewrite E.
Qed.

Lemma lookupProp_absent {V} (o : list (jsString * V)) k :
  ~ In k (map fst o) -> lookupProp o k = None.
Proof.
  induction o as [|[k0 v0] o IH]; simpl; [reflexivity|].
  intro H. destruct (strEq k0 k) eqn:E.
  - apply strEq_eq in E. tauto.
  - apply IH. tauto.
Qed.

Lemma lookupProp_spreadInto (src : JsObject) : forall acc k,
  uniqueKeys src ->
  lookupProp (spreadInto acc src) k
  = match lookupProp src k with Some v => Some v | None => lookupProp acc k end.
Proof.
  unfold spreadInto, uniqueKeys.
  induction src as [|[k0 v0] src IH]; intros acc k Hu; simpl; [reflexivity|].
  inversion Hu as [|? ? Hn Hu']; subst.
  rewrite IH by assumption. rewrite lookupProp_setProp.
  destruct (strEq k0 k) eqn:E; [|reflexivity].
  apply strEq_eq in E. subst. now rewrite lookupProp_absent.
Qed.

Lemma getProp_spread_set (acc o : JsObject) k v :
  uniqueKeys o -> getProp (spreadInto acc (setProp o k v)) k = v.
Proof.
  intro Hu. rewrite lookupProp_getProp, lookupProp_spreadInto
    by now apply uniqueKeys_setProp.
  now rewrite lookupProp_setProp, strEq_refl.
Qed.

Lemma sameButValue_absent k o1 o2 :
  sameButValue k o1 o2 -> hasProp o1 k = false -> o1 = o2.
Proof.
  induction 1 as [|[k1 v1] [k2 v2] o1 o2 [Hk Hv] _ IH]; intro H;
    [reflexivity|].
  cbn [fst snd] in *. subst k2. cbn [hasProp] in H.
  apply orb_false_iff in H as [Hne H].
  rewrite Hv by (now apply strEq_neq). f_equal. now apply IH.
Qed.

Lemma sameButValue_hasProp k k' o1 o2 :
  sameButValue k o1 o2 -> hasProp o1 k' = hasProp o2 k'.
Proof.
  induction 1 as [|[k1 v1] [k2 v2] o1 o2 [Hk Hv] _ IH]; [reflexivity|].
  cbn [fst snd hasProp] in *. subst k2. now rewrite IH.
Qed.

Lemma replaceProp_sameButValue k u o1 o2 :
  sameButValue k o1 o2 -> uniqueKeys o1 ->
  replaceProp o1 k u = replaceProp o2 k u.
Proof.
  unfold uniqueKeys.
  induction 1 as [|[k1 v1] [k2 v2] o1 o2 [Hk Hv] Hrest IH]; intro Hu;
    [reflexivity|].
  cbn [fst snd map] in *. subst k2. inversion Hu as [|? ? Hn Hu']; subst.
  cbn [replaceProp]. destruct (strEq k1 k) eqn:E.
  - f_equal. apply strEq_eq in E. subst k1.
    apply (sameButValue_absent k); [assumption|].
    apply not_true_iff_false. intro Hh. now apply hasProp_In in Hh.
  - rewrite Hv by (now apply strEq_neq). f_equal. now apply IH.
Qed.

Lemma setProp_sameButValue k u o1 o2 :
  sameButValue k o1 o2 -> uniqueKeys o1 -> setProp o1 k u = setProp o2 k u.
Proof.
  intros Hs Hu. unfold setProp.
  rewrite <- (sameButValue_hasProp k k o1 o2 Hs).
  destruct (hasProp o1 k) eqn:E.
  - now apply replaceProp_sameButValue.
  - now rewrite (sameButValue_absent k o1 o2 Hs E).
Qed.

(** What the guard puts in the request does not depend on the [appUser]
    that the client sent. *)
Lemma injectUser_sameButAppUser req1 req2 userId :
  sameButAppUser req1 req2 ->
  uniqueKeys (reqQuery req1) -> uniqueKeys (reqBody req1) ->
  injectUser req2 userId = injectUser req1 userId.
Proof.
  intros (Hm & Hp & Ha & Hrest) Hq Hb. unfold injectUser.
  rewrite <- Hm, <- Hp, <- Ha.
  destruct (strEq (reqMethod req1) (lit "GET")); destruct Hrest as [<- Hs];
    f_equal; symmetry; now apply setProp_sameButValue.
Qed.

Lemma findEndpoint_route endpoints req1 req2 :
  reqMethod req1 = reqMethod req2 -> reqPath req1 = reqPath req2 ->
  findEndpoint endpoints req2 = findEndpoint endpoints req1.
Proof.
  intros Hm Hp. induction endpoints as [|e endpoints IH]; [reflexivity|].
  cbn [findEndpoint]. unfold matchEndpoint. now rewrite <- Hm, <- Hp, IH.
Qed.

Lemma tryCatch_run {A} (m1 m2 : IO A) h d t :
  m1 d t = m2 d t -> tryCatch m1 h d t = tryCatch m2 h d t.
Proof. intro H. unfold tryCatch. now rewrite H. Qed.

Lemma tryFinally_run {A} (m1 m2 : IO A) f d t :
  m1 d t = m2 d t -> tryFinally m1 f d t = tryFinally m2 f d t.
Proof. intro H. unfold tryFinally. now rewrite H. Qed.

Lemma bindIO_run {A B} (m : IO A) (k1 k2 : A -> IO B) d t :
  (forall a t', k1 a d t' = k2 a d t') -> bindIO m k1 d t = bindIO m k2 d t.
Proof.
  intro H. unfold bindIO. destruct (m d t) as [t' [a|e]]; [apply H|reflexivity].
Qed.

Lemma validateToken_sameButAppUser jwt dbType req1 req2 endpoint d t :
  requireToken endpoint = true ->
  sameButAppUser req1 req2 ->
  uniqueKeys (reqQuery req1) -> uniqueKeys (reqBody req1) ->
  validateToken jwt dbType req2 endpoint d t
  = validateToken jwt dbType req1 endpoint d t.
Proof.
  intros Hreq Hs Hq Hb. unfold validateToken. rewrite Hreq. cbn [negb].
  assert (Hi : forall userId, injectUser req2 userId = injectUser req1 userId)
    by (intro userId; now apply injectUser_sameButAppUser).
  destruct Hs as (_ & _ & Ha & _). rewrite <- Ha. clear Ha.
  destruct (reqAuthorization req1) as [[|a authHeader]|]; try reflexivity.
  destruct (bearerToken (a :: authHeader)) as [[|b token]|]; try reflexivity.
  destruct (jwtDecode jwt (b :: token)) as [[decoded|]|e]; try reflexivity.
  destruct (negb (truthy (jwtHeader decoded))
            || negb (truthy (jwtPayload decoded))); try reflexivity.
  destruct (negb (truthy (rowField (jwtHeader decoded) (lit "kid"))));
    try reflexivity.
  apply tryCatch_run. apply bindIO_run. intros _ t1.
  apply tryFinally_run. apply bindIO_run. intros userId t2.
  now rewrite Hi.
Qed.

(** C9. The query string and the body of a request are objects, with
    each key once. On an endpoint that requires a token, two requests that
    differ only in the value that the client sent as [appUser] (in the
    query string on GET, in the body otherwise) are handled alike: the same
    calls with the same statements and binds, the same replies, the same
    response. And when a request passes the guard, the execution is that
    of the request the guard passed on, whose bind sources for the
    procedure and for the query hold under [appUser] the first column of
    the session row found for the [jti] of the verified token. *)
Theorem appUser_from_session (lib : Libraries) (jwt : JwtLibrary)
    (dbType : DbType) (endpoints : list Endpoint) (req req2 : Request)
    (endpoint : Endpoint) (pathParams : JsObject) (d : Driver) (t : Trace)
    (Hfind : findEndpoint endpoints req = Some (endpoint, pathParams))
    (Hreq : requireToken endpoint = true)
    (Hq : uniqueKeys (reqQuery req)) (Hb : uniqueKeys (reqBody req))
    (Hsame : sameButAppUser req req2) :
  handleRequest lib jwt dbType (Some endpoints) req2 d t
  = handleRequest lib jwt dbType (Some endpoints) req d t
  /\
  forall req',
    snd (validateToken jwt dbType req endpoint d t) = Ok (Next req') ->
    handleRequest lib jwt dbType (Some endpoints) req d t
    = executeEndpoint lib dbType endpoint pathParams req' d
        (fst (validateToken jwt dbType req endpoint d t)) /\
    exists authHeader token key payload sessionReply,
      reqAuthorization req = Some authHeader /\
      bearerToken authHeader = Some token /\
      jwtVerify jwt token key = Ok payload /\
      In (sessionLookupCall dbType (rowField payload (lit "jti")),
          Ok sessionReply)
         (fst (validateToken jwt dbType req endpoint d t)) /\
      getProp (procBindSource pathParams req') (lit "appUser")
      = indexVal (firstRow sessionReply) 0 /\
      getProp (queryBindSource pathParams req') (lit "appUser")
      = indexVal (firstRow sessionReply) 0.
Proof.
  split.
  - unfold handleRequest.
    rewrite (findEndpoint_route endpoints req req2 (proj1 Hsame)
               (proj1 (proj2 Hsame))), Hfind.
    unfold bindIO.
    now rewrite (validateToken_sameButAppUser jwt dbType req req2 endpoint d t
                   Hreq Hsame Hq Hb).
  - intros req' Hpass. split.
    + unfold handleRequest. rewrite Hfind. unfold bindIO.
      destruct (validateToken jwt dbType req endpoint d t) as [t1 r1].
      cbn [fst snd] in *. now subst r1.
    + destruct (validateToken_outcome jwt dbType req endpoint d t Hreq)
        as (outcome & Ho & Hrun).
      rewrite Hpass in Ho. injection Ho as <-.
      destruct Hrun as (authHeader & token & decoded & keyReply & payload
                        & sessionReply & H1 & H2 & H3 & H4 & H5 & H6 & H7 & H8
                        & H9 & H10 & H11 & ->).
      exists authHeader, token, (indexVal (firstRow keyReply) 0), payload,
        sessionReply.
      repeat split; try assumption;
        unfold procBindSource, queryBindSource, injectUser;
        destruct (strEq (reqMethod req) (lit "GET")) eqn:Em;
        cbn [reqMethod reqQuery reqBody]; rewrite Em;
        now apply getProp_spread_set.
Qed.

Lemma appUser_from_session_witness :
  findEndpoint [tokenEndpoint] bearerRequest
  = Some (tokenEndpoint, [(lit "id", VStr (lit "7"))]) /\
  sameButAppUser bearerRequest otherUserRequest /\
  handleRequest permissiveLibraries validTokenLibrary Oracle
    (Some [tokenEndpoint]) otherUserRequest oneRowDriver []
  = handleRequest permissiveLibraries validTokenLibrary Oracle
      (Some [tokenEndpoint]) bearerRequest oneRowDriver [].
Proof.
  assert (Hf : findEndpoint [tokenEndpoint] bearerRequest
               = Some (tokenEndpoint, [(lit "id", VStr (lit "7"))]))
    by (vm_compute; reflexivity).
  assert (Hq : uniqueKeys (reqQuery bearerRequest)).
  { unfold uniqueKeys. simpl. constructor; [tauto | constructor]. }
  assert (Hb : uniqueKeys (reqBody bearerRequest)) by constructor.
  assert (Hs : sameButAppUser bearerRequest otherUserRequest).
  { repeat split. constructor; [|constructor]. split; [reflexivity|].
    intro H. now contradiction H. }
  split; [exact Hf|]. split; [exact Hs|].
  exact (proj1 (appUser_from_session permissiveLibraries validTokenLibrary
                  Oracle [tokenEndpoint] bearerRequest otherUserRequest
                  tokenEndpoint [(lit "id", VStr (lit "7"))] oneRowDriver []
                  Hf eq_refl Hq Hb Hs)).
Defined.

(** The entry keeps the place that the client gave it in the query
    string; a request that came without it gets it at the end. *)
Example appUser_entry_place :
  procBindSource []
    (injectUser
       {| reqMethod := lit "GET"; reqPath := lit "/api/orders/7";
          reqAuthorization := None;
          reqQuery := [(lit "appUser", VStr (lit "mallory"));
                       (lit "status", VStr (lit "open"))];
          reqBody := [] |}
       (VStr (lit "alice")))
  = [(lit "appUser", VStr (lit "alice")); (lit "status", VStr (lit "open"))]
  /\
  procBindSource []
    (injectUser
       {| reqMethod := lit "GET"; reqPath := lit "/api/orders/7";
          reqAuthorization := None;
          reqQuery := [(lit "status", VStr (lit "open"))];
          reqBody := [] |}
       (VStr (lit "alice")))
  = [(lit "status", VStr (lit "open")); (lit "appUser", VStr (lit "alice"))].
Proof. split; vm_compute; reflexivity. Qed.

(* ------------------------------------------------------------------ *)
(** ** The handler *)

(** C10. A request to an endpoint with a procedure and no query always
    gets an answer, and when the answer reports success it is status 200
    with [success: true] and an empty [data]: the output binds of the
    procedure are not part of it. *)
Theorem procedure_only_response (lib : Libraries) (dbType : DbType)
    (endpoint : Endpoint) (pathParams : JsObject) (req : Request)
    (d : Driver) (t : Trace)
    (Hproc : hasText (sqlProcedure endpoint) = true)
    (Hquery : hasText (sqlQuery endpoint) = false) :
  exists resp,
    snd (executeEndpoint lib dbType endpoint pathParams req d t) = Ok resp /\
    (isSuccess resp -> resp = {| status := 200; body := BodySuccess [] |}).
Proof.
  unfold executeEndpoint. rewrite Hproc, Hquery. cbn [negb andb orb].
  assert (F : forall st b, (exists data, b = BodySuccess data) ->
                           (forall data, b <> BodySuccess data) ->
                           {| status := st; body := b |}
                           = {| status := 200; body := BodySuccess [] |}).
  { intros st b [data ->] H. now destruct (H data). }
  destruct (match jsonSchema endpoint with
            | Some schema => validateJsonPayload lib schema (VObj (reqBody req))
            | None => []
            end) as [|err errs].
  2:{ eexists. split; [reflexivity|]. intro H. apply F; [exact H|discriminate]. }
  unfold tryCatch, bindIO, liftResult.
  destruct (prepareProcedure lib dbType endpoint (procBindSource pathParams req))
    as [proc|e].
  2:{ eexists. split; [reflexivity|]. intro H. apply F; [exact H|discriminate]. }
  destruct (executeProcedure dbType (originalProcedureBody proc)
              (executionProcedureBody proc) (validatedProcParams proc)
              {| outFormatObject := false;
                 autoCommit := Some (negb (isGetRequest req)) |} d t)
    as [t' [r|e]].
  - eexists. split; [reflexivity|]. reflexivity.
  - eexists. split; [reflexivity|]. intro H. apply F; [exact H|discriminate].
Qed.

Lemma procedure_only_response_witness :
  hasText (sqlProcedure procedureEndpoint) = true /\
  hasText (sqlQuery procedureEndpoint) = false /\
  snd (executeEndpoint permissiveLibraries Oracle procedureEndpoint [] orderRequest
         outBindDriver [])
  = Ok {| status := 200; body := BodySuccess [] |}.
Proof.
  split; [reflexivity|]. split; [reflexivity|].
  destruct (procedure_only_response permissiveLibraries Oracle procedureEndpoint
              [] orderRequest outBindDriver [] eq_refl eq_refl)
    as (resp & Hr & Hs).
  rewrite Hr. f_equal. apply Hs.
  assert (E : snd (executeEndpoint permissiveLibraries Oracle procedureEndpoint
                     [] orderRequest outBindDriver [])
              = Ok {| status := 200; body := BodySuccess [] |})
    by (vm_compute; reflexivity).
  rewrite E in Hr. injection Hr as <-. now exists [].
Defined.

(* ------------------------------------------------------------------ *)
(** ** Replacement of one placeholder *)

Lemma expandReplacement_plain repl m b a :
  ~ In "$"%char repl -> expandReplacement repl m b a = repl.
Proof.
  induction repl as [|c r IH]; intro H; simpl; [reflexivity|].
  assert (E : chEq c "$" = false).
  { apply not_true_iff_false. intro E. apply chEq_eq in E. apply H. now left. }
  rewrite E. f_equal. apply IH. intro Hin. apply H. now right.
Qed.

Lemma replaceLoop_skip alts wb repl whole a : forall pos b,
  replaceLoop alts wb repl whole pos (length a) (a ++ b)
  = replaceLoop alts wb repl whole (pos + length a) 0 b.
Proof.
  induction a as [|c a IH]; intros pos b; simpl.
  - now rewrite Nat.add_0_r.
  - rewrite IH. f_equal. lia.
Qed.

Lemma startsWith_head c0 p c t : c <> c0 -> startsWith (c0 :: p) (c :: t) = false.
Proof.
  intro H. simpl. apply andb_false_iff. left.
  apply not_true_iff_false. intro E. apply chEq_eq in E. congruence.
Qed.

Lemma startsWith_app p s : startsWith p (p ++ s) = true.
Proof.
  induction p as [|c p IH]; simpl; [reflexivity|].
  apply andb_true_iff. split; [now apply chEq_eq | assumption].
Qed.

Lemma matchAlt_miss c0 p wb c t :
  c <> c0 -> matchAlt [c0 :: p] wb (c :: t) = None.
Proof. intro H. unfold matchAlt. now rewrite startsWith_head. Qed.

Lemma replaceLoop_cons alts wb repl whole pos c t :
  replaceLoop alts wb repl whole pos 0 (c :: t)
  = match matchAlt alts wb (c :: t) with
    | Some m =>
        expandReplacement repl m (firstn pos whole) (skipn (length m) (c :: t))
        ++ replaceLoop alts wb repl whole (S pos) (length m - 1) t
    | None => c :: replaceLoop alts wb repl whole (S pos) 0 t
    end.
Proof. reflexivity. Qed.

Lemma replaceLoop_nomatch c0 p wb repl whole s : forall pos,
  ~ In c0 s -> replaceLoop [c0 :: p] wb repl whole pos 0 s = s.
Proof.
  induction s as [|c s IH]; intros pos H; [reflexivity|].
  assert (c <> c0) by (intro; apply H; now left).
  rewrite replaceLoop_cons, matchAlt_miss by assumption.
  f_equal. apply IH. intro Hin. apply H. now right.
Qed.

Lemma matchAlt_hit c0 p wb post :
  (wb = true -> boundaryAfter (c0 :: p) post = true) ->
  matchAlt [c0 :: p] wb ((c0 :: p) ++ post) = Some (c0 :: p).
Proof.
  intro Hb. unfold matchAlt.
  rewrite startsWith_app, skipn_length_app.
  destruct wb; [now rewrite Hb | reflexivity].
Qed.

Lemma replaceLoop_single c0 p wb repl whole pre post : forall pos,
  ~ In c0 pre -> ~ In c0 post ->
  (wb = true -> boundaryAfter (c0 :: p) post = true) ->
  ~ In "$"%char repl ->
  replaceLoop [c0 :: p] wb repl whole pos 0 (pre ++ (c0 :: p) ++ post)
  = pre ++ repl ++ post.
Proof.
  intros pos Hpre Hpost Hb Hrepl. revert pos.
  induction pre as [|c pre IH]; intro pos.
  - change ([] ++ (c0 :: p) ++ post) with (c0 :: p ++ post).
    rewrite replaceLoop_cons.
    change (c0 :: p ++ post) with ((c0 :: p) ++ post).
    rewrite matchAlt_hit by assumption.
    rewrite expandReplacement_plain by assumption.
    change (length (c0 :: p) - 1) with (length p - 0).
    rewrite Nat.sub_0_r, replaceLoop_skip.
    now rewrite replaceLoop_nomatch.
  - assert (c <> c0) by (intro; apply Hpre; now left).
    change ((c :: pre) ++ (c0 :: p) ++ post)
      with (c :: (pre ++ (c0 :: p) ++ post)).
    rewrite replaceLoop_cons, matchAlt_miss by assumption.
    cbn [app]. f_equal. apply IH. intro Hin. apply Hpre. now right.
Qed.

Lemma replaceAll_single c0 p wb repl pre post :
  ~ In c0 pre -> ~ In c0 post ->
  (wb = true -> boundaryAfter (c0 :: p) post = true) ->
  ~ In "$"%char repl ->
  replaceAll [c0 :: p] wb repl (pre ++ (c0 :: p) ++ post) = pre ++ repl ++ post.
Proof. intros. unfold replaceAll. now apply replaceLoop_single. Qed.

Lemma last_word key c0 :
  isName key -> isWordOpt (last (map Some (c0 :: key)) None) = true.
Proof.
  intros [Hne Hw]. revert c0. induction key as [|c key IH]; intro c0;
    [contradiction|].
  simpl in Hw. apply andb_true_iff in Hw as [Hc Hw].
  destruct key as [|c' key]; [exact Hc|].
  change (last (map Some (c0 :: c :: c' :: key)) None)
    with (last (map Some (c :: c' :: key)) None).
  apply IH; [discriminate | assumption].
Qed.

Lemma boundary_after_name key c0 post :
  isName key -> isWordOpt (hd_error post) = false ->
  boundaryAfter (c0 :: key) post = true.
Proof.
  intros Hk Hp. unfold boundaryAfter. now rewrite (last_word key c0 Hk), Hp.
Qed.

Lemma not_In_chars (x : ascii) (l : jsString) :
  forallb (fun c => negb (chEq c x)) l = true -> ~ In x l.
Proof.
  intros H Hin. rewrite forallb_forall in H. specialize (H x Hin).
  apply negb_true_iff in H. unfold chEq in H. now rewrite Ascii.eqb_refl in H.
Qed.

(** C2 as stated fails: the output ["42"] is text, so it reaches the query
    in quotes, not as the bare number. *)
Lemma substituteOutBinds_text_is_quoted :
  substituteOutBinds [(lit "newId", VStr (lit "42"))]
    (lit "SELECT * FROM ORDERS WHERE ID = @newId")
  <> lit "SELECT * FROM ORDERS WHERE ID = 42".
Proof. vm_compute. discriminate. Qed.

(* ------------------------------------------------------------------ *)
(** ** The dollar bind *)

Lemma replaceLoop_quotes whole s : forall pos,
  replaceLoop [lit "'"] false (lit "''") whole pos 0 s = doubleQuotes s.
Proof.
  induction s as [|c s IH]; intro pos; [reflexivity|].
  rewrite replaceLoop_cons. unfold matchAlt. cbn [lit list_ascii_of_string].
  cbn [startsWith negb orb]. rewrite andb_true_r.
  unfold doubleQuotes. cbn [flat_map].
  replace (chEq "'" c) with (chEq c "'")
    by (unfold chEq; apply Ascii.eqb_sym).
  destruct (chEq c "'") eqn:E.
  - cbn [expandReplacement chEq]. simpl. f_equal. f_equal. apply IH.
  - simpl. f_equal. apply IH.
Qed.

Lemma replaceAll_quotes s :
  replaceAll [lit "'"] false (lit "''") s = doubleQuotes s.
Proof. apply replaceLoop_quotes. Qed.

Lemma wordRun_word s : forallb isWordChar (wordRun s) = true.
Proof.
  induction s as [|c s IH]; simpl; [reflexivity|].
  destruct (isWordChar c) eqn:E; simpl; [|reflexivity]. now rewrite E.
Qed.

Lemma scanSigil_name sigil s : forall skip n,
  In n (scanSigil sigil skip s) -> isName n.
Proof.
  induction s as [|c s IH]; intros skip n; simpl; [tauto|].
  destruct skip as [|k]; [|apply IH].
  destruct (chEq c sigil && negb (isEmpty (wordRun s))) eqn:E; [|apply IH].
  intros [<-|H]; [|now apply IH in H].
  apply andb_true_iff in E as [_ E]. split; [|apply wordRun_word].
  intro H. now rewrite H in E.
Qed.

Lemma validateProcPathParams_keeps lib cfgs src name names : forall st st',
  validateProcPathParams lib cfgs src names st = Ok st' ->
  ~ In name names -> lookupProp (fst st') name = lookupProp (fst st) name.
Proof.
  induction names as [|p names IH]; intros st st' H Hn;
    cbn [validateProcPathParams validateQueryParams] in H.
  - now injection H as <-.
  - destruct (negb (isUndefined (getProp src p))).
    + destruct (convertAndValidateValue lib (lit "path") (getProp src p) p
                  (findConfig cfgs p)) as [v|e]; cbn [bind] in H;
        [|discriminate].
      apply IH in H; [|intro; apply Hn; now right].
      rewrite H. cbn [fst]. rewrite lookupProp_setProp.
      destruct (strEq p name) eqn:E; [|reflexivity].
      apply strEq_eq in E. exfalso. apply Hn. now left.
    + destruct (cfgIsRequired (findConfig cfgs p)); cbn [bind] in H;
        [discriminate|].
      apply IH in H; [assumption | intro; apply Hn; now right].
Qed.

Lemma validateQueryParams_keeps {V} (wrap : JsVal -> V) lib cfgs src name names :
  forall validated validated',
  validateQueryParams wrap lib cfgs src names validated = Ok validated' ->
  ~ In name names -> lookupProp validated' name = lookupProp validated name.
Proof.
  induction names as [|p names IH]; intros st st' H Hn;
    cbn [validateProcPathParams validateQueryParams] in H.
  - now injection H as <-.
  - destruct (convertAndValidateValue lib (lit "query") (getProp src p) p
                (findConfig cfgs p)) as [v|e]; cbn [bind] in H;
      [|discriminate].
    apply IH in H; [|intro; apply Hn; now right].
    rewrite H, lookupProp_setProp.
    destruct (strEq p name) eqn:E; [|reflexivity].
    apply strEq_eq in E. exfalso. apply Hn. now left.
Qed.

Lemma bindOutputParams_keeps endpoint name names : forall st,
  ~ In name names ->
  lookupProp (fst (bindOutputParams endpoint names st)) name
  = lookupProp (fst st) name.
Proof.
  unfold bindOutputParams.
  induction names as [|p names IH]; intros st Hn; [reflexivity|].
  cbn [fold_left]. rewrite IH by (intro; apply Hn; now right).
  cbn [fst]. rewrite lookupProp_setProp.
  destruct (strEq p name) eqn:E; [|reflexivity].
  apply strEq_eq in E. exfalso. apply Hn. now left.
Qed.

Lemma doubleQuotes_none s : ~ In "'"%char s -> doubleQuotes s = s.
Proof.
  unfold doubleQuotes. induction s as [|c s IH]; intro H; [reflexivity|].
  cbn [flat_map].
  assert (E : chEq c "'" = false).
  { apply not_true_iff_false. intro E. apply chEq_eq in E. apply H. now left. }
  rewrite E. cbn [app]. f_equal. apply IH. intro Hin. apply H. now right.
Qed.

Lemma name_no_dollar n : forallb isWordChar n = true -> ~ In "$"%char n.
Proof.
  intros H Hin. rewrite forallb_forall in H. specialize (H _ Hin). discriminate.
Qed.

Lemma dollar_bind_lookup (lib : Libraries) (dbType : DbType)
    (endpoint : Endpoint) (src : JsObject) (prepared : PreparedProcedure)
    (name : jsString) :
  prepareProcedure lib dbType endpoint src = Ok prepared ->
  extractDollarParam (procedureBodyOf (textOf (sqlProcedure endpoint)))
  = Some name ->
  ~ In name (pathParams (extractParamDetails
               (procedureBodyOf (textOf (sqlProcedure endpoint))))) ->
  ~ In name (queryParams (extractParamDetails
               (procedureBodyOf (textOf (sqlProcedure endpoint))))) ->
  ~ In name (outputParams (extractParamDetails
               (procedureBodyOf (textOf (sqlProcedure endpoint))))) ->
  lookupProp (validatedProcParams prepared) name
  = Some (dollarBind dbType (doubleQuotes (jsonStringify (VObj src)))).
Proof.
  intros Hprep Hdollar Hpath Hquery Hout.
  set (original := procedureBodyOf (textOf (sqlProcedure endpoint))) in *.
  unfold prepareProcedure in Hprep. fold original in Hprep.
  destruct (validateProcPathParams lib (epPathParams endpoint) src
              (pathParams (extractParamDetails original))
              (bindDollarParam dbType src original)) as [st1|e] eqn:E1;
    cbn [bind] in Hprep; [|discriminate].
  destruct (validateQueryParams (fun v => BVal (CVal v)) lib
              (epQueryParams endpoint) src
              (queryParams (extractParamDetails original)) (fst st1))
    as [v2|e] eqn:E2; cbn [bind] in Hprep; [|discriminate].
  injection Hprep as <-. cbn [validatedProcParams].
  assert (H2 : lookupProp v2 name
               = Some (dollarBind dbType (doubleQuotes (jsonStringify (VObj src))))).
  { rewrite (validateQueryParams_keeps _ _ _ _ _ _ _ _ E2 Hquery).
    rewrite (validateProcPathParams_keeps _ _ _ _ _ _ _ E1 Hpath).
    unfold bindDollarParam. rewrite Hdollar. cbn [fst].
    rewrite lookupProp_setProp, strEq_refl, replaceAll_quotes.
    now destruct dbType. }
  destruct dbType; [|exact H2].
  now rewrite bindOutputParams_keeps.
Qed.

(** C5 as stated fails: a payload with a single quote is not bound as its
    JSON text, since the quote is written twice. *)
Lemma dollar_bind_not_plain_json :
  match prepareProcedure permissiveLibraries MySQL payloadEndpoint
          (procBindSource [] noteRequest) with
  | Ok prepared =>
      lookupProp (validatedProcParams prepared) (lit "payload")
      <> Some (dollarBind MySQL
                 (jsonStringify (VObj (procBindSource [] noteRequest))))
  | Throw _ => False
  end.
Proof. vm_compute. discriminate. Qed.

(* ------------------------------------------------------------------ *)
(** ** Validation failures *)

Lemma strIncludes_app_r p a b :
  strIncludes p b = true -> strIncludes p (a ++ b) = true.
Proof.
  intro H. induction a as [|c a IH]; [exact H|].
  cbn [app strIncludes]. rewrite IH. apply orb_true_r.
Qed.

Lemma strIncludes_prefix p s : startsWith p s = true -> strIncludes p s = true.
Proof. intro H. destruct s; simpl in *; rewrite H; reflexivity. Qed.

Lemma errorResponse_invalid e :
  startsWith (lit "Invalid") (errMessage e) = true ->
  errorResponse e = {| status := 400; body := BodyError (errMessage e) |}.
Proof.
  intro H. unfold errorResponse.
  rewrite (strIncludes_prefix _ _ H), !orb_true_r.
  destruct (errMessage e); [discriminate | reflexivity].
Qed.

Lemma errorResponse_required paramType paramName :
  errorResponse (requiredMissing paramType paramName)
  = {| status := 400;
       body := BodyError (errMessage (requiredMissing paramType paramName)) |}.
Proof.
  unfold errorResponse.
  assert (H : strIncludes (lit "must be provided")
                (errMessage (requiredMissing paramType paramName)) = true).
  { unfold requiredMissing, mkError. cbn [errMessage].
    do 4 apply strIncludes_app_r. reflexivity. }
  rewrite H. reflexivity.
Qed.

(** Every failure of the validator is answered with status 400 and its
    own message. *)
Lemma convertAndValidateValue_error lib paramType value paramName cfg e :
  convertAndValidateValue lib paramType value paramName cfg = Throw e ->
  errorResponse e = {| status := 400; body := BodyError (errMessage e) |}.
Proof.
  unfold convertAndValidateValue.
  destruct (isNullish value || isEmpty (trim (toStringJs value))).
  - destruct (cfgIsRequired cfg); [|discriminate].
    intros [= <-]. apply errorResponse_required.
  - destruct (cfgTypeOf cfg).
    + destruct cfg as [[n t r [sc|] nc dc]|]; try discriminate.
      destruct (validateStringConstraints _ _); [discriminate|].
      intros [= <-]. now apply errorResponse_invalid.
    + destruct (negb (isNumberLiteral (trim (toStringJs value)))).
      { intros [= <-]. now apply errorResponse_invalid. }
      cbv zeta. destruct (isNaN (parseFloat (trim (toStringJs value))));
        [intros [= <-]; now apply errorResponse_invalid|].
      destruct cfg as [[n t r sc [nc|] dc]|]; try discriminate.
      destruct (validateNumberConstraints _ _); [discriminate|].
      intros [= <-]. now apply errorResponse_invalid.
    + destruct (validateDateFormat _ _ _); [discriminate|].
      intros [= <-]. now apply errorResponse_invalid.
    + discriminate.
Qed.

Lemma validateQueryParams_fails_fast {V} (wrap : JsVal -> V) lib cfgs src
    pre p rest e : forall validated,
  (forall q, In q pre ->
             exists v, convertAndValidateValue lib (lit "query") (getProp src q)
                         q (findConfig cfgs q) = Ok v) ->
  convertAndValidateValue lib (lit "query") (getProp src p) p (findConfig cfgs p)
  = Throw e ->
  validateQueryParams wrap lib cfgs src (pre ++ p :: rest) validated = Throw e.
Proof.
  induction pre as [|q pre IH]; intros validated Hpre Hp;
    cbn [app validateQueryParams].
  - now rewrite Hp.
  - destruct (Hpre q (or_introl eq_refl)) as [v ->]. cbn [bind].
    apply IH; [|assumption]. intros q' Hq'. apply Hpre. now right.
Qed.

(** C4, as amended. Validation stops at the first parameter that fails.
    When the path parameters of a procedure validate and a query parameter
    of the procedure fails after those before it passed, the handler
    answers with status 400 and the single message of that failure,
    whatever the later parameters hold, and makes no call to the database.
    Only the messages of the JSON-schema check of the payload are returned
    together, as the list [errors] with status 400. *)
Theorem validation_fails_fast (lib : Libraries) (dbType : DbType)
    (endpoint : Endpoint) (captures : JsObject) (req : Request)
    (d : Driver) (t : Trace)
    (Hproc : hasText (sqlProcedure endpoint) = true) :
  (forall pre p rest e st1,
      match jsonSchema endpoint with
      | Some schema => validateJsonPayload lib schema (VObj (reqBody req)) = []
      | None => True
      end ->
      validateProcPathParams lib (epPathParams endpoint)
        (procBindSource captures req)
        (pathParams
           (extractParamDetails (procedureBodyOf (textOf (sqlProcedure endpoint)))))
        (bindDollarParam dbType (procBindSource captures req)
           (procedureBodyOf (textOf (sqlProcedure endpoint)))) = Ok st1 ->
      queryParams (extractParamDetails
                     (procedureBodyOf (textOf (sqlProcedure endpoint))))
      = pre ++ p :: rest ->
      (forall q, In q pre ->
         exists v, convertAndValidateValue lib (lit "query")
                     (getProp (procBindSource captures req) q) q
                     (findConfig (epQueryParams endpoint) q) = Ok v) ->
      convertAndValidateValue lib (lit "query")
        (getProp (procBindSource captures req) p) p
        (findConfig (epQueryParams endpoint) p) = Throw e ->
      executeEndpoint lib dbType endpoint captures req d t
      = (t, Ok {| status := 400; body := BodyError (errMessage e) |})) /\
  (forall schema err errs,
      jsonSchema endpoint = Some schema ->
      validateJsonPayload lib schema (VObj (reqBody req)) = err :: errs ->
      executeEndpoint lib dbType endpoint captures req d t
      = (t, Ok {| status := 400; body := BodyErrors (err :: errs) |})).
Proof.
  assert (Hshape : forall b, (true && negb b) || (true && b) = true)
    by (now intros []).
  split.
  - intros pre p rest e st1 Hschema Hpath Hq Hpre Hp.
    unfold executeEndpoint. rewrite Hproc, Hshape.
    assert (Hs : match jsonSchema endpoint with
                 | Some schema => validateJsonPayload lib schema (VObj (reqBody req))
                 | None => []
                 end = []).
    { destruct (jsonSchema endpoint); [exact Hschema | reflexivity]. }
    rewrite Hs.
    assert (Hprep : prepareProcedure lib dbType endpoint
                      (procBindSource captures req) = Throw e).
    { unfold prepareProcedure. rewrite Hpath. cbn [bind]. rewrite Hq.
      rewrite (validateQueryParams_fails_fast _ lib _ _ pre p rest e);
        [reflexivity | assumption | assumption]. }
    rewrite Hprep. unfold tryCatch, bindIO, liftResult, ret.
    now rewrite (convertAndValidateValue_error _ _ _ _ _ _ Hp).
  - intros schema err errs Hschema Herr.
    unfold executeEndpoint. rewrite Hproc, Hshape, Hschema, Herr. reflexivity.
Qed.

Lemma validation_fails_fast_witness :
  hasText (sqlProcedure twoNumbersEndpoint) = true /\
  executeEndpoint permissiveLibraries MySQL twoNumbersEndpoint [] badRangeRequest
    answeringDriver []
  = ([], Ok {| status := 400;
               body := BodyError
                         (errMessage (invalidNumber (lit "query") (lit "low")
                                        (VStr (lit "x")))) |}).
Proof.
  split; [reflexivity|].
  apply (proj1 (validation_fails_fast permissiveLibraries MySQL
                  twoNumbersEndpoint [] badRangeRequest answeringDriver []
                  eq_refl)
           [] (lit "low") [lit "high"]
           (invalidNumber (lit "query") (lit "low") (VStr (lit "x")))
           ([], lit "set_range(:low, :high)")).
  - exact I.
  - reflexivity.
  - reflexivity.
  - intros q [].
  - reflexivity.
Defined.

(** C4 as stated fails: with two parameters that are both invalid, the
    answer carries the failure of the first alone, as [error], and no list
    of failures. *)
Lemma validation_reports_first_failure_only :
  convertAndValidateValue permissiveLibraries (lit "query")
    (getProp (procBindSource [] badRangeRequest) (lit "low")) (lit "low")
    (findConfig (epQueryParams twoNumbersEndpoint) (lit "low"))
  = Throw (invalidNumber (lit "query") (lit "low") (VStr (lit "x"))) /\
  convertAndValidateValue permissiveLibraries (lit "query")
    (getProp (procBindSource [] badRangeRequest) (lit "high")) (lit "high")
    (findConfig (epQueryParams twoNumbersEndpoint) (lit "high"))
  = Throw (invalidNumber (lit "query") (lit "high") (VStr (lit "y"))) /\
  snd (executeEndpoint permissiveLibraries MySQL twoNumbersEndpoint []
         badRangeRequest answeringDriver [])
  = Ok {| status := 400;
          body := BodyError (lit "Invalid number value for query parameter 'low': x") |} /\
  strIncludes
    (errMessage (invalidNumber (lit "query") (lit "high") (VStr (lit "y"))))
    (lit "Invalid number value for query parameter 'low': x") = false.
Proof. repeat split; vm_compute; reflexivity. Qed.

(* ------------------------------------------------------------------ *)
(** ** The route compiler *)

Lemma chEq_false a b : a <> b -> chEq a b = false.
Proof. intro H. apply not_true_iff_false. intro E. now apply chEq_eq in E. Qed.

Lemma chEq_refl a : chEq a a = true.
Proof. now apply chEq_eq. Qed.

Lemma wordRun_stop n c s :
  forallb isWordChar n = true -> isWordChar c = false ->
  wordRun (n ++ c :: s) = n.
Proof.
  intros Hn Hc. induction n as [|a n IH]; simpl.
  - now rewrite Hc.
  - simpl in Hn. apply andb_true_iff in Hn as [Ha Hn].
    rewrite Ha. f_equal. now apply IH.
Qed.

Lemma isParamName_name n : isParamName n = true -> isName n.
Proof.
  destruct n as [|c n]; [discriminate|]. unfold isParamName.
  intro H. apply andb_true_iff in H as [_ H]. split; [discriminate | exact H].
Qed.

Lemma distinctNames_NoDup l : distinctNames l = true <-> NoDup l.
Proof.
  induction l as [|x l IH]; simpl.
  - split; [constructor | reflexivity].
  - rewrite andb_true_iff, negb_true_iff, includes_not_In, IH.
    split.
    + intros [H1 H2]. now constructor.
    + intro H. inversion H. now split.
Qed.

(** *** The trailing parameter *)

Lemma endParamMatch_cons pos c t :
  endParamMatch pos (c :: t)
  = match isEndParam (c :: t) with
    | Some w => Some (pos, w)
    | None => endParamMatch (S pos) t
    end.
Proof. reflexivity. Qed.

Lemma isEndParam_other c s : c <> "/"%char -> isEndParam (c :: s) = None.
Proof.
  intro H. unfold isEndParam. destruct s as [|d r]; [reflexivity|].
  now rewrite (chEq_false _ _ H).
Qed.

Lemma isEndParam_second c d s : d <> "{"%char -> isEndParam (c :: d :: s) = None.
Proof.
  intro H. unfold isEndParam. now rewrite (chEq_false _ _ H), andb_false_r.
Qed.

Lemma endParamMatch_plain u : forall pos s,
  ~ In "{"%char u -> hd_error s <> Some "{"%char ->
  endParamMatch pos (u ++ s) = endParamMatch (pos + length u) s.
Proof.
  induction u as [|c u IH]; intros pos s Hu Hs.
  - simpl. now rewrite Nat.add_0_r.
  - cbn [app]. rewrite endParamMatch_cons.
    assert (E : isEndParam (c :: u ++ s) = None).
    { destruct (u ++ s) as [|d r] eqn:Eus; [reflexivity|].
      apply isEndParam_second. intro Ed. subst d.
      destruct u as [|d' u']; simpl in Eus.
      - subst s. now apply Hs.
      - injection Eus as -> _. apply Hu. right. now left. }
    rewrite E, IH.
    + f_equal. simpl. lia.
    + intro Hin. apply Hu. now right.
    + assumption.
Qed.

Lemma endParamMatch_noslash u : forall pos s,
  ~ In "/"%char u ->
  endParamMatch pos (u ++ s) = endParamMatch (pos + length u) s.
Proof.
  induction u as [|c u IH]; intros pos s Hu.
  - simpl. now rewrite Nat.add_0_r.
  - cbn [app]. rewrite endParamMatch_cons, isEndParam_other, IH.
    + f_equal. simpl. lia.
    + intro Hin. apply Hu. now right.
    + intro E. apply Hu. now left.
Qed.

Lemma word_no_slash n : forallb isWordChar n = true -> ~ In "/"%char n.
Proof.
  intros H Hin. rewrite forallb_forall in H. now apply H in Hin.
Qed.

Lemma word_no_brace n : forallb isWordChar n = true -> ~ In "{"%char n.
Proof.
  intros H Hin. rewrite forallb_forall in H. now apply H in Hin.
Qed.

Lemma braced_no_slash n : forallb isWordChar n = true -> ~ In "/"%char (braced n).
Proof.
  intros H [E|Hin]; [discriminate|].
  apply in_app_or in Hin as [Hin|[E|[]]]; [|discriminate].
  now apply (word_no_slash _ H).
Qed.

Lemma isEndParam_inner n s :
  forallb isWordChar n = true -> s <> [] ->
  isEndParam ("/"%char :: braced n ++ s) = None.
Proof.
  intros Hn Hs. unfold braced. cbn [app]. rewrite <- app_assoc. cbn [app].
  unfold isEndParam. rewrite (wordRun_stop _ "}"%char _ Hn eq_refl).
  rewrite skipn_length_app.
  destruct s as [|c s]; [contradiction|].
  cbn [strEq]. now rewrite !andb_false_r.
Qed.

Lemma isEndParam_last x :
  isName x -> isEndParam ("/"%char :: braced x) = Some x.
Proof.
  intros [Hne Hx]. unfold braced, isEndParam.
  rewrite (wordRun_stop _ "}"%char _ Hx eq_refl), skipn_length_app.
  destruct x; [contradiction | reflexivity].
Qed.

Lemma templateOf_head segs x :
  exists r, templateOf segs x = "/"%char :: r.
Proof.
  destruct segs as [|[t|n] segs]; unfold templateOf; cbn; eauto.
Qed.

Lemma endParamMatch_template segs x : forall pos,
  forallb segmentOk segs = true ->
  forallb isParamName (x :: paramsOf segs) = true ->
  endParamMatch pos (templateOf segs x)
  = Some (pos + length (flat_map segmentText segs), x).
Proof.
  induction segs as [|g segs IH]; intros pos Hs Hn.
  - unfold templateOf. cbn [flat_map app length].
    rewrite endParamMatch_cons, isEndParam_last, Nat.add_0_r; [reflexivity|].
    cbn [forallb] in Hn. apply andb_true_iff in Hn as [Hx _].
    now apply isParamName_name.
  - destruct (templateOf_head segs x) as [r Er].
    assert (Et : templateOf (g :: segs) x = segmentText g ++ templateOf segs x).
    { unfold templateOf. cbn [flat_map]. now rewrite app_assoc. }
    cbn [forallb] in Hs. apply andb_true_iff in Hs as [Hg Hs].
    rewrite Et. cbn [flat_map]. rewrite length_app, Nat.add_assoc.
    destruct g as [t|n].
    + rewrite endParamMatch_plain.
      * apply IH; assumption.
      * unfold segmentOk in Hg. apply andb_true_iff in Hg as [Hg _].
        apply negb_true_iff in Hg.
        intros [E|Hin]; [discriminate|].
        apply not_true_iff_false in Hg. apply Hg.
        apply existsb_exists. exists "{"%char. split; [assumption | reflexivity].
      * rewrite Er. discriminate.
    + assert (Hw : forallb isWordChar n = true).
      { cbn [forallb paramsOf flat_map app] in Hn.
        apply andb_true_iff in Hn as [_ Hn].
        apply andb_true_iff in Hn as [Hn _]. exact (proj2 (isParamName_name _ Hn)). }
      cbn [segmentText app]. rewrite endParamMatch_cons, isEndParam_inner.
      * rewrite endParamMatch_noslash by now apply braced_no_slash.
        rewrite IH.
        -- f_equal. f_equal. simpl. lia.
        -- assumption.
        -- cbn [forallb paramsOf flat_map app] in Hn |- *.
           apply andb_true_iff in Hn as [Hx Hn].
           apply andb_true_iff in Hn as [_ Hn]. now rewrite Hx.
      * assumption.
      * rewrite Er. discriminate.
Qed.

(** *** The markers *)

Lemma replaceBraces_skip names u : forall s,
  replaceBraces names (length u) (u ++ s) = replaceBraces names 0 s.
Proof. induction u as [|c u IH]; intro s; [reflexivity | apply IH]. Qed.

Lemma replaceBraces_plain names u s :
  ~ In "{"%char u ->
  replaceBraces names 0 (u ++ s)
  = (fst (replaceBraces names 0 s), u ++ snd (replaceBraces names 0 s)).
Proof.
  induction u as [|c u IH]; intro H.
  - cbn [app]. now destruct (replaceBraces names 0 s).
  - cbn [app replaceBraces]. rewrite chEq_false by (intro; apply H; now left).
    cbn [andb]. rewrite IH by (intro; apply H; now right). reflexivity.
Qed.

Lemma firstIndex_last n names :
  ~ In n names -> firstIndex n (names ++ [n]) = length names.
Proof.
  induction names as [|y l IH]; intro H; simpl.
  - now rewrite strEq_refl.
  - assert (E : strEq y n = false) by (apply strEq_neq; intro; apply H; now left).
    rewrite E. f_equal. apply IH. intro. apply H. now right.
Qed.

Lemma replaceBraces_param names n s :
  isName n -> ~ In n names ->
  replaceBraces names 0 (braced n ++ s)
  = (fst (replaceBraces (names ++ [n]) 0 s),
     captureMarker (length names) ++ snd (replaceBraces (names ++ [n]) 0 s)).
Proof.
  intros [Hne Hw] Hnew. unfold braced. cbn [app]. rewrite <- app_assoc.
  cbn [app replaceBraces].
  rewrite (wordRun_stop _ "}"%char _ Hw eq_refl).
  rewrite nth_error_app2, Nat.sub_diag by lia. cbn [nth_error].
  rewrite chEq_refl, chEq_refl.
  assert (E : isEmpty n = false) by (destruct n; [contradiction | reflexivity]).
  rewrite E. cbn [andb negb].
  apply includes_not_In in Hnew. rewrite Hnew.
  apply includes_not_In in Hnew. rewrite firstIndex_last by assumption.
  replace (S (length n)) with (length (n ++ ["}"%char]))
    by (rewrite length_app; simpl; lia).
  change (n ++ "}"%char :: s) with (n ++ ["}"%char] ++ s).
  rewrite app_assoc, replaceBraces_skip.
  now destruct (replaceBraces (names ++ [n]) 0 s).
Qed.

Lemma replaceBraces_segments segs : forall names,
  forallb segmentOk segs = true ->
  forallb isParamName (paramsOf segs) = true ->
  NoDup (names ++ paramsOf segs) ->
  replaceBraces names 0 (flat_map segmentText segs)
  = (names ++ paramsOf segs, markedText (length names) segs).
Proof.
  induction segs as [|g segs IH]; intros names Hs Hn Hd.
  - cbn. now rewrite app_nil_r.
  - cbn [forallb] in Hs. apply andb_true_iff in Hs as [Hg Hs].
    cbn [flat_map]. destruct g as [t|n].
    + cbn [paramsOf flat_map app] in Hn, Hd |- *.
      rewrite replaceBraces_plain.
      * fold (paramsOf segs) in *. rewrite IH by assumption. reflexivity.
      * unfold segmentOk in Hg. apply andb_true_iff in Hg as [Hg _].
        apply negb_true_iff in Hg.
        intros [E|Hin]; [discriminate|].
        apply not_true_iff_false in Hg. apply Hg.
        apply existsb_exists. exists "{"%char. split; [assumption | reflexivity].
    + cbn [paramsOf flat_map app forallb] in Hn, Hd |- *.
      fold (paramsOf segs) in *.
      apply andb_true_iff in Hn as [Hn Hns].
      cbn [segmentText]. change ("/"%char :: braced n) with (["/"%char] ++ braced n).
      rewrite <- app_assoc, replaceBraces_plain
        by (intros [E|[]]; discriminate).
      rewrite replaceBraces_param.
      * rewrite IH.
        -- cbn [fst snd markedText app]. rewrite <- app_assoc.
           rewrite length_app, Nat.add_1_r. reflexivity.
        -- assumption.
        -- assumption.
        -- now rewrite <- app_assoc.
      * now apply isParamName_name.
      * intro Hin. apply NoDup_remove_2 in Hd. apply Hd.
        apply in_or_app. now left.
Qed.

(** *** The text of a marker *)

Lemma uint_digits d :
  forallb isDigit (list_ascii_of_string (NilEmpty.string_of_uint d)) = true.
Proof.
  induction d as [|d IH|d IH|d IH|d IH|d IH|d IH|d IH|d IH|d IH|d IH];
    cbn [NilEmpty.string_of_uint list_ascii_of_string forallb];
    [reflexivity | rewrite IH; reflexivity ..].
Qed.

Lemma natToString_digits k : forallb isDigit (natToString k) = true.
Proof. apply uint_digits. Qed.

Lemma natToString_inj a b : natToString a = natToString b -> a = b.
Proof.
  unfold natToString. intro H.
  apply (f_equal string_of_list_ascii) in H.
  rewrite !string_of_list_ascii_of_string in H.
  apply (f_equal NilEmpty.uint_of_string) in H.
  rewrite !NilEmpty.usu in H. injection H as H.
  apply (f_equal Nat.of_uint) in H. now rewrite !Unsigned.of_to in H.
Qed.

Lemma digit_word c : isDigit c = true -> isWordChar c = true.
Proof. intro H. unfold isWordChar. now rewrite H. Qed.

Lemma digits_word l : forallb isDigit l = true -> forallb isWordChar l = true.
Proof.
  induction l as [|c l IH]; simpl; [reflexivity|].
  intro H. apply andb_true_iff in H as [Hc Hl].
  now rewrite (digit_word _ Hc), IH.
Qed.

Lemma marker_word k : forallb isWordChar (captureMarker k) = true.
Proof.
  unfold captureMarker. rewrite !forallb_app.
  now rewrite (digits_word _ (natToString_digits k)).
Qed.

Lemma word_not_meta c : isWordChar c = true -> isMeta c = false.
Proof.
  destruct c as [[] [] [] [] [] [] [] []]; intro H;
    solve [reflexivity | discriminate H].
Qed.

Lemma escapeRegex_app a b : escapeRegex (a ++ b) = escapeRegex a ++ escapeRegex b.
Proof. apply flat_map_app. Qed.

Lemma escapeRegex_word u : forallb isWordChar u = true -> escapeRegex u = u.
Proof.
  induction u as [|c u IH]; [reflexivity|]. cbn [forallb].
  intro H. apply andb_true_iff in H as [Hc Hu].
  unfold escapeRegex in *. cbn [flat_map].
  rewrite (word_not_meta _ Hc), IH by assumption. reflexivity.
Qed.

Lemma escape_marked k segs : forall idx,
  k <= idx -> escapeRegex (markedText idx segs) = stageText k idx segs.
Proof.
  induction segs as [|[t|n] segs IH]; intros idx H; [reflexivity | |].
  - cbn [markedText stageText].
    change ("/"%char :: t ++ markedText idx segs)
      with (["/"%char] ++ t ++ markedText idx segs).
    rewrite !escapeRegex_app, IH by assumption. reflexivity.
  - cbn [markedText stageText].
    change ("/"%char :: captureMarker idx ++ markedText (S idx) segs)
      with (["/"%char] ++ captureMarker idx ++ markedText (S idx) segs).
    rewrite !escapeRegex_app, IH by lia.
    rewrite (escapeRegex_word _ (marker_word idx)).
    assert (E : (idx <? k) = false) by (apply Nat.ltb_ge; lia).
    rewrite E. reflexivity.
Qed.

Lemma stage_full k segs : forall idx,
  idx + length (paramsOf segs) <= k -> stageText k idx segs = bodyText segs.
Proof.
  induction segs as [|[t|n] segs IH]; intros idx H; [reflexivity | |].
  - cbn [stageText bodyText]. rewrite IH; [reflexivity | exact H].
  - cbn [stageText bodyText]. cbn [paramsOf flat_map app length] in H.
    fold (paramsOf segs) in H.
    assert (E : (idx <? k) = true) by (apply Nat.ltb_lt; lia).
    rewrite E, IH; [reflexivity | lia].
Qed.

(** *** Prefixes *)

Lemma startsWith_stop p : forall u d R,
  ~ In d p -> startsWith p (u ++ d :: R) = true -> startsWith p u = true.
Proof.
  induction p as [|a p IH]; intros u d R Hd H; [reflexivity|].
  destruct u as [|c u]; cbn [app startsWith] in H |- *.
  - apply andb_true_iff in H as [H _]. apply chEq_eq in H. subst.
    exfalso. apply Hd. now left.
  - apply andb_true_iff in H as [H1 H2]. rewrite H1. cbn [andb].
    apply (IH u d R); [|assumption]. intro Hin. apply Hd. now right.
Qed.

Lemma startsWith_bounded p u R :
  ~ In "/"%char p -> slashOrEnd R ->
  startsWith p (u ++ R) = true -> startsWith p u = true.
Proof.
  intros Hp HR H. destruct R as [|c R].
  - now rewrite app_nil_r in H.
  - simpl in HR. subst c. now apply startsWith_stop in H.
Qed.

Lemma startsWith_app_l p q s :
  startsWith (p ++ q) s = true -> startsWith p s = true.
Proof.
  revert s. induction p as [|a p IH]; intros s H; [reflexivity|].
  destruct s as [|c s]; cbn [app startsWith] in H |- *; [discriminate|].
  apply andb_true_iff in H as [H1 H2]. rewrite H1. now apply IH.
Qed.

Lemma startsWith_same p a b :
  startsWith (p ++ a) (p ++ b) = startsWith a b.
Proof.
  induction p as [|c p IH]; [reflexivity|].
  cbn [app startsWith]. now rewrite chEq_refl, IH.
Qed.

Lemma startsWith_digits a : forall b t R,
  forallb isDigit a = true -> forallb isDigit b = true ->
  startsWith (a ++ "_"%char :: t) (b ++ "_"%char :: R) = true -> a = b.
Proof.
  induction a as [|x a IH]; intros b t R Ha Hb H.
  - destruct b as [|y b]; [reflexivity|].
    cbn [app startsWith forallb] in H, Hb.
    apply andb_true_iff in H as [H _]. apply chEq_eq in H. subst y.
    now apply andb_true_iff in Hb as [Hb _].
  - cbn [forallb] in Ha. apply andb_true_iff in Ha as [Hx Ha].
    destruct b as [|y b]; cbn [app startsWith forallb] in H, Hb.
    + apply andb_true_iff in H as [H _]. apply chEq_eq in H. now subst x.
    + apply andb_true_iff in H as [H1 H2]. apply chEq_eq in H1. subst y.
      apply andb_true_iff in Hb as [_ Hb]. f_equal. now apply (IH b t R).
Qed.

Lemma startsWith_escape p : forall u R,
  forallb isWordChar p = true -> slashOrEnd R ->
  startsWith p (escapeRegex u ++ R) = true -> startsWith p u = true.
Proof.
  induction p as [|a p IH]; intros u R Hp HR H; [reflexivity|].
  cbn [forallb] in Hp. apply andb_true_iff in Hp as [Ha Hp].
  destruct u as [|c u].
  - cbn [escapeRegex flat_map app] in H. destruct R as [|d R]; [discriminate|].
    simpl in HR. subst d. cbn [startsWith] in H.
    apply andb_true_iff in H as [H _]. apply chEq_eq in H. now subst a.
  - unfold escapeRegex in H. cbn [flat_map] in H. fold (escapeRegex u) in H.
    destruct (isMeta c) eqn:Ec; cbn [app startsWith] in H |- *.
    + apply andb_true_iff in H as [H _]. apply chEq_eq in H. now subst a.
    + apply andb_true_iff in H as [H1 H2]. rewrite H1. cbn [andb].
      now apply (IH u R).
Qed.

Lemma marker_includes k u :
  startsWith (captureMarker k) u = true -> strIncludes markerWord u = true.
Proof.
  unfold captureMarker. intro H.
  change (lit "__CAPTUREGROUP_")
    with ("_"%char :: "_"%char :: markerWord ++ ["_"%char]) in H.
  destruct u as [|a [|b u]]; cbn [app startsWith] in H;
    try (rewrite ?andb_false_r in H; discriminate).
  apply andb_true_iff in H as [_ H]. apply andb_true_iff in H as [_ H].
  rewrite <- !app_assoc in H. apply startsWith_app_l in H.
  cbn [strIncludes]. rewrite (strIncludes_prefix _ _ H).
  now rewrite !orb_true_r.
Qed.

(** *** The capture groups in place of the markers *)

Lemma word_excludes d l :
  isWordChar d = false -> forallb isWordChar l = true -> ~ In d l.
Proof.
  intros Hd H Hin. rewrite forallb_forall in H. apply H in Hin. congruence.
Qed.

Lemma replaceLoop_pos alts wb repl s :
  ~ In "$"%char repl -> forall skip whole whole' pos pos',
  replaceLoop alts wb repl whole pos skip s
  = replaceLoop alts wb repl whole' pos' skip s.
Proof.
  intro Hr. induction s as [|c s IH]; intros skip whole whole' pos pos';
    [reflexivity|].
  cbn [replaceLoop]. destruct skip as [|j]; [|apply IH].
  destruct (matchAlt alts wb (c :: s)) as [m|].
  - rewrite !expandReplacement_plain by assumption. f_equal. apply IH.
  - f_equal. apply IH.
Qed.

Lemma matchAlt_none m s : startsWith m s = false -> matchAlt [m] false s = None.
Proof. intro H. cbn [matchAlt]. now rewrite H. Qed.

Section Restore.

Variables (k : nat) (g whole : jsString).
Hypothesis Hg : ~ In "$"%char g.

Local Abbreviation rl := (replaceLoop [captureMarker k] false g whole).

Lemma rl_pass c t pos :
  startsWith (captureMarker k) (c :: t) = false ->
  rl pos 0 (c :: t) = c :: rl pos 0 t.
Proof.
  intro H. rewrite replaceLoop_cons, matchAlt_none by assumption.
  f_equal. now apply replaceLoop_pos.
Qed.

Lemma marker_head c t :
  c <> "_"%char -> startsWith (captureMarker k) (c :: t) = false.
Proof.
  intro H. unfold captureMarker.
  cbn [lit list_ascii_of_string app startsWith].
  rewrite chEq_false; [reflexivity | congruence].
Qed.

Lemma rl_plain u : forall R pos,
  ~ In "_"%char u -> rl pos 0 (u ++ R) = u ++ rl pos 0 R.
Proof.
  induction u as [|c u IH]; intros R pos H; [reflexivity|].
  cbn [app]. rewrite rl_pass, IH.
  - reflexivity.
  - intro Hin. apply H. now right.
  - apply marker_head. intro E. apply H. now left.
Qed.

Lemma rl_hit R pos : rl pos 0 (captureMarker k ++ R) = g ++ rl pos 0 R.
Proof.
  assert (E : exists p, captureMarker k = "_"%char :: p) by (eexists; reflexivity).
  destruct E as [p Ep]. rewrite Ep. cbn [app]. rewrite replaceLoop_cons.
  change ("_"%char :: p ++ R) with (("_"%char :: p) ++ R).
  rewrite matchAlt_hit by discriminate.
  rewrite expandReplacement_plain by assumption.
  change (length ("_"%char :: p) - 1) with (length p - 0).
  rewrite Nat.sub_0_r, replaceLoop_skip. f_equal. now apply replaceLoop_pos.
Qed.

Lemma rl_fixed u : forall R pos,
  strIncludes markerWord u = false -> slashOrEnd R ->
  rl pos 0 (escapeRegex u ++ R) = escapeRegex u ++ rl pos 0 R.
Proof.
  induction u as [|c u IH]; intros R pos Hu HR; [reflexivity|].
  assert (Hno : startsWith (captureMarker k) (escapeRegex (c :: u) ++ R) = false).
  { apply not_true_iff_false. intro H.
    apply startsWith_escape in H; [|apply marker_word | assumption].
    apply marker_includes in H. congruence. }
  cbn [strIncludes] in Hu. apply orb_false_iff in Hu as [_ Hu].
  unfold escapeRegex in Hno |- *. cbn [flat_map] in Hno |- *.
  fold (escapeRegex u) in Hno |- *.
  destruct (isMeta c) eqn:Ec; cbn [app] in Hno |- *.
  - rewrite rl_pass by (apply marker_head; discriminate).
    rewrite rl_pass, IH by
      (try assumption; apply marker_head; intro E; subst c; discriminate Ec).
    reflexivity.
  - rewrite rl_pass, IH by assumption. reflexivity.
Qed.

Lemma rl_name u : forall R pos,
  strIncludes markerWord u = false ->
  rl pos 0 (u ++ ">"%char :: R) = u ++ rl pos 0 (">"%char :: R).
Proof.
  induction u as [|c u IH]; intros R pos Hu; [reflexivity|].
  cbn [app]. rewrite rl_pass.
  - f_equal. apply IH. cbn [strIncludes] in Hu.
    now apply orb_false_iff in Hu as [_ Hu].
  - apply not_true_iff_false. intro H.
    change (c :: u ++ ">"%char :: R) with ((c :: u) ++ ">"%char :: R) in H.
    apply startsWith_stop in H.
    + apply marker_includes in H. congruence.
    + apply word_excludes; [reflexivity | apply marker_word].
Qed.

Lemma rl_group n R pos :
  strIncludes markerWord n = false ->
  rl pos 0 (groupText n ++ R) = groupText n ++ rl pos 0 R.
Proof.
  intro Hn. unfold groupText. rewrite <- !app_assoc.
  rewrite rl_plain by (simpl; intuition discriminate). f_equal.
  change (lit ">[^/]+)" ++ R) with (">"%char :: lit "[^/]+)" ++ R).
  rewrite rl_name by assumption. f_equal.
  change (">"%char :: lit "[^/]+)" ++ R) with (lit ">[^/]+)" ++ R).
  apply rl_plain. simpl. intuition discriminate.
Qed.

Lemma digits_no_underscore ds : forallb isDigit ds = true -> ~ In "_"%char ds.
Proof.
  intros H Hin. rewrite forallb_forall in H. now apply H in Hin.
Qed.

Lemma rl_other_text ds R pos :
  forallb isDigit ds = true -> ds <> natToString k -> slashOrEnd R ->
  rl pos 0 (lit "__CAPTUREGROUP_" ++ ds ++ lit "__" ++ R)
  = lit "__CAPTUREGROUP_" ++ ds ++ lit "__" ++ rl pos 0 R.
Proof.
  intros Hds Hne HR.
  assert (H0 : startsWith (captureMarker k)
                 (lit "__CAPTUREGROUP_" ++ ds ++ lit "__" ++ R) = false).
  { apply not_true_iff_false. intro H.
    replace (lit "__CAPTUREGROUP_" ++ ds ++ lit "__" ++ R)
      with ((lit "__CAPTUREGROUP_" ++ ds ++ lit "__") ++ R) in H
      by now rewrite <- !app_assoc.
    apply startsWith_bounded in H;
      [|apply word_excludes; [reflexivity | apply marker_word] | assumption].
    unfold captureMarker in H. rewrite startsWith_same in H.
    apply startsWith_digits in H;
      [congruence | apply natToString_digits | assumption]. }
  cbn [lit list_ascii_of_string app] in H0 |- *.
  rewrite rl_pass by exact H0.
  do 13 (rewrite rl_pass by reflexivity).
  assert (H14 : forall t, startsWith (captureMarker k)
                            ("_"%char :: ds ++ "_"%char :: "_"%char :: t) = false).
  { intro t. unfold captureMarker.
    cbn [lit list_ascii_of_string app startsWith].
    destruct ds as [|d ds']; [reflexivity|].
    cbn [app forallb] in Hds |- *. apply andb_true_iff in Hds as [Hd _].
    rewrite (chEq_false "_"%char d); [reflexivity|].
    intro E. subst d. discriminate Hd. }
  rewrite rl_pass by apply H14.
  rewrite rl_plain by now apply digits_no_underscore.
  destruct R as [|c R].
  - reflexivity.
  - simpl in HR. subst c.
    do 2 (rewrite rl_pass by reflexivity). reflexivity.
Qed.

Lemma rl_other i R pos :
  i <> k -> slashOrEnd R ->
  rl pos 0 (captureMarker i ++ R) = captureMarker i ++ rl pos 0 R.
Proof.
  intros Hik HR.
  change (captureMarker i) with (lit "__CAPTUREGROUP_" ++ natToString i ++ lit "__").
  rewrite <- !app_assoc. apply rl_other_text.
  - apply natToString_digits.
  - intro E. apply natToString_inj in E. congruence.
  - assumption.
Qed.

End Restore.

Lemma stage_slashOrEnd k idx segs : slashOrEnd (stageText k idx segs).
Proof. destruct segs as [|[t|n] segs]; simpl; auto. Qed.

Lemma groupText_plain m :
  forallb isWordChar m = true -> ~ In "$"%char (groupText m).
Proof.
  unfold groupText. intros H Hin.
  apply in_app_or in Hin as [Hin|Hin]; [simpl in Hin; intuition discriminate|].
  apply in_app_or in Hin as [Hin|Hin]; [|simpl in Hin; intuition discriminate].
  now apply (word_excludes "$"%char m).
Qed.

Lemma restore_step k m whole segs : forall idx pos,
  forallb isWordChar m = true ->
  forallb segmentOk segs = true ->
  (idx <= k -> nth_error (paramsOf segs) (k - idx) = Some m) ->
  replaceLoop [captureMarker k] false (groupText m) whole pos 0
              (stageText k idx segs)
  = stageText (S k) idx segs.
Proof.
  intros idx pos Hm. pose proof (groupText_plain m Hm) as HG. revert idx pos.
  induction segs as [|[t|n] segs IH]; intros idx pos Hs Hnth; [reflexivity | |];
    cbn [forallb] in Hs; apply andb_true_iff in Hs as [Hseg Hs];
    cbn [stageText];
    rewrite (rl_pass k _ whole HG) by (apply marker_head; discriminate);
    f_equal.
  - unfold segmentOk in Hseg. apply andb_true_iff in Hseg as [_ Hseg].
    apply negb_true_iff in Hseg.
    rewrite (rl_fixed k _ whole HG) by (try assumption; apply stage_slashOrEnd).
    f_equal. now apply IH.
  - unfold segmentOk in Hseg. apply negb_true_iff in Hseg.
    cbn [paramsOf flat_map app] in Hnth. fold (paramsOf segs) in Hnth.
    assert (Hrest : S idx <= k -> nth_error (paramsOf segs) (k - S idx) = Some m).
    { intro Hle. specialize (Hnth ltac:(lia)).
      replace (k - idx) with (S (k - S idx)) in Hnth by lia. exact Hnth. }
    destruct (idx <? k) eqn:E1.
    + apply Nat.ltb_lt in E1.
      assert (E2 : (idx <? S k) = true) by (apply Nat.ltb_lt; lia).
      rewrite E2, (rl_group k _ whole HG) by assumption.
      f_equal. now apply IH.
    + apply Nat.ltb_ge in E1. destruct (Nat.eq_dec idx k) as [->|Hne].
      * assert (E2 : (k <? S k) = true) by (apply Nat.ltb_lt; lia).
        rewrite E2, (rl_hit k _ whole HG).
        specialize (Hnth (Nat.le_refl k)). rewrite Nat.sub_diag in Hnth.
        injection Hnth as ->. f_equal. now apply IH.
      * assert (E2 : (idx <? S k) = false) by (apply Nat.ltb_ge; lia).
        rewrite E2, (rl_other k _ whole HG) by (try assumption; apply stage_slashOrEnd).
        f_equal. now apply IH.
Qed.

Lemma skipn_head_nth {A} (l : list A) : forall j a r,
  skipn j l = a :: r -> nth_error l j = Some a /\ skipn (S j) l = r.
Proof.
  induction l as [|x l IH]; intros j a r H.
  - destruct j; discriminate.
  - destruct j as [|j]; cbn in H |- *.
    + injection H as -> ->. now split.
    + now apply IH.
Qed.

Lemma restoreGroups_all x segs :
  forallb segmentOk segs = true ->
  forallb isParamName (paramsOf segs) = true ->
  ~ In x (paramsOf segs) ->
  forall rest j, skipn j (paramsOf segs) = rest ->
  restoreGroups (Some x) rest (S j) (stageText (S j) 1 segs) = bodyText segs.
Proof.
  intros Hs Hn Hx. induction rest as [|m rest IH]; intros j Hj.
  - cbn [restoreGroups]. apply stage_full.
    apply (f_equal (@length _)) in Hj. rewrite length_skipn in Hj.
    simpl in Hj. lia.
  - apply skipn_head_nth in Hj as [Hm Hj].
    assert (Hin : In m (paramsOf segs)) by (eapply nth_error_In; eassumption).
    assert (E : strEq m x = false) by (apply strEq_neq; congruence).
    cbn [restoreGroups]. rewrite E. cbn [negb]. unfold replaceAll.
    rewrite restore_step.
    + now apply IH.
    + rewrite forallb_forall in Hn. apply Hn in Hin.
      exact (proj2 (isParamName_name _ Hin)).
    + assumption.
    + intros _. cbn [Nat.sub]. now rewrite Nat.sub_0_r.
Qed.

(** *** The pattern read back *)

Lemma untilAngle_name n r :
  ~ In ">"%char n -> untilAngle (n ++ ">"%char :: r) = Some (n, r).
Proof.
  induction n as [|c n IH]; intro H; [reflexivity|].
  cbn [app untilAngle].
  rewrite chEq_false by (intro E; apply H; now left).
  rewrite IH; [reflexivity|]. intro Hin. apply H. now right.
Qed.

Lemma parseGroup_text n r :
  forallb isWordChar n = true -> parseGroup (groupText n ++ r) = Some (n, r).
Proof.
  intro Hn. unfold groupText, parseGroup. rewrite <- !app_assoc.
  rewrite startsWith_app.
  change (skipn 3 (lit "(?<" ++ n ++ lit ">[^/]+)" ++ r))
    with (n ++ ">"%char :: lit "[^/]+)" ++ r).
  rewrite untilAngle_name by now apply word_excludes.
  rewrite startsWith_app. reflexivity.
Qed.

Lemma optionalText_parts x r :
  optionalText x ++ r = lit "(?:/" ++ groupText x ++ lit ")?" ++ r.
Proof.
  unfold optionalText, groupText. rewrite <- !app_assoc. reflexivity.
Qed.

Lemma parseOptional_text x :
  forallb isWordChar x = true ->
  parseOptional (optionalText x ++ lit "/?$") = Some x.
Proof.
  intro Hx. rewrite optionalText_parts. unfold parseOptional.
  rewrite startsWith_app.
  change (skipn 4 (lit "(?:/" ++ groupText x ++ lit ")?" ++ lit "/?$"))
    with (groupText x ++ lit ")?/?$").
  now rewrite parseGroup_text.
Qed.

Lemma parseOptional_other c s : c <> "("%char -> parseOptional (c :: s) = None.
Proof.
  intro H. unfold parseOptional. cbn [lit list_ascii_of_string startsWith].
  rewrite chEq_false; [reflexivity | congruence].
Qed.

Lemma parseOptional_group n r : parseOptional (groupText n ++ r) = None.
Proof. reflexivity. Qed.

Lemma strEq_long s : 3 < length s -> strEq s (lit "/?$") = false.
Proof. intro H. apply strEq_neq. intro E. subst s. simpl in H. lia. Qed.

Lemma parseItems_tail x f :
  forallb isWordChar x = true ->
  parseItems (S f) (optionalText x ++ lit "/?$") = Some ([], Some x).
Proof.
  intro Hx. cbn [parseItems]. rewrite parseOptional_text by assumption.
  rewrite strEq_long; [reflexivity|].
  rewrite optionalText_parts. simpl. lia.
Qed.

Lemma parseItems_text u : forall R items opt bound,
  3 < length R ->
  (forall f, bound <= f -> parseItems f R = Some (items, opt)) ->
  forall f, bound + length u <= f ->
  parseItems f (escapeRegex u ++ R) = Some (map RLit u ++ items, opt).
Proof.
  induction u as [|c u IH]; intros R items opt bound HR Hparse f Hf.
  - apply Hparse. simpl in Hf. lia.
  - destruct f as [|f]; [simpl in Hf; lia|].
    assert (Hrest : parseItems f (escapeRegex u ++ R) = Some (map RLit u ++ items, opt)).
    { apply (IH R items opt bound); [assumption.. | simpl in Hf; lia]. }
    unfold escapeRegex. cbn [flat_map]. fold (escapeRegex u).
    destruct (isMeta c) eqn:Ec; cbn [app parseItems].
    + rewrite strEq_long by (cbn [length]; rewrite length_app; lia).
      rewrite parseOptional_other by discriminate.
      rewrite chEq_refl, Ec, Hrest. reflexivity.
    + assert (c <> "\"%char) by (intro E; subst c; discriminate Ec).
      assert (c <> "("%char) by (intro E; subst c; discriminate Ec).
      rewrite strEq_long by (cbn [length]; rewrite length_app; lia).
      rewrite parseOptional_other by assumption.
      rewrite !chEq_false by assumption. rewrite Ec, Hrest. reflexivity.
Qed.

Lemma parseItems_group n R items opt bound :
  forallb isWordChar n = true ->
  (forall f, bound <= f -> parseItems f R = Some (items, opt)) ->
  forall f, S bound <= f ->
  parseItems f (groupText n ++ R) = Some (RGroup n :: items, opt).
Proof.
  intros Hn Hparse f Hf. destruct f as [|f]; [lia|].
  cbn [parseItems]. rewrite parseOptional_group.
  rewrite strEq_long by (unfold groupText; rewrite !length_app; simpl; lia).
  rewrite parseGroup_text by assumption.
  unfold groupText at 1. cbn [lit list_ascii_of_string app].
  cbn [chEq Ascii.eqb Bool.eqb andb].
  rewrite Hparse by lia. reflexivity.
Qed.

Lemma length_escape u : length u <= length (escapeRegex u).
Proof.
  induction u as [|c u IH]; [reflexivity|].
  unfold escapeRegex in *. cbn [flat_map]. rewrite length_app.
  destruct (isMeta c); simpl; lia.
Qed.

Lemma parseItems_body x segs :
  forallb isParamName (x :: paramsOf segs) = true ->
  forall f, S (length (bodyText segs)) <= f ->
  parseItems f (bodyText segs ++ optionalText x ++ lit "/?$")
  = Some (itemsOf segs, Some x).
Proof.
  intro Hn. cbn [forallb] in Hn. apply andb_true_iff in Hn as [Hx Hn].
  apply isParamName_name in Hx. destruct Hx as [_ Hx].
  induction segs as [|[t|n] segs IH]; intros f Hf.
  - destruct f as [|f]; [lia|]. now apply parseItems_tail.
  - cbn [paramsOf flat_map app] in Hn. fold (paramsOf segs) in Hn.
    specialize (IH Hn).
    cbn [bodyText itemsOf].
    change ("/"%char :: escapeRegex t ++ bodyText segs)
      with (escapeRegex ("/"%char :: t) ++ bodyText segs).
    rewrite <- app_assoc.
    change (RLit "/" :: map RLit t ++ itemsOf segs)
      with (map RLit ("/"%char :: t) ++ itemsOf segs).
    apply (parseItems_text _ _ _ _ (S (length (bodyText segs)))).
    + rewrite !length_app. simpl. lia.
    + exact IH.
    + cbn [bodyText length] in Hf |- *. rewrite length_app in Hf.
      pose proof (length_escape t). lia.
  - cbn [paramsOf flat_map app forallb] in Hn. fold (paramsOf segs) in Hn.
    apply andb_true_iff in Hn as [Hnm Hn]. specialize (IH Hn).
    apply isParamName_name in Hnm. destruct Hnm as [_ Hnm].
    cbn [bodyText itemsOf].
    change ("/"%char :: groupText n ++ bodyText segs)
      with (escapeRegex ["/"%char] ++ groupText n ++ bodyText segs).
    rewrite <- !app_assoc.
    change (RLit "/" :: RGroup n :: itemsOf segs)
      with (map RLit ["/"%char] ++ RGroup n :: itemsOf segs).
    apply (parseItems_text _ _ _ _ (S (S (length (bodyText segs))))).
    + unfold groupText. rewrite !length_app. simpl. lia.
    + now apply parseItems_group.
    + cbn [bodyText length] in Hf |- *. rewrite length_app in Hf.
      unfold groupText in Hf. rewrite !length_app in Hf. simpl in Hf |- *. lia.
Qed.

Lemma groupNames_lits t : groupNames (map RLit t) = [].
Proof. induction t as [|c t IH]; [reflexivity | exact IH]. Qed.

Lemma groupNames_items segs : groupNames (itemsOf segs) = paramsOf segs.
Proof.
  induction segs as [|[t|n] segs IH]; [reflexivity | |].
  - cbn [itemsOf paramsOf flat_map app]. fold (paramsOf segs).
    unfold groupNames in *. cbn [flat_map app].
    rewrite flat_map_app. fold (groupNames (map RLit t)).
    now rewrite groupNames_lits.
  - cbn [itemsOf paramsOf flat_map app]. fold (paramsOf segs).
    unfold groupNames in *. cbn [flat_map app]. now rewrite IH.
Qed.

Lemma isParamName_valid n : isParamName n = true -> validGroupName n = true.
Proof.
  destruct n as [|c n]; [discriminate|]. unfold isParamName, validGroupName.
  intro H. apply andb_true_iff in H as [H1 H2]. rewrite H1. cbn [andb].
  rewrite forallb_forall in H2 |- *. intros a Ha.
  now rewrite (H2 a Ha).
Qed.

Lemma compileRegex_body segs x :
  routable segs x = true ->
  compileRegex ("^"%char :: bodyText segs ++ optionalText x ++ lit "/?$")
  = Some {| rxItems := itemsOf segs; rxOptional := Some x |}.
Proof.
  unfold routable. intro H. apply andb_true_iff in H as [H Hd].
  apply andb_true_iff in H as [Hs Hn].
  unfold compileRegex. cbv beta iota. rewrite chEq_refl.
  rewrite (parseItems_body x segs Hn) by (rewrite length_app; lia).
  rewrite groupNames_items.
  assert (Hv : forallb validGroupName (paramsOf segs ++ [x]) = true).
  { rewrite forallb_forall in Hn |- *. intros a Ha.
    apply isParamName_valid, Hn.
    apply in_app_or in Ha as [Ha|[<-|[]]]; [now right | now left]. }
  assert (Hu : distinctNames (paramsOf segs ++ [x]) = true).
  { apply distinctNames_NoDup. apply distinctNames_NoDup in Hd.
    eapply Permutation_NoDup; [apply Permutation_cons_append | exact Hd]. }
  now rewrite Hv, Hu.
Qed.

Lemma templateOf_not_empty segs x : isEmpty (templateOf segs x) = false.
Proof. destruct (templateOf_head segs x) as [r ->]. reflexivity. Qed.

Lemma convert_template segs x :
  routable segs x = true ->
  convertUrlPatternToRegex (templateOf segs x)
  = (Some {| rxItems := itemsOf segs; rxOptional := Some x |},
     x :: paramsOf segs).
Proof.
  intro Hok. pose proof Hok as H. unfold routable in H.
  apply andb_true_iff in H as [H Hd]. apply andb_true_iff in H as [Hs Hn].
  apply distinctNames_NoDup in Hd.
  assert (Hps : forallb isParamName (paramsOf segs) = true).
  { cbn [forallb] in Hn. now apply andb_true_iff in Hn as [_ Hn]. }
  unfold convertUrlPatternToRegex.
  rewrite templateOf_not_empty, endParamMatch_template by assumption.
  cbv beta iota zeta. cbn [option_map snd Nat.add].
  assert (Ef : firstn (length (flat_map segmentText segs)) (templateOf segs x)
               = flat_map segmentText segs).
  { unfold templateOf.
    now rewrite firstn_app, Nat.sub_diag, firstn_all, firstn_O, app_nil_r. }
  rewrite Ef, (replaceBraces_segments segs [x]) by assumption.
  cbn [fst snd length app restoreGroups].
  rewrite strEq_refl. cbn [negb].
  rewrite (escape_marked 1) by lia.
  rewrite (restoreGroups_all x segs Hs Hps) ; [| now inversion Hd | reflexivity].
  now rewrite compileRegex_body.
Qed.

(** *** Matching a path *)

Lemma segRun_value v R : ~ In "/"%char v -> slashOrEnd R -> segRun (v ++ R) = v.
Proof.
  induction v as [|a v IH]; intros Hv HR.
  - destruct R as [|c R]; [reflexivity|]. simpl in HR. now subst c.
  - cbn [app segRun]. rewrite chEq_false by (intro E; apply Hv; now left).
    f_equal. apply IH; [|assumption]. intro Hin. apply Hv. now right.
Qed.

Lemma segRun_firstn s : forall i,
  i <= length (segRun s) ->
  ~ In "/"%char (firstn i s) /\ length (firstn i s) = i.
Proof.
  induction s as [|c s IH]; intros i Hi.
  - simpl in Hi. assert (i = 0) by lia. subst i. split; [intros [] | reflexivity].
  - destruct i as [|i]; [split; [intros [] | reflexivity]|].
    cbn [segRun] in Hi. destruct (chEq c "/") eqn:E; [simpl in Hi; lia|].
    cbn [length] in Hi. destruct (IH i ltac:(lia)) as [H1 H2].
    cbn [firstn]. split.
    + intros [Ec|Hin]; [|auto]. subst c. now rewrite chEq_refl in E.
    + simpl. now rewrite H2.
Qed.

Lemma tryLengths_first {A} n (f : nat -> option A) r :
  0 < n -> f n = Some r -> tryLengths n f = Some r.
Proof. destruct n as [|n]; [lia|]. intros _ H. cbn. now rewrite H. Qed.

Lemma tryLengths_some {A} n (f : nat -> option A) r :
  tryLengths n f = Some r -> exists i, 0 < i <= n /\ f i = Some r.
Proof.
  induction n as [|n IH]; cbn; [discriminate|].
  destruct (f (S n)) eqn:E.
  - intros [= <-]. exists (S n). split; [lia | assumption].
  - intro H. destruct (IH H) as (i & Hi & Hf). exists i. split; [lia | assumption].
Qed.

Lemma optSlashEnd_slashText b : optSlashEnd (slashText b) = true.
Proof. now destruct b. Qed.

Lemma optSlashEnd_inv s : optSlashEnd s = true -> exists b, s = slashText b.
Proof.
  destruct s as [|c [|d s]]; cbn; intro H.
  - now exists false.
  - apply andb_true_iff in H as [H _]. apply chEq_eq in H. subst c. now exists true.
  - rewrite andb_false_r in H. discriminate.
Qed.

Lemma slashText_slashOrEnd last slash : slashOrEnd (lastText last ++ slashText slash).
Proof. destruct last, slash; simpl; auto. Qed.

Lemma value_length v : isSegmentValue v -> 0 < length v.
Proof. intros [H _]. destruct v; [contradiction | simpl; lia]. Qed.

Lemma firstn_length_app {A} (a b : list A) : firstn (length a) (a ++ b) = a.
Proof. now rewrite firstn_app, Nat.sub_diag, firstn_all, firstn_O, app_nil_r. Qed.

Lemma matchTail_accepts x last slash g :
  (forall v, last = Some v -> isSegmentValue v) ->
  matchTail (Some x) (lastText last ++ slashText slash) g
  = Some (g ++ [(x, lastValue last)]).
Proof.
  intro Hl. destruct last as [v|]; [|now destruct slash].
  pose proof (Hl v eq_refl) as Hv.
  cbn [lastText lastValue matchTail app]. rewrite chEq_refl.
  rewrite segRun_value; [|apply Hv | destruct slash; simpl; auto].
  rewrite (tryLengths_first (length v) _ (g ++ [(x, VStr v)]));
    [reflexivity | now apply value_length |].
  now rewrite skipn_length_app, optSlashEnd_slashText, firstn_length_app.
Qed.

Lemma matchTail_inv x s g res :
  matchTail (Some x) s g = Some res ->
  exists last slash,
    (forall v, last = Some v -> isSegmentValue v) /\
    s = lastText last ++ slashText slash /\
    res = g ++ [(x, lastValue last)].
Proof.
  unfold matchTail. destruct s as [|c s1].
  - cbn. intros [= <-]. exists None, false.
    split; [discriminate|]. now split.
  - destruct (chEq c "/") eqn:Ec.
    + apply chEq_eq in Ec. subst c.
      destruct (tryLengths _ _) as [r|] eqn:Et.
      * intros [= <-]. apply tryLengths_some in Et as (i & Hi & Hf).
        destruct (optSlashEnd (skipn i s1)) eqn:Eo; [|discriminate].
        injection Hf as <-. apply optSlashEnd_inv in Eo as [b Eb].
        destruct (segRun_firstn s1 i ltac:(lia)) as [H1 H2].
        exists (Some (firstn i s1)), b. split; [|split; [|reflexivity]].
        -- intros v [= <-]. split; [|assumption].
           intro E. rewrite E in H2. simpl in H2. lia.
        -- cbn [lastText app]. now rewrite <- Eb, firstn_skipn.
      * intro H. destruct (optSlashEnd ("/"%char :: s1)) eqn:Eo; [|discriminate].
        injection H as <-. apply optSlashEnd_inv in Eo as [b Eb].
        exists None, b. split; [discriminate|]. split; [exact Eb | reflexivity].
    + cbn [optSlashEnd]. rewrite Ec. discriminate.
Qed.

Lemma matchItems_lits t items opt s g :
  matchItems (map RLit t ++ items) opt (t ++ s) g = matchItems items opt s g.
Proof.
  induction t as [|c t IH]; [reflexivity|].
  cbn [map app matchItems]. now rewrite chEq_refl.
Qed.

Lemma matchItems_lits_inv t items opt : forall s g res,
  matchItems (map RLit t ++ items) opt s g = Some res ->
  exists s', s = t ++ s' /\ matchItems items opt s' g = Some res.
Proof.
  induction t as [|c t IH]; intros s g res H.
  - now exists s.
  - cbn [map app matchItems] in H. destruct s as [|a s]; [discriminate|].
    destruct (chEq a c) eqn:E; [|discriminate]. apply chEq_eq in E. subst a.
    destruct (IH _ _ _ H) as (s' & -> & H'). now exists s'.
Qed.

Lemma fill_slashOrEnd env segs R : slashOrEnd R -> slashOrEnd (fill env segs ++ R).
Proof. destruct segs as [|[t|n] segs]; simpl; auto. Qed.

Lemma fill_ext env env' segs :
  (forall n, In n (paramsOf segs) -> env n = env' n) ->
  fill env segs = fill env' segs.
Proof.
  induction segs as [|[t|n] segs IH]; intro H; [reflexivity | |].
  - unfold fill in *. cbn [flat_map]. f_equal. now apply IH.
  - unfold fill in *. cbn [flat_map].
    rewrite (H n) by now left. f_equal.
    apply IH. intros m Hm. apply H. now right.
Qed.

Lemma fill_param env n segs :
  fill env (Param n :: segs) = "/"%char :: env n ++ fill env segs.
Proof. reflexivity. Qed.

Lemma matchItems_fill env x segs : forall R g res,
  Forall (fun n => isSegmentValue (env n)) (paramsOf segs) ->
  slashOrEnd R ->
  matchTail (Some x) R (g ++ map (fun n => (n, VStr (env n))) (paramsOf segs))
  = Some res ->
  matchItems (itemsOf segs) (Some x) (fill env segs ++ R) g = Some res.
Proof.
  induction segs as [|[t|n] segs IH]; intros R g res Hv HR Ht.
  - cbn in Ht |- *. now rewrite app_nil_r in Ht.
  - unfold fill. cbn [itemsOf flat_map app matchItems]. fold (fill env segs).
    rewrite chEq_refl, <- app_assoc, matchItems_lits. now apply IH.
  - cbn [paramsOf flat_map app map] in Hv, Ht. fold (paramsOf segs) in Hv, Ht.
    inversion Hv as [|? ? Hn Hv']; subst.
    unfold fill. cbn [itemsOf flat_map app matchItems]. fold (fill env segs).
    rewrite chEq_refl, <- app_assoc.
    rewrite segRun_value; [|apply Hn | now apply fill_slashOrEnd].
    apply tryLengths_first; [now apply value_length|].
    rewrite skipn_length_app, firstn_length_app.
    apply IH; [assumption.. |]. now rewrite <- app_assoc.
Qed.

Lemma matchItems_inv x segs :
  NoDup (paramsOf segs) -> forall s g res,
  matchItems (itemsOf segs) (Some x) s g = Some res ->
  exists env last slash,
    Forall (fun n => isSegmentValue (env n)) (paramsOf segs) /\
    (forall v, last = Some v -> isSegmentValue v) /\
    s = fill env segs ++ lastText last ++ slashText slash /\
    res = g ++ map (fun n => (n, VStr (env n))) (paramsOf segs)
            ++ [(x, lastValue last)].
Proof.
  induction segs as [|[t|n] segs IH]; intros Hd s g res H.
  - cbn [itemsOf matchItems] in H.
    apply matchTail_inv in H as (last & slash & Hl & -> & ->).
    exists (fun _ => []), last, slash.
    split; [constructor|]. split; [assumption|]. now split.
  - cbn [itemsOf matchItems] in H. destruct s as [|c s]; [discriminate|].
    destruct (chEq c "/") eqn:E; [|discriminate]. apply chEq_eq in E. subst c.
    apply matchItems_lits_inv in H as (s' & -> & H).
    destruct (IH Hd _ _ _ H) as (env & last & slash & Hv & Hl & -> & ->).
    exists env, last, slash.
    split; [assumption|]. split; [assumption|]. split; [|reflexivity].
    unfold fill. cbn [flat_map app]. now rewrite <- app_assoc.
  - cbn [paramsOf flat_map app] in Hd |- *. fold (paramsOf segs) in Hd |- *.
    inversion Hd as [|? ? Hnew Hd']; subst.
    cbn [itemsOf matchItems] in H. destruct s as [|c s1]; [discriminate|].
    destruct (chEq c "/") eqn:E; [|discriminate]. apply chEq_eq in E. subst c.
    apply tryLengths_some in H as (i & Hi & H).
    destruct (IH Hd' _ _ _ H) as (env' & last & slash & Hv & Hl & Hs & ->).
    destruct (segRun_firstn s1 i ltac:(lia)) as [H1 H2].
    set (v := firstn i s1) in *.
    exists (fun m => if strEq m n then v else env' m), last, slash.
    assert (Hother : forall m, In m (paramsOf segs) ->
                     (if strEq m n then v else env' m) = env' m).
    { intros m Hm. assert (E : strEq m n = false) by (apply strEq_neq; congruence).
      now rewrite E. }
    split; [|split; [|split]].
    + constructor.
      * rewrite strEq_refl. split; [|assumption].
        intro E. rewrite E in H2. simpl in H2. lia.
      * rewrite Forall_forall in Hv |- *. intros m Hm.
        rewrite (Hother m Hm). now apply Hv.
    + assumption.
    + rewrite fill_param. cbv beta.
      rewrite strEq_refl, (fill_ext _ env' segs Hother). cbn [app].
      rewrite <- app_assoc, <- Hs.
      unfold v. now rewrite firstn_skipn.
    + cbn [map]. rewrite strEq_refl, <- app_assoc. cbn [app]. f_equal. f_equal.
      f_equal. apply map_ext_in. intros m Hm. now rewrite (Hother m Hm).
Qed.

(** C6, as amended. For a template written segment by segment, each
    segment fixed text or one placeholder, and closed by a trailing
    placeholder [x], where the names are distinct and do not start with a
    digit and the text holds no brace and not the word of the markers: the
    compiler returns the names, the trailing one first, and the matcher
    accepts exactly the paths that put one non-empty segment without slash
    in the place of every placeholder, with or without a segment for [x],
    with or without a final slash. The groups of the match hold the
    segment of every placeholder; the group of [x] holds its segment, and
    is undefined when the path leaves it out. *)
Theorem url_template_matches segs x (Hok : routable segs x = true) :
  snd (convertUrlPatternToRegex (templateOf segs x)) = x :: paramsOf segs /\
  forall path groups,
    matchUrl (templateOf segs x) path = Some groups <->
    exists env last slash,
      Forall (fun n => isSegmentValue (env n)) (paramsOf segs) /\
      (forall v, last = Some v -> isSegmentValue v) /\
      path = fill env segs ++ lastText last ++ slashText slash /\
      groups = groupsOf env segs x last.
Proof.
  unfold matchUrl. rewrite (convert_template segs x Hok).
  split; [reflexivity|]. intros path groups.
  unfold regexMatch, groupsOf. cbn [fst rxItems rxOptional].
  split.
  - intro H. apply matchItems_inv in H; [exact H|].
    unfold routable in Hok. apply andb_true_iff in Hok as [_ Hd].
    apply distinctNames_NoDup in Hd. now inversion Hd.
  - intros (env & last & slash & Hv & Hl & -> & ->).
    apply matchItems_fill; [assumption | apply slashText_slashOrEnd |].
    now apply matchTail_accepts.
Qed.

Lemma url_template_matches_witness :
  routable [Fixed (lit "api"); Param (lit "dept"); Fixed (lit "items")]
           (lit "id") = true /\
  matchUrl (lit "/api/{dept}/items/{id}") (lit "/api/7/items/42/")
  = Some [(lit "dept", VStr (lit "7")); (lit "id", VStr (lit "42"))] /\
  matchUrl (lit "/api/{dept}/items/{id}") (lit "/api/7/items")
  = Some [(lit "dept", VStr (lit "7")); (lit "id", VUndefined)].
Proof.
  split; [reflexivity|].
  assert (Hseven : Forall (fun _ : jsString => isSegmentValue (lit "7"))
                     [lit "dept"]).
  { constructor; [|constructor]. split; [discriminate|].
    simpl. intuition discriminate. }
  split.
  - apply (proj2 (proj2 (url_template_matches
             [Fixed (lit "api"); Param (lit "dept"); Fixed (lit "items")]
             (lit "id") eq_refl) _ _)).
    exists (fun _ => lit "7"), (Some (lit "42")), true.
    split; [exact Hseven|].
    split; [|split; reflexivity].
    intros v [= <-]. split; [discriminate|]. simpl. intuition discriminate.
  - apply (proj2 (proj2 (url_template_matches
             [Fixed (lit "api"); Param (lit "dept"); Fixed (lit "items")]
             (lit "id") eq_refl) _ _)).
    exists (fun _ => lit "7"), None, false.
    split; [exact Hseven|].
    split; [discriminate|]. split; reflexivity.
Defined.

(** C6 as stated fails for a trailing placeholder whose name is not a
    group name: the pattern is not a regular expression, and the template
    matches no path. *)
Lemma url_template_digit_name_never_matches :
  endParamMatch 0 (lit "/api/items/{1}") = Some (10, lit "1") /\
  convertUrlPatternToRegex (lit "/api/items/{1}") = (None, []) /\
  matchUrl (lit "/api/items/{1}") (lit "/api/items") = None /\
  matchUrl (lit "/api/items/{1}") (lit "/api/items/7") = None.
Proof. repeat split; vm_compute; reflexivity. Qed.

(** Templates outside the property above. A trailing name that is also
    written earlier keeps its marker as literal text; a placeholder that
    shares its segment with text takes as much of the segment as the rest
    of the pattern allows; a name written twice before the trailing
    segment gives no pattern. *)
Example url_template_other_shapes :
  matchUrl (lit "/api/{x}/{x}") (lit "/api/1/1") = None /\
  matchUrl (lit "/api/{x}/{x}") (lit "/api/__CAPTUREGROUP_0__/1")
  = Some [(lit "x", VStr (lit "1"))] /\
  matchUrl (lit "/api/{a}-{b}/{x}") (lit "/api/p-q-r")
  = Some [(lit "a", VStr (lit "p-q")); (lit "b", VStr (lit "r"));
          (lit "x", VUndefined)] /\
  convertUrlPatternToRegex (lit "/api/{a}/{a}/{x}") = (None, []).
Proof. repeat split; vm_compute; reflexivity. Qed.

(* ------------------------------------------------------------------ *)
(** ** Templates without a trailing placeholder *)

Lemma segments_head segs :
  segs <> [] -> exists r, flat_map segmentText segs = "/"%char :: r.
Proof. destruct segs as [|[t|n] segs]; [contradiction | cbn; eauto ..]. Qed.

Lemma endsFixed_cons g g' segs : endsFixed (g :: g' :: segs) = endsFixed (g' :: segs).
Proof. reflexivity. Qed.

Lemma fixed_no_brace t : segmentOk (Fixed t) = true -> ~ In "{"%char ("/"%char :: t).
Proof.
  unfold segmentOk. intro Hg. apply andb_true_iff in Hg as [Hg _].
  apply negb_true_iff in Hg. intros [E|Hin]; [discriminate|].
  apply not_true_iff_false in Hg. apply Hg.
  apply existsb_exists. exists "{"%char. split; [assumption | reflexivity].
Qed.

Lemma endParamMatch_fixed segs : forall pos,
  forallb segmentOk segs = true ->
  forallb isParamName (paramsOf segs) = true ->
  endsFixed segs = true ->
  endParamMatch pos (flat_map segmentText segs) = None.
Proof.
  induction segs as [|g segs IH]; intros pos Hs Hn He; [discriminate|].
  cbn [forallb] in Hs. apply andb_true_iff in Hs as [Hg Hs].
  destruct segs as [|g' segs'].
  - destruct g as [t|n]; [|discriminate].
    cbn [flat_map segmentText]. rewrite endParamMatch_plain;
      [reflexivity | now apply fixed_no_brace | discriminate].
  - rewrite endsFixed_cons in He.
    destruct (segments_head (g' :: segs') ltac:(discriminate)) as [r Er].
    cbn [flat_map] in Er |- *. destruct g as [t|n].
    + cbn [paramsOf flat_map app] in Hn.
      rewrite endParamMatch_plain;
        [ | now apply fixed_no_brace | rewrite Er; discriminate].
      now apply IH.
    + cbn [paramsOf flat_map app forallb] in Hn.
      apply andb_true_iff in Hn as [Hnm Hn].
      pose proof (proj2 (isParamName_name _ Hnm)) as Hw.
      cbn [segmentText app]. rewrite endParamMatch_cons, isEndParam_inner;
        [ | assumption | rewrite Er; discriminate].
      rewrite endParamMatch_noslash by now apply braced_no_slash.
      now apply IH.
Qed.

Lemma restoreGroups_fixed segs :
  forallb segmentOk segs = true ->
  forallb isParamName (paramsOf segs) = true ->
  forall rest j, skipn j (paramsOf segs) = rest ->
  restoreGroups None rest j (stageText j 0 segs) = bodyText segs.
Proof.
  intros Hs Hn. induction rest as [|m rest IH]; intros j Hj.
  - cbn [restoreGroups]. apply stage_full.
    apply (f_equal (@length _)) in Hj. rewrite length_skipn in Hj.
    simpl in Hj. lia.
  - apply skipn_head_nth in Hj as [Hm Hj].
    assert (Hin : In m (paramsOf segs)) by (eapply nth_error_In; eassumption).
    cbn [restoreGroups]. unfold replaceAll. rewrite restore_step.
    + now apply IH.
    + rewrite forallb_forall in Hn. apply Hn in Hin.
      exact (proj2 (isParamName_name _ Hin)).
    + assumption.
    + intros _. now rewrite Nat.sub_0_r.
Qed.

Lemma parseItems_text_end u : forall R items opt bound,
  3 <= length R ->
  (forall f, bound <= f -> parseItems f R = Some (items, opt)) ->
  forall f, bound + length u <= f ->
  parseItems f (escapeRegex u ++ R) = Some (map RLit u ++ items, opt).
Proof.
  induction u as [|c u IH]; intros R items opt bound HR Hparse f Hf.
  - apply Hparse. simpl in Hf. lia.
  - destruct f as [|f]; [simpl in Hf; lia|].
    assert (Hrest : parseItems f (escapeRegex u ++ R)
                    = Some (map RLit u ++ items, opt)).
    { apply (IH R items opt bound); [assumption.. | simpl in Hf; lia]. }
    unfold escapeRegex. cbn [flat_map]. fold (escapeRegex u).
    destruct (isMeta c) eqn:Ec; cbn [app parseItems].
    + rewrite strEq_long by (cbn [length]; rewrite length_app; lia).
      rewrite parseOptional_other by discriminate.
      rewrite chEq_refl, Ec, Hrest. reflexivity.
    + assert (c <> "\"%char) by (intro E; subst c; discriminate Ec).
      assert (c <> "("%char) by (intro E; subst c; discriminate Ec).
      rewrite strEq_long by (cbn [length]; rewrite length_app; lia).
      rewrite parseOptional_other by assumption.
      rewrite !chEq_false by assumption. rewrite Ec, Hrest. reflexivity.
Qed.

Lemma parseItems_body_fixed segs :
  forallb isParamName (paramsOf segs) = true ->
  forall f, S (length (bodyText segs)) <= f ->
  parseItems f (bodyText segs ++ lit "/?$") = Some (itemsOf segs, None).
Proof.
  intro Hn. induction segs as [|[t|n] segs IH]; intros f Hf.
  - destruct f as [|f]; [lia | reflexivity].
  - cbn [paramsOf flat_map app] in Hn. specialize (IH Hn).
    cbn [bodyText itemsOf].
    change ("/"%char :: escapeRegex t ++ bodyText segs)
      with (escapeRegex ("/"%char :: t) ++ bodyText segs).
    rewrite <- app_assoc.
    change (RLit "/" :: map RLit t ++ itemsOf segs)
      with (map RLit ("/"%char :: t) ++ itemsOf segs).
    apply (parseItems_text_end _ _ _ _ (S (length (bodyText segs)))).
    + rewrite !length_app. simpl. lia.
    + exact IH.
    + cbn [bodyText length] in Hf |- *. rewrite length_app in Hf.
      pose proof (length_escape t). lia.
  - cbn [paramsOf flat_map app forallb] in Hn.
    apply andb_true_iff in Hn as [Hnm Hn]. specialize (IH Hn).
    apply isParamName_name in Hnm. destruct Hnm as [_ Hnm].
    cbn [bodyText itemsOf].
    change ("/"%char :: groupText n ++ bodyText segs)
      with (escapeRegex ["/"%char] ++ groupText n ++ bodyText segs).
    rewrite <- !app_assoc.
    change (RLit "/" :: RGroup n :: itemsOf segs)
      with (map RLit ["/"%char] ++ RGroup n :: itemsOf segs).
    apply (parseItems_text_end _ _ _ _ (S (S (length (bodyText segs))))).
    + unfold groupText. rewrite !length_app. simpl. lia.
    + now apply parseItems_group.
    + cbn [bodyText length] in Hf |- *. rewrite length_app in Hf.
      unfold groupText in Hf. rewrite !length_app in Hf. simpl in Hf |- *. lia.
Qed.

Lemma routableFixed_parts segs :
  routableFixed segs = true ->
  forallb segmentOk segs = true /\
  forallb isParamName (paramsOf segs) = true /\
  NoDup (paramsOf segs) /\ endsFixed segs = true.
Proof.
  unfold routableFixed. intro H.
  apply andb_true_iff in H as [H He]. apply andb_true_iff in H as [H Hd].
  apply andb_true_iff in H as [Hs Hn]. apply distinctNames_NoDup in Hd.
  now repeat split.
Qed.

Lemma convert_template_fixed segs :
  routableFixed segs = true ->
  convertUrlPatternToRegex (flat_map segmentText segs)
  = (Some {| rxItems := itemsOf segs; rxOptional := None |}, paramsOf segs).
Proof.
  intro Hok. destruct (routableFixed_parts segs Hok) as (Hs & Hn & Hd & He).
  assert (Hne : segs <> []) by (intro E; subst; discriminate).
  destruct (segments_head segs Hne) as [r Er].
  unfold convertUrlPatternToRegex.
  rewrite endParamMatch_fixed by assumption.
  rewrite Er at 1. cbn [isEmpty]. cbv beta iota zeta. cbn [option_map].
  rewrite (replaceBraces_segments segs []) by assumption.
  cbn [fst snd length app].
  rewrite (escape_marked 0) by lia.
  rewrite (restoreGroups_fixed segs Hs Hn) by reflexivity.
  unfold compileRegex. cbv beta iota. rewrite chEq_refl.
  rewrite (parseItems_body_fixed segs Hn) by (rewrite length_app; lia).
  rewrite groupNames_items, app_nil_r.
  assert (Hv : forallb validGroupName (paramsOf segs) = true).
  { rewrite forallb_forall in Hn |- *. intros a Ha.
    now apply isParamName_valid, Hn. }
  apply distinctNames_NoDup in Hd. now rewrite Hv, Hd.
Qed.

Lemma matchItems_fill_any env opt segs : forall R g res,
  Forall (fun n => isSegmentValue (env n)) (paramsOf segs) ->
  slashOrEnd R ->
  matchTail opt R (g ++ map (fun n => (n, VStr (env n))) (paramsOf segs))
  = Some res ->
  matchItems (itemsOf segs) opt (fill env segs ++ R) g = Some res.
Proof.
  induction segs as [|[t|n] segs IH]; intros R g res Hv HR Ht.
  - cbn in Ht |- *. now rewrite app_nil_r in Ht.
  - unfold fill. cbn [itemsOf flat_map app matchItems]. fold (fill env segs).
    rewrite chEq_refl, <- app_assoc, matchItems_lits. now apply IH.
  - cbn [paramsOf flat_map app map] in Hv, Ht. fold (paramsOf segs) in Hv, Ht.
    inversion Hv as [|? ? Hn Hv']; subst.
    unfold fill. cbn [itemsOf flat_map app matchItems]. fold (fill env segs).
    rewrite chEq_refl, <- app_assoc.
    rewrite segRun_value; [|apply Hn | now apply fill_slashOrEnd].
    apply tryLengths_first; [now apply value_length|].
    rewrite skipn_length_app, firstn_length_app.
    apply IH; [assumption.. |]. now rewrite <- app_assoc.
Qed.

Lemma matchItems_inv_any opt segs :
  NoDup (paramsOf segs) -> forall s g res,
  matchItems (itemsOf segs) opt s g = Some res ->
  exists env R,
    Forall (fun n => isSegmentValue (env n)) (paramsOf segs) /\
    s = fill env segs ++ R /\
    matchTail opt R (g ++ map (fun n => (n, VStr (env n))) (paramsOf segs))
    = Some res.
Proof.
  induction segs as [|[t|n] segs IH]; intros Hd s g res H.
  - cbn [itemsOf matchItems] in H. exists (fun _ => []), s.
    split; [constructor|]. split; [reflexivity|].
    cbn. now rewrite app_nil_r.
  - cbn [itemsOf matchItems] in H. destruct s as [|c s]; [discriminate|].
    destruct (chEq c "/") eqn:E; [|discriminate]. apply chEq_eq in E. subst c.
    apply matchItems_lits_inv in H as (s' & -> & H).
    destruct (IH Hd _ _ _ H) as (env & R & Hv & -> & Ht).
    exists env, R. split; [assumption|]. split; [|assumption].
    unfold fill. cbn [flat_map app]. now rewrite <- app_assoc.
  - cbn [paramsOf flat_map app] in Hd |- *. fold (paramsOf segs) in Hd |- *.
    inversion Hd as [|? ? Hnew Hd']; subst.
    cbn [itemsOf matchItems] in H. destruct s as [|c s1]; [discriminate|].
    destruct (chEq c "/") eqn:E; [|discriminate]. apply chEq_eq in E. subst c.
    apply tryLengths_some in H as (i & Hi & H).
    destruct (IH Hd' _ _ _ H) as (env' & R & Hv & Hs & Ht).
    destruct (segRun_firstn s1 i ltac:(lia)) as [H1 H2].
    set (v := firstn i s1) in *.
    exists (fun m => if strEq m n then v else env' m), R.
    assert (Hother : forall m, In m (paramsOf segs) ->
                     (if strEq m n then v else env' m) = env' m).
    { intros m Hm. assert (E : strEq m n = false) by (apply strEq_neq; congruence).
      now rewrite E. }
    split; [|split].
    + constructor.
      * rewrite strEq_refl. split; [|assumption].
        intro E. rewrite E in H2. simpl in H2. lia.
      * rewrite Forall_forall in Hv |- *. intros m Hm.
        rewrite (Hother m Hm). now apply Hv.
    + rewrite fill_param. cbv beta.
      rewrite strEq_refl, (fill_ext _ env' segs Hother). cbn [app].
      rewrite <- app_assoc, <- Hs.
      unfold v. now rewrite firstn_skipn.
    + cbn [map]. rewrite strEq_refl.
      rewrite (map_ext_in _ (fun n0 => (n0, VStr (env' n0)))).
      * rewrite <- Ht. f_equal. now rewrite <- app_assoc.
      * intros m Hm. now rewrite (Hother m Hm).
Qed.

(** X1. Take a template made of segments [/text] and [/{name}] in which
    the names are distinct, are made of word characters and do not start
    with a digit, the fixed text holds no [{], neither a name nor the
    fixed text holds the word [CAPTUREGROUP], and the last segment is
    fixed text. Such a template has no optional part: the compiler
    returns the names in the order of the template, and the matcher
    accepts exactly the paths that put one non-empty segment without
    slash in the place of every placeholder, with or without a final
    slash; the groups hold the segment of every placeholder. *)
Theorem url_template_fixed_matches segs (Hok : routableFixed segs = true) :
  snd (convertUrlPatternToRegex (flat_map segmentText segs)) = paramsOf segs /\
  forall path groups,
    matchUrl (flat_map segmentText segs) path = Some groups <->
    exists env slash,
      Forall (fun n => isSegmentValue (env n)) (paramsOf segs) /\
      path = fill env segs ++ slashText slash /\
      groups = map (fun n => (n, VStr (env n))) (paramsOf segs).
Proof.
  unfold matchUrl. rewrite (convert_template_fixed segs Hok).
  split; [reflexivity|]. intros path groups.
  unfold regexMatch. cbn [fst rxItems rxOptional].
  destruct (routableFixed_parts segs Hok) as (_ & _ & Hd & _).
  split.
  - intro H. apply matchItems_inv_any in H as (env & R & Hv & -> & Ht);
      [|assumption].
    cbn [matchTail app] in Ht.
    destruct (optSlashEnd R) eqn:Eo; [|discriminate]. injection Ht as <-.
    apply optSlashEnd_inv in Eo as [b ->]. now exists env, b.
  - intros (env & slash & Hv & -> & ->).
    apply matchItems_fill_any; [assumption | now destruct slash |].
    cbn [matchTail app]. now rewrite optSlashEnd_slashText.
Qed.

Lemma url_template_fixed_matches_witness :
  routableFixed [Fixed (lit "api"); Param (lit "id"); Fixed (lit "orders")]
  = true /\
  matchUrl (lit "/api/{id}/orders") (lit "/api/7/orders/")
  = Some [(lit "id", VStr (lit "7"))].
Proof.
  split; [reflexivity|].
  apply (proj2 (proj2 (url_template_fixed_matches
           [Fixed (lit "api"); Param (lit "id"); Fixed (lit "orders")]
           eq_refl) _ _)).
  exists (fun _ => lit "7"), true.
  split; [|split; reflexivity].
  constructor; [|constructor]. split; [discriminate|].
  simpl. intuition discriminate.
Defined.

(* ------------------------------------------------------------------ *)
(** ** The endpoint of a request *)

Lemma findEndpoint_found endpoints req e p :
  findEndpoint endpoints req = Some (e, p) <->
  exists pre post,
    endpoints = pre ++ e :: post /\
    Forall (fun e' => matchEndpoint e' req = None) pre /\
    matchEndpoint e req = Some p.
Proof.
  induction endpoints as [|a l IH]; cbn [findEndpoint].
  - split; [discriminate|]. intros (pre & post & H & _). now destruct pre.
  - destruct (matchEndpoint a req) as [q|] eqn:Ea.
    + split.
      * intros [= <- <-]. exists [], l. now repeat split.
      * intros (pre & post & H & Hpre & He). destruct pre as [|b pre].
        -- injection H as <- _. congruence.
        -- injection H as <- _. inversion Hpre; congruence.
    + rewrite IH. split.
      * intros (pre & post & -> & Hpre & He). exists (a :: pre), post.
        repeat split; [constructor|]; assumption.
      * intros (pre & post & H & Hpre & He). destruct pre as [|b pre].
        -- injection H as <- _. congruence.
        -- injection H as <- ->. inversion Hpre; subst. now exists pre, post.
Qed.

Lemma findEndpoint_none endpoints req :
  findEndpoint endpoints req = None <->
  Forall (fun e => matchEndpoint e req = None) endpoints.
Proof.
  induction endpoints as [|a l IH]; cbn [findEndpoint].
  - split; [constructor | reflexivity].
  - destruct (matchEndpoint a req) as [q|] eqn:Ea.
    + split; [discriminate|]. intro H. inversion H; congruence.
    + rewrite IH. split; [now constructor | intro H; now inversion H].
Qed.

Lemma matchEndpoint_tests e req p :
  matchEndpoint e req = Some p <-> passesTests e req p.
Proof.
  unfold matchEndpoint, passesTests, matchUrl. split.
  - destruct (strEq (epMethod e) (reqMethod req)) eqn:Em; [|discriminate].
    apply strEq_eq in Em. cbn [negb].
    destruct (epUrl e) as [url|]; [|discriminate].
    destruct (startsWith (lit "/api/") url) eqn:Ep; [|discriminate].
    destruct (fst (convertUrlPatternToRegex url)) as [regex|] eqn:Er;
      [|discriminate].
    destruct (regexMatch regex (reqPath req)) as [groups|] eqn:Eg;
      [|discriminate].
    intros [= <-]. split; [assumption|]. exists url, groups.
    repeat split; [exact Ep|]. now rewrite Er.
  - intros (Hm & url & groups & Hu & Hp & Hg & ->).
    rewrite Hm, strEq_refl, Hu, Hp. cbn [negb].
    destruct (fst (convertUrlPatternToRegex url)) as [regex|];
      [|discriminate].
    now rewrite Hg.
Qed.

Lemma matchEndpoint_fails e req :
  matchEndpoint e req = None <-> failsTests e req.
Proof.
  unfold failsTests. split.
  - intros H p Hp. apply matchEndpoint_tests in Hp. congruence.
  - intro H. destruct (matchEndpoint e req) as [p|] eqn:E; [|reflexivity].
    apply matchEndpoint_tests in E. now apply H in E.
Qed.

Lemma Forall_fails endpoints req :
  Forall (fun e => matchEndpoint e req = None) endpoints <->
  Forall (fun e => failsTests e req) endpoints.
Proof.
  split; apply Forall_impl; intros e H; now apply matchEndpoint_fails.
Qed.

(** X2. The endpoint of a request is the first one, in the order of the
    file, that passes the three tests: its method is the method of the
    request, its URL starts with [/api/], and the pattern compiled from
    its URL matches the path. Every endpoint before it fails one of the
    tests, and the path parameters are the captures of the match. When
    every endpoint fails a test, and only then, no endpoint is found; the
    handler then answers 404 with the path of the request and makes no
    call to the database. *)
Theorem endpoint_resolution_first_match (endpoints : list Endpoint)
    (req : Request) :
  (forall e p,
      findEndpoint endpoints req = Some (e, p) <->
      exists pre post,
        endpoints = pre ++ e :: post /\
        Forall (fun e' => failsTests e' req) pre /\
        passesTests e req p) /\
  (findEndpoint endpoints req = None <->
   Forall (fun e => failsTests e req) endpoints) /\
  (Forall (fun e => failsTests e req) endpoints ->
   forall lib jwt dbType d t,
     handleRequest lib jwt dbType (Some endpoints) req d t
     = (t, Ok (notFound req))).
Proof.
  split; [|split].
  - intros e p. rewrite findEndpoint_found. split.
    + intros (pre & post & H & Hpre & He). exists pre, post.
      split; [exact H|]. split; [now apply Forall_fails|].
      now apply matchEndpoint_tests.
    + intros (pre & post & H & Hpre & He). exists pre, post.
      split; [exact H|]. split; [now apply Forall_fails|].
      now apply matchEndpoint_tests.
  - rewrite findEndpoint_none. apply Forall_fails.
  - intros H lib jwt dbType d t. unfold handleRequest.
    apply Forall_fails in H. apply findEndpoint_none in H. now rewrite H.
Qed.

Lemma endpoint_resolution_first_match_witness :
  Forall (fun e => failsTests e bearerRequest) [procedureEndpoint] /\
  handleRequest permissiveLibraries validTokenLibrary Oracle
    (Some [procedureEndpoint]) bearerRequest oneRowDriver []
  = ([], Ok (notFound bearerRequest)).
Proof.
  assert (H : Forall (fun e => failsTests e bearerRequest) [procedureEndpoint]).
  { constructor; [|constructor]. intros p (Hm & _). discriminate. }
  split; [exact H|].
  exact (proj2 (proj2 (endpoint_resolution_first_match [procedureEndpoint]
                         bearerRequest))
           H permissiveLibraries validTokenLibrary Oracle oneRowDriver []).
Defined.

(* ------------------------------------------------------------------ *)
(** ** The names that the route compiler returns *)

Lemma isEndParam_name u w : isEndParam u = Some w -> isName w.
Proof.
  unfold isEndParam. destruct u as [|c [|d r]]; try discriminate.
  destruct (chEq c "/" && chEq d "{" && negb (isEmpty (wordRun r))
            && strEq (skipn (length (wordRun r)) r) ["}"%char]) eqn:E;
    [|discriminate].
  intros [= <-]. apply andb_true_iff in E as [E _].
  apply andb_true_iff in E as [_ E]. apply negb_true_iff in E.
  split; [|apply wordRun_word]. intro H. now rewrite H in E.
Qed.

Lemma endParamMatch_name s : forall pos i w,
  endParamMatch pos s = Some (i, w) -> isName w.
Proof.
  induction s as [|c s IH]; intros pos i w; cbn [endParamMatch].
  - destruct (isEndParam []) eqn:E; [|discriminate].
    intros [= _ <-]. now apply isEndParam_name in E.
  - destruct (isEndParam (c :: s)) eqn:E.
    + intros [= _ <-]. now apply isEndParam_name in E.
    + apply IH.
Qed.

Lemma replaceBraces_keeps (P : list jsString -> Prop) :
  (forall names w, P names -> w <> [] -> forallb isWordChar w = true ->
                   ~ In w names -> P (names ++ [w])) ->
  forall s names skip, P names -> P (fst (replaceBraces names skip s)).
Proof.
  intro Hadd. induction s as [|c s IH]; intros names skip HP; [exact HP|].
  cbn [replaceBraces]. destruct skip as [|k]; [|now apply IH].
  destruct (chEq c "{" && negb (isEmpty (wordRun s))
            && match nth_error s (length (wordRun s)) with
               | Some d => chEq d "}"
               | None => false
               end) eqn:E.
  - apply andb_true_iff in E as [E _]. apply andb_true_iff in E as [_ E].
    apply negb_true_iff in E.
    destruct (includes names (wordRun s)) eqn:Ei.
    + specialize (IH names (S (length (wordRun s))) HP).
      now destruct (replaceBraces names (S (length (wordRun s))) s).
    + apply includes_not_In in Ei.
      assert (HP' : P (names ++ [wordRun s])).
      { apply Hadd; [assumption | | apply wordRun_word | assumption].
        intro H. now rewrite H in E. }
      specialize (IH _ (S (length (wordRun s))) HP').
      now destruct (replaceBraces (names ++ [wordRun s])
                      (S (length (wordRun s))) s).
  - specialize (IH names 0 HP). now destruct (replaceBraces names 0 s).
Qed.

Lemma NoDup_snoc {A} (l : list A) x : NoDup l -> ~ In x l -> NoDup (l ++ [x]).
Proof.
  intros Hl Hx. eapply Permutation_NoDup; [apply Permutation_cons_append|].
  now constructor.
Qed.

(** X3. Whatever the pattern, the names that the route compiler returns
    are distinct, each a non-empty run of word characters, also when the
    template writes a placeholder more than once; and when the pattern
    gives no regular expression, for the empty pattern among others, no
    name is returned. *)
Theorem convertUrlPatternToRegex_names (pattern : jsString) :
  NoDup (snd (convertUrlPatternToRegex pattern)) /\
  Forall isName (snd (convertUrlPatternToRegex pattern)) /\
  (fst (convertUrlPatternToRegex pattern) = None ->
   snd (convertUrlPatternToRegex pattern) = []) /\
  convertUrlPatternToRegex [] = (None, []).
Proof.
  unfold convertUrlPatternToRegex.
  destruct (isEmpty pattern).
  { split; [constructor|]. split; [constructor|]. now split. }
  cbv zeta.
  set (names0 := match endParamMatch 0 pattern with
                 | Some (_, paramName) => [paramName]
                 | None => []
                 end).
  set (s0 := match endParamMatch 0 pattern with
             | Some (index, _) => firstn index pattern
             | None => pattern
             end).
  assert (Hd0 : NoDup names0).
  { unfold names0. destruct (endParamMatch 0 pattern) as [[i w]|];
      repeat constructor. intros []. }
  assert (Hn0 : Forall isName names0).
  { unfold names0. destruct (endParamMatch 0 pattern) as [[i w]|] eqn:E;
      [|constructor].
    constructor; [|constructor]. now apply endParamMatch_name in E. }
  assert (Hd : NoDup (fst (replaceBraces names0 0 s0))).
  { apply (replaceBraces_keeps (@NoDup _)); [|assumption].
    intros names w H _ _ Hw. now apply NoDup_snoc. }
  assert (Hn : Forall isName (fst (replaceBraces names0 0 s0))).
  { apply (replaceBraces_keeps (Forall isName)); [|assumption].
    intros names w H Hne Hw _. apply Forall_app. split; [assumption|].
    repeat constructor; assumption. }
  destruct (compileRegex _); cbn [fst snd].
  - split; [assumption|]. split; [assumption|]. split; [discriminate | reflexivity].
  - split; [constructor|]. split; [constructor|]. now split.
Qed.

(* ------------------------------------------------------------------ *)
(** ** The calls that the handler makes *)

Section Emits.

Variable P : Trace -> Prop.
Hypothesis HP : closedTraces P.

Lemma emits_ret {A} (a : A) : emits P (ret a).
Proof. intros d t. exists []. split; [now rewrite app_nil_r | apply HP]. Qed.

Lemma emits_raise {A} e : emits P (@raise A e).
Proof. intros d t. exists []. split; [now rewrite app_nil_r | apply HP]. Qed.

Lemma emits_lift {A} (r : Result A) : emits P (liftResult r).
Proof. intros d t. exists []. split; [now rewrite app_nil_r | apply HP]. Qed.

Lemma emits_bind {A B} (m : IO A) (k : A -> IO B) :
  emits P m -> (forall a, emits P (k a)) -> emits P (bindIO m k).
Proof.
  intros Hm Hk d t. unfold bindIO. destruct (Hm d t) as (n1 & E1 & P1).
  destruct (m d t) as [t1 [a|e]]; cbn [fst] in E1; subst t1.
  - destruct (Hk a d (t ++ n1)) as (n2 & E2 & P2).
    exists (n1 ++ n2). split; [now rewrite E2, app_assoc | now apply HP].
  - now exists n1.
Qed.

Lemma emits_tryCatch {A} (m : IO A) (h : JsError -> IO A) :
  emits P m -> (forall e, emits P (h e)) -> emits P (tryCatch m h).
Proof.
  intros Hm Hh d t. unfold tryCatch. destruct (Hm d t) as (n1 & E1 & P1).
  destruct (m d t) as [t1 [a|e]]; cbn [fst] in E1; subst t1.
  - now exists n1.
  - destruct (Hh e d (t ++ n1)) as (n2 & E2 & P2).
    exists (n1 ++ n2). split; [now rewrite E2, app_assoc | now apply HP].
Qed.

Lemma emits_call c : (forall r, P [(c, r)]) -> emits P (call c).
Proof. intros H d t. rewrite call_run. now exists [(c, d (map fst t) c)]. Qed.

End Emits.

Lemma closed_onConnection : closedTraces (Forall onConnection).
Proof.
  split; [constructor|]. intros a b Ha Hb. apply Forall_app. now split.
Qed.

Lemma bracketed_app a b : bracketed a -> bracketed b -> bracketed (a ++ b).
Proof.
  intros Ha Hb. induction Ha as [|e rest Hr IH|c body rel rest Hbody Hr IH].
  - exact Hb.
  - cbn [app]. now constructor.
  - cbn [app]. rewrite <- app_assoc. cbn [app]. now constructor.
Qed.

Lemma closed_bracketed : closedTraces bracketed.
Proof. split; [constructor | apply bracketed_app]. Qed.

Lemma obtained_app a b : obtained (a ++ b) = obtained a + obtained b.
Proof. unfold obtained. now rewrite filter_app, length_app. Qed.

Lemma onConnection_counts seg :
  Forall onConnection seg -> obtained seg = 0 /\ countCalls isRelease seg = 0.
Proof.
  induction seg as [|[c r] seg IH]; intro H; [now split|].
  inversion H as [|? ? Hx H']; subst. destruct Hx as [H1 H2].
  destruct (IH H') as [I1 I2]. cbn [fst] in H1, H2.
  change ((c, r) :: seg) with ([(c, r)] ++ seg).
  rewrite obtained_app, countCalls_app, I1, I2.
  unfold obtained, countCalls. cbn [filter fst]. rewrite H2.
  destruct c; try discriminate; now split.
Qed.

Lemma bracketed_counts tr :
  bracketed tr -> obtained tr = countCalls isRelease tr.
Proof.
  induction 1 as [|e rest Hr IH|c seg rel rest Hb Hr IH]; [reflexivity | |].
  - change ((GetConnection, Throw e) :: rest)
      with ([(GetConnection, Throw e)] ++ rest).
    now rewrite obtained_app, countCalls_app, IH.
  - destruct (onConnection_counts seg Hb) as [I1 I2].
    change ((GetConnection, Ok c) :: seg ++ (Release, rel) :: rest)
      with ([(GetConnection, Ok c)] ++ seg ++ [(Release, rel)] ++ rest).
    rewrite !obtained_app, !countCalls_app, I1, I2, IH. reflexivity.
Qed.

(** A computation that stays on its connection. *)
Local Abbreviation quiet m := (emits (Forall onConnection) m).

Lemma quiet_call c :
  isGetConnection c = false -> isRelease c = false -> quiet (call c).
Proof.
  intros H1 H2. apply emits_call. intro r. now repeat constructor.
Qed.

Lemma session_bracketed {A} (body : IO A) :
  quiet body ->
  emits bracketed (call GetConnection ;;; tryFinally body (call Release ;;; ret tt)).
Proof.
  intros Hb d t. unfold bindIO. rewrite call_run.
  destruct (d (map fst t) GetConnection) as [c|e].
  - rewrite tryFinally_release. cbn [fst].
    destruct (Hb d (t ++ [(GetConnection, Ok c)])) as (new & E & Hnew).
    rewrite E. eexists. split.
    + rewrite <- !app_assoc. cbn [app]. reflexivity.
    + apply bracketed_session; [assumption | constructor].
  - exists [(GetConnection, Throw e)]. split; [reflexivity | repeat constructor].
Qed.

Ltac quiet_step :=
  first [ apply emits_ret; apply closed_onConnection
        | apply emits_raise; apply closed_onConnection
        | apply emits_lift; apply closed_onConnection
        | apply quiet_call; reflexivity
        | apply emits_bind; [apply closed_onConnection | | intro]
        | apply emits_tryCatch; [apply closed_onConnection | | intro] ].

Ltac bracketed_step :=
  first [ apply emits_ret; apply closed_bracketed
        | apply emits_raise; apply closed_bracketed
        | apply emits_lift; apply closed_bracketed
        | apply emits_bind; [apply closed_bracketed | | intro]
        | apply emits_tryCatch; [apply closed_bracketed | | intro] ].

Lemma quiet_resetOutputs names : quiet (resetOutputs names).
Proof.
  induction names as [|n names IH]; cbn [resetOutputs]; repeat quiet_step.
  exact IH.
Qed.

Lemma quiet_fetchOutputs names : forall outParams,
  quiet (fetchOutputs names outParams).
Proof.
  induction names as [|n names IH]; intro outParams; cbn [fetchOutputs];
    repeat quiet_step.
  apply IH.
Qed.

Lemma quiet_mysqlTransaction original procedureBody params :
  quiet (mysqlTransaction original procedureBody params).
Proof.
  unfold mysqlTransaction.
  destruct (positionalStatement params procedureBody) as [mysqlSql inParams].
  destruct (scanSigil "@" 0 original) as [|n names] eqn:E;
    repeat first [apply quiet_resetOutputs | apply quiet_fetchOutputs | quiet_step].
Qed.

Lemma quiet_resolveUser jwt dbType token keyId :
  quiet (resolveUser jwt dbType token keyId).
Proof.
  unfold resolveUser. quiet_step.
  - destruct dbType; apply quiet_call; reflexivity.
  - destruct (negb (truthy (indexVal (firstRow a) 0))); repeat quiet_step.
    destruct (negb (truthy (rowField a0 (lit "jti")))); repeat quiet_step.
    + destruct dbType; apply quiet_call; reflexivity.
    + destruct (negb (truthy (firstRow a1))); quiet_step.
Qed.

Lemma bracketed_executeProcedure dbType original procedureBody params options :
  emits bracketed (executeProcedure dbType original procedureBody params options).
Proof.
  unfold executeProcedure. apply session_bracketed.
  destruct dbType; [apply quiet_call; reflexivity | apply quiet_mysqlTransaction].
Qed.

Lemma bracketed_executeQuery dbType sql params options :
  emits bracketed (executeQuery dbType sql params options).
Proof.
  unfold executeQuery, releaseConnection. apply session_bracketed.
  destruct dbType; [apply quiet_call; reflexivity|].
  destruct (autoCommit options) as [[|]|]; repeat quiet_step.
Qed.

Lemma bracketed_runQuery dbType endpoint isGet isQueryOnly procedureResult
    validated sql :
  emits bracketed
    (runQuery dbType endpoint isGet isQueryOnly procedureResult validated sql).
Proof.
  unfold runQuery. destruct dbType.
  - destruct (oracleQueryBinds _ _ _ _) as [binds finalSql].
    apply bracketed_executeQuery.
  - unfold releaseConnection. apply session_bracketed. repeat quiet_step.
Qed.

Lemma bracketed_executeEndpoint lib dbType endpoint pathParams req :
  emits bracketed (executeEndpoint lib dbType endpoint pathParams req).
Proof.
  unfold executeEndpoint.
  destruct (match jsonSchema endpoint with
            | Some schema => _
            | None => []
            end); [|bracketed_step].
  bracketed_step; [|bracketed_step].
  bracketed_step; [bracketed_step|].
  bracketed_step; [bracketed_step|].
  bracketed_step.
  - destruct (_ || _);
      repeat first [apply bracketed_executeProcedure | bracketed_step].
  - bracketed_step; [|bracketed_step].
    destruct (_ || _); repeat first [apply bracketed_runQuery | bracketed_step].
Qed.

Lemma bracketed_validateToken jwt dbType req endpoint :
  emits bracketed (validateToken jwt dbType req endpoint).
Proof.
  unfold validateToken.
  destruct (negb (requireToken endpoint)); [bracketed_step|].
  destruct (reqAuthorization req) as [[|a authHeader]|]; try bracketed_step.
  destruct (bearerToken (a :: authHeader)) as [[|b token]|]; try bracketed_step.
  destruct (jwtDecode jwt (b :: token)) as [[decoded|]|e]; try bracketed_step.
  destruct (_ || _); [bracketed_step|].
  destruct (negb (truthy _)); [bracketed_step|].
  bracketed_step; [|bracketed_step].
  apply session_bracketed.
  repeat first [apply quiet_resolveUser | quiet_step].
Qed.

Lemma bracketed_handleRequest lib jwt dbType endpointsFile req :
  emits bracketed (handleRequest lib jwt dbType endpointsFile req).
Proof.
  unfold handleRequest. destruct endpointsFile as [endpoints|]; [|bracketed_step].
  destruct (findEndpoint endpoints req) as [[endpoint pathParams]|];
    [|bracketed_step].
  bracketed_step; [apply bracketed_validateToken|].
  destruct a; [apply bracketed_executeEndpoint | bracketed_step].
Qed.

(** X4. Connections are taken one at a time and always given back. In
    every run of the handler, and of [executeQuery] and
    [executeProcedure] on their own, the calls added to the trace are a
    sequence of attempts that failed and of sessions, each a connection
    obtained, calls made on it, and its release; so the number of
    connections obtained is the number of releases, whether the statement,
    the guard or the validation fails or not. *)
Theorem connections_released (lib : Libraries) (jwt : JwtLibrary)
    (dbType : DbType) (endpointsFile : option (list Endpoint)) (req : Request)
    (sql original procedureBody : jsString) (binds : Binds)
    (params : list (jsString * BindVal)) (options : ExecOptions)
    (d : Driver) (t : Trace) :
  (exists new,
      fst (handleRequest lib jwt dbType endpointsFile req d t) = t ++ new /\
      bracketed new /\ obtained new = countCalls isRelease new) /\
  (exists new,
      fst (executeQuery dbType sql binds options d t) = t ++ new /\
      bracketed new /\ obtained new = countCalls isRelease new) /\
  (exists new,
      fst (executeProcedure dbType original procedureBody params options d t)
      = t ++ new /\
      bracketed new /\ obtained new = countCalls isRelease new).
Proof.
  split; [|split].
  - destruct (bracketed_handleRequest lib jwt dbType endpointsFile req d t)
      as (new & E & H).
    exists new. auto using bracketed_counts.
  - destruct (bracketed_executeQuery dbType sql binds options d t)
      as (new & E & H).
    exists new. auto using bracketed_counts.
  - destruct (bracketed_executeProcedure dbType original procedureBody params
                options d t) as (new & E & H).
    exists new. auto using bracketed_counts.
Qed.

Lemma bindIO_ok {A B} (m : IO A) (k : A -> IO B) d t t' b :
  bindIO m k d t = (t', Ok b) ->
  exists a t1, m d t = (t1, Ok a) /\ k a d t1 = (t', Ok b).
Proof.
  unfold bindIO. destruct (m d t) as [t1 [a|e]]; [|discriminate].
  intro H. now exists a, t1.
Qed.

Lemma executeEndpoint_answers lib dbType endpoint pathParams req d t :
  exists resp,
    snd (executeEndpoint lib dbType endpoint pathParams req d t) = Ok resp /\
    (isSuccess resp -> status resp = 200).
Proof.
  unfold executeEndpoint.
  destruct (match jsonSchema endpoint with
            | Some schema => _
            | None => []
            end).
  - unfold tryCatch.
    match goal with
    | |- context [match ?m d t with _ => _ end] =>
        destruct (m d t) as [t' [resp|e]] eqn:Erun
    end.
    + exists resp. split; [reflexivity|]. intros _.
      apply bindIO_ok in Erun as (proc & t1 & _ & Erun).
      apply bindIO_ok in Erun as (query & t2 & _ & Erun).
      apply bindIO_ok in Erun as (pr & t3 & _ & Erun).
      apply bindIO_ok in Erun as (qr & t4 & _ & Erun).
      now injection Erun as _ <-.
    + eexists. split; [reflexivity|]. intros [data H]. discriminate H.
  - eexists. split; [reflexivity|]. intros [data H]. discriminate H.
Qed.

Lemma validateToken_answers jwt dbType req endpoint d t :
  exists outcome,
    snd (validateToken jwt dbType req endpoint d t) = Ok outcome /\
    (forall r, outcome = Responded r -> status r = 401 /\ ~ isSuccess r).
Proof.
  destruct (requireToken endpoint) eqn:Hreq.
  - destruct (validateToken_outcome jwt dbType req endpoint d t Hreq)
      as (outcome & E & H).
    exists outcome. split; [assumption|]. intros r ->.
    destruct H as [Hs [m Hm]]. split; [assumption|].
    intros [data Hd]. congruence.
  - unfold validateToken. rewrite Hreq. eexists. split; [reflexivity|].
    discriminate.
Qed.

(** X5. The handler always answers and never lets an exception out:
    whatever the endpoints, the request, the libraries and the driver do,
    a run ends with a response; a response that reports success has
    status 200, and the response is 500 when the file of the endpoints
    cannot be read. *)
Theorem handleRequest_answers (lib : Libraries) (jwt : JwtLibrary)
    (dbType : DbType) (endpointsFile : option (list Endpoint)) (req : Request)
    (d : Driver) (t : Trace) :
  (exists resp,
      snd (handleRequest lib jwt dbType endpointsFile req d t) = Ok resp /\
      (isSuccess resp -> status resp = 200)) /\
  (endpointsFile = None ->
   handleRequest lib jwt dbType endpointsFile req d t
   = (t, Ok {| status := 500;
               body := BodyError (lit "Failed to read endpoints configuration") |})).
Proof.
  split; [|now intros ->].
  unfold handleRequest. destruct endpointsFile as [endpoints|].
  - destruct (findEndpoint endpoints req) as [[endpoint pathParams]|].
    + unfold bindIO.
      destruct (validateToken_answers jwt dbType req endpoint d t)
        as (outcome & E & H).
      destruct (validateToken jwt dbType req endpoint d t) as [t1 res].
      cbn [snd] in E. subst res. destruct outcome as [req'|r].
      * apply executeEndpoint_answers.
      * exists r. split; [reflexivity|]. intro Hs.
        now destruct (H r eq_refl) as [_ Hn].
    + eexists. split; [reflexivity|]. intros [data H]. discriminate H.
  - eexists. split; [reflexivity|]. intros [data H]. discriminate H.
Qed.

(* ------------------------------------------------------------------ *)
(** ** Validation comes before execution *)

Lemma validateProcPathParams_error lib cfgs src names : forall st e,
  validateProcPathParams lib cfgs src names st = Throw e ->
  errorResponse e = {| status := 400; body := BodyError (errMessage e) |}.
Proof.
  induction names as [|p names IH]; intros st e H;
    cbn [validateProcPathParams] in H; [discriminate|].
  destruct (negb (isUndefined (getProp src p))).
  - destruct (convertAndValidateValue lib (lit "path") (getProp src p) p
                (findConfig cfgs p)) as [v|e'] eqn:Ec; cbn [bind] in H.
    + now apply IH in H.
    + injection H as <-. now apply convertAndValidateValue_error in Ec.
  - destruct (cfgIsRequired (findConfig cfgs p)); cbn [bind] in H.
    + injection H as <-. apply errorResponse_required.
    + now apply IH in H.
Qed.

Lemma validateQueryParams_error {V} (wrap : JsVal -> V) lib cfgs src names :
  forall validated e,
  validateQueryParams wrap lib cfgs src names validated = Throw e ->
  errorResponse e = {| status := 400; body := BodyError (errMessage e) |}.
Proof.
  induction names as [|p names IH]; intros validated e H;
    cbn [validateQueryParams] in H; [discriminate|].
  destruct (convertAndValidateValue lib (lit "query") (getProp src p) p
              (findConfig cfgs p)) as [v|e'] eqn:Ec; cbn [bind] in H.
  - now apply IH in H.
  - injection H as <-. now apply convertAndValidateValue_error in Ec.
Qed.

Lemma validateQueryPathParams_error lib cfgs src names : forall st e,
  validateQueryPathParams lib cfgs src names st = Throw e ->
  errorResponse e = {| status := 400; body := BodyError (errMessage e) |}.
Proof.
  induction names as [|p names IH]; intros st e H;
    cbn [validateQueryPathParams] in H; [discriminate|].
  destruct (convertAndValidateValue lib (lit "path") (getProp src p) p
              (findConfig cfgs p)) as [v|e'] eqn:Ec; cbn [bind] in H.
  - now apply IH in H.
  - injection H as <-. now apply convertAndValidateValue_error in Ec.
Qed.

Lemma prepareProcedure_error lib dbType endpoint src e :
  prepareProcedure lib dbType endpoint src = Throw e ->
  errorResponse e = {| status := 400; body := BodyError (errMessage e) |}.
Proof.
  unfold prepareProcedure. cbv zeta.
  destruct (validateProcPathParams _ _ _ _ _) as [st1|e1] eqn:E1; cbn [bind].
  - destruct (validateQueryParams _ _ _ _ _ _) as [v2|e2] eqn:E2; cbn [bind];
      [discriminate|].
    intros [= <-]. now apply validateQueryParams_error in E2.
  - intros [= <-]. now apply validateProcPathParams_error in E1.
Qed.

Lemma prepareQuery_error lib endpoint src e :
  prepareQuery lib endpoint src = Throw e ->
  errorResponse e = {| status := 400; body := BodyError (errMessage e) |}.
Proof.
  unfold prepareQuery. cbv zeta.
  destruct (validateQueryPathParams _ _ _ _ _) as [st1|e1] eqn:E1; cbn [bind].
  - destruct (validateQueryParams _ _ _ _ _ _) as [v2|e2] eqn:E2; cbn [bind];
      [discriminate|].
    intros [= <-]. now apply validateQueryParams_error in E2.
  - intros [= <-]. now apply validateQueryPathParams_error in E1.
Qed.

Lemma executeEndpoint_payload lib dbType endpoint pathParams req :
  executeEndpoint lib dbType endpoint pathParams req
  = match payloadErrors lib endpoint req with
    | _ :: _ =>
        ret {| status := 400;
               body := BodyErrors (payloadErrors lib endpoint req) |}
    | [] =>
        tryCatch
          (proc <~ liftResult
                     (if hasText (sqlProcedure endpoint)
                      then prepareProcedure lib dbType endpoint
                             (procBindSource pathParams req)
                      else Ok emptyPrepared) ;;
           query <~ liftResult
                      (if hasText (sqlQuery endpoint)
                       then prepareQuery lib endpoint
                              (queryBindSource pathParams req)
                       else Ok ([], [])) ;;
           procedureResult <~
             (if hasText (sqlProcedure endpoint)
              then r <~ executeProcedure dbType (originalProcedureBody proc)
                          (executionProcedureBody proc) (validatedProcParams proc)
                          {| outFormatObject := false;
                             autoCommit := Some (negb (isGetRequest req)) |} ;;
                   ret (Some r)
              else ret None) ;;
           queryResult <~
             (if hasText (sqlQuery endpoint)
                 && match procedureResult with
                    | Some _ => true
                    | None => negb (hasText (sqlProcedure endpoint))
                    end
              then r <~ runQuery dbType endpoint (isGetRequest req)
                          (negb (hasText (sqlProcedure endpoint))
                           && hasText (sqlQuery endpoint))
                          procedureResult (fst query) (snd query) ;;
                   ret (Some r)
              else ret None) ;;
           ret {| status := 200;
                  body := BodySuccess (match queryResult with
                                       | Some r => rows r
                                       | None => []
                                       end) |})
          (fun error => ret (errorResponse error))
    end.
Proof.
  unfold executeEndpoint, payloadErrors.
  destruct (hasText (sqlProcedure endpoint)), (hasText (sqlQuery endpoint));
    cbn [andb orb negb]; reflexivity.
Qed.

(** X6. Validation comes before execution. When the preparation of the
    procedure or of the query fails on a parameter, the handler answers
    with status 400 and the message of the failure and makes no call to
    the database; in particular the procedure of an endpoint with a
    procedure and a query does not run when a parameter of the query is
    invalid. An endpoint with neither a procedure nor a query is answered
    with an empty success, again without a call. *)
Theorem validation_precedes_execution (lib : Libraries) (dbType : DbType)
    (endpoint : Endpoint) (pathParams : JsObject) (req : Request)
    (d : Driver) (t : Trace)
    (Hpayload : payloadErrors lib endpoint req = []) :
  (forall e,
      hasText (sqlProcedure endpoint) = true ->
      prepareProcedure lib dbType endpoint (procBindSource pathParams req)
      = Throw e ->
      executeEndpoint lib dbType endpoint pathParams req d t
      = (t, Ok {| status := 400; body := BodyError (errMessage e) |})) /\
  (forall e,
      hasText (sqlQuery endpoint) = true ->
      (hasText (sqlProcedure endpoint) = true ->
       exists proc,
         prepareProcedure lib dbType endpoint (procBindSource pathParams req)
         = Ok proc) ->
      prepareQuery lib endpoint (queryBindSource pathParams req) = Throw e ->
      executeEndpoint lib dbType endpoint pathParams req d t
      = (t, Ok {| status := 400; body := BodyError (errMessage e) |})) /\
  (hasText (sqlProcedure endpoint) = false ->
   hasText (sqlQuery endpoint) = false ->
   executeEndpoint lib dbType endpoint pathParams req d t
   = (t, Ok {| status := 200; body := BodySuccess [] |})).
Proof.
  rewrite executeEndpoint_payload, Hpayload.
  split; [|split].
  - intros e Hp He. rewrite Hp, He.
    unfold tryCatch, bindIO, liftResult, ret.
    now rewrite (prepareProcedure_error _ _ _ _ _ He).
  - intros e Hq Hproc He. rewrite Hq, He.
    destruct (hasText (sqlProcedure endpoint)).
    + destruct (Hproc eq_refl) as [proc ->].
      unfold tryCatch, bindIO, liftResult, ret.
      now rewrite (prepareQuery_error _ _ _ _ He).
    + unfold tryCatch, bindIO, liftResult, ret.
      now rewrite (prepareQuery_error _ _ _ _ He).
  - intros Hp Hq. now rewrite Hp, Hq.
Qed.

Lemma validation_precedes_execution_witness :
  payloadErrors permissiveLibraries orderThenListEndpoint badLowRequest = [] /\
  executeEndpoint permissiveLibraries Oracle orderThenListEndpoint []
    badLowRequest outBindDriver []
  = ([], Ok {| status := 400;
               body := BodyError
                         (lit "Invalid number value for query parameter 'low': x") |}).
Proof.
  split; [reflexivity|].
  apply (proj1 (proj2 (validation_precedes_execution permissiveLibraries Oracle
                         orderThenListEndpoint [] badLowRequest outBindDriver []
                         eq_refl))
           (invalidNumber (lit "query") (lit "low") (VStr (lit "x")))).
  - reflexivity.
  - intros _. eexists. vm_compute. reflexivity.
  - vm_compute. reflexivity.
Defined.

(* ------------------------------------------------------------------ *)
(** ** What the validator returns *)

(** X7. The outcome of the validation of one parameter. A value that is
    not given (null, undefined or blank text) is bound to null when the
    parameter is optional and refused when it is required, so a required
    parameter is never bound to null. A value that is given is bound with
    the declared type: for a number parameter the binary64 number that
    [parseFloat] reads in its trimmed text, which has the form of a plain
    decimal (a number that prints with an exponent, such as [1e21] or
    [1e-7], is refused on a number parameter); the value itself for a
    date; the trimmed text, as [String] prints the value, otherwise. Every
    refusal is answered with status 400 and its own message. *)
Theorem convertAndValidateValue_outcome (lib : Libraries)
    (paramType : jsString) (value : JsVal) (paramName : jsString)
    (cfg : option ParamConfig) :
  (forall v,
      convertAndValidateValue lib paramType value paramName cfg = Ok v ->
      if isBlank value then v = VNull /\ cfgIsRequired cfg = false
      else v <> VNull /\
           match cfgTypeOf cfg with
           | TNumber =>
               v = VNum (parseFloat (trim (toStringJs value))) /\
               isNumberLiteral (trim (toStringJs value)) = true
           | TDate => v = value
           | _ => v = VStr (trim (toStringJs value))
           end) /\
  (forall e,
      convertAndValidateValue lib paramType value paramName cfg = Throw e ->
      errorResponse e = {| status := 400; body := BodyError (errMessage e) |} /\
      (isBlank value = true ->
       cfgIsRequired cfg = true /\ e = requiredMissing paramType paramName)) /\
  (forall v,
      cfgIsRequired cfg = true ->
      convertAndValidateValue lib paramType value paramName cfg = Ok v ->
      v <> VNull).
Proof.
  assert (H1 : forall v,
      convertAndValidateValue lib paramType value paramName cfg = Ok v ->
      if isBlank value then v = VNull /\ cfgIsRequired cfg = false
      else v <> VNull /\
           match cfgTypeOf cfg with
           | TNumber =>
               v = VNum (parseFloat (trim (toStringJs value))) /\
               isNumberLiteral (trim (toStringJs value)) = true
           | TDate => v = value
           | _ => v = VStr (trim (toStringJs value))
           end).
  { intro v. unfold convertAndValidateValue, isBlank.
    destruct (isNullish value || isEmpty (trim (toStringJs value))) eqn:Eb.
    - destruct (cfgIsRequired cfg); [discriminate|]. intros [= <-]. now split.
    - apply orb_false_iff in Eb as [En _].
      destruct (cfgTypeOf cfg).
      + destruct cfg as [[n t r [sc|] nc dc]|];
          try (intros [= <-]; split; [discriminate | reflexivity]).
        destruct (validateStringConstraints _ _); [|discriminate].
        intros [= <-]. split; [discriminate | reflexivity].
      + destruct (isNumberLiteral (trim (toStringJs value))) eqn:El;
          [|discriminate]. cbn [negb].
        cbv zeta.
        destruct (isNaN (parseFloat (trim (toStringJs value)))) eqn:Ep;
          [discriminate|].
        destruct cfg as [[n' t r sc [nc|] dc]|];
          try (intros [= <-]; split; [discriminate | now split]).
        destruct (validateNumberConstraints value nc); [|discriminate].
        intros [= <-]. split; [discriminate | now split].
      + destruct (validateDateFormat _ _ _); [|discriminate].
        intros [= <-]. split; [|reflexivity].
        intro E. subst value. discriminate En.
      + intros [= <-]. split; [discriminate | reflexivity]. }
  split; [exact H1|]. split.
  - intros e He. split; [now apply convertAndValidateValue_error in He|].
    intro Hb. unfold convertAndValidateValue, isBlank in *. rewrite Hb in He.
    destruct (cfgIsRequired cfg); [|discriminate]. now injection He as <-.
  - intros v Hr Hv. apply H1 in Hv. destruct (isBlank value).
    + destruct Hv as [_ Hv]. congruence.
    + apply Hv.
Qed.

Lemma bind_ok_tt (r : Result unit) (k : Result unit) :
  (r ;; k) = Ok tt <-> r = Ok tt /\ k = Ok tt.
Proof.
  destruct r as [[]|e]; cbn [bind]; split; try tauto; try discriminate.
Qed.

(** X8. The constraints of a string parameter accept a text exactly when
    it is empty, or it is no longer than the maximum length, a maximum of
    zero setting no limit, and it is one of the allowed values, a list
    without a non-blank entry allowing every text. *)
Theorem validateStringConstraints_accepts (value : jsString)
    (c : StringConstraints) :
  validateStringConstraints value c = Ok tt <->
  value = [] \/
  ((forall m, maxLength c = Some (S m) -> length value <= S m) /\
   (allowedList c <> [] -> In value (allowedList c))).
Proof.
  unfold validateStringConstraints, allowedList.
  destruct value as [|x value]; [cbn [isEmpty]; tauto|].
  cbn [isEmpty]. rewrite bind_ok_tt.
  assert (Hmax : match maxLength c with
                 | Some (S m) =>
                     if S m <? length (x :: value)
                     then Throw (mkError (lit "Value exceeds maximum length of "
                                          ++ natToString (S m) ++ lit " characters"))
                     else Ok tt
                 | _ => Ok tt
                 end = Ok tt <->
                 (forall m, maxLength c = Some (S m) -> length (x :: value) <= S m)).
  { destruct (maxLength c) as [[|m]|]; try (split; [discriminate | reflexivity]).
    destruct (S m <? length (x :: value)) eqn:E.
    - apply Nat.ltb_lt in E. split; [discriminate|].
      intro H. specialize (H m eq_refl). lia.
    - apply Nat.ltb_ge in E. split; [|reflexivity].
      intros _ m' [= <-]. exact E. }
  rewrite Hmax. clear Hmax.
  destruct (allowedValues c) as [[|a av]|].
  - split; [intros [H _]; right; split; [exact H | now intros []] |].
    intros [H|[H _]]; [discriminate | now split].
  - set (l := filter (fun v => negb (isEmpty v)) (map trim (splitOn "," [] (a :: av)))).
    destruct l as [|y l'] eqn:El.
    + cbn [length Nat.ltb Nat.leb andb].
      split; [intros [H _]; right; split; [exact H | now intros []] |].
      intros [H|[H _]]; [discriminate | now split].
    + rewrite <- El. assert (E0 : (0 <? length l) = true) by now rewrite El.
      rewrite E0. cbn [andb].
      destruct (includes l (x :: value)) eqn:Ei; cbn [negb].
      * apply includes_In in Ei.
        split; [intros [H _]; right; now split |].
        intros [H|[H _]]; [discriminate | now split].
      * apply includes_not_In in Ei.
        split; [intros [_ H]; discriminate|].
        intros [H|[_ H]]; [discriminate|]. exfalso. apply Ei, H.
        rewrite El. discriminate.
  - split; [intros [H _]; right; split; [exact H | now intros []] |].
    intros [H|[H _]]; [discriminate | now split].
Qed.

(* ------------------------------------------------------------------ *)
(** ** The binds of the query *)

Lemma includes_uniqueNames l x : includes (uniqueNames l) x = includes l x.
Proof.
  destruct (includes l x) eqn:E.
  - apply includes_In. apply uniqueNames_In. now apply includes_In.
  - apply includes_not_In. rewrite uniqueNames_In. now apply includes_not_In.
Qed.

Lemma lookup_fold_setProp {V} (g : jsString -> V) l : forall acc n,
  lookupProp (fold_left (fun o k => setProp o k (g k)) l acc) n
  = if includes l n then Some (g n) else lookupProp acc n.
Proof.
  induction l as [|k l IH]; intros acc n; cbn [fold_left includes];
    [reflexivity|].
  rewrite IH, lookupProp_setProp.
  destruct (includes l n); [now rewrite orb_true_r|].
  rewrite orb_false_r. destruct (strEq k n) eqn:E; [|reflexivity].
  apply strEq_eq in E. now subst.
Qed.

Lemma mysqlQueryParams_lookup (endpoint : Endpoint)
    (finalQueryParams : JsObject) (mysqlSql : jsString) (n : jsString) :
  lookupProp (mysqlQueryParams endpoint finalQueryParams mysqlSql) n
  = if includes (colonNames mysqlSql) n
    then Some (mysqlParamValue endpoint finalQueryParams n)
    else None.
Proof.
  change (mysqlQueryParams endpoint finalQueryParams mysqlSql)
    with (fold_left
            (fun o k => setProp o k (mysqlParamValue endpoint finalQueryParams k))
            (uniqueNames (colonNames mysqlSql)) []).
  now rewrite lookup_fold_setProp, includes_uniqueNames.
Qed.

(** X9. On MySQL the query step takes a connection, executes one
    statement and releases the connection. The statement is the text of
    the query after the substitution of the outputs of the procedure. It
    is sent with one named parameter for every name that this statement
    writes as [:name], and with no other: the value validated for the
    name, null kept as null, a number or a date as its type asks,
    anything else as text; a name for which nothing was validated and no
    type is configured is bound all the same, to the text of
    [undefined]. *)
Theorem runQuery_mysql_params (endpoint : Endpoint) (isGet isQueryOnly : bool)
    (procedureResult : option DbReply) (validatedQueryParams : JsObject)
    (sqlToExecuteQuery : jsString) :
  let mysqlSql :=
    match procedureResult with
    | Some {| rows := _; outBinds := Some ob |} =>
        substituteOutBinds ob (substituteOutBinds ob sqlToExecuteQuery)
    | _ => sqlToExecuteQuery
    end in
  exists mysqlParams,
    runQuery MySQL endpoint isGet isQueryOnly procedureResult
             validatedQueryParams sqlToExecuteQuery
    = (call GetConnection ;;;
       tryFinally
         (r <~ call (Execute mysqlSql (Named mysqlParams) noOptions) ;;
          ret {| rows := rows r; outBinds := None |})
         releaseConnection) /\
    (forall n,
       includes (colonNames mysqlSql) n = true ->
       lookupProp mysqlParams n
       = Some (mysqlParamValue endpoint validatedQueryParams n)) /\
    (forall n,
       includes (colonNames mysqlSql) n = false ->
       lookupProp mysqlParams n = None) /\
    (forall n,
       includes (colonNames mysqlSql) n = true ->
       lookupProp validatedQueryParams n = None ->
       configType (findConfig (allConfigs endpoint) n) = None ->
       lookupProp mysqlParams n = Some (BVal (CString VUndefined))).
Proof.
  intro mysqlSql.
  exists (mysqlQueryParams endpoint validatedQueryParams mysqlSql).
  split; [|split; [|split]].
  - subst mysqlSql. unfold runQuery.
    destruct procedureResult as [[rs [[|kv ob]|]]|]; reflexivity.
  - intros n Hn. now rewrite mysqlQueryParams_lookup, Hn.
  - intros n Hn. now rewrite mysqlQueryParams_lookup, Hn.
  - intros n Hn Hv Hc. rewrite mysqlQueryParams_lookup, Hn.
    unfold mysqlParamValue. now rewrite lookupProp_getProp, Hv, Hc.
Qed.

Lemma lookup_fold_binds {S V} (F : list (jsString * V) * S -> jsString * JsVal
                                   -> list (jsString * V) * S)
    (skip : jsString -> bool) (g : jsString -> JsVal -> V) :
  (forall st key value,
      fst (F st (key, value))
      = if skip key then fst st else setProp (fst st) key (g key value)) ->
  forall params st k,
    NoDup (map fst params) ->
    lookupProp (fst (fold_left F params st)) k
    = match (if skip k then None else option_map (g k) (lookupProp params k)) with
      | Some b => Some b
      | None => lookupProp (fst st) k
      end.
Proof.
  intros HF. induction params as [|[key value] rest IH]; intros st k Hu.
  - cbn. now destruct (skip k).
  - cbn [map fst] in Hu. inversion Hu as [|? ? Hnew Hu']; subst.
    cbn [fold_left lookupProp]. rewrite IH by assumption. rewrite HF.
    destruct (strEq key k) eqn:E.
    + apply strEq_eq in E. subst k.
      rewrite (lookupProp_absent rest key Hnew).
      destruct (skip key); cbn [option_map]; [reflexivity|].
      now rewrite lookupProp_setProp, strEq_refl.
    + destruct (skip k).
      * destruct (skip key); [reflexivity|].
        now rewrite lookupProp_setProp, E.
      * destruct (option_map (g k) (lookupProp rest k)); [reflexivity|].
        destruct (skip key); [reflexivity|].
        now rewrite lookupProp_setProp, E.
Qed.

Lemma oracleQueryBinds_lookup (endpoint : Endpoint)
    (procOutBinds : option JsObject) (finalQueryParams : JsObject)
    (sql : jsString) (k : jsString) :
  distinctNames (map fst finalQueryParams) = true ->
  lookupProp (fst (oracleQueryBinds endpoint procOutBinds finalQueryParams sql)) k
  = if isOutBind procOutBinds k then None
    else option_map (oracleBindValue endpoint k) (lookupProp finalQueryParams k).
Proof.
  intro Hkeys.
  apply distinctNames_NoDup in Hkeys. unfold oracleQueryBinds.
  rewrite (lookup_fold_binds _ (isOutBind procOutBinds) (oracleBindValue endpoint));
    [| |exact Hkeys].
  - cbn [fst lookupProp].
    now destruct (if isOutBind procOutBinds k then None else _).
  - intros [binds s] key value. unfold isOutBind, oracleBindValue. cbn [fst].
    destruct (match procOutBinds with Some ob => hasProp ob key | None => false end);
      [reflexivity|].
    destruct value; destruct (configType _) as [[| | |]|]; reflexivity.
Qed.

Lemma oracleQueryBinds_text (endpoint : Endpoint)
    (procOutBinds : option JsObject) (finalQueryParams : JsObject) :
  (forall key value, In (key, value) finalQueryParams ->
     configType (findConfig (allConfigs endpoint) key) <> Some TDate) ->
  forall binds sql,
    snd (fold_left
           (fun '(binds, sql) '(key, value) =>
              if match procOutBinds with
                 | Some ob => hasProp ob key
                 | None => false
                 end
              then (binds, sql)
              else
                let paramConfig := findConfig (allConfigs endpoint) key in
                match value with
                | VNull =>
                    (setProp binds key
                       (BOracle None
                          (match configType paramConfig with
                           | Some TNumber => ORA_NUMBER
                           | Some TDate => ORA_DATE
                           | _ => ORA_STRING
                           end) (Some (CVal VNull)) None), sql)
                | _ =>
                    match configType paramConfig with
                    | Some TNumber =>
                        (setProp binds key
                           (BOracle None ORA_NUMBER (Some (CNumber value)) None),
                         sql)
                    | Some TDate =>
                        (setProp binds key
                           (BOracle None ORA_STRING (Some (CVal value)) None),
                         replaceAll [":"%char :: key] true
                           (lit "TO_DATE (:" ++ key ++ lit ", '"
                            ++ configDateFormat paramConfig ++ lit "')") sql)
                    | _ =>
                        (setProp binds key
                           (BOracle None ORA_STRING (Some (CString value)) None),
                         sql)
                    end
                end)
           finalQueryParams (binds, sql))
    = sql.
Proof.
  induction finalQueryParams as [|[key value] rest IH]; intros Hd binds sql;
    [reflexivity|].
  cbn [fold_left].
  assert (Hk : configType (findConfig (allConfigs endpoint) key) <> Some TDate)
    by (apply (Hd key value); now left).
  assert (Hrest : forall k v, In (k, v) rest ->
            configType (findConfig (allConfigs endpoint) k) <> Some TDate)
    by (intros k v H; apply (Hd k v); now right).
  destruct (match procOutBinds with
            | Some ob => hasProp ob key
            | None => false
            end); [now apply IH|].
  cbv zeta.
  destruct value;
    destruct (configType (findConfig (allConfigs endpoint) key))
      as [[| | |]|]; try congruence; now apply IH.
Qed.

(** X10. The validated parameters are an object, with each name once.
    On Oracle the query step executes one statement, between taking and
    releasing one connection, with the rows asked as objects and a commit
    of its own only for a query-only request that is not a GET. The
    statement is sent with one bind for every validated parameter
    that is not an output bind of the procedure that ran, and with no
    bind for a name that is one: a number parameter as a number, a date
    as text, anything else as text, and null with the type of the
    declaration of the parameter. When no validated parameter is declared
    as a date, the statement is the text of the query after the
    substitution of the outputs of the procedure. *)
Theorem runQuery_oracle_binds (endpoint : Endpoint) (isGet isQueryOnly : bool)
    (procedureResult : option DbReply) (validatedQueryParams : JsObject)
    (sqlToExecuteQuery : jsString)
    (Hkeys : distinctNames (map fst validatedQueryParams) = true) :
  let procOutBinds :=
    match procedureResult with Some r => outBinds r | None => None end in
  let finalSqlToExecute :=
    match procOutBinds with
    | Some ob => substituteOutBinds ob sqlToExecuteQuery
    | None => sqlToExecuteQuery
    end in
  exists finalSql oracleBindParams,
    runQuery Oracle endpoint isGet isQueryOnly procedureResult
             validatedQueryParams sqlToExecuteQuery
    = (call GetConnection ;;;
       tryFinally
         (call (Execute finalSql (Named oracleBindParams)
                  {| outFormatObject := true;
                     autoCommit := Some (negb isGet && isQueryOnly) |}))
         releaseConnection) /\
    (forall k,
       lookupProp oracleBindParams k
       = if isOutBind procOutBinds k then None
         else option_map (oracleBindValue endpoint k)
                (lookupProp validatedQueryParams k)) /\
    ((forall key value, In (key, value) validatedQueryParams ->
        configType (findConfig (allConfigs endpoint) key) <> Some TDate) ->
     finalSql = finalSqlToExecute).
Proof.
  intros procOutBinds finalSqlToExecute.
  exists (snd (oracleQueryBinds endpoint procOutBinds validatedQueryParams
                 finalSqlToExecute)),
    (fst (oracleQueryBinds endpoint procOutBinds validatedQueryParams
            finalSqlToExecute)).
  split; [|split].
  - unfold runQuery. fold procOutBinds. fold finalSqlToExecute.
    now destruct (oracleQueryBinds endpoint procOutBinds validatedQueryParams
                    finalSqlToExecute).
  - intro k. now apply oracleQueryBinds_lookup.
  - intro Hd. unfold oracleQueryBinds. now apply oracleQueryBinds_text.
Qed.

Lemma runQuery_oracle_binds_witness :
  distinctNames (map fst [(lit "low", VNum (decimalValue false 5 0));
                          (lit "newId", VStr (lit "x"))]) = true /\
  exists finalSql oracleBindParams,
    runQuery Oracle orderThenListEndpoint false false
      (Some {| rows := [];
               outBinds := Some [(lit "newId",
                                  VNum (decimalValue false 42 0))] |})
      [(lit "low", VNum (decimalValue false 5 0));
       (lit "newId", VStr (lit "x"))]
      (lit "SELECT * FROM orders WHERE total > :low")
    = (call GetConnection ;;;
       tryFinally
         (call (Execute finalSql (Named oracleBindParams)
                  {| outFormatObject := true; autoCommit := Some false |}))
         releaseConnection) /\
    lookupProp oracleBindParams (lit "newId") = None.
Proof.
  split; [reflexivity|].
  destruct (runQuery_oracle_binds orderThenListEndpoint false false
              (Some {| rows := [];
                       outBinds := Some [(lit "newId",
                                          VNum (decimalValue false 42 0))] |})
              [(lit "low", VNum (decimalValue false 5 0));
               (lit "newId", VStr (lit "x"))]
              (lit "SELECT * FROM orders WHERE total > :low") eq_refl)
    as (finalSql & oracleBindParams & Hrun & Hbinds & _).
  exists finalSql, oracleBindParams. split; [exact Hrun|].
  exact (Hbinds (lit "newId")).
Defined.

(** The statement of a date parameter on Oracle: the placeholder is
    wrapped in [TO_DATE] with the format of its declaration. *)
Example runQuery_oracle_date :
  snd (oracleQueryBinds
         {| epName := lit "since"; epMethod := lit "GET";
            epUrl := Some (lit "/api/orders"); requireToken := false;
            sqlQuery := Some (lit "SELECT * FROM orders WHERE day >= :since");
            sqlProcedure := None; epPathParams := [];
            epQueryParams :=
              [{| cfgName := lit "since"; cfgType := Some TDate;
                  cfgRequired := true; stringConstraints := None;
                  numberConstraints := None; dateConstraints := None |}];
            jsonSchema := None |}
         None [(lit "since", VStr (lit "2024-01-31"))]
         (lit "SELECT * FROM orders WHERE day >= :since"))
  = lit "SELECT * FROM orders WHERE day >= TO_DATE (:since, 'YYYY-MM-DD')".
Proof. vm_compute. reflexivity. Qed.

(* ------------------------------------------------------------------ *)
(** ** What the guard changes *)

Lemma injectUser_keeps req userId :
  reqMethod (injectUser req userId) = reqMethod req /\
  reqPath (injectUser req userId) = reqPath req /\
  reqAuthorization (injectUser req userId) = reqAuthorization req /\
  forall k, k <> lit "appUser" ->
    lookupProp (reqQuery (injectUser req userId)) k = lookupProp (reqQuery req) k /\
    lookupProp (reqBody (injectUser req userId)) k = lookupProp (reqBody req) k.
Proof.
  assert (Hset : forall (o : JsObject) k, k <> lit "appUser" ->
            lookupProp (setProp o (lit "appUser") userId) k = lookupProp o k).
  { intros o k Hk. rewrite lookupProp_setProp.
    destruct (strEq (lit "appUser") k) eqn:E; [|reflexivity].
    apply strEq_eq in E. congruence. }
  unfold injectUser.
  destruct (strEq (reqMethod req) (lit "GET"));
    cbn [reqMethod reqPath reqAuthorization reqQuery reqBody];
    (split; [reflexivity|]); (split; [reflexivity|]); (split; [reflexivity|]);
    intros k Hk; split; try reflexivity; now apply Hset.
Qed.

(** X11. The guard changes nothing of a request but [appUser]. A request
    that passes keeps its method, its path, its authorization header and
    every entry of its query and of its body other than [appUser]. On an
    endpoint that asks for no token every request passes, as it is and
    without a call to the database. *)
Theorem guard_changes_only_appUser (jwt : JwtLibrary) (dbType : DbType)
    (req : Request) (endpoint : Endpoint) (d : Driver) (t : Trace) :
  (forall req',
     snd (validateToken jwt dbType req endpoint d t) = Ok (Next req') ->
     reqMethod req' = reqMethod req /\
     reqPath req' = reqPath req /\
     reqAuthorization req' = reqAuthorization req /\
     (forall k, k <> lit "appUser" ->
        lookupProp (reqQuery req') k = lookupProp (reqQuery req) k /\
        lookupProp (reqBody req') k = lookupProp (reqBody req) k)) /\
  (requireToken endpoint = false ->
   validateToken jwt dbType req endpoint d t = (t, Ok (Next req))).
Proof.
  assert (Hfree : requireToken endpoint = false ->
            validateToken jwt dbType req endpoint d t = (t, Ok (Next req))).
  { intro Hreq. unfold validateToken. now rewrite Hreq. }
  split; [|exact Hfree].
  intros req' Hpass. destruct (requireToken endpoint) eqn:Hreq.
  - destruct (validateToken_outcome jwt dbType req endpoint d t Hreq)
      as (outcome & E & H).
    rewrite Hpass in E. injection E as <-.
    destruct H as (a & tk & dec & kr & pl & sr & _ & _ & _ & _ & _ & _ & _ & _
                   & _ & _ & _ & ->).
    destruct (injectUser_keeps req (indexVal (firstRow sr) 0))
      as (H1 & H2 & H3 & H4).
    repeat split; try assumption; now apply H4.
  - rewrite (Hfree eq_refl) in Hpass. cbn [snd] in Hpass.
    injection Hpass as <-. repeat split; reflexivity.
Qed.

Lemma guard_changes_only_appUser_witness :
  snd (validateToken validTokenLibrary Oracle bearerRequest tokenEndpoint
         oneRowDriver [])
  = Ok (Next (injectUser bearerRequest (VStr (lit "alice")))) /\
  reqPath (injectUser bearerRequest (VStr (lit "alice"))) = reqPath bearerRequest /\
  validateToken validTokenLibrary Oracle bearerRequest procedureEndpoint
    oneRowDriver []
  = ([], Ok (Next bearerRequest)).
Proof.
  split; [reflexivity|]. split.
  - exact (proj1 (proj2 (proj1 (guard_changes_only_appUser validTokenLibrary
                                  Oracle bearerRequest tokenEndpoint
                                  oneRowDriver [])
                           (injectUser bearerRequest (VStr (lit "alice")))
                           eq_refl))).
  - exact (proj2 (guard_changes_only_appUser validTokenLibrary Oracle
                    bearerRequest procedureEndpoint oneRowDriver [])
             eq_refl).
Defined.

(* ------------------------------------------------------------------ *)
(** ** The body of a procedure *)

Lemma trimStart_solid c s : isSpace c = false -> trimStart (c :: s) = c :: s.
Proof. intro H. cbn [trimStart]. now rewrite H. Qed.

Lemma last_cons_cons {A} (a b : A) l d : last (a :: b :: l) d = last (b :: l) d.
Proof. reflexivity. Qed.

Lemma last_default {A} (l : list A) d d' : l <> [] -> last l d = last l d'.
Proof.
  induction l as [|a [|b l] IH]; intro H; [contradiction | reflexivity |].
  rewrite !last_cons_cons. apply IH. discriminate.
Qed.

Lemma rev_last_head {A} (l : list A) d :
  l <> [] -> exists r, rev l = last l d :: r.
Proof.
  intro H. destruct (exists_last H) as (l' & a & ->).
  rewrite rev_app_distr, last_last. cbn. eauto.
Qed.

Lemma trim_solid s d :
  s <> [] -> isSpace (hd d s) = false -> isSpace (last s d) = false ->
  trim s = s.
Proof.
  intros Hne Hh Hl. unfold trim, trimEnd.
  destruct s as [|c s]; [contradiction|]. cbn [hd] in Hh.
  rewrite (trimStart_solid _ _ Hh).
  destruct (rev_last_head (c :: s) d Hne) as [r Er].
  rewrite Er, (trimStart_solid _ _ Hl), <- Er. apply rev_involutive.
Qed.

Lemma trimStart_app_solid u : forall R d,
  u <> [] -> isSpace (last u d) = false ->
  exists c r, trimStart (u ++ R) = c :: r ++ R /\ isSpace c = false /\
              (r <> [] -> isSpace (last r d) = false).
Proof.
  induction u as [|a u IH]; intros R d Hne Hl; [contradiction|].
  destruct (isSpace a) eqn:Ea.
  - destruct u as [|b u]; [cbn in Hl; congruence|].
    rewrite last_cons_cons in Hl.
    destruct (IH R d ltac:(discriminate) Hl) as (c & r & E & Hc & Hr).
    exists c, r. cbn [app trimStart] in E |- *. now rewrite Ea.
  - exists a, u. cbn [app]. rewrite (trimStart_solid _ _ Ea).
    repeat split; [assumption|]. intro Hu.
    destruct u as [|b u]; [contradiction|]. now rewrite last_cons_cons in Hl.
Qed.

Lemma strEqCI_length a b : length a <> length b -> strEqCI a b = false.
Proof.
  intro H. unfold strEqCI. apply Nat.eqb_neq in H. now rewrite H.
Qed.

Lemma isEndTail_solid u d :
  u <> [] -> isSpace (last u d) = false ->
  isEndTail (u ++ lit "; END;") = false.
Proof.
  intros Hne Hl. unfold isEndTail.
  destruct (trimStart_app_solid u (lit "; END;") d Hne Hl)
    as (c & r & E & Hc & Hr).
  rewrite E. destruct (chEq c ";").
  - destruct r as [|b r].
    + reflexivity.
    + destruct (trimStart_app_solid (b :: r) (lit "; END;") d
                  ltac:(discriminate) (Hr ltac:(discriminate)))
        as (c' & r' & E' & _ & _).
      rewrite E'. rewrite !strEqCI_length; [reflexivity | |];
        cbn [length]; rewrite length_app; simpl; lia.
  - rewrite !strEqCI_length; [reflexivity | |];
      cbn [length]; rewrite length_app; simpl; lia.
Qed.

Lemma cutEndTail_cons a t :
  cutEndTail (a :: t) = if isEndTail (a :: t) then [] else a :: cutEndTail t.
Proof. reflexivity. Qed.

Lemma cutEndTail_solid u d :
  (u <> [] -> isSpace (last u d) = false) ->
  cutEndTail (u ++ lit "; END;") = u.
Proof.
  induction u as [|a u IH]; intro H; [reflexivity|].
  cbn [app]. rewrite cutEndTail_cons.
  change (a :: u ++ lit "; END;") with ((a :: u) ++ lit "; END;").
  rewrite (isEndTail_solid (a :: u) d) by (try apply H; discriminate).
  f_equal. apply IH. intro Hu.
  destruct u as [|b u]; [contradiction|].
  specialize (H ltac:(discriminate)). now rewrite last_cons_cons in H.
Qed.

(** X12. The body that the handler takes out of a stored block is the
    body that the Oracle dialect wraps again: for a body that neither
    starts nor ends with white space and does not end with a semicolon,
    stripping [BEGIN] and [END] from the block [BEGIN body; END;] gives
    the body back, and that block is the statement that the Oracle dialect
    executes for the body. *)
Theorem procedureBodyOf_oracleBlock (b : jsString) (Hb : solidBody b = true) :
  procedureBodyOf (oracleBlock b) = b /\
  forall original params options,
    executeProcedure Oracle original (procedureBodyOf (oracleBlock b)) params
                     options
    = (call GetConnection ;;;
       tryFinally (call (Execute (oracleBlock b) (Named params) options))
                  (call Release ;;; ret tt)).
Proof.
  assert (H : procedureBodyOf (oracleBlock b) = b); [|now rewrite H].
  unfold solidBody in Hb. destruct b as [|c b]; [discriminate|].
  apply andb_true_iff in Hb as [Hb Hsemi]. apply andb_true_iff in Hb as [Hc Hl].
  apply negb_true_iff in Hc, Hl, Hsemi.
  unfold procedureBodyOf, oracleBlock.
  assert (Hw : trim (lit "BEGIN " ++ (c :: b) ++ lit "; END;")
               = lit "BEGIN " ++ (c :: b) ++ lit "; END;").
  { apply (trim_solid _ c); [discriminate | reflexivity |].
    rewrite app_assoc, (last_default _ c ";"%char)
      by (destruct (lit "BEGIN " ++ c :: b); discriminate).
    change (lit "; END;") with (lit "; END" ++ [";"%char]).
    now rewrite app_assoc, last_last. }
  rewrite Hw. unfold stripBeginEnd.
  change (startsWithCI (lit "BEGIN") (lit "BEGIN " ++ (c :: b) ++ lit "; END;"))
    with true.
  change (skipn 5 (lit "BEGIN " ++ (c :: b) ++ lit "; END;"))
    with (" "%char :: c :: b ++ lit "; END;").
  change (trimStart (" "%char :: c :: b ++ lit "; END;"))
    with (trimStart ((c :: b) ++ lit "; END;")).
  cbn [app]. rewrite (trimStart_solid _ _ Hc).
  change (c :: b ++ lit "; END;") with ((c :: b) ++ lit "; END;").
  rewrite (cutEndTail_solid (c :: b) c) by (intros _; exact Hl).
  rewrite (trim_solid (c :: b) c) by (assumption || discriminate).
  unfold dropLastSemicolon.
  destruct (rev_last_head (c :: b) c ltac:(discriminate)) as [r Er].
  now rewrite Er, Hsemi.
Qed.

Lemma procedureBodyOf_oracleBlock_witness :
  solidBody (lit "create_order(:customer, @newId)") = true /\
  procedureBodyOf (lit "BEGIN create_order(:customer, @newId); END;")
  = lit "create_order(:customer, @newId)".
Proof.
  split; [reflexivity|].
  exact (proj1 (procedureBodyOf_oracleBlock
                  (lit "create_order(:customer, @newId)") eq_refl)).
Defined.

(* ------------------------------------------------------------------ *)
(** ** The URL an endpoint is stored with *)

Lemma startsWith_app_r p : forall a b,
  startsWith p a = true -> startsWith p (a ++ b) = true.
Proof.
  induction p as [|x p IH]; intros a b H; [reflexivity|].
  destruct a as [|c a]; cbn [app startsWith] in H |- *; [discriminate|].
  apply andb_true_iff in H as [H1 H2]. rewrite H1. now apply IH.
Qed.

Lemma strIncludes_app_l p a b :
  strIncludes p a = true -> strIncludes p (a ++ b) = true.
Proof.
  induction a as [|c a IH]; intros H.
  - cbn [strIncludes] in H. rewrite orb_false_r in H.
    destruct p; [|discriminate]. now destruct b.
  - cbn [app strIncludes] in H |- *. apply orb_true_iff in H as [H|H].
    + apply (startsWith_app_r _ (c :: a) b) in H. cbn [app] in H.
      now rewrite H.
    + rewrite (IH H). apply orb_true_r.
Qed.

Lemma startsWith_shrink p : forall a b,
  startsWith p (a ++ b) = true -> length p <= length a ->
  startsWith p a = true.
Proof.
  induction p as [|x p IH]; intros a b H Hl; [reflexivity|].
  destruct a as [|c a]; cbn [length] in Hl; [lia|].
  cbn [app startsWith] in H |- *.
  apply andb_true_iff in H as [H1 H2]. rewrite H1.
  apply (IH a b H2). lia.
Qed.

Lemma startsWith_full p : forall s,
  startsWith p s = true -> length s <= length p -> s = p.
Proof.
  induction p as [|x p IH]; intros s H Hl.
  - destruct s; [reflexivity|]. cbn [length] in Hl. lia.
  - destruct s as [|c s]; [discriminate|].
    cbn [startsWith] in H. apply andb_true_iff in H as [H1 H2].
    apply chEq_eq in H1. subst c. f_equal. apply IH; [exact H2|].
    cbn [length] in Hl. lia.
Qed.

Lemma endsWith_slash_snoc r c : endsWith (lit "/") (r ++ [c]) = chEq "/" c.
Proof.
  unfold endsWith. rewrite rev_app_distr.
  cbn [rev app lit list_ascii_of_string startsWith]. apply andb_true_r.
Qed.

Lemma double_slash_snoc r :
  strIncludes (lit "//") ((r ++ ["/"%char]) ++ ["/"%char]) = true.
Proof.
  rewrite <- app_assoc. apply strIncludes_app_r. reflexivity.
Qed.

Lemma collapseSlashes_shape : forall s prev,
  strIncludes (lit "//") (collapseSlashes prev s) = false /\
  (prev = true -> startsWith (lit "/") (collapseSlashes prev s) = false).
Proof.
  induction s as [|c t IH]; intros prev; [split; reflexivity|].
  cbn [collapseSlashes]. destruct (chEq c "/") eqn:Ec.
  - destruct prev.
    + apply IH.
    + destruct (IH true) as [H1 H2]. split; [|discriminate].
      cbn [strIncludes]. rewrite H1, orb_false_r.
      change (startsWith (lit "//") ("/"%char :: collapseSlashes true t))
        with (chEq "/" "/" && startsWith (lit "/") (collapseSlashes true t)).
      now rewrite H2.
  - assert (Ec' : chEq "/" c = false).
    { unfold chEq in *. now rewrite Ascii.eqb_sym. }
    destruct (IH false) as [H1 _]. split.
    + cbn [strIncludes]. rewrite H1, orb_false_r.
      change (startsWith (lit "//") (c :: collapseSlashes false t))
        with (chEq "/" c && startsWith (lit "/") (collapseSlashes false t)).
      now rewrite Ec'.
    + intros _.
      change (startsWith (lit "/") (c :: collapseSlashes false t))
        with (chEq "/" c && startsWith [] (collapseSlashes false t)).
      now rewrite Ec'.
Qed.

Lemma collapseSlashes_id : forall s prev,
  strIncludes (lit "//") s = false ->
  (prev = true -> startsWith (lit "/") s = false) ->
  collapseSlashes prev s = s.
Proof.
  induction s as [|c t IH]; intros prev Hs Hp; [reflexivity|].
  cbn [strIncludes] in Hs. apply orb_false_iff in Hs as [Hh Ht].
  change (startsWith (lit "//") (c :: t))
    with (chEq "/" c && startsWith (lit "/") t) in Hh.
  cbn [collapseSlashes]. destruct (chEq c "/") eqn:Ec.
  - apply chEq_eq in Ec. subst c. rewrite chEq_refl in Hh.
    destruct prev.
    + specialize (Hp eq_refl). discriminate.
    + f_equal. apply IH; [exact Ht|]. intros _. exact Hh.
  - f_equal. apply IH; [exact Ht|discriminate].
Qed.

Lemma normalizeUrl_fixed (u : jsString) :
  startsWith API_PREFIX u = true ->
  strIncludes (lit "//") u = false ->
  (endsWith (lit "/") u = true -> u = API_PREFIX) ->
  normalizeUrl u = u.
Proof.
  intros Hp Hd He. unfold normalizeUrl.
  rewrite (collapseSlashes_id u false Hd) by discriminate.
  rewrite Hp. destruct (endsWith (lit "/") u) eqn:E.
  - rewrite (He eq_refl). reflexivity.
  - now rewrite andb_false_r.
Qed.

Lemma prefixed_shape (n : jsString) :
  strIncludes (lit "//") n = false ->
  let m := if startsWith API_PREFIX n then n
           else API_PREFIX ++ (if startsWith (lit "/") n then skipn 1 n else n) in
  startsWith API_PREFIX m = true /\ strIncludes (lit "//") m = false.
Proof.
  intros Hn m. subst m. destruct (startsWith API_PREFIX n) eqn:Ep.
  - now split.
  - split; [apply startsWith_app|].
    assert (Hr : forall rest, startsWith (lit "/") rest = false ->
                   strIncludes (lit "//") rest = false ->
                   strIncludes (lit "//") (API_PREFIX ++ rest) = false).
    { intros rest H1 H2.
      change (API_PREFIX ++ rest)
        with ("/"%char :: "a"%char :: "p"%char :: "i"%char :: "/"%char :: rest).
      cbn [strIncludes]. rewrite H2.
      change (startsWith (lit "//") ("/"%char :: rest))
        with (chEq "/" "/" && startsWith (lit "/") rest).
      rewrite H1. reflexivity. }
    destruct n as [|c t]; [reflexivity|].
    destruct (startsWith (lit "/") (c :: t)) eqn:Es.
    + cbn [skipn].
      cbn [strIncludes] in Hn. apply orb_false_iff in Hn as [Hh Ht].
      change (startsWith (lit "//") (c :: t))
        with (chEq "/" c && startsWith (lit "/") t) in Hh.
      change (startsWith (lit "/") (c :: t))
        with (chEq "/" c && startsWith [] t) in Es.
      apply andb_true_iff in Es as [Es _]. rewrite Es in Hh.
      now apply Hr.
    + now apply Hr.
Qed.

(** X13. [normalizeUrl] (the editor's form of an endpoint's URL): for every
    input the result starts with [/api/], holds no two slashes in a row, and
    ends with a slash only when it is [/api/] itself; the strings of this
    shape are exactly the ones the function leaves unchanged, so that
    normalising twice is normalising once. *)
Theorem normalizeUrl_normal_form (url : jsString) :
  (startsWith API_PREFIX (normalizeUrl url) = true /\
   strIncludes (lit "//") (normalizeUrl url) = false /\
   (endsWith (lit "/") (normalizeUrl url) = true ->
    normalizeUrl url = API_PREFIX)) /\
  (normalizeUrl url = url <->
   startsWith API_PREFIX url = true /\
   strIncludes (lit "//") url = false /\
   (endsWith (lit "/") url = true -> url = API_PREFIX)) /\
  normalizeUrl (normalizeUrl url) = normalizeUrl url.
Proof.
  assert (Hshape : forall u,
    startsWith API_PREFIX (normalizeUrl u) = true /\
    strIncludes (lit "//") (normalizeUrl u) = false /\
    (endsWith (lit "/") (normalizeUrl u) = true ->
     normalizeUrl u = API_PREFIX)).
  { intros u. unfold normalizeUrl.
    destruct (prefixed_shape (collapseSlashes false u)
                (proj1 (collapseSlashes_shape u false))) as [Hp Hd].
    cbv zeta in Hp, Hd.
    set (m := if startsWith API_PREFIX (collapseSlashes false u)
              then collapseSlashes false u
              else API_PREFIX ++
                   (if startsWith (lit "/") (collapseSlashes false u)
                    then skipn 1 (collapseSlashes false u)
                    else collapseSlashes false u)) in *.
    destruct (length API_PREFIX <? length m) eqn:El.
    - destruct (endsWith (lit "/") m) eqn:Ee; cbn [andb].
      + apply Nat.ltb_lt in El.
        destruct (exists_last (l := m)) as [r [c Hm]].
        { intros ->. cbn [length] in El. lia. }
        rewrite Hm in *. rewrite removelast_last.
        rewrite endsWith_slash_snoc in Ee. apply chEq_eq in Ee. subst c.
        rewrite length_app in El. cbn [length] in El.
        split; [apply (startsWith_shrink _ _ _ Hp); lia|].
        split.
        * destruct (strIncludes (lit "//") r) eqn:Er; [|reflexivity].
          now rewrite (strIncludes_app_l _ r ["/"%char] Er) in Hd.
        * intros He. exfalso.
          destruct (exists_last (l := r)) as [r' [d Hr]].
          { intros ->. discriminate. }
          rewrite Hr, endsWith_slash_snoc in He. apply chEq_eq in He.
          subst d r. now rewrite double_slash_snoc in Hd.
      + split; [exact Hp|]. split; [exact Hd|]. intros He.
        rewrite He in Ee. discriminate.
    - cbn [andb]. split; [exact Hp|]. split; [exact Hd|]. intros _.
      apply Nat.ltb_ge in El. now apply startsWith_full. }
  split; [apply Hshape|]. split.
  - split.
    + intros E. rewrite <- E at 1 2 3 4. apply Hshape.
    + intros (Hp & Hd & He). now apply normalizeUrl_fixed.
  - destruct (Hshape url) as (Hp & Hd & He). now apply normalizeUrl_fixed.
Qed.

(* ------------------------------------------------------------------ *)
(** ** The registry: one endpoint by its name *)

Lemma keys_setProp {V} (o : list (jsString * V)) k v x :
  In x (map fst (setProp o k v)) <-> x = k \/ In x (map fst o).
Proof.
  unfold setProp. destruct (hasProp o k) eqn:E.
  - rewrite keys_replaceProp. apply hasProp_In in E.
    split; [tauto|]. intros [->|H]; assumption.
  - apply keys_insertProp.
Qed.

Lemma keys_spreadInto (src : JsObject) : forall acc x,
  In x (map fst (spreadInto acc src)) <->
  In x (map fst acc) \/ In x (map fst src).
Proof.
  unfold spreadInto.
  induction src as [|[k v] src IH]; intros acc x; cbn [fold_left map In fst snd].
  - tauto.
  - rewrite IH, keys_setProp. intuition (subst; auto).
Qed.

Lemma uniqueKeys_filter {V} (f : jsString * V -> bool) (o : list (jsString * V)) :
  uniqueKeys o -> uniqueKeys (filter f o).
Proof.
  unfold uniqueKeys. induction o as [|[k v] o IH]; intros Hu; [constructor|].
  cbn [map fst] in Hu. inversion Hu as [|? ? Hn Hu']; subst.
  cbn [filter]. destruct (f (k, v)); [|now apply IH].
  cbn [map fst]. constructor; [|now apply IH].
  intros Hin. apply Hn. apply in_map_iff in Hin as [[k' v'] [Hk Hin]].
  apply filter_In in Hin as [Hin _]. cbn [fst] in Hk. subst k'.
  apply in_map_iff. now exists (k, v').
Qed.

Lemma lookupProp_filter_keys {V} (f : jsString -> bool)
    (o : list (jsString * V)) k :
  lookupProp (filter (fun kv => f (fst kv)) o) k
  = if f k then lookupProp o k else None.
Proof.
  induction o as [|[k0 v0] o IH]; cbn [filter lookupProp fst].
  - now destruct (f k).
  - destruct (f k0) eqn:E0; cbn [lookupProp]; rewrite IH;
      destruct (strEq k0 k) eqn:E; try reflexivity;
      apply strEq_eq in E; subst k0; now rewrite E0.
Qed.

Lemma sanitizedEndpoint_keys (endpoint : JsObject) k :
  hasProp (sanitizedEndpoint endpoint) k
  = negb (includes connectionKeys k) && hasProp endpoint k.
Proof.
  apply eq_true_iff_eq. rewrite andb_true_iff, !hasProp_In.
  unfold sanitizedEndpoint. rewrite keys_spreadInto. cbn [map In].
  rewrite !in_map_iff. split.
  - intros [[]|[[k' v] [Hk Hin]]]. cbn [fst] in Hk. subst k'.
    apply filter_In in Hin as [Hin Hf]. cbn [fst] in Hf.
    split; [exact Hf|]. now exists (k, v).
  - intros [Hf [[k' v] [Hk Hin]]]. cbn [fst] in Hk. subst k'.
    right. exists (k, v). split; [reflexivity|].
    apply filter_In. now split.
Qed.

Lemma findByName_found : forall endpoints name o,
  findByName endpoints name = Ok (Some o) ->
  In (VObj o) endpoints /\ getProp o (lit "name") = VStr name.
Proof.
  induction endpoints as [|e rest IH]; intros name o H; [discriminate|].
  cbn [findByName] in H.
  destruct e as [| |b|d|s|items|props]; try discriminate;
    try (destruct (IH _ _ H) as [H1 H2]; split; [now right|exact H2]).
  destruct (getProp props (lit "name")) as [| |b|d|s|items|props'] eqn:En;
    try (destruct (IH _ _ H) as [H1 H2]; split; [now right|exact H2]).
  destruct (strEq s name) eqn:Es.
  - injection H as <-. apply strEq_eq in Es. subst s.
    split; [now left|exact En].
  - destruct (IH _ _ H) as [H1 H2]. split; [now right|exact H2].
Qed.

Lemma findByName_none : forall endpoints name,
  findByName endpoints name = Ok None ->
  forall o, In (VObj o) endpoints -> getProp o (lit "name") <> VStr name.
Proof.
  induction endpoints as [|e rest IH]; intros name H o Hin; [destruct Hin|].
  cbn [findByName] in H. destruct Hin as [->|Hin].
  - destruct (getProp o (lit "name")) as [| |b|d|s|items|props'] eqn:En;
      try discriminate.
    destruct (strEq s name) eqn:Es; [discriminate|].
    apply strEq_neq in Es. congruence.
  - destruct e as [| |b|d|s|items|props]; try discriminate;
      try (now apply (IH _ H)).
    destruct (getProp props (lit "name")) as [| |b|d|s|items|props'];
      try (now apply (IH _ H)).
    destruct (strEq s name); [discriminate|]. now apply (IH _ H).
Qed.

(** X14. [GET /api/endpoints/:name]: no answer of the route, of any status,
    holds a property [host], [port], [username], [password] or [database].
    An answer 200 is an entry of the file whose [name] is the name asked for,
    with all its other properties and their values; the route answers 404
    only when the file is a list with no entry of that name, and 500 when
    the file cannot be read or parsed or is not a list. *)
Theorem endpointByName_hides_connection (file : option JsVal) (name : jsString) :
  (exists b, regBody (getEndpointByName file name) = VObj b /\
     forall k, includes connectionKeys k = true -> hasProp b k = false) /\
  (regStatus (getEndpointByName file name) = 200 ->
   exists endpoints o,
     file = Some (VArr endpoints) /\ In (VObj o) endpoints /\
     getProp o (lit "name") = VStr name /\
     regBody (getEndpointByName file name) = VObj (sanitizedEndpoint o) /\
     (forall k, hasProp (sanitizedEndpoint o) k
                = negb (includes connectionKeys k) && hasProp o k) /\
     (uniqueKeys o -> forall k, includes connectionKeys k = false ->
        lookupProp (sanitizedEndpoint o) k = lookupProp o k)) /\
  (regStatus (getEndpointByName file name) = 404 ->
   exists endpoints,
     file = Some (VArr endpoints) /\
     forall o, In (VObj o) endpoints -> getProp o (lit "name") <> VStr name) /\
  ((forall endpoints, file <> Some (VArr endpoints)) ->
   getEndpointByName file name
   = registryError 500 (lit "Failed to load endpoint")).
Proof.
  assert (Herr : forall message k,
            includes connectionKeys k = true ->
            hasProp [(lit "success", VBool false); (lit "error", VStr message)] k
            = false).
  { intros message k Hk. cbn [connectionKeys includes] in Hk.
    rewrite orb_false_r in Hk.
    repeat (apply orb_true_iff in Hk as [Hk|Hk];
            [apply strEq_eq in Hk; subst k; reflexivity|]).
    apply strEq_eq in Hk. subst k. reflexivity. }
  assert (Hfail : forall code message,
            exists b, regBody (registryError code message) = VObj b /\
              forall k, includes connectionKeys k = true -> hasProp b k = false).
  { intros code message. eexists. split; [reflexivity|].
    intros k Hk. now apply Herr. }
  split; [|split; [|split]].
  - unfold getEndpointByName.
    destruct file as [[| |b|d|s|endpoints|props]|]; try apply Hfail.
    destruct (findByName endpoints name) as [[o|]|e]; try apply Hfail.
    eexists. split; [reflexivity|]. intros k Hk.
    now rewrite sanitizedEndpoint_keys, Hk.
  - unfold getEndpointByName.
    destruct file as [[| |b|d|s|endpoints|props]|]; try discriminate.
    destruct (findByName endpoints name) as [[o|]|e] eqn:Ef; try discriminate.
    intros _. destruct (findByName_found _ _ _ Ef) as [Hin Hn].
    exists endpoints, o. split; [reflexivity|]. split; [exact Hin|].
    split; [exact Hn|]. split; [reflexivity|].
    split; [apply sanitizedEndpoint_keys|].
    intros Hu k Hk. unfold sanitizedEndpoint.
    rewrite lookupProp_spreadInto by now apply uniqueKeys_filter.
    rewrite (lookupProp_filter_keys (fun x => negb (includes connectionKeys x))).
    rewrite Hk. cbn [negb lookupProp]. now destruct (lookupProp o k).
  - unfold getEndpointByName.
    destruct file as [[| |b|d|s|endpoints|props]|]; try discriminate.
    destruct (findByName endpoints name) as [[o|]|e] eqn:Ef; try discriminate.
    intros _. exists endpoints. split; [reflexivity|].
    now apply findByName_none.
  - intros Hno. unfold getEndpointByName.
    destruct file as [[| |b|d|s|endpoints|props]|]; try reflexivity.
    now destruct (Hno endpoints).
Qed.

(* ------------------------------------------------------------------ *)
(** ** The date format handed to date-fns *)

Section ReplacePairs.
Variables (x y : ascii) (alts : list jsString) (repl : jsString).
Hypothesis Hrepl : apartFrom x y repl = true.

Lemma apartFrom_parts :
  repl <> [] /\ ~ In "$"%char repl /\ ~ In x repl /\ ~ In y repl.
Proof.
  unfold apartFrom in Hrepl. apply andb_true_iff in Hrepl as [Hne Hall].
  rewrite forallb_forall in Hall.
  split; [intros ->; discriminate|].
  split; [|split]; intros Hin; apply Hall in Hin;
    rewrite !andb_true_iff, !negb_true_iff in Hin;
    destruct Hin as [[H1 H2] H3]; rewrite chEq_refl in *; discriminate.
Qed.

Lemma pair_after_repl : forall a b,
  ~ In x a -> strIncludes [x; y] b = false -> strIncludes [x; y] (a ++ b) = false.
Proof.
  induction a as [|c a IH]; intros b Hx Hb; [exact Hb|].
  cbn [app strIncludes startsWith].
  rewrite chEq_false by (intros ->; apply Hx; now left).
  cbn [andb orb]. apply IH; [|exact Hb]. intros H. apply Hx. now right.
Qed.

Lemma replaceLoop_pairs : forall s whole pos k,
  guarded x y alts s ->
  strIncludes [x; y] (replaceLoop alts false repl whole pos k s) = false /\
  (forall d, hd_error (replaceLoop alts false repl whole pos k s) = Some d ->
     In d repl \/ hd_error (skipn k s) = Some d).
Proof.
  destruct apartFrom_parts as (Hne & Hdollar & Hx & Hy).
  induction s as [|c t IH]; intros whole pos k Hg.
  - cbn [replaceLoop]. split; [reflexivity|discriminate].
  - destruct Hg as [Hhere Hg]. cbn [replaceLoop]. destruct k as [|k].
    + destruct (matchAlt alts false (c :: t)) as [m|] eqn:Em.
      * rewrite expandReplacement_plain by exact Hdollar.
        destruct (IH whole (S pos) (length m - 1) Hg) as [H1 _].
        split; [now apply pair_after_repl|].
        intros d Hd. left. destruct repl as [|r0 r]; [now destruct Hne|].
        cbn [app hd_error] in Hd. injection Hd as <-. now left.
      * destruct (IH whole (S pos) 0 Hg) as [H1 H2].
        split; [|intros d Hd; right; exact Hd].
        cbn [strIncludes]. rewrite H1, orb_false_r.
        cbn [startsWith].
        destruct (chEq x c) eqn:Ec; [|reflexivity]. cbn [andb].
        destruct (replaceLoop alts false repl whole (S pos) 0 t)
          as [|d out] eqn:Eo; [reflexivity|].
        destruct (chEq y d) eqn:Ed; [|reflexivity]. exfalso.
        apply chEq_eq in Ec, Ed. subst c d.
        destruct (H2 y eq_refl) as [Hin|Hhd]; [now apply Hy|].
        cbn [skipn] in Hhd. destruct t as [|d t]; [discriminate|].
        cbn [hd_error] in Hhd. injection Hhd as ->.
        apply Hhere; [|reflexivity].
        cbn [startsWith]. now rewrite !chEq_refl.
    + destruct (IH whole (S pos) k Hg) as [H1 H2]. split; [exact H1|].
      intros d Hd. cbn [skipn]. now apply H2.
Qed.

Lemma guarded_absent : forall s, strIncludes [x; y] s = false -> guarded x y alts s.
Proof.
  induction s as [|c t IH]; intros H; [exact I|].
  cbn [strIncludes] in H. apply orb_false_iff in H as [Hh Ht].
  split; [|now apply IH]. intros E. rewrite E in Hh. discriminate.
Qed.

Lemma matchAlt_in : forall l s,
  In [x; y] l -> startsWith [x; y] s = true -> matchAlt l false s <> None.
Proof.
  induction l as [|p l IH]; intros s Hin Hs; [destruct Hin|].
  cbn [matchAlt negb orb]. rewrite andb_true_r.
  destruct (startsWith p s) eqn:Ep; [discriminate|].
  destruct Hin as [->|Hin]; [congruence|]. now apply IH.
Qed.

Lemma guarded_in : In [x; y] alts -> forall s, guarded x y alts s.
Proof.
  intros Hin. induction s as [|c t IH]; [exact I|].
  split; [|exact IH]. now apply matchAlt_in.
Qed.

(** A replacement that is apart from the pair leaves no such pair when
    the pair is one of the patterns, and makes none when there was none. *)
Lemma replaceAll_pairs (s : jsString) :
  In [x; y] alts \/ strIncludes [x; y] s = false ->
  strIncludes [x; y] (replaceAll alts false repl s) = false.
Proof.
  intros H. unfold replaceAll. apply replaceLoop_pairs.
  destruct H as [H|H]; [now apply guarded_in|now apply guarded_absent].
Qed.
End ReplacePairs.

Ltac pair_stage :=
  apply replaceAll_pairs;
  [reflexivity
  |first [left; cbn [In lit list_ascii_of_string]; now auto
         |right]].

(** X15. [validateDateFormat]: the value is accepted exactly when date-fns
    parses it in the converted format, and that format, whatever the Oracle
    format was, holds none of [YY], [DD], [HH], [MI], [SS], [AM], [PM]. In
    particular no [HH] is left: the [HH] that [HH24] became is rewritten to
    [hh] by the next replacement. *)
Theorem validateDateFormat_tokens (lib : Libraries) (value : JsVal)
    (format : jsString) :
  validateDateFormat lib value format
  = (if dateFnsParses lib value (fnsFormat format) then Ok tt
     else Throw (mkError (lit "Invalid date format. Expected format: " ++ format))) /\
  Forall (fun token => strIncludes token (fnsFormat format) = false) oracleTokens /\
  fnsFormat (lit "YYYY-MM-DD HH24:MI:SS") = lit "yyyy-MM-dd hh:mm:ss".
Proof.
  split; [reflexivity|]. split; [|reflexivity].
  unfold oracleTokens, fnsFormat.
  repeat (apply Forall_cons; [repeat pair_stage|]). apply Forall_nil.
Qed.

(* ------------------------------------------------------------------ *)
(** ** The registry: the list of endpoints *)

Lemma truthy_orEmptyList v : truthy (orEmptyList v) = true.
Proof. unfold orEmptyList. now destruct (truthy v) eqn:E. Qed.

Lemma withDefaults_defaulted ep e : withDefaults ep = Ok e -> defaulted ep e.
Proof.
  intros H.
  assert (He : e = VObj (setProp
                  (setProp (spreadValue ep) (lit "pathParams")
                           (orEmptyList (rowField ep (lit "pathParams"))))
                  (lit "queryParams")
                  (orEmptyList (rowField ep (lit "queryParams"))))).
  { destruct ep; cbn [withDefaults] in H; try discriminate;
      now injection H as <-. }
  clear H. eexists. split; [exact He|].
  assert (Hp : getProp (setProp
                  (setProp (spreadValue ep) (lit "pathParams")
                           (orEmptyList (rowField ep (lit "pathParams"))))
                  (lit "queryParams")
                  (orEmptyList (rowField ep (lit "queryParams"))))
                 (lit "pathParams")
               = orEmptyList (rowField ep (lit "pathParams"))).
  { rewrite lookupProp_getProp, !lookupProp_setProp, strEq_refl.
    reflexivity. }
  assert (Hq : getProp (setProp
                  (setProp (spreadValue ep) (lit "pathParams")
                           (orEmptyList (rowField ep (lit "pathParams"))))
                  (lit "queryParams")
                  (orEmptyList (rowField ep (lit "queryParams"))))
                 (lit "queryParams")
               = orEmptyList (rowField ep (lit "queryParams"))).
  { rewrite lookupProp_getProp, lookupProp_setProp, strEq_refl.
    reflexivity. }
  split; [exact Hp|]. split; [exact Hq|].
  split; [rewrite Hp; apply truthy_orEmptyList|].
  split; [rewrite Hq; apply truthy_orEmptyList|].
  intros k Hk1 Hk2. rewrite !lookupProp_setProp.
  apply strEq_neq in Hk1, Hk2.
  assert (E1 : strEq (lit "pathParams") k = false).
  { apply strEq_neq. apply strEq_neq in Hk1. congruence. }
  assert (E2 : strEq (lit "queryParams") k = false).
  { apply strEq_neq. apply strEq_neq in Hk2. congruence. }
  now rewrite E1, E2.
Qed.

Lemma mapResult_ok {A B} (f : A -> Result B) : forall l l',
  mapResult f l = Ok l' -> Forall2 (fun a b => f a = Ok b) l l'.
Proof.
  induction l as [|a l IH]; intros l' H; cbn [mapResult] in H.
  - injection H as <-. constructor.
  - destruct (f a) as [b|e] eqn:Ea; cbn [bind] in H; [|discriminate].
    destruct (mapResult f l) as [rest|e]; cbn [bind] in H; [|discriminate].
    injection H as <-. constructor; [exact Ea|now apply IH].
Qed.

Lemma mapResult_total {A B} (f : A -> Result B) : forall l,
  Forall (fun a => exists b, f a = Ok b) l -> exists l', mapResult f l = Ok l'.
Proof.
  induction l as [|a l IH]; intros H; [now exists []|].
  inversion H as [|? ? [b Hb] Hl]; subst.
  destruct (IH Hl) as [rest Hrest]. exists (b :: rest).
  cbn [mapResult]. rewrite Hb. cbn [bind]. now rewrite Hrest.
Qed.

(** X16. [GET /api/endpoints]: a file that parses is never changed by the
    route; a file that is absent or unreadable is replaced by the empty list,
    which is then the answer, and the route answers 500 when it cannot write
    it. Every entry of an answer 200 is an object with a [pathParams] and a
    [queryParams] that are not empty values: those of the entry of the file
    when it has them, an empty list otherwise, beside the entry's other
    properties; a list with no [null] in it is always answered so. *)
Theorem getEndpoints_defaults (file : EndpointsFile) (writable : bool) :
  (forall content, file = FileParsed content ->
     snd (getEndpoints file writable) = file) /\
  (file = FileAbsent \/ file = FileUnreadable ->
   getEndpoints file writable
   = if writable
     then ({| regStatus := 200; regBody := VArr [] |}, FileParsed (VArr []))
     else (registryError 500 (lit "Failed to load endpoints"), file)) /\
  (regStatus (fst (getEndpoints file writable)) = 200 ->
   exists endpoints l,
     (file = FileParsed (VArr endpoints) \/
      (endpoints = [] /\ writable = true /\
       (file = FileAbsent \/ file = FileUnreadable))) /\
     regBody (fst (getEndpoints file writable)) = VArr l /\
     Forall2 defaulted endpoints l) /\
  (forall endpoints,
     file = FileParsed (VArr endpoints) ->
     Forall (fun ep => ep <> VNull /\ ep <> VUndefined) endpoints ->
     regStatus (fst (getEndpoints file writable)) = 200) /\
  (forall o k, uniqueKeys o -> lookupProp (spreadValue (VObj o)) k = lookupProp o k).
Proof.
  assert (Hmap : forall endpoints l,
            mapResult withDefaults endpoints = Ok l ->
            Forall2 defaulted endpoints l).
  { intros endpoints l H. apply mapResult_ok in H.
    induction H as [|ep e eps l Hd _ IH]; constructor;
      [now apply withDefaults_defaulted|exact IH]. }
  split; [|split; [|split; [|split]]].
  - intros content ->. unfold getEndpoints.
    destruct content as [| |b|d|s|endpoints|props]; try reflexivity.
    now destruct (mapResult withDefaults endpoints).
  - intros [->| ->]; unfold getEndpoints; now destruct writable.
  - unfold getEndpoints. destruct file as [| |content].
    + destruct writable; [|discriminate]. intros _.
      exists [], []. split; [right; auto|]. split; [reflexivity|constructor].
    + destruct writable; [|discriminate]. intros _.
      exists [], []. split; [right; auto|]. split; [reflexivity|constructor].
    + destruct content as [| |b|d|s|endpoints|props]; try discriminate.
      destruct (mapResult withDefaults endpoints) as [l|e] eqn:El;
        [|discriminate].
      intros _. exists endpoints, l. split; [now left|].
      split; [reflexivity|now apply Hmap].
  - intros endpoints -> Hall. unfold getEndpoints.
    destruct (mapResult_total withDefaults endpoints) as [l Hl].
    { apply Forall_impl with (2 := Hall). intros ep [H1 H2].
      destruct ep; try (now destruct H1); try (now destruct H2);
        eexists; reflexivity. }
    now rewrite Hl.
  - intros o k Hu. cbn [spreadValue].
    rewrite lookupProp_spreadInto by exact Hu.
    cbn [lookupProp]. now destruct (lookupProp o k).
Qed.

(* ------------------------------------------------------------------ *)
(** ** The name of a copy *)

Lemma copyCandidate_inj baseName i j :
  copyCandidate baseName i = copyCandidate baseName j -> i = j.
Proof.
  destruct i as [|i], j as [|j]; cbn [copyCandidate]; intros H;
    try reflexivity; apply app_inv_head in H.
  - apply (f_equal (@length ascii)) in H. cbn [lit list_ascii_of_string] in H.
    rewrite length_app in H. cbn [length] in H. lia.
  - apply (f_equal (@length ascii)) in H. cbn [lit list_ascii_of_string] in H.
    rewrite length_app in H. cbn [length] in H. lia.
  - apply app_inv_head in H. now apply natToString_inj.
Qed.

Lemma includes_without l x y :
  y <> x ->
  includes (filter (fun n => negb (strEq n x)) l) y = includes l y.
Proof.
  intros Hne. apply eq_true_iff_eq. rewrite !includes_In, filter_In.
  rewrite negb_true_iff, strEq_neq. split; [tauto|].
  intros H. split; [exact H|]. congruence.
Qed.

Lemma length_without l x :
  includes l x = true ->
  length (filter (fun n => negb (strEq n x)) l) < length l.
Proof.
  induction l as [|y l IH]; cbn [includes filter length]; [discriminate|].
  destruct (strEq y x) eqn:E; cbn [negb orb length].
  - intros _. pose proof (filter_length_le (fun n => negb (strEq n x)) l). lia.
  - intros H. apply IH in H. lia.
Qed.

Lemma copyLoop_ext baseName n1 n2 : forall rounds j,
  (forall i, j <= i -> includes n1 (copyCandidate baseName i)
                       = includes n2 (copyCandidate baseName i)) ->
  copyLoop rounds n1 baseName (S j) (copyCandidate baseName j)
  = copyLoop rounds n2 baseName (S j) (copyCandidate baseName j).
Proof.
  induction rounds as [|rounds IH]; intros j Hall;
    cbn [copyLoop]; rewrite (Hall j) by lia; [reflexivity|].
  destruct (includes n2 (copyCandidate baseName j)); [|reflexivity].
  change (baseName ++ lit " copy " ++ natToString (S j))
    with (copyCandidate baseName (S j)).
  apply IH. intros i Hi. apply Hall. lia.
Qed.

Lemma copyLoop_fresh baseName : forall rounds names j,
  length names <= rounds ->
  exists k,
    (j <= k /\ k <= j + length names) /\
    (copyLoop rounds names baseName (S j) (copyCandidate baseName j)
     = Some (copyCandidate baseName k)) /\
    includes names (copyCandidate baseName k) = false /\
    (forall i, j <= i -> i < k ->
       includes names (copyCandidate baseName i) = true).
Proof.
  induction rounds as [|rounds IH]; intros names j Hlen.
  - destruct names; [|cbn [length] in Hlen; lia].
    exists j. cbn [copyLoop includes length].
    split; [lia|]. split; [reflexivity|]. split; [reflexivity|]. intros i Hi Hi'. lia.
  - cbn [copyLoop].
    destruct (includes names (copyCandidate baseName j)) eqn:Ej.
    + change (baseName ++ lit " copy " ++ natToString (S j))
        with (copyCandidate baseName (S j)).
      pose proof (length_without names _ Ej) as Hless.
      set (names' := filter (fun n => negb (strEq n (copyCandidate baseName j)))
                            names) in *.
      assert (Hsame : forall i, S j <= i ->
                includes names (copyCandidate baseName i)
                = includes names' (copyCandidate baseName i)).
      { intros i Hi. symmetry. apply includes_without.
        intros E. apply copyCandidate_inj in E. lia. }
      destruct (IH names' (S j)) as (k & Hk & Hrun & Hout & Hin); [lia|].
      exists k. split; [lia|]. split.
      * rewrite (copyLoop_ext baseName names names' rounds (S j) Hsame).
        exact Hrun.
      * split; [rewrite Hsame by lia; exact Hout|].
        intros i Hi Hi'. destruct (Nat.eq_dec i j) as [->|Hne]; [exact Ej|].
        rewrite Hsame by lia. apply Hin; lia.
    + exists j. split; [lia|]. split; [reflexivity|]. split; [exact Ej|].
      intros i Hi Hi'. lia.
Qed.

Lemma last_skipn {A} (d : A) : forall n (s : list A),
  skipn n s <> [] -> last (skipn n s) d = last s d.
Proof.
  induction n as [|n IH]; intros s H; [reflexivity|].
  destruct s as [|c t]; [now destruct H|].
  cbn [skipn] in H |- *. rewrite (IH t H).
  destruct t as [|c' t']; [|reflexivity].
  destruct n; now destruct H.
Qed.

Lemma digits_last (t : jsString) :
  t <> [] -> forallb isDigit t = true -> isDigit (last t " "%char) = true.
Proof.
  intros Hne Hall. rewrite forallb_forall in Hall. apply Hall.
  destruct (exists_last Hne) as [r [c ->]]. rewrite last_last.
  apply in_or_app. right. now left.
Qed.

Lemma strEq_length a b : length a <> length b -> strEq a b = false.
Proof. intros H. apply strEq_neq. intros ->. now apply H. Qed.

(** After a unit or more, a candidate's ending is no copy suffix any more:
    the lazy group cannot stop before the base name is through. *)
Lemma isCopySuffix_longer (c : ascii) (u : jsString) (j : nat) :
  isCopySuffix (c :: u ++ copyCandidate [] j) = false.
Proof.
  unfold isCopySuffix. cbn [isEmpty orb].
  rewrite strEq_length.
  2:{ cbn [length]. rewrite length_app.
      destruct j; cbn [copyCandidate app lit list_ascii_of_string length];
        lia. }
  cbn [orb].
  destruct (startsWith (lit " copy ") (c :: u ++ copyCandidate [] j));
    [cbn [andb]|reflexivity].
  destruct (isEmpty (skipn 6 (c :: u ++ copyCandidate [] j))) eqn:Ee;
    [reflexivity|cbn [negb andb]].
  assert (Hne : skipn 6 (c :: u ++ copyCandidate [] j) <> []).
  { intros E. rewrite E in Ee. discriminate. }
  destruct (forallb isDigit (skipn 6 (c :: u ++ copyCandidate [] j))) eqn:Ed;
    [exfalso|reflexivity].
  destruct j as [|j].
  - pose proof (digits_last _ Hne Ed) as Hl.
    rewrite last_skipn in Hl by exact Hne.
    change (c :: u ++ copyCandidate [] 0)
      with ((c :: u) ++ lit " cop" ++ ["y"%char]) in Hl.
    rewrite !app_assoc, last_last in Hl. discriminate.
  - rewrite forallb_forall in Ed.
    assert (Hin : In " "%char (skipn 6 (c :: u ++ copyCandidate [] (S j)))).
    { replace (c :: u ++ copyCandidate [] (S j))
        with (((c :: u) ++ lit " copy") ++ " "%char :: natToString (S j))
        by (now rewrite <- app_assoc).
      rewrite skipn_app. apply in_or_app. right.
      replace (6 - length ((c :: u) ++ lit " copy")) with 0.
      - now left.
      - rewrite length_app. cbn [length lit list_ascii_of_string]. lia. }
    apply Ed in Hin. discriminate.
Qed.

Lemma natToString_nonempty n : natToString n <> [].
Proof.
  intros H. pose proof H as H'. unfold natToString in H'.
  apply (f_equal string_of_list_ascii) in H'.
  rewrite string_of_list_ascii_of_string in H'.
  apply (f_equal NilEmpty.uint_of_string) in H'.
  rewrite NilEmpty.usu in H'. cbn in H'. injection H' as H'.
  apply (f_equal Nat.of_uint) in H'. rewrite Unsigned.of_to in H'.
  cbn in H'. subst n. discriminate H.
Qed.

Lemma copyBase_candidate : forall (b : jsString) (j : nat),
  existsb isLineTerminator b = false ->
  copyBase (copyCandidate b j) = Some b.
Proof.
  assert (Hsplit : forall b j, copyCandidate b j = b ++ copyCandidate [] j).
  { intros b j. now destruct j. }
  intros b j. rewrite Hsplit. induction b as [|c b IH]; intros Hb.
  - cbn [app].
    assert (Hs : isCopySuffix (copyCandidate [] j) = true).
    { destruct j as [|j]; [reflexivity|].
      unfold isCopySuffix.
      change (copyCandidate [] (S j)) with (lit " copy " ++ natToString (S j)).
      rewrite startsWith_app.
      change (skipn 6 (lit " copy " ++ natToString (S j)))
        with (natToString (S j)).
      rewrite natToString_digits.
      destruct (natToString (S j)) eqn:En;
        [now destruct (natToString_nonempty (S j))|].
      cbn [isEmpty negb andb]. now rewrite !orb_true_r. }
    destruct (copyCandidate [] j) as [|c t] eqn:E; cbn [copyBase];
      now rewrite Hs.
  - cbn [existsb] in Hb. apply orb_false_iff in Hb as [Hc Hb].
    cbn [app copyBase]. rewrite isCopySuffix_longer, Hc, (IH Hb).
    reflexivity.
Qed.

(** X17. [generateCopyName]: the loop ends, within one round for each
    existing endpoint, and the name it gives is the first of
    [base copy], [base copy 1], [base copy 2], ... that no existing endpoint
    has: the result is never an existing name. [base] is the original name
    without an ending [ copy] or [ copy N]; the base of a name that the
    function made is the base it was made from, so that the copy of a copy
    is named after the same base. *)
Theorem generateCopyName_fresh (originalName : jsString) (names : list jsString) :
  (exists k,
     k <= length names /\
     generateCopyName originalName names
     = Some (copyCandidate
               (match copyBase originalName with
                | Some b => b
                | None => originalName
                end) k) /\
     (forall result, generateCopyName originalName names = Some result ->
        ~ In result names) /\
     (forall i, i < k ->
        In (copyCandidate
              (match copyBase originalName with
               | Some b => b
               | None => originalName
               end) i) names)) /\
  (forall j, existsb isLineTerminator originalName = false ->
     copyBase (copyCandidate originalName j) = Some originalName).
Proof.
  split; [|intros j; now apply copyBase_candidate].
  unfold generateCopyName.
  set (baseName := match copyBase originalName with
                   | Some b => b
                   | None => originalName
                   end).
  destruct (copyLoop_fresh baseName (length names) names 0 (le_n _))
    as (k & Hk & Hrun & Hout & Hin).
  change (baseName ++ lit " copy") with (copyCandidate baseName 0).
  exists k. split; [lia|]. split; [exact Hrun|]. split.
  - intros result Hr. rewrite Hrun in Hr. injection Hr as <-.
    now apply includes_not_In.
  - intros i Hi. apply includes_In. apply Hin; lia.
Qed.

(* ------------------------------------------------------------------ *)
(** ** The registry: the parameters that are stored *)

Lemma spreadIfSet_same acc k v :
  spreadIfSet acc k (if truthy v then v else VUndefined) = spreadIfSet acc k v.
Proof.
  unfold spreadIfSet. destruct (truthy v) eqn:E; [now rewrite E|reflexivity].
Qed.

Lemma sanitizeParam_built (n t r sc nc dc : JsVal) :
  let o := spreadIfSet
             (spreadIfSet
                (spreadIfSet
                   [(lit "name", n); (lit "type", t); (lit "required", r)]
                   (lit "stringConstraints") sc)
                (lit "numberConstraints") nc)
             (lit "dateConstraints") dc in
  (forall k, hasProp o k = true -> In k paramKeys) /\
  (lookupProp o (lit "name") = Some n /\
   lookupProp o (lit "type") = Some t /\
   lookupProp o (lit "required") = Some r) /\
  (lookupProp o (lit "stringConstraints") = (if truthy sc then Some sc else None) /\
   lookupProp o (lit "numberConstraints") = (if truthy nc then Some nc else None) /\
   lookupProp o (lit "dateConstraints") = (if truthy dc then Some dc else None)) /\
  sanitizeParam (VObj o) = Ok (VObj o).
Proof.
  intros o.
  assert (H : (forall k, hasProp o k = true -> In k paramKeys) /\
    (lookupProp o (lit "name") = Some n /\
     lookupProp o (lit "type") = Some t /\
     lookupProp o (lit "required") = Some r) /\
    (lookupProp o (lit "stringConstraints") = (if truthy sc then Some sc else None) /\
     lookupProp o (lit "numberConstraints") = (if truthy nc then Some nc else None) /\
     lookupProp o (lit "dateConstraints") = (if truthy dc then Some dc else None))).
  { subst o. unfold spreadIfSet.
    destruct (truthy sc), (truthy nc), (truthy dc);
      (split; [|split; [now repeat split|now repeat split]]);
      intros k Hk; apply hasProp_In in Hk;
      vm_compute in Hk; vm_compute; tauto. }
  destruct H as (Hkeys & (H1 & H2 & H3) & (H4 & H5 & H6)).
  split; [exact Hkeys|]. split; [now repeat split|]. split; [now repeat split|].
  unfold sanitizeParam. cbn [rowField].
  rewrite !lookupProp_getProp, H1, H2, H3, H4, H5, H6.
  replace (match (if truthy sc then Some sc else None) with
           | Some v => v | None => VUndefined end)
    with (if truthy sc then sc else VUndefined) by now destruct (truthy sc).
  replace (match (if truthy nc then Some nc else None) with
           | Some v => v | None => VUndefined end)
    with (if truthy nc then nc else VUndefined) by now destruct (truthy nc).
  replace (match (if truthy dc then Some dc else None) with
           | Some v => v | None => VUndefined end)
    with (if truthy dc then dc else VUndefined) by now destruct (truthy dc).
  now rewrite !spreadIfSet_same.
Qed.

Lemma sanitizeParam_stored param e :
  sanitizeParam param = Ok e -> storedParam param e /\ sanitizeParam e = Ok e.
Proof.
  intros H.
  pose proof (sanitizeParam_built
                (rowField param (lit "name")) (rowField param (lit "type"))
                (rowField param (lit "required"))
                (rowField param (lit "stringConstraints"))
                (rowField param (lit "numberConstraints"))
                (rowField param (lit "dateConstraints"))) as Hb.
  cbv zeta in Hb. destruct Hb as (Hkeys & (H1 & H2 & H3) & (H4 & H5 & H6) & Hid).
  assert (He : e = VObj
            (spreadIfSet
               (spreadIfSet
                  (spreadIfSet
                     [(lit "name", rowField param (lit "name"));
                      (lit "type", rowField param (lit "type"));
                      (lit "required", rowField param (lit "required"))]
                     (lit "stringConstraints")
                     (rowField param (lit "stringConstraints")))
                  (lit "numberConstraints")
                  (rowField param (lit "numberConstraints")))
               (lit "dateConstraints")
               (rowField param (lit "dateConstraints")))).
  { destruct param; cbn [sanitizeParam] in H; try discriminate;
      now injection H as <-. }
  subst e. split; [|exact Hid].
  eexists. split; [reflexivity|]. split; [exact Hkeys|]. split.
  - intros k [<-|[<-|[<-|[]]]]; assumption.
  - intros k [<-|[<-|[<-|[]]]]; assumption.
Qed.

Lemma mapResult_fixed {A} (f : A -> Result A) : forall l,
  Forall (fun a => f a = Ok a) l -> mapResult f l = Ok l.
Proof.
  induction l as [|a l IH]; intros H; [reflexivity|].
  inversion H as [|? ? Ha Hl]; subst.
  cbn [mapResult]. rewrite Ha. cbn [bind]. now rewrite (IH Hl).
Qed.

(** X18. [sanitizeParams], by which [POST /api/endpoints] stores a list of
    parameters: when it gives a list, every stored parameter is an object
    with no property beside [name], [type], [required] and the three
    constraints; the first three are always there, with the value sent, and
    a constraint is there exactly when the one sent is not an empty value.
    What it gives is stored unchanged when it is sent again. *)
Theorem sanitizeParams_stored (params out : JsVal)
    (Hout : sanitizeParams params = Ok out) :
  exists l,
    out = VArr l /\
    Forall2 storedParam
            (match params with VArr items => items | _ => [] end) l /\
    sanitizeParams out = Ok out.
Proof.
  unfold sanitizeParams in Hout. destruct (truthy params) eqn:Et.
  - destruct params as [| |b|d|s|items|props]; try discriminate.
    destruct (mapResult sanitizeParam items) as [l|e] eqn:El;
      cbn [bind] in Hout; [|discriminate].
    injection Hout as <-. exists l. split; [reflexivity|].
    apply mapResult_ok in El.
    assert (H : Forall2 storedParam items l /\
                Forall (fun e => sanitizeParam e = Ok e) l).
    { clear Et. induction El as [|a b0 items l Hab _ IH].
      - split; constructor.
      - destruct IH as [IH1 IH2].
        destruct (sanitizeParam_stored a b0 Hab) as [Hs Hi].
        split.
        + constructor; [exact Hs|exact IH1].
        + constructor; [exact Hi|exact IH2]. }
    destruct H as [H1 H2]. split; [exact H1|].
    unfold sanitizeParams. cbn [truthy].
    now rewrite (mapResult_fixed _ _ H2).
  - injection Hout as <-. exists []. split; [reflexivity|].
    split; [|reflexivity].
    destruct params; try constructor. discriminate.
Qed.

Lemma sanitizeParams_stored_witness :
  exists l,
    VArr [VObj [(lit "name", VStr (lit "id"));
                (lit "type", VStr (lit "number"));
                (lit "required", VBool true);
                (lit "numberConstraints", VObj [(lit "precision", VNum (decimalValue false 0 0))])]]
    = VArr l /\
    Forall2 storedParam
      [VObj [(lit "name", VStr (lit "id"));
             (lit "label", VStr (lit "Identifier"));
             (lit "type", VStr (lit "number"));
             (lit "required", VBool true);
             (lit "stringConstraints", VNull);
             (lit "numberConstraints", VObj [(lit "precision", VNum (decimalValue false 0 0))])]]
      l /\
    sanitizeParams
      (VArr [VObj [(lit "name", VStr (lit "id"));
                   (lit "type", VStr (lit "number"));
                   (lit "required", VBool true);
                   (lit "numberConstraints",
                    VObj [(lit "precision", VNum (decimalValue false 0 0))])]])
    = Ok (VArr [VObj [(lit "name", VStr (lit "id"));
                      (lit "type", VStr (lit "number"));
                      (lit "required", VBool true);
                      (lit "numberConstraints",
                       VObj [(lit "precision", VNum (decimalValue false 0 0))])]]).
Proof.
  apply (sanitizeParams_stored
           (VArr [VObj [(lit "name", VStr (lit "id"));
                        (lit "label", VStr (lit "Identifier"));
                        (lit "type", VStr (lit "number"));
                        (lit "required", VBool true);
                        (lit "stringConstraints", VNull);
                        (lit "numberConstraints",
                         VObj [(lit "precision", VNum (decimalValue false 0 0))])]])).
  reflexivity.
Defined.

(* ------------------------------------------------------------------ *)
(** ** What a prepared query binds *)

Lemma hasProp_lookupProp {V} (o : list (jsString * V)) k :
  hasProp o k = match lookupProp o k with Some _ => true | None => false end.
Proof.
  induction o as [|[k0 v0] o IH]; cbn [hasProp lookupProp]; [reflexivity|].
  destruct (strEq k0 k); [reflexivity|exact IH].
Qed.

Lemma validateQueryParams_binds {V} (wrap : JsVal -> V) lib queryConfigs
    bindSource : forall names validated out,
  validateQueryParams wrap lib queryConfigs bindSource names validated = Ok out ->
  (forall n, In n names ->
     exists v, convertAndValidateValue lib (lit "query") (getProp bindSource n) n
                 (findConfig queryConfigs n) = Ok v) /\
  (forall n, lookupProp out n
     = if includes names n
       then match convertAndValidateValue lib (lit "query")
                    (getProp bindSource n) n (findConfig queryConfigs n) with
            | Ok v => Some (wrap v)
            | Throw _ => None
            end
       else lookupProp validated n).
Proof.
  induction names as [|param rest IH]; intros validated out H.
  - cbn [validateQueryParams] in H. injection H as <-.
    split; [intros n []|reflexivity].
  - cbn [validateQueryParams] in H.
    destruct (convertAndValidateValue lib (lit "query") (getProp bindSource param)
                param (findConfig queryConfigs param)) as [v|e] eqn:Ev;
      cbn [bind] in H; [|discriminate].
    destruct (IH _ _ H) as [H1 H2]. split.
    + intros n [<-|Hn]; [now exists v|now apply H1].
    + intros n. rewrite H2, lookupProp_setProp. cbn [includes].
      destruct (includes rest n); [now rewrite orb_true_r|].
      rewrite orb_false_r. destruct (strEq param n) eqn:E; [|reflexivity].
      apply strEq_eq in E. subst n. now rewrite Ev.
Qed.

Lemma validateQueryPathParams_binds lib pathConfigs bindSource :
  forall names st out,
  validateQueryPathParams lib pathConfigs bindSource names st = Ok out ->
  (forall n, In n names ->
     exists v, convertAndValidateValue lib (lit "path") (getProp bindSource n) n
                 (findConfig pathConfigs n) = Ok v) /\
  (forall n, lookupProp (fst out) n
     = if includes names n
       then match convertAndValidateValue lib (lit "path")
                    (getProp bindSource n) n (findConfig pathConfigs n) with
            | Ok v => Some v
            | Throw _ => None
            end
       else lookupProp (fst st) n).
Proof.
  induction names as [|param rest IH]; intros st out H.
  - cbn [validateQueryPathParams] in H. injection H as <-.
    split; [intros n []|reflexivity].
  - cbn [validateQueryPathParams] in H. cbv zeta in H.
    destruct (convertAndValidateValue lib (lit "path") (getProp bindSource param)
                param (findConfig pathConfigs param)) as [v|e] eqn:Ev;
      cbn [bind] in H; [|discriminate].
    destruct (IH _ _ H) as [H1 H2]. split.
    + intros n [<-|Hn]; [now exists v|now apply H1].
    + intros n. rewrite H2. cbn [fst]. rewrite lookupProp_setProp.
      cbn [includes].
      destruct (includes rest n); [now rewrite orb_true_r|].
      rewrite orb_false_r. destruct (strEq param n) eqn:E; [|reflexivity].
      apply strEq_eq in E. subst n. now rewrite Ev.
Qed.

(** X19. The preparation of the query: when it succeeds, the names bound are
    exactly the path and the query parameters of the statement; each of them
    passed [convertAndValidateValue], as a path or as a query parameter, on
    the value that the bind source has for it, and is bound to the value that
    this gave. *)
Theorem prepareQuery_binds (lib : Libraries) (endpoint : Endpoint)
    (queryBindSource validated : JsObject) (sql : jsString)
    (Hok : prepareQuery lib endpoint queryBindSource = Ok (validated, sql)) :
  (forall n,
     hasProp validated n
     = includes (pathParams (extractParamDetails (textOf (sqlQuery endpoint)))) n
       || includes (queryParams (extractParamDetails (textOf (sqlQuery endpoint)))) n) /\
  (forall n,
     In n (queryParams (extractParamDetails (textOf (sqlQuery endpoint)))) ->
     exists v,
       convertAndValidateValue lib (lit "query") (getProp queryBindSource n) n
         (findConfig (epQueryParams endpoint) n) = Ok v /\
       lookupProp validated n = Some v) /\
  (forall n,
     In n (pathParams (extractParamDetails (textOf (sqlQuery endpoint)))) ->
     exists v,
       convertAndValidateValue lib (lit "path") (getProp queryBindSource n) n
         (findConfig (epPathParams endpoint) n) = Ok v /\
       lookupProp validated n = Some v).
Proof.
  unfold prepareQuery in Hok. cbv zeta in Hok.
  set (details := extractParamDetails (textOf (sqlQuery endpoint))) in *.
  destruct (validateQueryPathParams lib (epPathParams endpoint) queryBindSource
              (pathParams details) ([], textOf (sqlQuery endpoint)))
    as [st1|e] eqn:E1; cbn [bind] in Hok; [|discriminate].
  destruct (validateQueryParams (fun v => v) lib (epQueryParams endpoint)
              queryBindSource (queryParams details) (fst st1))
    as [validated'|e] eqn:E2; cbn [bind] in Hok; [|discriminate].
  injection Hok as -> <-.
  destruct (validateQueryPathParams_binds _ _ _ _ _ _ E1) as [P1 P2].
  destruct (validateQueryParams_binds _ _ _ _ _ _ _ E2) as [Q1 Q2].
  cbn [fst lookupProp] in P2.
  split; [|split].
  - intros n. rewrite hasProp_lookupProp, Q2, P2.
    destruct (includes (queryParams details) n) eqn:Eq.
    + apply includes_In in Eq. destruct (Q1 n Eq) as [v Hv]. rewrite Hv.
      now rewrite orb_true_r.
    + rewrite orb_false_r.
      destruct (includes (pathParams details) n) eqn:Ep; [|reflexivity].
      apply includes_In in Ep. destruct (P1 n Ep) as [v Hv]. now rewrite Hv.
  - intros n Hn. destruct (Q1 n Hn) as [v Hv]. exists v. split; [exact Hv|].
    apply includes_In in Hn. now rewrite Q2, Hn, Hv.
  - intros n Hn. destruct (P1 n Hn) as [v Hv]. exists v. split; [exact Hv|].
    assert (Hq : ~ In n (queryParams details)).
    { intros Hq. apply extract_query_In in Hq as [_ Hq].
      apply Hq. now apply extract_path_In. }
    apply includes_not_In in Hq. apply includes_In in Hn.
    now rewrite Q2, Hq, P2, Hn, Hv.
Qed.

Lemma prepareQuery_binds_witness :
  hasProp [(lit "low", VNum (decimalValue false 5 0))] (lit "low") = true /\
  hasProp [(lit "low", VNum (decimalValue false 5 0))] (lit "total") = false.
Proof.
  pose proof (prepareQuery_binds permissiveLibraries orderThenListEndpoint
                [(lit "low", VStr (lit "5"))]
                [(lit "low", VNum (decimalValue false 5 0))]
                (lit "SELECT * FROM orders WHERE total > :low")
                eq_refl) as [H _].
  split; [exact (H (lit "low"))|exact (H (lit "total"))].
Defined.

(* ------------------------------------------------------------------ *)
(** ** Where a bound value is taken from *)

(** X20. the bind sources of the handler. On a GET request a name is looked
    up in the query string and then among the values taken from the URL, and
    the body is not read. On any other method the query looks it up in the
    body and then in the URL, never in the query string, and the procedure
    in the body, then the query string, then the URL: a property of the body
    with the name of a path parameter takes the place of the URL's value. *)
Theorem bindSource_precedence (pathParams : JsObject) (req : Request)
    (n : jsString)
    (Hpath : uniqueKeys pathParams)
    (Hquery : uniqueKeys (reqQuery req))
    (Hbody : uniqueKeys (reqBody req)) :
  lookupProp (queryBindSource pathParams req) n
  = (if strEq (reqMethod req) (lit "GET")
     then match lookupProp (reqQuery req) n with
          | Some v => Some v
          | None => lookupProp pathParams n
          end
     else match lookupProp (reqBody req) n with
          | Some v => Some v
          | None => lookupProp pathParams n
          end) /\
  lookupProp (procBindSource pathParams req) n
  = (if strEq (reqMethod req) (lit "GET")
     then match lookupProp (reqQuery req) n with
          | Some v => Some v
          | None => lookupProp pathParams n
          end
     else match lookupProp (reqBody req) n with
          | Some v => Some v
          | None =>
              match lookupProp (reqQuery req) n with
              | Some v => Some v
              | None => lookupProp pathParams n
              end
          end).
Proof.
  unfold queryBindSource, procBindSource.
  destruct (strEq (reqMethod req) (lit "GET"));
    rewrite !lookupProp_spreadInto by assumption; cbn [lookupProp];
    split; repeat match goal with
                  | |- context [match lookupProp ?o n with _ => _ end] =>
                      destruct (lookupProp o n)
                  end; reflexivity.
Qed.

Lemma bindSource_precedence_witness :
  getProp (queryBindSource [(lit "id", VStr (lit "7"))]
             {| reqMethod := lit "POST"; reqPath := lit "/api/orders/7";
                reqAuthorization := None;
                reqQuery := [(lit "id", VStr (lit "8"))];
                reqBody := [(lit "id", VStr (lit "9"))] |})
          (lit "id") = VStr (lit "9").
Proof.
  rewrite lookupProp_getProp.
  rewrite (proj1 (bindSource_precedence [(lit "id", VStr (lit "7"))]
             {| reqMethod := lit "POST"; reqPath := lit "/api/orders/7";
                reqAuthorization := None;
                reqQuery := [(lit "id", VStr (lit "8"))];
                reqBody := [(lit "id", VStr (lit "9"))] |}
             (lit "id")
             (proj1 (distinctNames_NoDup [lit "id"]) eq_refl)
             (proj1 (distinctNames_NoDup [lit "id"]) eq_refl)
             (proj1 (distinctNames_NoDup [lit "id"]) eq_refl))).
  reflexivity.
Defined.

(* ------------------------------------------------------------------ *)
(** ** What a prepared procedure binds *)

Lemma validateProcPathParams_binds lib pathConfigs bindSource :
  forall names st out,
  validateProcPathParams lib pathConfigs bindSource names st = Ok out ->
  (forall n, In n names ->
     if isUndefined (getProp bindSource n)
     then cfgIsRequired (findConfig pathConfigs n) = false
     else exists v, convertAndValidateValue lib (lit "path") (getProp bindSource n)
                      n (findConfig pathConfigs n) = Ok v) /\
  (forall n, lookupProp (fst out) n
     = if includes names n && negb (isUndefined (getProp bindSource n))
       then match convertAndValidateValue lib (lit "path")
                    (getProp bindSource n) n (findConfig pathConfigs n) with
            | Ok v => Some (BVal (CVal v))
            | Throw _ => None
            end
       else lookupProp (fst st) n).
Proof.
  induction names as [|param rest IH]; intros st out H.
  - cbn [validateProcPathParams] in H. injection H as <-.
    split; [intros n []|reflexivity].
  - cbn [validateProcPathParams] in H. cbv zeta in H.
    destruct (isUndefined (getProp bindSource param)) eqn:Eu; cbn [negb] in H.
    + destruct (cfgIsRequired (findConfig pathConfigs param)) eqn:Er;
        cbn [bind] in H; [discriminate|].
      destruct (IH _ _ H) as [H1 H2]. split.
      * intros n [<-|Hn]; [now rewrite Eu|now apply H1].
      * intros n. rewrite H2. cbn [includes].
        destruct (includes rest n); [now rewrite orb_true_r|].
        rewrite orb_false_r. destruct (strEq param n) eqn:E; [|reflexivity].
        apply strEq_eq in E. subst n. now rewrite Eu.
    + destruct (convertAndValidateValue lib (lit "path") (getProp bindSource param)
                  param (findConfig pathConfigs param)) as [v|e] eqn:Ev;
        cbn [bind] in H; [|discriminate].
      destruct (IH _ _ H) as [H1 H2]. split.
      * intros n [<-|Hn]; [rewrite Eu; now exists v|now apply H1].
      * intros n. rewrite H2. cbn [fst includes]. rewrite lookupProp_setProp.
        destruct (strEq param n) eqn:E; cbn [orb]; [|reflexivity].
        apply strEq_eq in E. subst n. rewrite Eu, Ev. cbn [negb andb].
        rewrite andb_true_r. now destruct (includes rest param).
Qed.

Lemma bindOutputParams_binds endpoint : forall names st n,
  lookupProp (fst (bindOutputParams endpoint names st)) n
  = if includes names n then Some (outBindOf endpoint n)
    else lookupProp (fst st) n.
Proof.
  unfold bindOutputParams.
  induction names as [|param rest IH]; intros st n; [reflexivity|].
  cbn [fold_left includes]. rewrite IH. cbn [fst].
  rewrite lookupProp_setProp.
  destruct (includes rest n); [now rewrite orb_true_r|].
  rewrite orb_false_r. destruct (strEq param n) eqn:E; [|reflexivity].
  apply strEq_eq in E. now subst n.
Qed.

(** X21. The preparation of the procedure: when it succeeds, a name is bound
    exactly when it is an output parameter of the body on Oracle, a query
    parameter, a path parameter for which the bind source has a value, or
    the [$name]. An output parameter is bound as an OUT bind of the type of
    its configuration, of size 4000 for text; a query parameter, and a path
    parameter that has a value, to what [convertAndValidateValue] gave for
    it; a path parameter without a value in the bind source is not required
    by its configuration. *)
Theorem prepareProcedure_binds (lib : Libraries) (dbType : DbType)
    (endpoint : Endpoint) (procBindSource : JsObject)
    (prepared : PreparedProcedure)
    (Hok : prepareProcedure lib dbType endpoint procBindSource = Ok prepared) :
  originalProcedureBody prepared
  = procedureBodyOf (textOf (sqlProcedure endpoint)) /\
  (forall n,
     hasProp (validatedProcParams prepared) n
     = (match dbType with
        | Oracle => includes (outputParams (extractParamDetails
                                              (originalProcedureBody prepared))) n
        | MySQL => false
        end)
       || includes (queryParams (extractParamDetails
                                   (originalProcedureBody prepared))) n
       || (includes (pathParams (extractParamDetails
                                   (originalProcedureBody prepared))) n
           && negb (isUndefined (getProp procBindSource n)))
       || (match extractDollarParam (originalProcedureBody prepared) with
           | Some dollarParam => strEq dollarParam n
           | None => false
           end)) /\
  (forall n,
     dbType = Oracle ->
     In n (outputParams (extractParamDetails (originalProcedureBody prepared))) ->
     lookupProp (validatedProcParams prepared) n = Some (outBindOf endpoint n)) /\
  (forall n,
     In n (queryParams (extractParamDetails (originalProcedureBody prepared))) ->
     exists v,
       convertAndValidateValue lib (lit "query") (getProp procBindSource n) n
         (findConfig (epQueryParams endpoint) n) = Ok v /\
       lookupProp (validatedProcParams prepared) n = Some (BVal (CVal v))) /\
  (forall n,
     In n (pathParams (extractParamDetails (originalProcedureBody prepared))) ->
     if isUndefined (getProp procBindSource n)
     then cfgIsRequired (findConfig (epPathParams endpoint) n) = false
     else exists v,
            convertAndValidateValue lib (lit "path") (getProp procBindSource n) n
              (findConfig (epPathParams endpoint) n) = Ok v /\
            lookupProp (validatedProcParams prepared) n = Some (BVal (CVal v))).
Proof.
  unfold prepareProcedure in Hok. cbv zeta in Hok.
  set (original := procedureBodyOf (textOf (sqlProcedure endpoint))) in *.
  set (details := extractParamDetails original) in *.
  destruct (validateProcPathParams lib (epPathParams endpoint) procBindSource
              (pathParams details) (bindDollarParam dbType procBindSource original))
    as [st1|e] eqn:E1; cbn [bind] in Hok; [|discriminate].
  destruct (validateQueryParams (fun v => BVal (CVal v)) lib
              (epQueryParams endpoint) procBindSource (queryParams details)
              (fst st1))
    as [validated2|e] eqn:E2; cbn [bind] in Hok; [|discriminate].
  injection Hok as <-.
  cbn [originalProcedureBody validatedProcParams]. fold details.
  destruct (validateProcPathParams_binds _ _ _ _ _ _ E1) as [P1 P2].
  destruct (validateQueryParams_binds _ _ _ _ _ _ _ E2) as [Q1 Q2].
  assert (Hdollar : forall n,
            hasProp (fst (bindDollarParam dbType procBindSource original)) n
            = match extractDollarParam original with
              | Some dollarParam => strEq dollarParam n
              | None => false
              end).
  { intros n. unfold bindDollarParam.
    destruct (extractDollarParam original) as [d|]; [|reflexivity].
    cbn [fst]. rewrite hasProp_lookupProp, lookupProp_setProp.
    now destruct (strEq d n). }
  assert (Hin : forall n,
            hasProp validated2 n
            = includes (queryParams details) n
              || (includes (pathParams details) n
                  && negb (isUndefined (getProp procBindSource n)))
              || match extractDollarParam original with
                 | Some dollarParam => strEq dollarParam n
                 | None => false
                 end).
  { intros n. rewrite hasProp_lookupProp, Q2, P2, <- Hdollar.
    rewrite (hasProp_lookupProp (fst (bindDollarParam _ _ _))).
    destruct (includes (queryParams details) n) eqn:Eq.
    - apply includes_In in Eq. destruct (Q1 n Eq) as [v Hv]. now rewrite Hv.
    - cbn [orb].
      destruct (includes (pathParams details) n
                && negb (isUndefined (getProp procBindSource n))) eqn:Ep;
        [|reflexivity].
      apply andb_true_iff in Ep as [Ep Eu]. apply includes_In in Ep.
      apply negb_true_iff in Eu. pose proof (P1 n Ep) as Hp.
      rewrite Eu in Hp. destruct Hp as [v Hv]. now rewrite Hv. }
  split; [reflexivity|]. split; [|split; [|split]].
  - intros n. destruct dbType; cbn [fst snd].
    + rewrite hasProp_lookupProp, bindOutputParams_binds. cbn [fst].
      destruct (includes (outputParams details) n); [reflexivity|].
      rewrite <- hasProp_lookupProp. cbn [orb]. apply Hin.
    + cbn [orb]. apply Hin.
  - intros n -> Hn. cbn [fst]. rewrite bindOutputParams_binds.
    apply includes_In in Hn. now rewrite Hn.
  - intros n Hn. destruct (Q1 n Hn) as [v Hv]. exists v. split; [exact Hv|].
    assert (Hout : ~ In n (outputParams details)).
    { intros Ho. apply extract_output_In in Ho as (_ & Ho & _).
      apply extract_query_In in Hn as [Hn _]. now apply Ho. }
    apply includes_In in Hn.
    assert (Hv2 : lookupProp validated2 n = Some (BVal (CVal v))).
    { now rewrite Q2, Hn, Hv. }
    destruct dbType; cbn [fst]; [|exact Hv2].
    rewrite bindOutputParams_binds. apply includes_not_In in Hout.
    now rewrite Hout.
  - intros n Hn. pose proof (P1 n Hn) as Hp.
    destruct (isUndefined (getProp procBindSource n)) eqn:Eu; [exact Hp|].
    destruct Hp as [v Hv]. exists v. split; [exact Hv|].
    assert (Hq : ~ In n (queryParams details)).
    { intros Hq. apply extract_query_In in Hq as [_ Hq].
      apply Hq. now apply extract_path_In. }
    assert (Hout : ~ In n (outputParams details)).
    { intros Ho. apply extract_output_In in Ho as (_ & _ & Ho).
      apply Ho. now apply extract_path_In. }
    apply includes_not_In in Hq, Hout. apply includes_In in Hn.
    assert (Hv2 : lookupProp validated2 n = Some (BVal (CVal v))).
    { now rewrite Q2, Hq, P2, Hn, Eu, Hv. }
    destruct dbType; cbn [fst]; [|exact Hv2].
    rewrite bindOutputParams_binds. now rewrite Hout.
Qed.

Lemma prepareProcedure_binds_witness :
  lookupProp
    [(lit "customer", BVal (CVal (VStr (lit "bob"))));
     (lit "newId", BOracle (Some BIND_OUT) ORA_STRING None (Some 4000))]
    (lit "newId")
  = Some (outBindOf orderThenListEndpoint (lit "newId")).
Proof.
  refine (proj1 (proj2 (proj2
            (prepareProcedure_binds permissiveLibraries Oracle
               orderThenListEndpoint [(lit "customer", VStr (lit "bob"))]
               {| validatedProcParams :=
                    [(lit "customer", BVal (CVal (VStr (lit "bob"))));
                     (lit "newId",
                      BOracle (Some BIND_OUT) ORA_STRING None (Some 4000))];
                  executionProcedureBody := lit "create_order(:customer, :newId)";
                  originalProcedureBody := lit "create_order(:customer, @newId)" |}
               eq_refl)))
            (lit "newId") eq_refl _).
  vm_compute. left. reflexivity.
Defined.

(* ------------------------------------------------------------------ *)
(** ** The placeholders of a prepared query *)

Lemma startsWith_split p : forall s,
  startsWith p s = true -> s = p ++ skipn (length p) s.
Proof.
  induction p as [|x p IH]; intros s H; [reflexivity|].
  destruct s as [|c s]; [discriminate|].
  cbn [startsWith] in H. apply andb_true_iff in H as [H1 H2].
  apply chEq_eq in H1. subst c. cbn [app length skipn]. f_equal. now apply IH.
Qed.

Lemma strIncludes_at p : forall s,
  strIncludes p s = true -> exists i, startsWith p (skipn i s) = true.
Proof.
  induction s as [|c t IH]; cbn [strIncludes]; intros H.
  - rewrite orb_false_r in H. now exists 0.
  - apply orb_true_iff in H as [H|H]; [now exists 0|].
    destruct (IH H) as [i Hi]. now exists (S i).
Qed.

Lemma strIncludes_skipn p : forall i s,
  startsWith p (skipn i s) = true -> strIncludes p s = true.
Proof.
  induction i as [|i IH]; intros s H.
  - cbn [skipn] in H. now apply strIncludes_prefix.
  - destruct s as [|c t]; [now apply strIncludes_prefix|].
    cbn [skipn] in H. cbn [strIncludes]. rewrite (IH t H). apply orb_true_r.
Qed.

Lemma wordRun_split s : s = wordRun s ++ skipn (length (wordRun s)) s.
Proof.
  induction s as [|c s IH]; [reflexivity|].
  cbn [wordRun]. destruct (isWordChar c); [|reflexivity].
  cbn [app length skipn]. now f_equal.
Qed.

(** Every [{name}] of a text is one of the matches of [/\{(\w+)\}/g]. *)
Lemma scanBraces_occurrence (w : jsString) (Hw : isName w) : forall s skip i,
  skip <= i -> startsWith (braced w) (skipn i s) = true ->
  In w (scanBraces skip s).
Proof.
  destruct Hw as [Hne Hword].
  induction s as [|c t IH]; intros skip i Hle H.
  - now destruct i.
  - cbn [scanBraces]. destruct skip as [|k].
    + destruct i as [|i].
      * cbn [skipn] in H. unfold braced in H. cbn [startsWith] in H.
        apply andb_true_iff in H as [Hc Ht]. apply chEq_eq in Hc. subst c.
        apply startsWith_split in Ht. rewrite Ht, <- app_assoc. cbn [app].
        rewrite (wordRun_stop w "}"%char _ Hword eq_refl).
        rewrite nth_error_app2, Nat.sub_diag by lia. cbn [nth_error].
        rewrite !chEq_refl.
        destruct w; [now destruct Hne|]. now left.
      * cbn [skipn] in H.
        destruct (chEq c "{" && negb (isEmpty (wordRun t))
                  && match nth_error t (length (wordRun t)) with
                     | Some d => chEq d "}"
                     | None => false
                     end) eqn:E; [|now apply (IH 0 i); [lia|]].
        right. apply (IH _ i); [|exact H].
        apply andb_true_iff in E as [_ E].
        destruct (nth_error t (length (wordRun t))) as [d|] eqn:En;
          [|discriminate].
        apply chEq_eq in E. subst d.
        destruct (Nat.le_gt_cases (S (length (wordRun t))) i) as [Hi|Hi];
          [exact Hi|exfalso].
        pose proof (wordRun_split t) as Hsplit.
        pose proof (wordRun_word t) as Hrun.
        remember (wordRun t) as run eqn:Erun.
        remember (skipn (length run) t) as rest eqn:Erest.
        rewrite Hsplit in H, En.
        rewrite nth_error_app2, Nat.sub_diag in En by lia.
        destruct rest as [|d rest]; [discriminate|].
        cbn [nth_error] in En. injection En as ->.
        rewrite skipn_app in H.
        destruct (Nat.eq_dec i (length run)) as [->|Hn].
        -- rewrite skipn_all, Nat.sub_diag in H. cbn [app skipn] in H.
           discriminate.
        -- replace (i - length run) with 0 in H by lia.
           cbn [skipn] in H.
           destruct (skipn i run) as [|a u] eqn:Es.
           ++ apply (f_equal (@length ascii)) in Es.
              rewrite length_skipn in Es. cbn [length] in Es. lia.
           ++ assert (Ha : In a run).
              { rewrite <- (firstn_skipn i run). apply in_or_app. right.
                rewrite Es. now left. }
              rewrite forallb_forall in Hrun. apply Hrun in Ha.
              cbn [app] in H. unfold braced in H. cbn [startsWith] in H.
              apply andb_true_iff in H as [H _]. apply chEq_eq in H.
              subst a. discriminate.
    + destruct i as [|i]; [lia|]. cbn [skipn] in H.
      apply (IH k i); [lia|exact H].
Qed.

Section ReplaceKeeps.
Variables (W : jsString) (alts : list jsString) (repl : jsString) (r0 : ascii).
Variable (w0 : ascii).
Hypothesis Hdollar : ~ In "$"%char repl.
Hypothesis Hrepl : hd_error repl = Some r0.
Hypothesis HW : hd_error W = Some w0.
Hypothesis Hr0 : ~ In r0 W.
Hypothesis Hw0 : ~ In w0 repl.

Lemma replaceLoop_window : forall U s whole pos,
  ~ In r0 U -> U <> [] ->
  startsWith U (replaceLoop alts false repl whole pos 0 s) = true ->
  startsWith U s = true /\ matchAlt alts false s = None.
Proof.
  induction U as [|u U IH]; intros s whole pos Hu Hne H; [now destruct Hne|].
  destruct s as [|c t]; [discriminate|].
  rewrite replaceLoop_cons in H.
  destruct (matchAlt alts false (c :: t)) as [m|] eqn:Em.
  - exfalso. rewrite expandReplacement_plain in H by exact Hdollar.
    destruct repl as [|r repl']; [discriminate|].
    cbn [hd_error] in Hrepl. injection Hrepl as ->.
    cbn [app startsWith] in H. apply andb_true_iff in H as [H _].
    apply chEq_eq in H. subst u. apply Hu. now left.
  - split; [|reflexivity].
    cbn [startsWith] in H |- *. apply andb_true_iff in H as [H1 H2].
    rewrite H1. destruct U as [|u' U']; [reflexivity|].
    apply (IH t whole (S pos)); [|discriminate|exact H2].
    intros Hin. apply Hu. now right.
Qed.

Lemma strIncludes_after_repl : forall a b,
  ~ In w0 a -> strIncludes W (a ++ b) = strIncludes W b.
Proof.
  induction a as [|c a IH]; intros b Ha; [reflexivity|].
  cbn [app strIncludes]. destruct W as [|x W']; [discriminate|].
  cbn [hd_error] in HW. injection HW as ->.
  cbn [startsWith]. rewrite chEq_false by (intros ->; apply Ha; now left).
  cbn [andb orb]. apply IH. intros H. apply Ha. now right.
Qed.

(** A window that [replace] leaves in the text stood in the text before,
    at a place where no alternative matched. *)
Lemma replaceLoop_keeps : forall s whole pos k,
  strIncludes W (replaceLoop alts false repl whole pos k s) = true ->
  exists i, startsWith W (skipn i s) = true /\
            matchAlt alts false (skipn i s) = None.
Proof.
  assert (HWne : W <> []) by (intros E; rewrite E in HW; discriminate).
  induction s as [|c t IH]; intros whole pos k H.
  - cbn [replaceLoop strIncludes] in H. rewrite orb_false_r in H.
    destruct W; [now destruct HWne|discriminate].
  - destruct k as [|k].
    + rewrite replaceLoop_cons in H.
      destruct (matchAlt alts false (c :: t)) as [m|] eqn:Em.
      * rewrite expandReplacement_plain in H by exact Hdollar.
        rewrite strIncludes_after_repl in H by exact Hw0.
        destruct (IH _ _ _ H) as (i & H1 & H2). now exists (S i).
      * cbn [strIncludes] in H. apply orb_true_iff in H as [H|H].
        -- exists 0. cbn [skipn].
           apply (replaceLoop_window W (c :: t) whole pos Hr0 HWne).
           now rewrite replaceLoop_cons, Em.
        -- destruct (IH _ _ _ H) as (i & H1 & H2). now exists (S i).
    + cbn [replaceLoop] in H.
      destruct (IH _ _ _ H) as (i & H1 & H2). now exists (S i).
Qed.
End ReplaceKeeps.

(** One step of the loop over the path parameters: no [{param}] is left,
    and no [{name}] stands in the text that did not stand in it before. *)
Lemma brace_step (param w : jsString) (sql : jsString) :
  isName param -> isName w ->
  strIncludes (braced w)
    (replaceAll [braced param] false (":"%char :: param) sql) = true ->
  w <> param /\ strIncludes (braced w) sql = true.
Proof.
  intros [Hp1 Hp2] [Hw1 Hw2] H.
  assert (Hcolon : forall n, forallb isWordChar n = true -> ~ In ":"%char n).
  { intros n Hn Hin. rewrite forallb_forall in Hn. now apply Hn in Hin. }
  destruct (replaceLoop_keeps (braced w) [braced param] (":"%char :: param)
              ":"%char "{"%char) with (s := sql) (whole := sql) (pos := 0) (k := 0)
    as (i & H1 & H2).
  - intros [E|Hin]; [discriminate|]. now apply (name_no_dollar param).
  - reflexivity.
  - reflexivity.
  - unfold braced. intros [E|Hin]; [discriminate|].
    apply in_app_or in Hin as [Hin|[E|[]]]; [|discriminate].
    now apply (Hcolon w).
  - intros [E|Hin]; [discriminate|]. now apply (word_no_brace param).
  - exact H.
  - split; [|now apply (strIncludes_skipn _ i)].
    intros ->. cbn [matchAlt negb orb] in H2. rewrite andb_true_r, H1 in H2.
    discriminate.
Qed.

Lemma validateQueryPathParams_sql lib pathConfigs bindSource :
  forall names st out,
  validateQueryPathParams lib pathConfigs bindSource names st = Ok out ->
  snd out = fold_left
              (fun sql param =>
                 replaceAll [braced param] false (":"%char :: param) sql)
              names (snd st).
Proof.
  induction names as [|param rest IH]; intros st out H.
  - cbn [validateQueryPathParams] in H. now injection H as <-.
  - cbn [validateQueryPathParams] in H. cbv zeta in H.
    destruct (convertAndValidateValue lib (lit "path") (getProp bindSource param)
                param (findConfig pathConfigs param)) as [v|e];
      cbn [bind] in H; [|discriminate].
    now rewrite (IH _ _ H).
Qed.

Lemma brace_fold (w : jsString) (Hw : isName w) : forall names sql,
  Forall isName names ->
  (strIncludes (braced w) sql = true -> In w names) ->
  strIncludes (braced w)
    (fold_left (fun sql param =>
                  replaceAll [braced param] false (":"%char :: param) sql)
               names sql) = false.
Proof.
  induction names as [|param rest IH]; intros sql Hn Hin; cbn [fold_left].
  - destruct (strIncludes (braced w) sql); [now destruct Hin|reflexivity].
  - inversion Hn as [|? ? Hp Hrest]; subst.
    apply IH; [exact Hrest|]. intros H.
    destruct (brace_step param w sql Hp Hw H) as [Hne Hsql].
    destruct (Hin Hsql) as [E|Hr]; [now destruct Hne|exact Hr].
Qed.

Lemma scanBraces_name : forall s skip n,
  In n (scanBraces skip s) -> isName n.
Proof.
  induction s as [|c t IH]; intros skip n H; [destruct H|].
  cbn [scanBraces] in H. destruct skip as [|k]; [|now apply (IH k)].
  destruct (chEq c "{" && negb (isEmpty (wordRun t))
            && match nth_error t (length (wordRun t)) with
               | Some d => chEq d "}"
               | None => false
               end) eqn:E; [|now apply (IH 0)].
  destruct H as [<-|H]; [|now apply (IH _ _ H)].
  apply andb_true_iff in E as [E _]. apply andb_true_iff in E as [_ E].
  split; [|apply wordRun_word].
  intros E0. rewrite E0 in E. discriminate.
Qed.

(** X22. When the preparation of the query succeeds, the statement text
    that it returns holds no [{name}] any more, for any name made of word
    characters: every placeholder of that form has been rewritten (to
    [:name]). This is the text before the outputs of a procedure are put
    into it. When no procedure ran before the query, MySQL executes this
    very text. *)
Theorem prepareQuery_no_placeholder (lib : Libraries) (endpoint : Endpoint)
    (queryBindSource validated : JsObject) (sql w : jsString)
    (Hok : prepareQuery lib endpoint queryBindSource = Ok (validated, sql))
    (Hw : isName w) :
  strIncludes (braced w) sql = false /\
  forall isGet isQueryOnly,
    runQuery MySQL endpoint isGet isQueryOnly None validated sql
    = (call GetConnection ;;;
       tryFinally
         (r <~ call (Execute sql
                       (Named (mysqlQueryParams endpoint validated sql))
                       noOptions) ;;
          ret {| rows := rows r; outBinds := None |})
         releaseConnection).
Proof.
  split; [|reflexivity].
  unfold prepareQuery in Hok. cbv zeta in Hok.
  set (details := extractParamDetails (textOf (sqlQuery endpoint))) in *.
  destruct (validateQueryPathParams lib (epPathParams endpoint) queryBindSource
              (pathParams details) ([], textOf (sqlQuery endpoint)))
    as [st1|e] eqn:E1; cbn [bind] in Hok; [|discriminate].
  destruct (validateQueryParams (fun v => v) lib (epQueryParams endpoint)
              queryBindSource (queryParams details) (fst st1))
    as [validated'|e] eqn:E2; cbn [bind] in Hok; [|discriminate].
  injection Hok as _ <-.
  rewrite (validateQueryPathParams_sql _ _ _ _ _ _ E1). cbn [snd].
  apply brace_fold; [exact Hw| |].
  - apply Forall_forall. intros n Hn. apply extract_path_In in Hn.
    exact (scanBraces_name _ 0 n Hn).
  - intros H. apply extract_path_In. apply strIncludes_at in H as [i Hi].
    apply (scanBraces_occurrence w Hw _ 0 i); [lia|exact Hi].
Qed.

Lemma prepareQuery_no_placeholder_witness :
  strIncludes (braced (lit "id")) (lit "SELECT * FROM orders WHERE id = :id")
  = false.
Proof.
  refine (proj1 (prepareQuery_no_placeholder permissiveLibraries
                   orderByIdEndpoint
                   [(lit "id", VStr (lit "7"))] [(lit "id", VStr (lit "7"))]
                   (lit "SELECT * FROM orders WHERE id = :id") (lit "id")
                   _ _)).
  - reflexivity.
  - split; [discriminate|reflexivity].
Defined.

(* ------------------------------------------------------------------ *)
(** ** The outputs of the procedure in the query *)

Lemma isWord_name n : isWord n = true -> isName n.
Proof.
  unfold isWord. intros H. apply andb_true_iff in H as [H1 H2].
  split; [|exact H2]. intros ->. discriminate.
Qed.

Lemma replaceLoop_plain_prefix c0 p wb repl whole u :
  ~ In "$"%char repl -> ~ In c0 u -> forall rest pos,
  replaceLoop [c0 :: p] wb repl whole pos 0 (u ++ rest)
  = u ++ replaceLoop [c0 :: p] wb repl whole pos 0 rest.
Proof.
  intros Hr. induction u as [|c u IH]; intros Hu rest pos; [reflexivity|].
  cbn [app]. rewrite replaceLoop_cons, matchAlt_miss
    by (intros ->; apply Hu; now left).
  f_equal. rewrite IH by (intros H; apply Hu; now right).
  f_equal. now apply replaceLoop_pos.
Qed.

Lemma startsWith_word_prefix k : forall n rest,
  forallb isWordChar k = true ->
  isWordOpt (hd_error rest) = false ->
  startsWith k (n ++ rest) = true ->
  exists r, n = k ++ r.
Proof.
  induction k as [|a k IH]; intros n rest Hk Hrest H; [now exists n|].
  cbn [forallb] in Hk. apply andb_true_iff in Hk as [Ha Hk].
  destruct n as [|c n].
  - cbn [app] in H. destruct rest as [|c rest]; [discriminate|].
    cbn [startsWith] in H. apply andb_true_iff in H as [H _].
    apply chEq_eq in H. subst c. cbn [hd_error isWordOpt] in Hrest. congruence.
  - cbn [app startsWith] in H. apply andb_true_iff in H as [H1 H2].
    apply chEq_eq in H1. subst c.
    destruct (IH n rest Hk Hrest H2) as [r ->]. now exists r.
Qed.

(** [@k] with a word boundary does not match at [@n] for another name. *)
Lemma matchAlt_other_name k n rest :
  isName k -> isName n -> n <> k ->
  isWordOpt (hd_error rest) = false ->
  matchAlt ["@"%char :: k] true ("@"%char :: n ++ rest) = None.
Proof.
  intros Hk [Hn1 Hn2] Hne Hrest. cbn [matchAlt negb orb].
  cbn [startsWith]. rewrite chEq_refl. cbn [andb].
  destruct (startsWith k (n ++ rest)) eqn:Es; [|reflexivity].
  destruct (startsWith_word_prefix k n rest (proj2 Hk) Hrest Es) as [r ->].
  destruct r as [|c r]; [now rewrite app_nil_r in Hne|].
  rewrite <- app_assoc.
  change (skipn (length ("@"%char :: k)) ("@"%char :: k ++ (c :: r) ++ rest))
    with (skipn (length k) (k ++ (c :: r) ++ rest)).
  rewrite skipn_length_app. unfold boundaryAfter.
  rewrite (last_word k "@"%char Hk). cbn [app hd_error isWordOpt].
  rewrite forallb_app in Hn2. apply andb_true_iff in Hn2 as [_ Hn2].
  cbn [forallb] in Hn2. apply andb_true_iff in Hn2 as [Hc _].
  now rewrite Hc.
Qed.

Lemma sqlOf_head_after_ref n rest :
  substitutable (OutputRef n :: rest) = true ->
  isWordOpt (hd_error (sqlOf rest)) = false.
Proof.
  cbn [substitutable]. intros H. apply andb_true_iff in H as [H _].
  apply andb_true_iff in H as [_ H].
  destruct rest as [|[[|c t]|m] rest]; try discriminate; [reflexivity|].
  cbn [sqlOf flat_map pieceText app hd_error isWordOpt].
  now apply negb_true_iff.
Qed.

Lemma substitutable_fill outBinds : forall pieces,
  plainOutputs outBinds = true ->
  substitutable pieces = true ->
  substitutable (map (fillRef outBinds) pieces) = true.
Proof.
  intros pieces Hout.
  assert (Hval : forall n value, lookupProp outBinds n = Some value ->
            existsb (chEq "@") (renderOutput value) = false).
  { intros n value Hl. unfold plainOutputs in Hout.
    rewrite forallb_forall in Hout.
    assert (Hin : exists k, In (k, value) outBinds).
    { clear Hout. induction outBinds as [|[k0 v0] ob IH];
        cbn [lookupProp] in Hl; [discriminate|].
      destruct (strEq k0 n).
      - injection Hl as ->. exists k0. now left.
      - destruct (IH Hl) as [k Hk]. exists k. now right. }
    destruct Hin as [k Hin]. apply Hout in Hin. cbn [fst snd] in Hin.
    apply andb_true_iff in Hin as [_ Hin]. apply negb_true_iff in Hin.
    destruct (existsb (chEq "@") (renderOutput value)) eqn:E; [|reflexivity].
    apply existsb_exists in E as (c & Hc & Ec). apply chEq_eq in Ec. subst c.
    assert (Hx : existsb (fun c => chEq c "@" || chEq c "$")
                         (renderOutput value) = true).
    { apply existsb_exists. exists "@"%char. now split. }
    congruence. }
  induction pieces as [|p pieces IH]; intros H; [reflexivity|].
  destruct p as [t|n].
  - cbn [map fillRef substitutable] in H |- *.
    apply andb_true_iff in H as [H1 H2]. rewrite H1. now apply IH.
  - cbn [substitutable] in H. apply andb_true_iff in H as [H H3].
    apply andb_true_iff in H as [H1 H2]. specialize (IH H3).
    cbn [map fillRef].
    destruct (lookupProp outBinds n) as [value|] eqn:El.
    + cbn [substitutable]. rewrite (Hval n value El). exact IH.
    + cbn [substitutable]. rewrite H1, IH, andb_true_r. cbn [andb].
      destruct pieces as [|[[|c t]|m] rest]; try discriminate H2;
        [reflexivity|exact H2].
Qed.

Lemma sqlOf_fill outBinds pieces :
  sqlOf (map (fillRef outBinds) pieces) = flat_map (fillPiece outBinds) pieces.
Proof.
  unfold sqlOf. induction pieces as [|p pieces IH]; [reflexivity|].
  cbn [map flat_map]. rewrite IH. f_equal.
  destruct p as [t|n]; [reflexivity|]. cbn [fillRef fillPiece].
  now destruct (lookupProp outBinds n).
Qed.

(** One round of the loop over the outputs. *)
Lemma substitute_round key value : forall pieces whole pos,
  isWord key = true ->
  ~ In "$"%char (renderOutput value) ->
  substitutable pieces = true ->
  replaceLoop ["@"%char :: key] true (renderOutput value) whole pos 0
              (sqlOf pieces)
  = sqlOf (map (fillRef [(key, value)]) pieces).
Proof.
  intros pieces whole pos Hkey Hdollar.
  apply isWord_name in Hkey. revert whole pos.
  induction pieces as [|p pieces IH]; intros whole pos H; [reflexivity|].
  destruct p as [t|n].
  - cbn [substitutable] in H. apply andb_true_iff in H as [H1 H2].
    cbn [map fillRef]. unfold sqlOf in *. cbn [flat_map pieceText].
    rewrite replaceLoop_plain_prefix; [now rewrite IH|exact Hdollar|].
    intros Hin. apply negb_true_iff in H1.
    assert (E : existsb (chEq "@") t = true).
    { apply existsb_exists. exists "@"%char. split; [exact Hin|apply chEq_refl]. }
    congruence.
  - pose proof (sqlOf_head_after_ref n pieces H) as Hhead.
    cbn [substitutable] in H. apply andb_true_iff in H as [H H3].
    apply andb_true_iff in H as [H1 _]. apply isWord_name in H1.
    cbn [map fillRef lookupProp]. unfold sqlOf in *.
    cbn [flat_map pieceText app].
    destruct (strEq key n) eqn:E.
    + apply strEq_eq in E. subst n. cbn [flat_map pieceText].
      rewrite replaceLoop_cons.
      change ("@"%char :: key ++ flat_map pieceText pieces)
        with (("@"%char :: key) ++ flat_map pieceText pieces).
      rewrite matchAlt_hit by (intros _; now apply boundary_after_name).
      rewrite expandReplacement_plain by exact Hdollar.
      change (length ("@"%char :: key) - 1) with (length key - 0).
      rewrite Nat.sub_0_r, replaceLoop_skip.
      f_equal. now apply IH.
    + cbn [flat_map pieceText app].
      rewrite replaceLoop_cons, matchAlt_other_name; try assumption.
      * f_equal. rewrite replaceLoop_plain_prefix; [now rewrite IH|exact Hdollar|].
        apply word_excludes; [reflexivity|exact (proj2 H1)].
      * apply strEq_neq in E. congruence.
Qed.

Lemma fill_after_round key value rest pieces :
  flat_map (fillPiece rest) (map (fillRef [(key, value)]) pieces)
  = flat_map (fillPiece ((key, value) :: rest)) pieces.
Proof.
  induction pieces as [|p pieces IH]; [reflexivity|].
  cbn [map flat_map]. rewrite IH. f_equal.
  destruct p as [t|n]; [reflexivity|]. cbn [fillRef fillPiece lookupProp].
  now destruct (strEq key n).
Qed.

Lemma substituteOutBinds_fill : forall (outputs : JsObject) pieces,
  plainOutputs outputs = true ->
  substitutable pieces = true ->
  substituteOutBinds outputs (sqlOf pieces)
  = flat_map (fillPiece outputs) pieces.
Proof.
  induction outputs as [|[key value] rest IH]; intros pieces Hout Hsql.
  - unfold substituteOutBinds, sqlOf. cbn [fold_left].
    apply flat_map_ext. now intros [t|n].
  - unfold plainOutputs in Hout. cbn [forallb fst snd] in Hout.
    apply andb_true_iff in Hout as [Hkv Hrest].
    apply andb_true_iff in Hkv as [Hkey Hplain].
    apply negb_true_iff in Hplain.
    assert (Hc : forall c, (c = "@"%char \/ c = "$"%char) ->
                           ~ In c (renderOutput value)).
    { intros c Hc Hin.
      assert (E : existsb (fun c => chEq c "@" || chEq c "$")
                          (renderOutput value) = true).
      { apply existsb_exists. exists c. split; [exact Hin|].
        destruct Hc as [-> | ->]; [reflexivity|apply orb_true_r]. }
      congruence. }
    assert (Hone : plainOutputs [(key, value)] = true).
    { unfold plainOutputs. cbn [forallb fst snd].
      now rewrite Hkey, Hplain. }
    unfold substituteOutBinds. cbn [fold_left].
    fold (renderOutput value). fold (substituteOutBinds rest).
    unfold replaceAll.
    rewrite (substitute_round key value pieces _ 0 Hkey
               (Hc "$"%char (or_intror eq_refl)) Hsql).
    rewrite IH; [apply fill_after_round|exact Hrest|].
    now apply substitutable_fill.
Qed.

(** Once the outputs are in, a second round changes nothing. *)
Lemma substituteOutBinds_again outBinds pieces :
  plainOutputs outBinds = true ->
  substitutable pieces = true ->
  substituteOutBinds outBinds (flat_map (fillPiece outBinds) pieces)
  = flat_map (fillPiece outBinds) pieces.
Proof.
  intros Hout Hsql. rewrite <- sqlOf_fill at 1.
  rewrite substituteOutBinds_fill by
    (try assumption; now apply substitutable_fill).
  rewrite <- sqlOf_fill. unfold sqlOf.
  induction pieces as [|p pieces IH] in Hsql |- *; [reflexivity|].
  cbn [map flat_map]. rewrite IH.
  - f_equal. destruct p as [t|n]; [reflexivity|]. cbn [fillRef fillPiece].
    destruct (lookupProp outBinds n) eqn:E; cbn [fillRef pieceText];
      [reflexivity|]. now rewrite E.
  - destruct p as [t|n]; cbn [substitutable] in Hsql;
      apply andb_true_iff in Hsql as [_ Hsql]; exact Hsql.
Qed.

(** C2, as amended. Take a query made of plain text without [@] and of
    placeholders [@name], each a word followed by the end of the query or
    by a character that is no word character, and outputs of the procedure
    whose names are words and whose values print without [@] and [$].
    Then every placeholder that names an output is replaced by its value,
    text wrapped in single quotes and anything else as it prints, the
    other placeholders and the plain text staying as they are; and this
    text is the one that the query step works on: on MySQL the statement
    that it executes, on Oracle the statement that it hands to the
    preparation of the binds and then executes. So the text output ["42"]
    is put in as ['42'], quoted, and only the number 42 as [42]. *)
Theorem substituteOutBinds_placeholders (outputs : JsObject)
    (pieces : list SqlPiece)
    (Hsql : substitutable pieces = true)
    (Hout : plainOutputs outputs = true) :
  substituteOutBinds outputs (sqlOf pieces)
  = flat_map (fillPiece outputs) pieces /\
  (forall endpoint isGet isQueryOnly replyRows validatedQueryParams,
     runQuery MySQL endpoint isGet isQueryOnly
              (Some {| rows := replyRows; outBinds := Some outputs |})
              validatedQueryParams (sqlOf pieces)
     = (call GetConnection ;;;
        tryFinally
          (r <~ call (Execute (flat_map (fillPiece outputs) pieces)
                        (Named (mysqlQueryParams endpoint validatedQueryParams
                                  (flat_map (fillPiece outputs) pieces)))
                        noOptions) ;;
           ret {| rows := rows r; outBinds := None |})
          releaseConnection)) /\
  (forall endpoint isGet isQueryOnly replyRows validatedQueryParams,
     runQuery Oracle endpoint isGet isQueryOnly
              (Some {| rows := replyRows; outBinds := Some outputs |})
              validatedQueryParams (sqlOf pieces)
     = executeQuery Oracle
         (snd (oracleQueryBinds endpoint (Some outputs) validatedQueryParams
                 (flat_map (fillPiece outputs) pieces)))
         (Named (fst (oracleQueryBinds endpoint (Some outputs)
                        validatedQueryParams
                        (flat_map (fillPiece outputs) pieces))))
         {| outFormatObject := true;
            autoCommit := Some (negb isGet && isQueryOnly) |}).
Proof.
  pose proof (substituteOutBinds_fill outputs pieces Hout Hsql) as Hfill.
  split; [exact Hfill|]. split.
  - intros endpoint isGet isQueryOnly replyRows validatedQueryParams.
    unfold runQuery. cbn [outBinds]. cbv zeta. rewrite Hfill.
    destruct outputs as [|kv ob]; [reflexivity|].
    now rewrite (substituteOutBinds_again (kv :: ob) pieces Hout Hsql).
  - intros endpoint isGet isQueryOnly replyRows validatedQueryParams.
    unfold runQuery. cbn [outBinds]. cbv zeta. rewrite Hfill.
    now destruct (oracleQueryBinds endpoint (Some outputs) validatedQueryParams
                    (flat_map (fillPiece outputs) pieces)).
Qed.

Lemma substituteOutBinds_placeholders_witness :
  substituteOutBinds [(lit "newId", VStr (lit "42")); (lit "total", VNull)]
    (lit "SELECT * FROM ORDERS WHERE ID = @newId AND OWNER = @owner")
  = lit "SELECT * FROM ORDERS WHERE ID = '42' AND OWNER = @owner".
Proof.
  exact (proj1 (substituteOutBinds_placeholders
                  [(lit "newId", VStr (lit "42")); (lit "total", VNull)]
                  [SqlText (lit "SELECT * FROM ORDERS WHERE ID = ");
                   OutputRef (lit "newId");
                   SqlText (lit " AND OWNER = ");
                   OutputRef (lit "owner")]
                  eq_refl eq_refl)).
Defined.

(** The number 42 goes in bare and the text ["42"] in quotes; and the
    order of the outputs counts when a value prints text that a later
    output replaces, which the outputs of the property above never do. *)
Example substituteOutBinds_cases :
  substituteOutBinds [(lit "newId", VNum (decimalValue false 42 0))]
    (lit "SELECT * FROM ORDERS WHERE ID = @newId")
  = lit "SELECT * FROM ORDERS WHERE ID = 42"
  /\
  substituteOutBinds [(lit "newId", VStr (lit "42"))]
    (lit "SELECT * FROM ORDERS WHERE ID = @newId")
  = lit "SELECT * FROM ORDERS WHERE ID = '42'"
  /\
  substituteOutBinds [(lit "a", VStr (lit "@b")); (lit "b", VStr (lit "x"))]
    (lit "SELECT @a")
  = lit "SELECT ''x''".
Proof. repeat split; vm_compute; reflexivity. Qed.

(* ------------------------------------------------------------------ *)
(** ** The dollar bind in the prepared procedure *)

Lemma dollar_not_word c : chEq c "$" = true -> isWordChar c = false.
Proof. intro H. apply chEq_eq in H. now subst c. Qed.

Lemma dollarOccurrences_word name w s :
  forallb isWordChar w = true ->
  dollarOccurrences name (w ++ s) = dollarOccurrences name s.
Proof.
  induction w as [|c w IH]; intro H; [reflexivity|].
  cbn [forallb] in H. apply andb_true_iff in H as [Hc Hw].
  cbn [app dollarOccurrences].
  destruct (chEq c "$") eqn:E.
  - apply dollar_not_word in E. congruence.
  - cbn [andb]. now rewrite IH.
Qed.

Lemma dollar_match name c t :
  isName name ->
  matchAlt ["$"%char :: name] true (c :: t)
  = if chEq c "$" && startsWith name t
       && negb (isWordOpt (hd_error (skipn (length name) t)))
    then Some ("$"%char :: name) else None.
Proof.
  intro Hn. cbn [matchAlt startsWith length skipn negb orb].
  unfold boundaryAfter. rewrite (last_word name "$" Hn).
  destruct (chEq "$" c) eqn:E1.
  - apply chEq_eq in E1. subst c.
    replace (chEq "$" "$") with true by reflexivity. cbn [andb].
    destruct (startsWith name t); cbn [andb]; [|reflexivity].
    now destruct (isWordOpt (hd_error (skipn (length name) t))).
  - assert (E2 : chEq c "$" = false).
    { apply not_true_iff_false. intro E. apply chEq_eq in E. subst c.
      discriminate. }
    now rewrite E2.
Qed.

Lemma dollar_none name repl whole s :
  isName name -> forall pos,
  dollarOccurrences name s = 0 ->
  replaceLoop ["$"%char :: name] true repl whole pos 0 s = s.
Proof.
  intro Hn. induction s as [|c s IH]; intros pos H; [reflexivity|].
  rewrite replaceLoop_cons, dollar_match by assumption.
  cbn [dollarOccurrences] in H.
  destruct (chEq c "$" && startsWith name s
            && negb (isWordOpt (hd_error (skipn (length name) s))));
    [discriminate|].
  f_equal. apply IH. exact H.
Qed.

Lemma dollar_here name pre post :
  isWordOpt (hd_error post) = false ->
  1 <= dollarOccurrences name (pre ++ "$"%char :: name ++ post).
Proof.
  intro Hb. induction pre as [|c pre IH]; cbn [app dollarOccurrences]; [|lia].
  replace (chEq "$" "$") with true by reflexivity.
  rewrite startsWith_app, skipn_length_app, Hb. cbn. lia.
Qed.

Lemma dollar_once name repl whole pre post :
  isName name -> ~ In "$"%char repl ->
  isWordOpt (hd_error post) = false -> forall pos,
  dollarOccurrences name (pre ++ "$"%char :: name ++ post) = 1 ->
  replaceLoop ["$"%char :: name] true repl whole pos 0
    (pre ++ "$"%char :: name ++ post)
  = pre ++ repl ++ post.
Proof.
  intros Hn Hr Hb. induction pre as [|c pre IH]; intros pos H.
  - cbn [app] in *. rewrite replaceLoop_cons, dollar_match by assumption.
    cbn [dollarOccurrences] in H.
    replace (chEq "$" "$") with true in * by reflexivity.
    rewrite startsWith_app, skipn_length_app, Hb in *. cbn [andb negb] in *.
    rewrite expandReplacement_plain by assumption.
    change (length ("$"%char :: name) - 1) with (length name - 0).
    rewrite Nat.sub_0_r, replaceLoop_skip. f_equal.
    apply dollar_none; [assumption|].
    rewrite dollarOccurrences_word in H by apply Hn. lia.
  - cbn [app] in *. rewrite replaceLoop_cons, dollar_match by assumption.
    cbn [dollarOccurrences] in H.
    pose proof (dollar_here name pre post Hb) as Hge.
    destruct (chEq c "$" && startsWith name (pre ++ "$"%char :: name ++ post)
              && negb (isWordOpt
                         (hd_error
                            (skipn (length name)
                               (pre ++ "$"%char :: name ++ post)))));
      [lia|].
    f_equal. apply IH. exact H.
Qed.

Lemma startsWith_le p : forall s,
  startsWith p s = true -> length p <= length s.
Proof.
  induction p as [|a p IH]; intros [|c s] H; cbn [startsWith length] in *;
    try lia; try discriminate.
  apply andb_true_iff in H as [_ H]. apply IH in H. lia.
Qed.

Lemma startsWith_past p d : forall u R,
  ~ In d p -> startsWith p (u ++ d :: R) = startsWith p u.
Proof.
  induction p as [|a p IH]; intros u R Hd; [reflexivity|].
  destruct u as [|c u]; cbn [app startsWith].
  - apply andb_false_iff. left. apply not_true_iff_false. intro E.
    apply chEq_eq in E. subst. apply Hd. now left.
  - rewrite (IH u R) by (intro Hin; apply Hd; now right). reflexivity.
Qed.

(** A replacement without [\b] works on the two sides of [:w] apart, when
    the pattern has no colon and does not start with a word character. *)
Lemma replaceLoop_gap c0 p repl w b :
  ~ In "$"%char repl -> ~ In ":"%char (c0 :: p) ->
  isWordChar c0 = false -> forallb isWordChar w = true ->
  forall a whole pos k, k <= length a ->
  replaceLoop [c0 :: p] false repl whole pos k (a ++ ":"%char :: w ++ b)
  = replaceLoop [c0 :: p] false repl whole pos k a
    ++ ":"%char :: w ++ replaceLoop [c0 :: p] false repl whole 0 0 b.
Proof.
  intros Hr Hp Hc Hw. induction a as [|c a IH]; intros whole pos k Hk.
  - cbn [length] in Hk. assert (k = 0) by lia. subst k.
    assert (Hne : ":"%char <> c0) by (intros <-; apply Hp; now left).
    change (replaceLoop [c0 :: p] false repl whole pos 0 []) with (@nil ascii).
    cbn [app].
    rewrite replaceLoop_cons, matchAlt_miss by assumption. f_equal.
    rewrite (replaceLoop_plain_prefix c0 p false repl whole w Hr
               (word_excludes c0 w Hc Hw)).
    f_equal. now apply replaceLoop_pos.
  - cbn [app length] in *. destruct k as [|k].
    + rewrite !replaceLoop_cons.
      assert (Em : matchAlt [c0 :: p] false (c :: a ++ ":"%char :: w ++ b)
                   = matchAlt [c0 :: p] false (c :: a)).
      { unfold matchAlt. cbn [negb orb]. rewrite !andb_true_r.
        change (c :: a ++ ":"%char :: w ++ b)
          with ((c :: a) ++ ":"%char :: w ++ b).
        now rewrite startsWith_past. }
      rewrite Em. destruct (matchAlt [c0 :: p] false (c :: a)) as [m|] eqn:E.
      * rewrite !expandReplacement_plain by assumption.
        rewrite <- app_assoc. f_equal.
        unfold matchAlt in E. cbn [negb orb] in E. rewrite andb_true_r in E.
        destruct (startsWith (c0 :: p) (c :: a)) eqn:Es; [|discriminate].
        injection E as <-. apply startsWith_le in Es. cbn [length] in *.
        apply IH. lia.
      * cbn [app]. f_equal. apply IH. lia.
    + cbn [replaceLoop]. apply IH. lia.
Qed.

Lemma replaceAll_gap c0 p repl w a b :
  ~ In "$"%char repl -> ~ In ":"%char (c0 :: p) ->
  isWordChar c0 = false -> forallb isWordChar w = true ->
  replaceAll [c0 :: p] false repl (a ++ ":"%char :: w ++ b)
  = replaceAll [c0 :: p] false repl a
    ++ ":"%char :: w ++ replaceAll [c0 :: p] false repl b.
Proof.
  intros Hr Hp Hc Hw. unfold replaceAll.
  rewrite (replaceLoop_gap c0 p repl w b Hr Hp Hc Hw) by lia.
  f_equal; [now apply replaceLoop_pos|].
  f_equal. f_equal. now apply replaceLoop_pos.
Qed.

Lemma name_no_colon n : forallb isWordChar n = true -> ~ In ":"%char n.
Proof.
  intros H Hin. rewrite forallb_forall in H. specialize (H _ Hin). discriminate.
Qed.

Lemma namedPathParams_gap src w names : forall a b,
  Forall isName names -> forallb isWordChar w = true ->
  namedPathParams src names (a ++ ":"%char :: w ++ b)
  = namedPathParams src names a ++ ":"%char :: w ++ namedPathParams src names b.
Proof.
  induction names as [|n names IH]; intros a b Hn Hw; [reflexivity|].
  inversion Hn as [|? ? [_ Hx] Hrest]; subst.
  unfold namedPathParams in *. cbn [fold_left].
  destruct (negb (isUndefined (getProp src n))); [|now apply IH].
  rewrite replaceAll_gap; [now apply IH| | |reflexivity|assumption].
  - intros [E|Hin]; [discriminate|]. now apply (name_no_dollar n Hx).
  - intros [E|Hin]; [discriminate|].
    apply in_app_iff in Hin as [Hin|[E|[]]]; [|discriminate].
    now apply (name_no_colon n Hx).
Qed.

Lemma namedOutputParams_gap w names : forall a b,
  Forall isName names -> forallb isWordChar w = true ->
  namedOutputParams names (a ++ ":"%char :: w ++ b)
  = namedOutputParams names a ++ ":"%char :: w ++ namedOutputParams names b.
Proof.
  induction names as [|n names IH]; intros a b Hn Hw; [reflexivity|].
  inversion Hn as [|? ? [_ Hx] Hrest]; subst.
  unfold namedOutputParams in *. cbn [fold_left].
  rewrite replaceAll_gap; [now apply IH| | |reflexivity|assumption].
  - intros [E|Hin]; [discriminate|]. now apply (name_no_dollar n Hx).
  - intros [E|Hin]; [discriminate|]. now apply (name_no_colon n Hx).
Qed.

Lemma validateProcPathParams_text lib cfgs src names : forall st st',
  validateProcPathParams lib cfgs src names st = Ok st' ->
  snd st' = namedPathParams src names (snd st).
Proof.
  induction names as [|n names IH]; intros st st' H.
  - injection H as <-. reflexivity.
  - cbn [validateProcPathParams] in H. unfold namedPathParams. cbn [fold_left].
    fold (namedPathParams src names).
    destruct (negb (isUndefined (getProp src n))).
    + destruct (convertAndValidateValue lib (lit "path") (getProp src n) n
                  (findConfig cfgs n)) as [v|e]; cbn [bind] in H;
        [|discriminate].
      apply IH in H. exact H.
    + destruct (cfgIsRequired (findConfig cfgs n)); cbn [bind] in H;
        [discriminate|].
      now apply IH in H.
Qed.

Lemma bindOutputParams_text endpoint names : forall st,
  snd (bindOutputParams endpoint names st) = namedOutputParams names (snd st).
Proof.
  unfold bindOutputParams, namedOutputParams.
  induction names as [|n names IH]; intro st; [reflexivity|].
  cbn [fold_left]. now rewrite IH.
Qed.

Lemma extracted_path_names sql :
  Forall isName (pathParams (extractParamDetails sql)).
Proof.
  apply Forall_forall. intros n H. apply extract_path_In in H.
  now apply (scanBraces_name sql 0).
Qed.

Lemma extracted_output_names sql :
  Forall isName (outputParams (extractParamDetails sql)).
Proof.
  apply Forall_forall. intros n H. apply extract_output_In in H as [H _].
  now apply (scanSigil_name "@" sql 0).
Qed.

Lemma namedParams_gap dbType src original w a b :
  forallb isWordChar w = true ->
  namedParams dbType src original (a ++ ":"%char :: w ++ b)
  = namedParams dbType src original a
    ++ ":"%char :: w ++ namedParams dbType src original b.
Proof.
  intro Hw. unfold namedParams. cbv zeta.
  rewrite namedPathParams_gap by (try apply extracted_path_names; assumption).
  destruct dbType; [|reflexivity].
  now rewrite namedOutputParams_gap by (try apply extracted_output_names; assumption).
Qed.

Lemma prepareProcedure_text lib dbType endpoint src prepared :
  prepareProcedure lib dbType endpoint src = Ok prepared ->
  executionProcedureBody prepared
  = namedParams dbType src (procedureBodyOf (textOf (sqlProcedure endpoint)))
      (snd (bindDollarParam dbType src
              (procedureBodyOf (textOf (sqlProcedure endpoint))))).
Proof.
  intro Hprep. unfold prepareProcedure in Hprep.
  set (original := procedureBodyOf (textOf (sqlProcedure endpoint))) in *.
  destruct (validateProcPathParams lib (epPathParams endpoint) src
              (pathParams (extractParamDetails original))
              (bindDollarParam dbType src original)) as [st1|e] eqn:E1;
    cbn [bind] in Hprep; [|discriminate].
  destruct (validateQueryParams (fun v => BVal (CVal v)) lib
              (epQueryParams endpoint) src
              (queryParams (extractParamDetails original)) (fst st1))
    as [v2|e] eqn:E2; cbn [bind] in Hprep; [|discriminate].
  injection Hprep as <-. cbn [executionProcedureBody].
  apply validateProcPathParams_text in E1.
  unfold namedParams. cbv zeta. rewrite <- E1.
  destruct dbType; [|reflexivity].
  now rewrite bindOutputParams_text.
Qed.

(** C5, as amended. When the body of a procedure has a dollar bind
    [$name] and does not also write the name as [{name}], [:name] or
    [@name], the prepared procedure binds the name to the JSON text of the
    merged bind source with every single quote written twice (the JSON
    text itself when it has no single quote), as one text parameter; and
    when [$name] occurs once in the body, the body that the preparation
    hands to the execution has the named bind [:name] in its place,
    between what the later steps make of the text before it and of the
    text after it. On Oracle this body, between [BEGIN] and [END], is the
    statement that is executed, with the prepared binds as its named
    binds. *)
Theorem dollar_bind_prepared (lib : Libraries) (dbType : DbType)
    (endpoint : Endpoint) (src : JsObject) (prepared : PreparedProcedure)
    (name : jsString)
    (Hprep : prepareProcedure lib dbType endpoint src = Ok prepared)
    (Hdollar : extractDollarParam
                 (procedureBodyOf (textOf (sqlProcedure endpoint))) = Some name)
    (Hpath : ~ In name (pathParams (extractParamDetails
                 (procedureBodyOf (textOf (sqlProcedure endpoint))))))
    (Hquery : ~ In name (queryParams (extractParamDetails
                 (procedureBodyOf (textOf (sqlProcedure endpoint))))))
    (Hout : ~ In name (outputParams (extractParamDetails
                 (procedureBodyOf (textOf (sqlProcedure endpoint)))))) :
  lookupProp (validatedProcParams prepared) name
  = Some (dollarBind dbType (doubleQuotes (jsonStringify (VObj src))))
  /\ (~ In "'"%char (jsonStringify (VObj src)) ->
      lookupProp (validatedProcParams prepared) name
      = Some (dollarBind dbType (jsonStringify (VObj src))))
  /\ (forall pre post,
        procedureBodyOf (textOf (sqlProcedure endpoint))
        = pre ++ "$"%char :: name ++ post ->
        isWordOpt (hd_error post) = false ->
        dollarOccurrences name
          (procedureBodyOf (textOf (sqlProcedure endpoint))) = 1 ->
        executionProcedureBody prepared
        = namedParams dbType src
            (procedureBodyOf (textOf (sqlProcedure endpoint))) pre
          ++ ":"%char :: name
          ++ namedParams dbType src
               (procedureBodyOf (textOf (sqlProcedure endpoint))) post)
  /\ (forall options,
        executeProcedure Oracle (originalProcedureBody prepared)
          (executionProcedureBody prepared) (validatedProcParams prepared)
          options
        = (call GetConnection ;;;
           tryFinally
             (call (Execute
                      (lit "BEGIN " ++ executionProcedureBody prepared
                       ++ lit "; END;")
                      (Named (validatedProcParams prepared)) options))
             (call Release ;;; ret tt))).
Proof.
  pose proof (dollar_bind_lookup lib dbType endpoint src prepared name
                Hprep Hdollar Hpath Hquery Hout) as Hbind.
  set (original := procedureBodyOf (textOf (sqlProcedure endpoint))) in *.
  assert (Hname : isName name).
  { unfold extractDollarParam in Hdollar.
    destruct (scanSigil "$" 0 original) as [|n l] eqn:E; [discriminate|].
    injection Hdollar as ->.
    apply (scanSigil_name "$" original 0). rewrite E. now left. }
  split; [exact Hbind|]. split; [|split; [|reflexivity]].
  - intro Hq. rewrite Hbind. now rewrite doubleQuotes_none.
  - intros pre post Heq Hend Hone.
    rewrite (prepareProcedure_text lib dbType endpoint src prepared Hprep).
    fold original. unfold bindDollarParam. rewrite Hdollar. cbn [snd].
    assert (Hd : replaceAll ["$"%char :: name] true (":"%char :: name) original
                 = pre ++ ":"%char :: name ++ post).
    { unfold replaceAll. rewrite Heq in Hone |- * at 2.
      rewrite (dollar_once name (":"%char :: name) original pre post);
        try assumption; [reflexivity|].
      intros [E|Hin]; [discriminate|].
      now apply (name_no_dollar name (proj2 Hname)). }
    rewrite Hd. apply namedParams_gap. apply Hname.
Qed.

Lemma dollar_bind_prepared_witness :
  exists prepared,
    prepareProcedure permissiveLibraries Oracle noteByIdEndpoint
      (procBindSource [(lit "id", VStr (lit "7"))] noteRequest) = Ok prepared /\
    lookupProp (validatedProcParams prepared) (lit "payload")
    = Some (dollarBind Oracle
              (lit "{" ++ dquote :: lit "id" ++ dquote :: lit ":"
               ++ dquote :: lit "7" ++ dquote :: lit ","
               ++ dquote :: lit "note" ++ dquote :: lit ":"
               ++ dquote :: lit "it''s late" ++ dquote :: lit "}")) /\
    executionProcedureBody prepared
    = lit "save_note(:id, :payload, :status)".
Proof.
  eexists. split; [vm_compute; reflexivity|].
  match goal with
  | |- context [lookupProp (validatedProcParams ?p)] =>
      pose proof (dollar_bind_prepared permissiveLibraries Oracle
                    noteByIdEndpoint
                    (procBindSource [(lit "id", VStr (lit "7"))] noteRequest)
                    p (lit "payload") eq_refl eq_refl) as H
  end.
  assert (H1 : ~ In (lit "payload")
                 (pathParams (extractParamDetails
                    (procedureBodyOf (textOf (sqlProcedure noteByIdEndpoint))))))
    by (vm_compute; intuition discriminate).
  assert (H2 : ~ In (lit "payload")
                 (queryParams (extractParamDetails
                    (procedureBodyOf (textOf (sqlProcedure noteByIdEndpoint))))))
    by (vm_compute; intuition discriminate).
  assert (H3 : ~ In (lit "payload")
                 (outputParams (extractParamDetails
                    (procedureBodyOf (textOf (sqlProcedure noteByIdEndpoint))))))
    by (vm_compute; intuition discriminate).
  destruct (H H1 H2 H3) as (Hb & _ & Ht & _).
  split; [exact Hb|].
  exact (Ht (lit "save_note({id}, ") (lit ", @status)")
            eq_refl eq_refl eq_refl).
Defined.
